(** * Permafrost Engine navigation core: flow fields and LOS fields

    A shallow embedding of [src/navigation/field.c] and the properties
    of its flow-field and line-of-sight builders.

    Conventions of the embedding.
    - C [int] coordinates are [Z]; a two-dimensional array [a[r][c]] that
      the code only reads and writes at guarded indices is a total map
      [Z -> Z -> A] together with a pointwise update. Two writes whose
      index the code does not guard, the seed of [N_LOSFieldCreate] and
      the marks in [has_enemy], are the result [None] when they fall
      outside their array; the seeds of the flow-field updates are
      written to the total map, and the theorems on them take the seeds
      to lie in the field.
    - The [float] integration values that arise are [+INFINITY] or sums of
      [uint8_t] step costs, which binary32 represents exactly below [2^24];
      they are modelled by [fnum] (a non-negative integer or [PosInf]).
    - A failed [assert] is the result [None].
    - [while] loops over a queue take a fuel argument and return [None]
      when it runs out. *)

From Stdlib Require Import ZArith List Bool Lia Permutation Wellfounded.
Import ListNotations.

Local Open Scope Z_scope.

(** ** Constants and collaborators that live outside [field.c] *)

(** Modelled from the spec: [COST_IMPASSABLE] (declared in nav_private.h,
    which is not part of the sources at hand) is the cost sentinel 255. *)
Definition COST_IMPASSABLE : Z := 255.

(** [enum target_type] of field.h; the numbering of its members is part of
    [nav_params]. *)
Inductive target_type : Type :=
| TARGET_PORTAL
| TARGET_TILE
| TARGET_ENEMIES
| TARGET_PORTALMASK.

(** Compile-time constants of field.h / nav_private.h / game.h. *)
Class nav_params : Type := {
  FIELD_RES_R : Z;
  FIELD_RES_C : Z;
  MAX_FACTIONS : Z;
  FACTION_ID_NONE : Z;
  target_type_code : target_type -> Z
}.

(** ** Data model *)

Record coord : Type := Coord { coord_r : Z; coord_c : Z }.

Definition coord_eqb (a b : coord) : bool :=
  (coord_r a =? coord_r b) && (coord_c a =? coord_c b).

(** [enum flow_dir]; [FD_NONE] is the member with value 0. *)
Inductive flow_dir : Type :=
| FD_NONE | FD_NW | FD_N | FD_NE | FD_W | FD_E | FD_SW | FD_S | FD_SE.

(** [struct portal]. The [connected] pointer is only ever followed to read
    the chunk of the portal at the other end, which is the field kept. *)
Record portal : Type := Portal {
  port_chunk : coord;
  endpoints0 : coord;
  endpoints1 : coord;
  connected_chunk : coord
}.

(** [struct enemies_desc]; its floating-point [map_pos] is only passed on
    to the entity queries and is left out. *)
Record enemies_desc : Type := EnemiesDesc {
  enemies_faction_id : Z;
  enemies_chunk : coord
}.

(** [struct field_target]: a tag and a union. *)
Inductive field_target : Type :=
| Target_portal (port : portal)
| Target_tile (tile : coord)
| Target_enemies (enemies : enemies_desc)
| Target_portalmask (portalmask : Z).

Definition target_type_of (t : field_target) : target_type :=
  match t with
  | Target_portal _ => TARGET_PORTAL
  | Target_tile _ => TARGET_TILE
  | Target_enemies _ => TARGET_ENEMIES
  | Target_portalmask _ => TARGET_PORTALMASK
  end.

(** [struct nav_chunk]: the arrays read by field.c. *)
Record nav_chunk : Type := NavChunk {
  cost_base : Z -> Z -> Z;
  blockers : Z -> Z -> Z;
  factions : Z -> Z -> Z -> bool;
  num_portals : Z;
  portals : Z -> portal
}.

(** [struct nav_private]. *)
Record nav_private : Type := NavPrivate {
  width : Z;
  height : Z;
  chunks : Z -> Z -> nav_chunk
}.

(** [struct tile_desc]. *)
Record tile_desc : Type := TileDesc {
  chunk_r : Z; chunk_c : Z; tile_r : Z; tile_c : Z
}.

(** Float values of an integration field. *)
Inductive fnum : Type :=
| Finite (v : Z)
| PosInf.

Definition flt (a b : fnum) : bool :=
  match a, b with
  | Finite x, Finite y => x <? y
  | Finite _, PosInf => true
  | PosInf, _ => false
  end.

Definition feqb (a b : fnum) : bool :=
  match a, b with
  | Finite x, Finite y => x =? y
  | PosInf, PosInf => true
  | _, _ => false
  end.

Definition fadd (a : fnum) (k : Z) : fnum :=
  match a with
  | Finite x => Finite (x + k)
  | PosInf => PosInf
  end.

(** [#define MIN(a, b) ((a) < (b) ? (a) : (b))] *)
Definition MIN (a b : fnum) : fnum := if flt a b then a else b.

(** [#define IDX(r, width, c) ((r) * (width) + (c))] *)
Definition IDX (r w c : Z) : Z := r * w + c.

Definition int_field : Type := Z -> Z -> fnum.

Definition upd {A : Type} (f : Z -> Z -> A) (r c : Z) (v : A) : Z -> Z -> A :=
  fun r' c' => if (r' =? r) && (c' =? c) then v else f r' c'.

(** Row-major enumeration [for r in [0,nr) for c in [0,nc)]. *)
Definition zrange (lo : Z) (n : Z) : list Z :=
  map (fun i => lo + Z.of_nat i) (seq 0 (Z.to_nat n)).

Definition grid (nr nc : Z) : list coord :=
  flat_map (fun r => map (fun c => Coord r c) (zrange 0 nc)) (zrange 0 nr).

(** ** Passability (field.c, lines 90-121) *)

Definition field_tile_passable (chunk : nav_chunk) (tile : coord) : bool :=
  if cost_base chunk (coord_r tile) (coord_c tile) =? COST_IMPASSABLE then false
  else if blockers chunk (coord_r tile) (coord_c tile) >? 0 then false
  else true.

(** Collaborators of field.c outside the sources at hand: the diplomacy
    table ([G_GetEnemyFactions], [G_GetDiplomacyState]), the destination
    descriptor ([N_DestFactionID], [N_DestLayer]), the scheduler
    ([Sched_UsingBigStack]), the entity index and the entities behind the
    ENEMIES target, and the floating-point slope of a shadow line
    ([M_Tile_Bounds], [PFM_Vec2_Sub], [PFM_Vec2_Normal]).

    Of the entity queries the floating-point geometry is left to the
    collaborator: [G_Pos_EntsInRect] stands for the call on the bounds
    [field_chunk_bounds] computes, widened by [SEARCH_BUFFER];
    [G_Fog_ObjVisible] for the fog test of the entity's bounding box
    against the player-controlled factions; [ent_tiles] for the tiles
    under the entity ([M_Tile_AllUnderObj] for a building,
    [M_Tile_AllUnderCircle] otherwise). [G_GetDiplomacyState] is [None]
    when the call returns [false], and otherwise tells whether the state
    it stores is [DIPLOMACY_STATE_WAR]. *)
Record los_slope : Type := LosSlope {
  slope_x_milli : Z;   (* (int)(slope.raw[0] * 1000) *)
  slope_z_milli : Z;   (* (int)(slope.raw[1] * 1000) *)
  slope_x_pos : bool;  (* slope.raw[0] > 0.0f *)
  slope_z_neg : bool   (* slope.raw[1] < 0.0f *)
}.

Class nav_env : Type := {
  vec3_t : Type;
  entity : Type;
  G_GetEnemyFactions : Z -> Z;
  N_DestFactionID : Z -> Z;
  N_DestLayer : Z -> Z;
  Sched_UsingBigStack : bool;
  G_Pos_EntsInRect : enemies_desc -> list entity;
  G_GetFactionID : entity -> Z;
  ent_combatable : entity -> bool;  (* ent->flags & ENTITY_FLAG_COMBATABLE *)
  G_GetDiplomacyState : Z -> Z -> option bool;
  G_Fog_ObjVisible : entity -> bool;
  ent_tiles : enemies_desc -> nav_private -> entity -> list tile_desc;
  wavefront_slope : tile_desc -> tile_desc -> nav_private -> vec3_t -> los_slope
}.

(** ** The priority queue of lib/public/pqueue.h

    [PQUEUE_TYPE(coord, struct coord)] instantiates a min-queue keyed by a
    float priority. The header is not among the sources, so the queue is an
    interface: its operations and what they do to the multiset of queued
    entries. Which of several entries of least priority is popped first is
    left open. *)
Class PQueue : Type := {
  pq_coord_t : Type;
  pq_entries : pq_coord_t -> list (fnum * coord);
  pq_coord_init : pq_coord_t;
  pq_size : pq_coord_t -> Z;
  pq_coord_push : pq_coord_t -> fnum -> coord -> pq_coord_t;
  pq_coord_pop : pq_coord_t -> option (coord * pq_coord_t);
  pq_coord_contains : pq_coord_t -> (coord -> coord -> Z) -> coord -> bool;
  pq_init_entries : pq_entries pq_coord_init = [];
  pq_size_entries : forall q, pq_size q = Z.of_nat (length (pq_entries q));
  pq_push_entries : forall q p x,
    Permutation (pq_entries (pq_coord_push q p x)) ((p, x) :: pq_entries q);
  pq_pop_empty : forall q, pq_entries q = [] -> pq_coord_pop q = None;
  pq_pop_entries : forall q, pq_entries q <> [] ->
    exists p x q', pq_coord_pop q = Some (x, q')
      /\ Permutation (pq_entries q) ((p, x) :: pq_entries q')
      /\ forall e, In e (pq_entries q) -> flt (fst e) p = false;
  pq_contains_entries : forall q cmp x,
    pq_coord_contains q cmp x
    = existsb (fun e => cmp (snd e) x =? 0) (pq_entries q)
}.

Section WithParams.

Context {P : nav_params}.

(** The [for]/[break] scan over the factions: [enemies_only] stays true
    unless some faction on the tile is not in the [enemies] bitmask. *)
Fixpoint enemies_only_scan (chunk : nav_chunk) (tile : coord) (enemies : Z)
    (idxs : list Z) : bool :=
  match idxs with
  | [] => true
  | i :: idxs' =>
      if factions chunk i (coord_r tile) (coord_c tile)
         && (Z.land enemies (Z.shiftl 1 i) =? 0)
      then false
      else enemies_only_scan chunk tile enemies idxs'
  end.

Definition field_tile_passable_no_enemies (chunk : nav_chunk) (tile : coord)
    (enemies : Z) : bool :=
  if cost_base chunk (coord_r tile) (coord_c tile) =? COST_IMPASSABLE then false
  else
    let enemies_only :=
      enemies_only_scan chunk tile enemies (zrange 0 MAX_FACTIONS) in
    if enemies_only then true
    else if blockers chunk (coord_r tile) (coord_c tile) >? 0 then false
    else true.


Context {E : nav_env}.

(** The choice between the two passability tests made at every call site
    ([field_neighbours_grid], [field_neighbours_grid_los], the initial
    frontiers), with [enemies] computed as there. *)
Definition enemies_of (faction_id : Z) : Z :=
  if faction_id =? FACTION_ID_NONE then 0 else G_GetEnemyFactions faction_id.

Definition tile_passable_for (chunk : nav_chunk) (faction_id : Z)
    (tile : coord) : bool :=
  if faction_id =? FACTION_ID_NONE then field_tile_passable chunk tile
  else field_tile_passable_no_enemies chunk tile (enemies_of faction_id).

(** ** Neighbours (field.c, lines 83-223) *)

Definition field_compare_tiles (a b : coord) : Z :=
  if (coord_r b =? coord_r a) && (coord_c b =? coord_c a) then 0 else 1.

Definition deltas3 : list Z := [-1; 0; 1].

(** The [assert(ret < 9)] at the end cannot fail: the double loop runs nine
    times and skips the centre. *)
Definition field_neighbours_grid (chunk : nav_chunk) (crd : coord)
    (only_passable : bool) (faction_id : Z) : list (coord * Z) :=
  flat_map (fun r => flat_map (fun c =>
    let abs_r := coord_r crd + r in
    let abs_c := coord_c crd + c in
    if (abs_r <? 0) || (abs_r >=? FIELD_RES_R) then []
    else if (abs_c <? 0) || (abs_c >=? FIELD_RES_C) then []
    else if (r =? 0) && (c =? 0) then []
    else if (r =? c) || (r =? - c) then []
    else if only_passable
            && negb (tile_passable_for chunk faction_id (Coord abs_r abs_c))
    then []
    else [(Coord abs_r abs_c,
           if blockers chunk abs_r abs_c =? 0
           then cost_base chunk abs_r abs_c
           else COST_IMPASSABLE)]) deltas3) deltas3.

(** [struct LOS_field]. *)
Record los_tile : Type := LosTile { visible : bool; wavefront_blocked : bool }.

Record LOS_field : Type := LOSField {
  los_chunk : coord;
  los_field : Z -> Z -> los_tile
}.

Definition field_neighbours_grid_los (chunk : nav_chunk) (los : LOS_field)
    (faction_id : Z) (crd : coord) : list (coord * Z) :=
  flat_map (fun r => flat_map (fun c =>
    let abs_r := coord_r crd + r in
    let abs_c := coord_c crd + c in
    if (abs_r <? 0) || (abs_r >=? FIELD_RES_R) then []
    else if (abs_c <? 0) || (abs_c >=? FIELD_RES_C) then []
    else if (r =? 0) && (c =? 0) then []
    else if (r =? c) || (r =? - c) then []
    else if wavefront_blocked (los_field los abs_r abs_c) then []
    else [(Coord abs_r abs_c,
           if tile_passable_for chunk faction_id (Coord abs_r abs_c)
           then cost_base chunk abs_r abs_c
           else COST_IMPASSABLE)]) deltas3) deltas3.

(** ** Flow direction of one tile (field.c, lines 225-301) *)

(** One [if(cond) min_cost = MIN(min_cost, v);] statement. *)
Definition min_step (cond : bool) (v : fnum) (min_cost : fnum) : fnum :=
  if cond then MIN min_cost v else min_cost.

Definition flow_min_cost (intf : int_field) (crd : coord) : fnum :=
  let r := coord_r crd in
  let c := coord_c crd in
  let min_cost := PosInf in
  let min_cost := min_step (r >? 0) (intf (r-1) c) min_cost in
  let min_cost := min_step (r <? FIELD_RES_R - 1) (intf (r+1) c) min_cost in
  let min_cost := min_step (c >? 0) (intf r (c-1)) min_cost in
  let min_cost := min_step (c <? FIELD_RES_C - 1) (intf r (c+1)) min_cost in
  let min_cost :=
    min_step ((r >? 0) && (c >? 0)
              && flt (intf (r-1) c) PosInf && flt (intf r (c-1)) PosInf)
             (intf (r-1) (c-1)) min_cost in
  let min_cost :=
    min_step ((r >? 0) && (c <? FIELD_RES_C - 1)
              && flt (intf (r-1) c) PosInf && flt (intf r (c+1)) PosInf)
             (intf (r-1) (c+1)) min_cost in
  let min_cost :=
    min_step ((r <? FIELD_RES_R - 1) && (c >? 0)
              && flt (intf (r+1) c) PosInf && flt (intf r (c-1)) PosInf)
             (intf (r+1) (c-1)) min_cost in
  let min_cost :=
    min_step ((r <? FIELD_RES_R - 1) && (c <? FIELD_RES_C - 1)
              && flt (intf (r+1) c) PosInf && flt (intf r (c+1)) PosInf)
             (intf (r+1) (c+1)) min_cost in
  min_cost.

(** The second half of [field_flow_dir]: the chain of comparisons against
    [min_cost]. The last test compares the column with [FIELD_RES_R], as
    the source does. *)
Definition flow_pick_dir (intf : int_field) (crd : coord) (min_cost : fnum)
    : option flow_dir :=
  let r := coord_r crd in
  let c := coord_c crd in
  if (r >? 0) && feqb (intf (r-1) c) min_cost then Some FD_N
  else if (r <? FIELD_RES_R - 1) && feqb (intf (r+1) c) min_cost then Some FD_S
  else if (c <? FIELD_RES_C - 1) && feqb (intf r (c+1)) min_cost then Some FD_E
  else if (c >? 0) && feqb (intf r (c-1)) min_cost then Some FD_W
  else if (r >? 0) && (c >? 0) && feqb (intf (r-1) (c-1)) min_cost
  then Some FD_NW
  else if (r >? 0) && (c <? FIELD_RES_C - 1) && feqb (intf (r-1) (c+1)) min_cost
  then Some FD_NE
  else if (r <? FIELD_RES_R - 1) && (c >? 0) && feqb (intf (r+1) (c-1)) min_cost
  then Some FD_SW
  else if (r <? FIELD_RES_R - 1) && (c <? FIELD_RES_R - 1)
          && feqb (intf (r+1) (c+1)) min_cost
  then Some FD_SE
  else None.

Definition field_flow_dir (intf : int_field) (crd : coord) : option flow_dir :=
  let min_cost := flow_min_cost intf crd in
  if flt min_cost PosInf then flow_pick_dir intf crd min_cost
  else None.

(** The tile a direction points to, as [field_flow_dir] pairs them up. *)
Definition dir_offset (d : flow_dir) : Z * Z :=
  match d with
  | FD_NONE => (0, 0)
  | FD_N => (-1, 0)
  | FD_S => (1, 0)
  | FD_E => (0, 1)
  | FD_W => (0, -1)
  | FD_NW => (-1, -1)
  | FD_NE => (-1, 1)
  | FD_SW => (1, -1)
  | FD_SE => (1, 1)
  end.

Definition dir_neighbour (d : flow_dir) (t : coord) : coord :=
  Coord (coord_r t + fst (dir_offset d)) (coord_c t + snd (dir_offset d)).

Definition in_bounds (t : coord) : Prop :=
  0 <= coord_r t < FIELD_RES_R /\ 0 <= coord_c t < FIELD_RES_C.

Definition in_boundsb (t : coord) : bool :=
  (0 <=? coord_r t) && (coord_r t <? FIELD_RES_R)
  && (0 <=? coord_c t) && (coord_c t <? FIELD_RES_C).

(** ** Integration fields (field.c, lines 409-471) *)

Context {Q : PQueue}.

(** The body of the [for] loop over the neighbours of [curr]. *)
Definition integration_relax (curr : coord)
    (st : pq_coord_t * int_field) (nb : coord * Z) : pq_coord_t * int_field :=
  let '(frontier, inout) := st in
  let '(n, cost) := nb in
  let total_cost := fadd (inout (coord_r curr) (coord_c curr)) cost in
  if flt total_cost (inout (coord_r n) (coord_c n)) then
    let inout' := upd inout (coord_r n) (coord_c n) total_cost in
    if pq_coord_contains frontier field_compare_tiles n
    then (frontier, inout')
    else (pq_coord_push frontier total_cost n, inout')
  else st.

Fixpoint field_build_integration (fuel : nat) (frontier : pq_coord_t)
    (chunk : nav_chunk) (faction_id : Z) (inout : int_field)
    : option int_field :=
  match fuel with
  | O => None
  | S fuel' =>
      if pq_size frontier >? 0 then
        match pq_coord_pop frontier with
        | None => None
        | Some (curr, frontier1) =>
            let neighbours :=
              field_neighbours_grid chunk curr true faction_id in
            let '(frontier2, inout2) :=
              fold_left (integration_relax curr) neighbours (frontier1, inout) in
            field_build_integration fuel' frontier2 chunk faction_id inout2
        end
      else Some inout
  end.

Definition integration_relax_nonpass (chunk : nav_chunk) (curr : coord)
    (st : pq_coord_t * int_field) (nb : coord * Z) : pq_coord_t * int_field :=
  if field_tile_passable chunk (fst nb) then st
  else integration_relax curr st nb.

Fixpoint field_build_integration_nonpass (fuel : nat) (frontier : pq_coord_t)
    (chunk : nav_chunk) (faction_id : Z) (inout : int_field)
    : option int_field :=
  match fuel with
  | O => None
  | S fuel' =>
      if pq_size frontier >? 0 then
        match pq_coord_pop frontier with
        | None => None
        | Some (curr, frontier1) =>
            let neighbours :=
              field_neighbours_grid chunk curr false faction_id in
            let '(frontier2, inout2) :=
              fold_left (integration_relax_nonpass chunk curr) neighbours
                        (frontier1, inout) in
            field_build_integration_nonpass fuel' frontier2 chunk faction_id
                                            inout2
        end
      else Some inout
  end.

(** ** Flow fields (field.c, lines 473-524 and 874-892) *)

(** [struct flow_field]; [dir_idx] holds a member of [enum flow_dir]. *)
Record flow_field : Type := FlowField {
  ff_chunk : coord;
  ff_target : field_target;
  dir_idx : Z -> Z -> flow_dir
}.

Definition set_dirs (flow : flow_field) (d : Z -> Z -> flow_dir) : flow_field :=
  FlowField (ff_chunk flow) (ff_target flow) d.

Fixpoint build_flow_loop (intf : int_field) (tiles : list coord)
    (dirs : Z -> Z -> flow_dir) : option (Z -> Z -> flow_dir) :=
  match tiles with
  | [] => Some dirs
  | t :: tiles' =>
      let r := coord_r t in
      let c := coord_c t in
      if feqb (intf r c) PosInf then build_flow_loop intf tiles' dirs
      else if feqb (intf r c) (Finite 0)
      then build_flow_loop intf tiles' (upd dirs r c FD_NONE)
      else
        match field_flow_dir intf t with
        | None => None
        | Some d => build_flow_loop intf tiles' (upd dirs r c d)
        end
  end.

Definition field_build_flow (intf : int_field) (inout_flow : flow_field)
    : option flow_field :=
  match build_flow_loop intf (grid FIELD_RES_R FIELD_RES_C)
                        (dir_idx inout_flow) with
  | None => None
  | Some d => Some (set_dirs inout_flow d)
  end.

(** The direction [field_fixup_portal_edges] writes, or [None] when
    [assert(up ^ down ^ left ^ right)] fails. *)
Definition portal_edge_dir (port : portal) : option flow_dir :=
  let up := coord_r (connected_chunk port) <? coord_r (port_chunk port) in
  let down := coord_r (connected_chunk port) >? coord_r (port_chunk port) in
  let left := coord_c (connected_chunk port) <? coord_c (port_chunk port) in
  let right := coord_c (connected_chunk port) >? coord_c (port_chunk port) in
  if xorb (xorb (xorb up down) left) right then
    if up then Some FD_N
    else if down then Some FD_S
    else if left then Some FD_W
    else if right then Some FD_E
    else None
  else None.

Definition fixup_edges_loop (intf : int_field) (d : flow_dir)
    (tiles : list coord) (dirs : Z -> Z -> flow_dir) : Z -> Z -> flow_dir :=
  fold_left (fun dirs t =>
    if feqb (intf (coord_r t) (coord_c t)) (Finite 0)
    then upd dirs (coord_r t) (coord_c t) d
    else dirs) tiles dirs.

Definition field_fixup_portal_edges (intf : int_field) (inout_flow : flow_field)
    (port : portal) : option flow_field :=
  match portal_edge_dir port with
  | None => None
  | Some d =>
      Some (set_dirs inout_flow
              (fixup_edges_loop intf d (grid FIELD_RES_R FIELD_RES_C)
                                (dir_idx inout_flow)))
  end.

Fixpoint fixup_mask_loop (intf : int_field) (mask : Z) (chunk : nav_chunk)
    (idxs : list Z) (flow : flow_field) : option flow_field :=
  match idxs with
  | [] => Some flow
  | i :: idxs' =>
      if Z.land mask (Z.shiftl 1 i) =? 0
      then fixup_mask_loop intf mask chunk idxs' flow
      else
        match field_fixup_portal_edges intf flow (portals chunk i) with
        | None => None
        | Some flow' => fixup_mask_loop intf mask chunk idxs' flow'
        end
  end.

Definition field_fixup (target : field_target) (integration_field : int_field)
    (inout_flow : flow_field) (chunk : nav_chunk) : option flow_field :=
  match target with
  | Target_portal port =>
      field_fixup_portal_edges integration_field inout_flow port
  | Target_portalmask mask =>
      fixup_mask_loop integration_field mask chunk
                      (zrange 0 (num_portals chunk)) inout_flow
  | _ => Some inout_flow
  end.

(** ** Initial frontiers (field.c, lines 669-872) *)

Definition field_tile_initial_frontier (tile : coord) (chunk : nav_chunk)
    (ignoreblock : bool) (faction_id : Z) (maxout : Z) : list coord :=
  if maxout =? 0 then []
  else if ignoreblock then [tile]
  else if tile_passable_for chunk faction_id tile then [tile]
  else [].

(** The double loop over the rectangle of a portal, with its early return
    once [maxout] tiles were written and its assertion on every tile it
    reaches. [ignoreblock] is a parameter the source does not read. *)
Fixpoint portal_frontier_loop (chunk : nav_chunk) (faction_id : Z)
    (tiles : list coord) (maxout : Z) (out : list coord)
    : option (list coord) :=
  match tiles with
  | [] => Some out
  | t :: tiles' =>
      if cost_base chunk (coord_r t) (coord_c t) =? COST_IMPASSABLE then None
      else if tile_passable_for chunk faction_id t then
        let out' := out ++ [t] in
        if Z.of_nat (length out') =? maxout then Some out'
        else portal_frontier_loop chunk faction_id tiles' maxout out'
      else portal_frontier_loop chunk faction_id tiles' maxout out
  end.

Definition portal_tiles (port : portal) : list coord :=
  flat_map (fun r =>
    map (fun c => Coord r c)
        (zrange (coord_c (endpoints0 port))
                (coord_c (endpoints1 port) - coord_c (endpoints0 port) + 1)))
    (zrange (coord_r (endpoints0 port))
            (coord_r (endpoints1 port) - coord_r (endpoints0 port) + 1)).

Definition field_portal_initial_frontier (port : portal) (chunk : nav_chunk)
    (ignoreblock : bool) (faction_id : Z) (maxout : Z) : option (list coord) :=
  if maxout =? 0 then Some []
  else portal_frontier_loop chunk faction_id (portal_tiles port) maxout [].

Fixpoint enemies_frontier_loop (grid_has_enemy : Z -> Z -> bool)
    (tiles : list coord) (maxout : Z) (out : list coord) : list coord :=
  match tiles with
  | [] => out
  | t :: tiles' =>
      if grid_has_enemy (coord_r t) (coord_c t) then
        let out' := out ++ [t] in
        if Z.of_nat (length out') =? maxout then out'
        else enemies_frontier_loop grid_has_enemy tiles' maxout out'
      else enemies_frontier_loop grid_has_enemy tiles' maxout out
  end.

(** [field_enemy_ent] (field.c, lines 541-563), with its assertion on the
    result of [G_GetDiplomacyState]. *)
Definition field_enemy_ent (faction_id : Z) (ent : entity) : option bool :=
  if G_GetFactionID ent =? faction_id then Some false
  else if negb (ent_combatable ent) then Some false
  else
    match G_GetDiplomacyState faction_id (G_GetFactionID ent) with
    | None => None
    | Some at_war =>
        if negb at_war then Some false
        else if negb (G_Fog_ObjVisible ent) then Some false
        else Some true
    end.

(** The loop over the tiles under one enemy: tiles of other chunks are
    skipped, the others are marked in [has_enemy]. *)
Definition enemies_mark_tile (enemies : enemies_desc)
    (st : option (Z -> Z -> bool)) (curr_td : tile_desc)
    : option (Z -> Z -> bool) :=
  match st with
  | None => None
  | Some grid_has_enemy =>
      if negb (chunk_r curr_td =? coord_r (enemies_chunk enemies))
         || negb (chunk_c curr_td =? coord_c (enemies_chunk enemies))
      then Some grid_has_enemy
      else if in_boundsb (Coord (tile_r curr_td) (tile_c curr_td))
      then Some (upd grid_has_enemy (tile_r curr_td) (tile_c curr_td) true)
      else None
  end.

(** The body of the loop over the entities found. *)
Definition enemies_mark_ent (enemies : enemies_desc) (priv : nav_private)
    (st : option (Z -> Z -> bool)) (curr_enemy : entity)
    : option (Z -> Z -> bool) :=
  match st with
  | None => None
  | Some grid_has_enemy =>
      match field_enemy_ent (enemies_faction_id enemies) curr_enemy with
      | None => None
      | Some false => Some grid_has_enemy
      | Some true =>
          fold_left (enemies_mark_tile enemies)
                    (ent_tiles enemies priv curr_enemy) (Some grid_has_enemy)
      end
  end.

(** The [has_enemy] array after the loop over the entities. *)
Definition enemies_grid (enemies : enemies_desc) (priv : nav_private)
    : option (Z -> Z -> bool) :=
  fold_left (enemies_mark_ent enemies priv) (G_Pos_EntsInRect enemies)
            (Some (fun _ _ => false)).

(** [chunk] is a parameter the source does not read. *)
Definition field_enemies_initial_frontier (enemies : enemies_desc)
    (chunk : nav_chunk) (priv : nav_private) (maxout : Z)
    : option (list coord) :=
  if negb Sched_UsingBigStack then None
  else
    let num_ents := Z.of_nat (length (G_Pos_EntsInRect enemies)) in
    if num_ents =? 0 then None
    else
      match enemies_grid enemies priv with
      | None => None
      | Some grid_has_enemy =>
          Some (enemies_frontier_loop grid_has_enemy
                  (grid FIELD_RES_R FIELD_RES_C) maxout [])
      end.

Fixpoint portalmask_frontier_loop (mask : Z) (chunk : nav_chunk)
    (ignoreblock : bool) (faction_id : Z) (idxs : list Z) (maxout : Z)
    (out : list coord) : option (list coord) :=
  match idxs with
  | [] => Some out
  | i :: idxs' =>
      if Z.land mask (Z.shiftl 1 i) =? 0
      then portalmask_frontier_loop mask chunk ignoreblock faction_id idxs'
                                    maxout out
      else
        match field_portal_initial_frontier (portals chunk i) chunk
                ignoreblock faction_id maxout with
        | None => None
        | Some added =>
            portalmask_frontier_loop mask chunk ignoreblock faction_id idxs'
              (maxout - Z.of_nat (length added)) (out ++ added)
        end
  end.

Definition field_portalmask_initial_frontier (mask : Z) (chunk : nav_chunk)
    (ignoreblock : bool) (faction_id : Z) (maxout : Z) : option (list coord) :=
  portalmask_frontier_loop mask chunk ignoreblock faction_id
                           (zrange 0 (num_portals chunk)) maxout [].

Definition field_initial_frontier (target : field_target) (chunk : nav_chunk)
    (priv : nav_private) (ignoreblock : bool) (faction_id : Z) (maxout : Z)
    : option (list coord) :=
  match target with
  | Target_portal port =>
      field_portal_initial_frontier port chunk ignoreblock faction_id maxout
  | Target_tile tile =>
      Some (field_tile_initial_frontier tile chunk ignoreblock faction_id
                                        maxout)
  | Target_enemies enemies =>
      field_enemies_initial_frontier enemies chunk priv maxout
  | Target_portalmask mask =>
      field_portalmask_initial_frontier mask chunk ignoreblock faction_id
                                        maxout
  end.

(** ** Flow-field identity and update (field.c, lines 957-1041) *)

(** [(uint64_t)x] and a left shift of a [uint64_t]. *)
Definition u64 (x : Z) : Z := x mod 2 ^ 64.

Definition shl64 (x k : Z) : Z := (Z.shiftl (u64 x) k) mod 2 ^ 64.

Definition N_FlowField_ID (chunk : coord) (target : field_target) (layer : Z)
    : option Z :=
  match target with
  | Target_portal port =>
      Some (Z.lor (Z.lor (Z.lor (Z.lor (Z.lor (Z.lor (Z.lor
              (shl64 layer 60)
              (shl64 (target_type_code (target_type_of target)) 56))
              (shl64 (coord_r (endpoints0 port)) 40))
              (shl64 (coord_c (endpoints0 port)) 32))
              (shl64 (coord_r (endpoints1 port)) 24))
              (shl64 (coord_c (endpoints1 port)) 16))
              (shl64 (coord_r chunk) 8))
              (shl64 (coord_c chunk) 0))
  | Target_tile tile =>
      Some (Z.lor (Z.lor (Z.lor (Z.lor (Z.lor
              (shl64 layer 60)
              (shl64 (target_type_code (target_type_of target)) 56))
              (shl64 (coord_r tile) 24))
              (shl64 (coord_c tile) 16))
              (shl64 (coord_r chunk) 8))
              (shl64 (coord_c chunk) 0))
  | Target_enemies enemies =>
      Some (Z.lor (Z.lor (Z.lor (Z.lor
              (shl64 layer 60)
              (shl64 (target_type_code (target_type_of target)) 56))
              (shl64 (enemies_faction_id enemies) 24))
              (shl64 (coord_r chunk) 8))
              (shl64 (coord_c chunk) 0))
  | Target_portalmask _ => None
  end.

Definition N_FlowField_Layer (id : Z) : Z := Z.shiftr id 60.

Definition N_FlowFieldInit (chunk_coord : coord) (out : flow_field)
    : flow_field :=
  FlowField chunk_coord (ff_target out)
    (fold_left (fun dirs t => upd dirs (coord_r t) (coord_c t) FD_NONE)
               (grid FIELD_RES_R FIELD_RES_C) (dir_idx out)).

Definition all_infinite : int_field := fun _ _ => PosInf.

(** Pushing the initial frontier at priority 0. *)
Definition seed_frontier (init_frontier : list coord)
    (st : pq_coord_t * int_field) : pq_coord_t * int_field :=
  fold_left (fun st curr =>
    (pq_coord_push (fst st) (Finite 0) curr,
     upd (snd st) (coord_r curr) (coord_c curr) (Finite 0)))
    init_frontier st.

(** [N_FlowFieldUpdate], returning next to the flow field the integration
    field it held in its local array. *)
Definition N_FlowFieldUpdate_run (fuel : nat) (chunk_coord : coord)
    (priv : nav_private) (faction_id : Z) (layer : Z) (target : field_target)
    (inout_flow : flow_field) : option (int_field * flow_field) :=
  let chunk :=
    chunks priv layer (IDX (coord_r chunk_coord) (width priv)
                           (coord_c chunk_coord)) in
  match field_initial_frontier target chunk priv false faction_id
          (FIELD_RES_R * FIELD_RES_C) with
  | None => None
  | Some init_frontier =>
      let '(frontier, integration_field) :=
        seed_frontier init_frontier (pq_coord_init, all_infinite) in
      let inout_flow :=
        FlowField (ff_chunk inout_flow) target (dir_idx inout_flow) in
      match field_build_integration fuel frontier chunk faction_id
              integration_field with
      | None => None
      | Some integration_field =>
          match field_build_flow integration_field inout_flow with
          | None => None
          | Some inout_flow =>
              match field_fixup target integration_field inout_flow chunk with
              | None => None
              | Some inout_flow => Some (integration_field, inout_flow)
              end
          end
      end
  end.

Definition N_FlowFieldUpdate (fuel : nat) (chunk_coord : coord)
    (priv : nav_private) (faction_id : Z) (layer : Z) (target : field_target)
    (inout_flow : flow_field) : option flow_field :=
  option_map snd
    (N_FlowFieldUpdate_run fuel chunk_coord priv faction_id layer target
                           inout_flow).

(** ** Nearest pathable tiles (field.c, lines 572-592, 894-951, 1203-1240) *)

(** The ring buffer behind [qpush]/[qpop] holds at most
    [FIELD_RES_R * FIELD_RES_C] entries between [head] and [tail]; it is
    modelled by the list of those entries, oldest first. *)
Definition qpush (q : list coord) (entry : coord) : option (list coord) :=
  if Z.of_nat (length q) <? FIELD_RES_R * FIELD_RES_C
  then Some (q ++ [entry])
  else None.

Definition qpop (q : list coord) : option (coord * list coord) :=
  match q with
  | [] => None
  | x :: q' => Some (x, q')
  end.

Definition bfs_deltas : list (Z * Z) := [(0, -1); (0, 1); (-1, 0); (1, 0)].

(** The [for] loop over [deltas] in the breadth-first searches. *)
Definition bfs_visit (curr : coord)
    (st : option ((Z -> Z -> bool) * list coord)) (d : Z * Z)
    : option ((Z -> Z -> bool) * list coord) :=
  match st with
  | None => None
  | Some (visited, q) =>
      let neighb := Coord (coord_r curr + fst d) (coord_c curr + snd d) in
      if (coord_r neighb <? 0) || (coord_r neighb >=? FIELD_RES_R)
      then Some (visited, q)
      else if (coord_c neighb <? 0) || (coord_c neighb >=? FIELD_RES_C)
      then Some (visited, q)
      else if visited (coord_r neighb) (coord_c neighb) then Some (visited, q)
      else
        match qpush q neighb with
        | None => None
        | Some q' =>
            Some (upd visited (coord_r neighb) (coord_c neighb) true, q')
        end
  end.

Fixpoint passable_frontier_loop (fuel : nat) (chunk : nav_chunk)
    (visited : Z -> Z -> bool) (q : list coord) (out : list coord)
    (maxout : Z) : option (list coord) :=
  match fuel with
  | O => None
  | S fuel' =>
      match qpop q with
      | None => Some out
      | Some (curr, q1) =>
          if field_tile_passable chunk curr then
            let out' := out ++ [curr] in
            if Z.of_nat (length out') =? maxout then Some out'
            else passable_frontier_loop fuel' chunk visited q1 out' maxout
          else
            match fold_left (bfs_visit curr) bfs_deltas (Some (visited, q1))
            with
            | None => None
            | Some (visited', q2) =>
                passable_frontier_loop fuel' chunk visited' q2 out maxout
            end
      end
  end.

Definition field_passable_frontier (fuel : nat) (chunk : nav_chunk)
    (start : coord) (maxout : Z) : option (list coord) :=
  if field_tile_passable chunk start then None
  else
    match qpush [] start with
    | None => None
    | Some q =>
        passable_frontier_loop fuel chunk
          (upd (fun _ _ => false) (coord_r start) (coord_c start) true)
          q [] maxout
    end.

Fixpoint nearest_flow_loop (intf : int_field) (tiles : list coord)
    (dirs : Z -> Z -> flow_dir) : option (Z -> Z -> flow_dir) :=
  match tiles with
  | [] => Some dirs
  | t :: tiles' =>
      let r := coord_r t in
      let c := coord_c t in
      if feqb (intf r c) PosInf then nearest_flow_loop intf tiles' dirs
      else if feqb (intf r c) (Finite 0)
      then nearest_flow_loop intf tiles' dirs
      else
        match field_flow_dir intf t with
        | None => None
        | Some d => nearest_flow_loop intf tiles' (upd dirs r c d)
        end
  end.

Definition N_FlowFieldUpdateToNearestPathable_run (fuel : nat)
    (chunk : nav_chunk) (start : coord) (faction_id : Z)
    (inout_flow : flow_field) : option (int_field * flow_field) :=
  match field_passable_frontier fuel chunk start
          (FIELD_RES_R * FIELD_RES_C) with
  | None => None
  | Some init_frontier =>
      let '(frontier, integration_field) :=
        seed_frontier init_frontier (pq_coord_init, all_infinite) in
      match field_build_integration_nonpass fuel frontier chunk faction_id
              integration_field with
      | None => None
      | Some integration_field =>
          match nearest_flow_loop integration_field
                  (grid FIELD_RES_R FIELD_RES_C) (dir_idx inout_flow) with
          | None => None
          | Some d => Some (integration_field, set_dirs inout_flow d)
          end
      end
  end.

Definition N_FlowFieldUpdateToNearestPathable (fuel : nat)
    (chunk : nav_chunk) (start : coord) (faction_id : Z)
    (inout_flow : flow_field) : option flow_field :=
  option_map snd
    (N_FlowFieldUpdateToNearestPathable_run fuel chunk start faction_id
                                            inout_flow).

(** ** Line-of-sight fields (field.c, lines 303-407 and 1043-1201) *)

Definition tile_blocked (cost_field blockers_field : Z -> Z -> Z) (r c : Z)
    : bool :=
  (cost_field r c =? COST_IMPASSABLE) || (blockers_field r c >? 0).

Definition field_is_los_corner (cell : coord)
    (cost_field blockers_field : Z -> Z -> Z) : bool :=
  if (coord_r cell >? 0) && (coord_r cell <? FIELD_RES_R - 1)
     && xorb (tile_blocked cost_field blockers_field
                           (coord_r cell - 1) (coord_c cell))
             (tile_blocked cost_field blockers_field
                           (coord_r cell + 1) (coord_c cell))
  then true
  else if (coord_c cell >? 0) && (coord_c cell <? FIELD_RES_C - 1)
          && xorb (tile_blocked cost_field blockers_field
                                (coord_r cell) (coord_c cell - 1))
                  (tile_blocked cost_field blockers_field
                                (coord_r cell) (coord_c cell + 1))
  then true
  else false.

Definition set_blocked (t : los_tile) : los_tile := LosTile (visible t) true.

Definition set_visible (t : los_tile) (v : bool) : los_tile :=
  LosTile v (wavefront_blocked t).

(** The [do ... while] walk of Bresenham's algorithm. *)
Fixpoint wavefront_line_walk (fuel : nat) (dx dy sx sy err : Z) (curr : coord)
    (field : Z -> Z -> los_tile) : option (Z -> Z -> los_tile) :=
  match fuel with
  | O => None
  | S fuel' =>
      let field :=
        upd field (coord_r curr) (coord_c curr)
            (set_blocked (field (coord_r curr) (coord_c curr))) in
      let e2 := 2 * err in
      let err1 := if e2 >=? dy then err + dy else err in
      let c1 := if e2 >=? dy then coord_c curr + sx else coord_c curr in
      let err2 := if e2 <=? dx then err1 + dx else err1 in
      let r1 := if e2 <=? dx then coord_r curr + sy else coord_r curr in
      if (r1 >=? 0) && (r1 <? FIELD_RES_R) && (c1 >=? 0) && (c1 <? FIELD_RES_C)
      then wavefront_line_walk fuel' dx dy sx sy err2 (Coord r1 c1) field
      else Some field
  end.

Definition field_create_wavefront_blocked_line (fuel : nat)
    (target corner : tile_desc) (priv : nav_private) (map_pos : vec3_t)
    (out_los : LOS_field) : option LOS_field :=
  let slope := wavefront_slope target corner priv map_pos in
  let dx := Z.abs (slope_x_milli slope) in
  let dy := - Z.abs (slope_z_milli slope) in
  let sx := if slope_x_pos slope then 1 else -1 in
  let sy := if slope_z_neg slope then 1 else -1 in
  let err := dx + dy in
  match wavefront_line_walk fuel dx dy sx sy err
          (Coord (tile_r corner) (tile_c corner)) (los_field out_los) with
  | None => None
  | Some f => Some (LOSField (los_chunk out_los) f)
  end.

Definition pad_offsets (r c : Z) : list coord :=
  flat_map (fun rr => map (fun cc => Coord rr cc) (zrange (c - 1) 3))
           (zrange (r - 1) 3).

Definition pad_clear (field : Z -> Z -> los_tile) (r c : Z)
    : Z -> Z -> los_tile :=
  fold_left (fun f t =>
    let rr := coord_r t in
    let cc := coord_c t in
    if (rr <? 0) || (rr >? FIELD_RES_R - 1) then f
    else if (cc <? 0) || (cc >? FIELD_RES_C - 1) then f
    else upd f rr cc (set_visible (f rr cc) false))
    (pad_offsets r c) field.

Definition field_pad_wavefront (out_los : LOS_field) : LOS_field :=
  LOSField (los_chunk out_los)
    (fold_left (fun f t =>
       if wavefront_blocked (f (coord_r t) (coord_c t))
       then pad_clear f (coord_r t) (coord_c t)
       else f)
       (grid FIELD_RES_R FIELD_RES_C) (los_field out_los)).

(** The state of the wavefront loop of [N_LOSFieldCreate]. *)
Record los_state : Type := LosState {
  ls_frontier : pq_coord_t;
  ls_los : LOS_field;
  ls_integration : int_field
}.

(** The body of the [for] loop over the neighbours of a popped tile. *)
Definition los_visit (fuel : nat) (chunk : nav_chunk) (chunk_coord : coord)
    (target : tile_desc) (priv : nav_private) (map_pos : vec3_t)
    (curr : coord) (st : option los_state) (nb : coord * Z)
    : option los_state :=
  match st with
  | None => None
  | Some (LosState frontier out_los integration_field) =>
      let nr := coord_r (fst nb) in
      let nc := coord_c (fst nb) in
      if snd nb >? 1 then
        if field_is_los_corner (fst nb) (cost_base chunk) (blockers chunk)
        then
          let src_desc :=
            TileDesc (coord_r chunk_coord) (coord_c chunk_coord) nr nc in
          match field_create_wavefront_blocked_line fuel target src_desc priv
                  map_pos out_los with
          | None => None
          | Some out_los' => Some (LosState frontier out_los' integration_field)
          end
        else Some (LosState frontier out_los integration_field)
      else
        let new_cost :=
          fadd (integration_field (coord_r curr) (coord_c curr)) 1 in
        let out_los :=
          LOSField (los_chunk out_los)
            (upd (los_field out_los) nr nc
                 (set_visible (los_field out_los nr nc) true)) in
        if flt new_cost (integration_field nr nc) then
          let integration_field := upd integration_field nr nc new_cost in
          if pq_coord_contains frontier field_compare_tiles (fst nb)
          then Some (LosState frontier out_los integration_field)
          else Some (LosState (pq_coord_push frontier new_cost (fst nb))
                              out_los integration_field)
        else Some (LosState frontier out_los integration_field)
  end.

Fixpoint los_wavefront_loop (fuel : nat) (chunk : nav_chunk)
    (chunk_coord : coord) (target : tile_desc) (priv : nav_private)
    (map_pos : vec3_t) (faction_id : Z) (st : los_state) : option los_state :=
  match fuel with
  | O => None
  | S fuel' =>
      if pq_size (ls_frontier st) >? 0 then
        match pq_coord_pop (ls_frontier st) with
        | None => None
        | Some (curr, frontier1) =>
            let neighbours :=
              field_neighbours_grid_los chunk (ls_los st) faction_id curr in
            match fold_left
                    (los_visit fuel' chunk chunk_coord target priv map_pos curr)
                    neighbours
                    (Some (LosState frontier1 (ls_los st)
                                    (ls_integration st))) with
            | None => None
            | Some st' =>
                los_wavefront_loop fuel' chunk chunk_coord target priv map_pos
                                   faction_id st'
            end
        end
      else Some st
  end.

(** One iteration of the loops that carry the shared edge of the previous
    chunk over; [cell] is the tile of the current chunk, [prev_cell] the
    tile of the previous one. *)
Definition los_carry_edge (fuel : nat) (chunk_coord : coord)
    (target : tile_desc) (priv : nav_private) (map_pos : vec3_t)
    (prev_los : LOS_field) (prev_of : coord -> coord)
    (st : option los_state) (cell : coord) : option los_state :=
  match st with
  | None => None
  | Some (LosState frontier out_los integration_field) =>
      let prev_cell := prev_of cell in
      let out_los :=
        LOSField (los_chunk out_los)
          (upd (los_field out_los) (coord_r cell) (coord_c cell)
               (los_field prev_los (coord_r prev_cell) (coord_c prev_cell))) in
      let drawn :=
        if wavefront_blocked (los_field out_los (coord_r cell) (coord_c cell))
        then
          field_create_wavefront_blocked_line fuel target
            (TileDesc (coord_r chunk_coord) (coord_c chunk_coord)
                      (coord_r cell) (coord_c cell))
            priv map_pos out_los
        else Some out_los in
      match drawn with
      | None => None
      | Some out_los =>
          if visible (los_field out_los (coord_r cell) (coord_c cell))
          then Some (LosState (pq_coord_push frontier (Finite 0) cell) out_los
                       (upd integration_field (coord_r cell) (coord_c cell)
                            (Finite 0)))
          else Some (LosState frontier out_los integration_field)
      end
  end.

(** The shared edge: [(horizontal, curr_edge_idx, prev_edge_idx)], or [None]
    when the two chunks coincide ([assert(0)]). *)
Definition los_shared_edge (prev_chunk chunk_coord : coord)
    : option (bool * Z * Z) :=
  if coord_r prev_chunk <? coord_r chunk_coord
  then Some (false, 0, FIELD_RES_R - 1)
  else if coord_r prev_chunk >? coord_r chunk_coord
  then Some (false, FIELD_RES_R - 1, 0)
  else if coord_c prev_chunk <? coord_c chunk_coord
  then Some (true, 0, FIELD_RES_C - 1)
  else if coord_c prev_chunk >? coord_c chunk_coord
  then Some (true, FIELD_RES_C - 1, 0)
  else None.

(** The state after the seeding part of [N_LOSFieldCreate]. For the
    destination chunk the seed [integration_field[target.tile_r]
    [target.tile_c] = 0.0f] is written without a guard, before the
    assertion on [prev_los]. *)
Definition los_initial_state (fuel : nat) (chunk_coord : coord)
    (target : tile_desc) (priv : nav_private) (map_pos : vec3_t)
    (prev_los : option LOS_field) : option los_state :=
  let out_los := LOSField chunk_coord (fun _ _ => LosTile false false) in
  if (coord_r chunk_coord =? chunk_r target)
     && (coord_c chunk_coord =? chunk_c target)
  then
    if in_boundsb (Coord (tile_r target) (tile_c target)) then
      match prev_los with
      | Some _ => None
      | None =>
          Some (LosState
                  (pq_coord_push pq_coord_init (Finite 0)
                                 (Coord (tile_r target) (tile_c target)))
                  out_los
                  (upd all_infinite (tile_r target) (tile_c target)
                       (Finite 0)))
      end
    else None
  else
    match prev_los with
    | None => None
    | Some prev =>
        match los_shared_edge (los_chunk prev) chunk_coord with
        | None => None
        | Some (horizontal, curr_edge_idx, prev_edge_idx) =>
            let st0 := Some (LosState pq_coord_init out_los all_infinite) in
            if horizontal then
              fold_left
                (los_carry_edge fuel chunk_coord target priv map_pos prev
                   (fun cell => Coord (coord_r cell) prev_edge_idx))
                (map (fun r => Coord r curr_edge_idx) (zrange 0 FIELD_RES_R))
                st0
            else
              fold_left
                (los_carry_edge fuel chunk_coord target priv map_pos prev
                   (fun cell => Coord prev_edge_idx (coord_c cell)))
                (map (fun c => Coord curr_edge_idx c) (zrange 0 FIELD_RES_C))
                st0
        end
    end.

Definition N_LOSFieldCreate (fuel : nat) (id : Z) (chunk_coord : coord)
    (target : tile_desc) (priv : nav_private) (map_pos : vec3_t)
    (prev_los : option LOS_field) : option LOS_field :=
  let faction_id := N_DestFactionID id in
  let chunk :=
    chunks priv (N_DestLayer id)
           (coord_r chunk_coord * width priv + coord_c chunk_coord) in
  match los_initial_state fuel chunk_coord target priv map_pos prev_los with
  | None => None
  | Some st =>
      match los_wavefront_loop fuel chunk chunk_coord target priv map_pos
              faction_id st with
      | None => None
      | Some st' => Some (field_pad_wavefront (ls_los st'))
      end
  end.

(** ** Specification vocabulary *)

(** No faction present on the tile is outside the [enemies] bitmask: what
    the scan of [field_tile_passable_no_enemies] decides. It holds of a
    tile on which no faction is present at all. *)
Definition no_other_faction (chunk : nav_chunk) (tile : coord) (enemies : Z)
    : Prop :=
  forall i, 0 <= i < MAX_FACTIONS ->
    factions chunk i (coord_r tile) (coord_c tile) = true ->
    Z.testbit enemies i = true.




(** A faction that is not in the [enemies] bitmask is present on the
    tile. *)
Definition other_faction_present (chunk : nav_chunk) (tile : coord)
    (enemies : Z) : Prop :=
  exists i, 0 <= i < MAX_FACTIONS
            /\ factions chunk i (coord_r tile) (coord_c tile) = true
            /\ Z.testbit enemies i = false.

(** What [N_FlowField_ID] encodes of a target. *)
Inductive target_key : Type :=
| Key_portal (e0 e1 : coord)
| Key_tile (tile : coord)
| Key_enemies (faction_id : Z)
| Key_portalmask (mask : Z).

Definition key_of (t : field_target) : target_key :=
  match t with
  | Target_portal port => Key_portal (endpoints0 port) (endpoints1 port)
  | Target_tile tile => Key_tile tile
  | Target_enemies enemies => Key_enemies (enemies_faction_id enemies)
  | Target_portalmask mask => Key_portalmask mask
  end.

Definition byte_coord (t : coord) : Prop :=
  0 <= coord_r t < 256 /\ 0 <= coord_c t < 256.

(** The value ranges under which the bit fields of an identity do not
    overlap. *)
Definition id_fields_in_range (chunk : coord) (target : field_target)
    (layer : Z) : Prop :=
  0 <= layer < 16 /\ byte_coord chunk /\
  match target with
  | Target_portal port =>
      byte_coord (endpoints0 port) /\ byte_coord (endpoints1 port)
  | Target_tile tile => byte_coord tile
  | Target_enemies enemies => 0 <= enemies_faction_id enemies < 2 ^ 32
  | Target_portalmask _ => False
  end.

(** The bits of an identity between the type tag and the chunk. *)
Definition id_payload (target : field_target) : Z :=
  match target with
  | Target_portal port =>
      coord_r (endpoints0 port) * 2 ^ 40 + coord_c (endpoints0 port) * 2 ^ 32
      + coord_r (endpoints1 port) * 2 ^ 24 + coord_c (endpoints1 port) * 2 ^ 16
  | Target_tile tile => coord_r tile * 2 ^ 24 + coord_c tile * 2 ^ 16
  | Target_enemies enemies => enemies_faction_id enemies * 2 ^ 24
  | Target_portalmask _ => 0
  end.

(** The value of a two-dimensional array at a coordinate. *)
Definition at_coord {A : Type} (f : Z -> Z -> A) (t : coord) : A :=
  f (coord_r t) (coord_c t).

(** The guard under which [field_flow_dir] lets the neighbour in direction
    [d] take part in [min_cost]. *)
Definition min_candidate (intf : int_field) (t : coord) (d : flow_dir) : bool :=
  let r := coord_r t in
  let c := coord_c t in
  match d with
  | FD_NONE => false
  | FD_N => r >? 0
  | FD_S => r <? FIELD_RES_R - 1
  | FD_W => c >? 0
  | FD_E => c <? FIELD_RES_C - 1
  | FD_NW => (r >? 0) && (c >? 0)
             && flt (intf (r-1) c) PosInf && flt (intf r (c-1)) PosInf
  | FD_NE => (r >? 0) && (c <? FIELD_RES_C - 1)
             && flt (intf (r-1) c) PosInf && flt (intf r (c+1)) PosInf
  | FD_SW => (r <? FIELD_RES_R - 1) && (c >? 0)
             && flt (intf (r+1) c) PosInf && flt (intf r (c-1)) PosInf
  | FD_SE => (r <? FIELD_RES_R - 1) && (c <? FIELD_RES_C - 1)
             && flt (intf (r+1) c) PosInf && flt (intf r (c+1)) PosInf
  end.

(** The guard under which the chain of comparisons considers direction [d]. *)
Definition pick_guard (t : coord) (d : flow_dir) : bool :=
  let r := coord_r t in
  let c := coord_c t in
  match d with
  | FD_NONE => false
  | FD_N => r >? 0
  | FD_S => r <? FIELD_RES_R - 1
  | FD_E => c <? FIELD_RES_C - 1
  | FD_W => c >? 0
  | FD_NW => (r >? 0) && (c >? 0)
  | FD_NE => (r >? 0) && (c <? FIELD_RES_C - 1)
  | FD_SW => (r <? FIELD_RES_R - 1) && (c >? 0)
  | FD_SE => (r <? FIELD_RES_R - 1) && (c <? FIELD_RES_R - 1)
  end.

Definition min_order : list flow_dir :=
  [FD_N; FD_S; FD_W; FD_E; FD_NW; FD_NE; FD_SW; FD_SE].

Definition pick_order : list flow_dir :=
  [FD_N; FD_S; FD_E; FD_W; FD_NW; FD_NE; FD_SW; FD_SE].

Fixpoint pick_first (intf : int_field) (t : coord) (min_cost : fnum)
    (ds : list flow_dir) : option flow_dir :=
  match ds with
  | [] => None
  | d :: ds' =>
      if pick_guard t d && feqb (at_coord intf (dir_neighbour d t)) min_cost
      then Some d
      else pick_first intf t min_cost ds'
  end.

Definition is_diagonal (d : flow_dir) : bool :=
  match d with
  | FD_NW | FD_NE | FD_SW | FD_SE => true
  | _ => false
  end.

Definition is_cardinal (d : flow_dir) : bool :=
  match d with
  | FD_N | FD_S | FD_E | FD_W => true
  | _ => false
  end.

(** The two cardinal neighbours that share the corner a diagonal step
    crosses. *)
Definition corner_sides (d : flow_dir) (t : coord) : coord * coord :=
  (Coord (coord_r t + fst (dir_offset d)) (coord_c t),
   Coord (coord_r t) (coord_c t + snd (dir_offset d))).

Definition is_finite (x : fnum) : Prop := exists v, x = Finite v.

Definition adjacent4 (a b : coord) : Prop :=
  Z.abs (coord_r a - coord_r b) + Z.abs (coord_c a - coord_c b) = 1.

(** Every tile with a finite non-zero value has an in-bounds 4-neighbour
    whose finite value is related to it by [rel]. *)
Definition supported (rel : Z -> Z -> Prop) (intf : int_field) : Prop :=
  forall t v, in_bounds t -> at_coord intf t = Finite v -> v <> 0 ->
    exists n w, in_bounds n /\ adjacent4 n t
                /\ at_coord intf n = Finite w /\ rel w v.

Definition queued_in_bounds (q : pq_coord_t) : Prop :=
  forall e, In e (pq_entries q) -> in_bounds (snd e).

Definition portal_in_bounds (port : portal) : Prop :=
  in_bounds (endpoints0 port) /\ in_bounds (endpoints1 port).

(** The tiles a target names lie inside the field. *)
Definition target_in_bounds (chunk : nav_chunk) (target : field_target)
    : Prop :=
  match target with
  | Target_tile tile => in_bounds tile
  | Target_portal port => portal_in_bounds port
  | Target_enemies _ => True
  | Target_portalmask _ =>
      forall i, 0 <= i < num_portals chunk -> portal_in_bounds (portals chunk i)
  end.

(** Base costs of the data model: every tile of the field costs at least 1. *)
Definition costs_positive (chunk : nav_chunk) : Prop :=
  forall t, in_bounds t -> 0 < at_coord (cost_base chunk) t.

(** The eight [min_cost] updates of [field_flow_dir] as one fold. *)
Definition min_fold (intf : int_field) (t : coord) (ds : list flow_dir)
    (m : fnum) : fnum :=
  fold_left (fun m d =>
    min_step (min_candidate intf t d) (at_coord intf (dir_neighbour d t)) m)
    ds m.

(** A freshly seeded integration field. *)
Definition zero_or_inf (intf : int_field) : Prop :=
  forall t, at_coord intf t = PosInf \/ at_coord intf t = Finite 0.

(** The invariant of the integration loops. *)
Definition integ_inv (rel : Z -> Z -> Prop) (st : pq_coord_t * int_field)
    : Prop :=
  supported rel (snd st) /\ queued_in_bounds (fst st).

(** What [field_build_flow] leaves in the cell of a tile it visits. *)
Definition flow_cell_ok (intf : int_field) (t : coord) (old d : flow_dir)
    : Prop :=
  match at_coord intf t with
  | PosInf => d = old
  | Finite v => if v =? 0 then d = FD_NONE else field_flow_dir intf t = Some d
  end.

(** The same for the flow loop of [N_FlowFieldUpdateToNearestPathable]. *)
Definition nearest_cell_ok (intf : int_field) (t : coord) (old d : flow_dir)
    : Prop :=
  match at_coord intf t with
  | PosInf => d = old
  | Finite v => if v =? 0 then d = old else field_flow_dir intf t = Some d
  end.

(** Every tile with a finite, strictly positive integration value holds a
    direction whose neighbour lies in the field and has a strictly smaller
    integration value. *)
Definition flows_downhill (intf : int_field) (flow : flow_field) : Prop :=
  forall t v, in_bounds t -> at_coord intf t = Finite v -> 0 < v ->
    let d := at_coord (dir_idx flow) t in
    d <> FD_NONE /\ in_bounds (dir_neighbour d t)
    /\ exists w, at_coord intf (dir_neighbour d t) = Finite w /\ w < v.

(** The number of tiles of the field a breadth-first search has not
    marked yet. *)
Definition unvisited_count (visited : Z -> Z -> bool) : nat :=
  length (filter (fun t => negb (at_coord visited t))
                 (grid FIELD_RES_R FIELD_RES_C)).

(** Bit [i] of a portal mask, as [field_fixup] tests it. *)
Definition portal_selected (mask i : Z) : bool :=
  negb (Z.land mask (Z.shiftl 1 i) =? 0).

(** A direction points from the chunk of a portal to the chunk it is
    connected to. *)
Definition points_toward (d : flow_dir) (port : portal) : Prop :=
  Z.sgn (coord_r (connected_chunk port) - coord_r (port_chunk port))
  = fst (dir_offset d)
  /\ Z.sgn (coord_c (connected_chunk port) - coord_c (port_chunk port))
     = snd (dir_offset d).

(** Every tile of the field with integration value 0 holds direction [d]. *)
Definition seeds_point (intf : int_field) (flow : flow_field) (d : flow_dir)
    : Prop :=
  forall t, in_bounds t -> at_coord intf t = Finite 0 ->
    at_coord (dir_idx flow) t = d.

(** [t'] lies in the 3 x 3 neighbourhood of [t]. *)
Definition near (t t' : coord) : Prop :=
  Z.abs (coord_r t' - coord_r t) <= 1 /\ Z.abs (coord_c t' - coord_c t) <= 1.

(** No visible tile of the field within one tile of a blocked one. *)
Definition padded (los : LOS_field) : Prop :=
  forall t t', in_bounds t -> in_bounds t' -> near t t' ->
    wavefront_blocked (at_coord (los_field los) t) = true ->
    visible (at_coord (los_field los) t') = false.

(** One clearing step. *)
Definition pad_step (f : Z -> Z -> los_tile) (t : coord) : Z -> Z -> los_tile :=
  let rr := coord_r t in
  let cc := coord_c t in
  if (rr <? 0) || (rr >? FIELD_RES_R - 1) then f
  else if (cc <? 0) || (cc >? FIELD_RES_C - 1) then f
  else upd f rr cc (set_visible (f rr cc) false).

(** One step of the outer loop of [field_pad_wavefront]. *)
Definition pad_outer (f : Z -> Z -> los_tile) (t : coord) : Z -> Z -> los_tile :=
  if wavefront_blocked (f (coord_r t) (coord_c t))
  then pad_clear f (coord_r t) (coord_c t)
  else f.

(** The wavefront of [N_LOSFieldCreate] treats a neighbour as impassable
    when the step cost [field_neighbours_grid_los] gives it exceeds 1. *)
Definition los_impassable (chunk : nav_chunk) (faction_id : Z) (n : coord)
    : Prop :=
  1 < at_coord (cost_base chunk) n
  \/ tile_passable_for chunk faction_id n = false.

(** A visit that took [st] to [st'] treated the neighbour [n] as
    impassable: it drew the shadow line of [n] if [n] is a LOS corner,
    and changed nothing else (no [visible] flag, no integration value,
    no queue entry). *)
Definition los_treated_impassable (fuel : nat) (chunk : nav_chunk)
    (chunk_coord : coord) (target : tile_desc) (priv : nav_private)
    (map_pos : vec3_t) (n : coord) (st st' : los_state) : Prop :=
  ls_frontier st' = ls_frontier st
  /\ ls_integration st' = ls_integration st
  /\ (forall t, visible (at_coord (los_field (ls_los st')) t)
                = visible (at_coord (los_field (ls_los st)) t))
  /\ (if field_is_los_corner n (cost_base chunk) (blockers chunk)
      then field_create_wavefront_blocked_line fuel target
             (TileDesc (coord_r chunk_coord) (coord_c chunk_coord)
                       (coord_r n) (coord_c n))
             priv map_pos (ls_los st) = Some (ls_los st')
      else ls_los st' = ls_los st).

(** A visit from the popped tile [curr] that took [st] to [st'] treated
    the neighbour [n] as passable: it marked [n] visible and left every
    other flag alone, and when the value of [curr] plus 1 was below the
    integration value of [n] it lowered that value and [n] is in the
    queue afterwards. *)
Definition los_treated_passable (curr n : coord) (st st' : los_state)
    : Prop :=
  visible (at_coord (los_field (ls_los st')) n) = true
  /\ (forall t, wavefront_blocked (at_coord (los_field (ls_los st')) t)
                = wavefront_blocked (at_coord (los_field (ls_los st)) t))
  /\ (forall t, t <> n ->
        at_coord (los_field (ls_los st')) t
        = at_coord (los_field (ls_los st)) t)
  /\ if flt (fadd (at_coord (ls_integration st) curr) 1)
            (at_coord (ls_integration st) n)
     then ls_integration st'
          = upd (ls_integration st) (coord_r n) (coord_c n)
                (fadd (at_coord (ls_integration st) curr) 1)
          /\ exists p, In (p, n) (pq_entries (ls_frontier st'))
     else ls_integration st' = ls_integration st
          /\ ls_frontier st' = ls_frontier st.

(** A chunk in which the wavefront of [N_LOSFieldCreate] meets no
    impassable tile. *)
Definition open_for (chunk : nav_chunk) (faction_id : Z) : Prop :=
  forall t, in_bounds t -> ~ los_impassable chunk faction_id t.

(** Base cost 1 and no blockers on every tile of the field. *)
Definition unit_cost_no_blockers (chunk : nav_chunk) : Prop :=
  forall t, in_bounds t ->
    at_coord (cost_base chunk) t = 1 /\ at_coord (blockers chunk) t = 0.

(** All in-bounds 4-neighbours of [t] are visible and reached. *)
Definition los_done (st : los_state) (t : coord) : Prop :=
  forall n, in_bounds n -> adjacent4 n t ->
    visible (at_coord (los_field (ls_los st)) n) = true
    /\ is_finite (at_coord (ls_integration st) n).

Definition los_queued (st : los_state) (t : coord) : Prop :=
  exists p, In (p, t) (pq_entries (ls_frontier st)).

Definition los_unblocked (st : los_state) : Prop :=
  forall t, wavefront_blocked (at_coord (los_field (ls_los st)) t) = false.

Definition los_queue_ok (st : los_state) : Prop :=
  forall e, In e (pq_entries (ls_frontier st)) ->
    in_bounds (snd e) /\ is_finite (at_coord (ls_integration st) (snd e)).

(** The invariant of the wavefront loop over an open chunk: between two
    pops ([exempt = None]) every reached tile is queued or done; while the
    neighbours of a popped tile are visited, that tile is exempt. *)
Definition los_open_inv (exempt : option coord) (st : los_state) : Prop :=
  los_unblocked st /\ los_queue_ok st
  /\ forall t, in_bounds t -> is_finite (at_coord (ls_integration st) t) ->
       Some t = exempt \/ los_queued st t \/ los_done st t.

(** What a visit may change: flags are only set, values only become
    finite, queued tiles stay queued. *)
Definition los_extends (st st' : los_state) : Prop :=
  (forall t, visible (at_coord (los_field (ls_los st)) t) = true ->
             visible (at_coord (los_field (ls_los st')) t) = true)
  /\ (forall t, is_finite (at_coord (ls_integration st) t) ->
                is_finite (at_coord (ls_integration st') t))
  /\ (forall t, los_queued st t -> los_queued st' t).

Definition los_reached (st : los_state) (n : coord) : Prop :=
  visible (at_coord (los_field (ls_los st)) n) = true
  /\ is_finite (at_coord (ls_integration st) n).

(** Two measures of an integration field over the tiles of the field: how
    many values are infinite, and the sum of the finite ones. *)
Definition is_inf (x : fnum) : bool := negb (flt x PosInf).

Definition inf_count (intf : int_field) : nat :=
  length (filter (fun t => is_inf (at_coord intf t))
                 (grid FIELD_RES_R FIELD_RES_C)).

Definition fnum_weight (x : fnum) : nat :=
  match x with
  | Finite v => Z.to_nat v
  | PosInf => O
  end.

Definition value_sum (intf : int_field) : nat :=
  list_sum (map (fun t => fnum_weight (at_coord intf t))
                (grid FIELD_RES_R FIELD_RES_C)).

Definition nonneg_field (intf : int_field) : Prop :=
  forall t v, at_coord intf t = Finite v -> 0 <= v.

(** A relaxation made progress: an infinite value became finite, or a
    finite one became smaller. *)
Definition lowered (intf intf' : int_field) : Prop :=
  (inf_count intf' < inf_count intf)%nat
  \/ (inf_count intf' = inf_count intf
      /\ (value_sum intf' < value_sum intf)%nat).

Definition los_progress (st st' : los_state) : Prop :=
  (ls_integration st' = ls_integration st
   /\ ls_frontier st' = ls_frontier st)
  \/ lowered (ls_integration st) (ls_integration st').

(** The state in which the wavefront starts on the destination chunk:
    the target tile queued with value 0, nothing visible yet. *)
Definition los_dest_state (chunk_coord : coord) (target : tile_desc)
    : los_state :=
  LosState (pq_coord_push pq_coord_init (Finite 0)
                          (Coord (tile_r target) (tile_c target)))
           (LOSField chunk_coord (fun _ _ => LosTile false false))
           (upd all_infinite (tile_r target) (tile_c target) (Finite 0)).

(** What one relaxation does to the pair of queue and integration field:
    nothing, or it lowers a value. *)
Definition relax_progress (st st' : pq_coord_t * int_field) : Prop :=
  (snd st' = snd st /\ fst st' = fst st) \/ lowered (snd st) (snd st').

(** ** Vocabulary of the further properties *)

(** The cost [field_neighbours_grid] writes next to a neighbour. *)
Definition step_cost (chunk : nav_chunk) (n : coord) : Z :=
  if blockers chunk (coord_r n) (coord_c n) =? 0
  then cost_base chunk (coord_r n) (coord_c n)
  else COST_IMPASSABLE.

(** The edge from [t] to its neighbour [n] cannot be relaxed any more. *)
Definition edge_relaxed (chunk : nav_chunk) (intf : int_field) (t n : coord)
    : Prop :=
  forall v, at_coord intf t = Finite v ->
    exists w, at_coord intf n = Finite w /\ w <= v + step_cost chunk n.

Definition relaxed_at (chunk : nav_chunk) (ok : coord -> bool)
    (intf : int_field) (t : coord) : Prop :=
  forall n, in_bounds n -> adjacent4 n t -> ok n = true ->
    edge_relaxed chunk intf t n.

(** A finite non-zero value was reached over a step from a neighbour onto
    a tile the loop may enter. *)
Definition tight_at (chunk : nav_chunk) (ok : coord -> bool)
    (intf : int_field) (t : coord) : Prop :=
  forall v, at_coord intf t = Finite v -> v <> 0 ->
    ok t = true
    /\ exists n w, in_bounds n /\ adjacent4 n t
                   /\ at_coord intf n = Finite w
                   /\ w + step_cost chunk t <= v.

(** Values only went down from [intf] to [intf']. *)
Definition field_le (intf' intf : int_field) : Prop :=
  forall t w, at_coord intf t = Finite w ->
    exists w', at_coord intf' t = Finite w' /\ w' <= w.

(** The invariant of the integration loops behind the shortest-path
    equations: every reached tile is waiting in the queue, is the tile
    being expanded, or has all its edges relaxed. [ok] tells the tiles the
    loop may enter. *)
Definition bellman_inv (chunk : nav_chunk) (ok : coord -> bool)
    (exempt : option coord) (st : pq_coord_t * int_field) : Prop :=
  queued_in_bounds (fst st)
  /\ (forall t, in_bounds t -> tight_at chunk ok (snd st) t)
  /\ forall t, in_bounds t -> is_finite (at_coord (snd st) t) ->
       Some t = exempt
       \/ (exists p, In (p, t) (pq_entries (fst st)))
       \/ relaxed_at chunk ok (snd st) t.

(** The tiles [field_build_integration] and
    [field_build_integration_nonpass] may enter. *)
Definition enters_passable (chunk : nav_chunk) (faction_id : Z) (n : coord)
    : bool :=
  tile_passable_for chunk faction_id n.

Definition enters_impassable (chunk : nav_chunk) (n : coord) : bool :=
  negb (field_tile_passable chunk n).

(** A walk over 4-adjacent tiles of the field: [p] lists the tiles entered
    after [s], the last of them [t]; every tile entered satisfies [ok]. *)
Fixpoint walk (ok : coord -> bool) (s : coord) (p : list coord) (t : coord)
    : Prop :=
  match p with
  | [] => s = t
  | x :: p' => in_bounds x /\ adjacent4 x s /\ ok x = true /\ walk ok x p' t
  end.

(** What a walk costs: the step cost of every tile it enters. *)
Definition path_cost (chunk : nav_chunk) (p : list coord) : Z :=
  fold_right (fun x acc => step_cost chunk x + acc) 0 p.

(** Every tile with value 0 is one of the seeds. *)
Definition zero_is_seed (seeds : list coord) (intf : int_field) : Prop :=
  forall t, at_coord intf t = Finite 0 -> In t seeds.

(** The impassable tiles connected to [start] over impassable tiles, and
    the tiles of the field next to one of them. *)
Definition island_reach (chunk : nav_chunk) (start u : coord) : Prop :=
  exists p, walk (enters_impassable chunk) start p u.

Definition borders_island (chunk : nav_chunk) (start t : coord) : Prop :=
  exists u, island_reach chunk start u /\ adjacent4 t u.

Definition bfs_touch (chunk : nav_chunk) (start t : coord) : Prop :=
  if field_tile_passable chunk t then borders_island chunk start t
  else island_reach chunk start t.

(** A marked tile was dealt with: a passable one was written to [out],
    an impassable one had all its neighbours marked. *)
Definition bfs_settled (chunk : nav_chunk) (visited : Z -> Z -> bool)
    (out : list coord) (t : coord) : Prop :=
  (field_tile_passable chunk t = true /\ In t out)
  \/ (field_tile_passable chunk t = false
      /\ forall n, in_bounds n -> adjacent4 n t -> at_coord visited n = true).

(** The invariant of the search loop of [field_passable_frontier]. *)
Definition bfs_inv (chunk : nav_chunk) (start : coord)
    (visited : Z -> Z -> bool) (q out : list coord) : Prop :=
  NoDup (out ++ q)
  /\ (forall t, In t (out ++ q) -> at_coord visited t = true)
  /\ (forall t, at_coord visited t = true ->
        in_bounds t /\ bfs_touch chunk start t)
  /\ (forall t, at_coord visited t = true ->
        In t q \/ bfs_settled chunk visited out t)
  /\ (forall t, In t out -> field_tile_passable chunk t = true)
  /\ at_coord visited start = true.

(** The tiles a target offers as seeds, in the order the frontier loops
    scan them. *)
Definition portal_candidates (chunk : nav_chunk) (faction_id : Z)
    (port : portal) : list coord :=
  filter (tile_passable_for chunk faction_id) (portal_tiles port).

(** An entity of another faction that can fight, is at war with
    [faction_id] and is not hidden by the fog. *)
Definition hostile_in_sight (faction_id : Z) (ent : entity) : bool :=
  negb (G_GetFactionID ent =? faction_id)
  && ent_combatable ent
  && match G_GetDiplomacyState faction_id (G_GetFactionID ent) with
     | Some at_war => at_war
     | None => false
     end
  && G_Fog_ObjVisible ent.

(** Some such entity found for the chunk stands on the tile [t] of it. *)
Definition enemy_on (enemies : enemies_desc) (priv : nav_private)
    (t : coord) : bool :=
  existsb (fun ent =>
    hostile_in_sight (enemies_faction_id enemies) ent
    && existsb (fun td =>
         (chunk_r td =? coord_r (enemies_chunk enemies))
         && (chunk_c td =? coord_c (enemies_chunk enemies))
         && (tile_r td =? coord_r t) && (tile_c td =? coord_c t))
       (ent_tiles enemies priv ent))
    (G_Pos_EntsInRect enemies).

(** What the assertions of [field_enemies_initial_frontier] and
    [field_enemy_ent] ask of the collaborators, and what keeps the marks
    inside [has_enemy]: the big stack is in use, the entity index finds
    an entity, the diplomacy state towards every other faction with a
    combatable entity is known, and the tiles of this chunk under an
    enemy lie in the field. *)
Definition enemy_query_ok (target : field_target) (priv : nav_private)
    : Prop :=
  match target with
  | Target_enemies enemies =>
      Sched_UsingBigStack = true
      /\ G_Pos_EntsInRect enemies <> []
      /\ (forall ent, In ent (G_Pos_EntsInRect enemies) ->
            G_GetFactionID ent <> enemies_faction_id enemies ->
            ent_combatable ent = true ->
            G_GetDiplomacyState (enemies_faction_id enemies)
                                (G_GetFactionID ent) <> None)
      /\ (forall ent td, In ent (G_Pos_EntsInRect enemies) ->
            hostile_in_sight (enemies_faction_id enemies) ent = true ->
            In td (ent_tiles enemies priv ent) ->
            chunk_r td = coord_r (enemies_chunk enemies) ->
            chunk_c td = coord_c (enemies_chunk enemies) ->
            in_bounds (Coord (tile_r td) (tile_c td)))
  | _ => True
  end.

Definition frontier_candidates (target : field_target) (chunk : nav_chunk)
    (priv : nav_private) (ignoreblock : bool) (faction_id : Z) : list coord :=
  match target with
  | Target_portal port => portal_candidates chunk faction_id port
  | Target_tile tile =>
      if ignoreblock || tile_passable_for chunk faction_id tile
      then [tile] else []
  | Target_enemies enemies =>
      filter (enemy_on enemies priv) (grid FIELD_RES_R FIELD_RES_C)
  | Target_portalmask mask =>
      flat_map (fun i => portal_candidates chunk faction_id (portals chunk i))
               (filter (portal_selected mask) (zrange 0 (num_portals chunk)))
  end.

(** No tile of the portals a target names has an impassable base cost
    (what [field_portal_initial_frontier] asserts). *)
Definition portals_walkable (target : field_target) (chunk : nav_chunk)
    : Prop :=
  match target with
  | Target_portal port =>
      forall t, In t (portal_tiles port) ->
        at_coord (cost_base chunk) t <> COST_IMPASSABLE
  | Target_portalmask mask =>
      forall i, In i (zrange 0 (num_portals chunk)) ->
        portal_selected mask i = true ->
        forall t, In t (portal_tiles (portals chunk i)) ->
          at_coord (cost_base chunk) t <> COST_IMPASSABLE
  | _ => True
  end.

(** No impassable tile of the chunk is a LOS corner. *)
Definition no_los_corner (chunk : nav_chunk) (faction_id : Z) : Prop :=
  forall n, in_bounds n -> los_impassable chunk faction_id n ->
    field_is_los_corner n (cost_base chunk) (blockers chunk) = false.

(** What the wavefront of [N_LOSFieldCreate] keeps true of the flags:
    only tiles of the field that are not impassable are visible, and
    without LOS corners nothing is blocked. *)
Definition los_sound (chunk : nav_chunk) (faction_id : Z) (los : LOS_field)
    : Prop :=
  (forall t, visible (at_coord (los_field los) t) = true ->
     in_bounds t /\ ~ los_impassable chunk faction_id t)
  /\ (no_los_corner chunk faction_id ->
      forall t, wavefront_blocked (at_coord (los_field los) t) = false).

(** How many more tiles a shadow line can cross from [t] before it leaves
    the field, walking by [sx] along the columns and [sy] along the rows. *)
Definition steps_left (sx sy : Z) (t : coord) : Z :=
  (if sx =? 1 then FIELD_RES_C - 1 - coord_c t else coord_c t)
  + (if sy =? 1 then FIELD_RES_R - 1 - coord_r t else coord_r t).

(** [t] lies on the side of [corner] the steps [sx], [sy] point to. *)
Definition ahead_of (sx sy : Z) (corner t : coord) : Prop :=
  0 <= sx * (coord_c t - coord_c corner)
  /\ 0 <= sy * (coord_r t - coord_r corner).

Definition unit_step (s : Z) : Prop := s = 1 \/ s = -1.

(** Fuel that lets every shadow line leave the field. *)
Definition line_fuel : nat := Z.to_nat (FIELD_RES_R + FIELD_RES_C).

(** What the head of [N_LOSFieldCreate] needs: for the destination chunk
    a target tile inside the field (it is written to without a guard) and
    no previous field; for any other chunk a previous field of a
    different chunk. *)
Definition los_asserts_hold (chunk_coord : coord) (target : tile_desc)
    (prev_los : option LOS_field) : Prop :=
  if (coord_r chunk_coord =? chunk_r target)
     && (coord_c chunk_coord =? chunk_c target)
  then in_bounds (Coord (tile_r target) (tile_c target)) /\ prev_los = None
  else exists prev, prev_los = Some prev /\ los_chunk prev <> chunk_coord.

(** ** The ring buffer of the searches (field.c, lines 572-592)

    [qpush] and [qpop] as the source has them, over the array [q] and the
    counters [qsize], [head] and [tail]; the list model above is what the
    ring holds between [head] and [tail]. *)
Record ring : Type := Ring {
  ring_q : Z -> coord;
  ring_qsize : Z;
  ring_head : Z;
  ring_tail : Z
}.

Definition ring_nelems : Z := FIELD_RES_R * FIELD_RES_C.

(** [int fhead = 0, ftail = -1; size_t qsize = 0;] *)
Definition ring_init (q : Z -> coord) : ring := Ring q 0 0 (-1).

Definition ring_qpush (r : ring) (entry : coord) : option ring :=
  if ring_qsize r <? ring_nelems then
    let tail := (ring_tail r + 1) mod ring_nelems in
    Some (Ring (fun i => if i =? tail then entry else ring_q r i)
               (ring_qsize r + 1) (ring_head r) tail)
  else None.

Definition ring_qpop (r : ring) : option (coord * ring) :=
  if ring_qsize r >? 0 then
    if (ring_head r >=? 0) && (ring_head r <? ring_nelems) then
      Some (ring_q r (ring_head r),
            Ring (ring_q r) (ring_qsize r - 1)
                 ((ring_head r + 1) mod ring_nelems) (ring_tail r))
    else None
  else None.

(** The entries of the ring, oldest first. *)
Definition ring_contents (r : ring) : list coord :=
  map (fun i => ring_q r ((ring_head r + Z.of_nat i) mod ring_nelems))
      (seq 0 (Z.to_nat (ring_qsize r))).

Definition ring_ok (r : ring) : Prop :=
  0 <= ring_head r < ring_nelems
  /\ 0 <= ring_qsize r <= ring_nelems
  /\ -1 <= ring_tail r < ring_nelems
  /\ (ring_tail r + 1) mod ring_nelems
     = (ring_head r + ring_qsize r) mod ring_nelems.

(** ** Closest tiles of an island (field.c, lines 565-570, 594-667) *)

(** The island arrays of [struct nav_chunk].  Of field.c only
    [field_closest_tiles_local] and [N_FlowFieldUpdateIslandToNearest]
    read them, so they are passed beside the chunk. *)
Record island_ids : Type := IslandIds {
  islands : Z -> Z -> Z;
  local_islands : Z -> Z -> Z
}.

(** [ISLAND_NONE], the [uint16_t] with all bits set; it is defined
    outside field.c, and field.c only compares identifiers with it. *)
Definition ISLAND_NONE : Z := 65535.

Definition manhattan_dist (a b : coord) : Z :=
  let dr := Z.abs (coord_r a - coord_r b) in
  let dc := Z.abs (coord_c a - coord_c b) in
  dr + dc.

(** The [while] loop of [field_closest_tiles_local]; [first_mh_dist] is
    [-1] until the first tile is written to [out]. *)
Fixpoint closest_tiles_loop (fuel : nat) (chunk : nav_chunk)
    (isl : island_ids) (target : coord) (local_iid global_iid : Z)
    (visited : Z -> Z -> bool) (q : list coord) (out : list coord)
    (first_mh_dist : Z) (maxout : Z) : option (list coord) :=
  match fuel with
  | O => None
  | S fuel' =>
      match qpop q with
      | None => Some out
      | Some (curr, q1) =>
          match fold_left (bfs_visit curr) bfs_deltas (Some (visited, q1))
          with
          | None => None
          | Some (visited', q2) =>
              let next :=
                closest_tiles_loop fuel' chunk isl target local_iid
                                   global_iid visited' q2 in
              let r := coord_r curr in
              let c := coord_c curr in
              let mh_dist := manhattan_dist target curr in
              if mh_dist <? first_mh_dist then None
              else if (first_mh_dist >? -1) && (mh_dist >? first_mh_dist)
              then if Z.of_nat (length out) >? 0 then Some out else None
              else if cost_base chunk r c =? COST_IMPASSABLE
              then next out first_mh_dist maxout
              else if blockers chunk r c >? 0
              then next out first_mh_dist maxout
              else if negb (global_iid =? ISLAND_NONE)
                      && negb (islands isl r c =? global_iid)
              then next out first_mh_dist maxout
              else if negb (local_iid =? ISLAND_NONE)
                      && negb (local_islands isl r c =? local_iid)
              then next out first_mh_dist maxout
              else
                let first' :=
                  if first_mh_dist =? -1 then mh_dist else first_mh_dist in
                let out' := out ++ [curr] in
                if Z.of_nat (length out') =? maxout then Some out'
                else next out' first' maxout
          end
      end
  end.

Definition field_closest_tiles_local (fuel : nat) (chunk : nav_chunk)
    (isl : island_ids) (target : coord) (local_iid global_iid : Z)
    (maxout : Z) : option (list coord) :=
  match qpush [] target with
  | None => None
  | Some q =>
      closest_tiles_loop fuel chunk isl target local_iid global_iid
        (upd (fun _ _ => false) (coord_r target) (coord_c target) true)
        q [] (-1) maxout
  end.

(** The tiles [field_closest_tiles_local] looks for: pathable, unblocked,
    and of the islands asked for. *)
Definition island_candidate (chunk : nav_chunk) (isl : island_ids)
    (local_iid global_iid : Z) (t : coord) : bool :=
  negb (at_coord (cost_base chunk) t =? COST_IMPASSABLE)
  && negb (at_coord (blockers chunk) t >? 0)
  && ((global_iid =? ISLAND_NONE) || (at_coord (islands isl) t =? global_iid))
  && ((local_iid =? ISLAND_NONE)
      || (at_coord (local_islands isl) t =? local_iid)).

(** A candidate of the field that no other candidate beats in Manhattan
    distance to [target]. *)
Definition nearest_candidate (cand : coord -> bool) (target t : coord)
    : Prop :=
  in_bounds t /\ cand t = true
  /\ forall u, in_bounds u -> cand u = true ->
       manhattan_dist target t <= manhattan_dist target u.

Fixpoint sorted_by (f : coord -> Z) (l : list coord) : Prop :=
  match l with
  | [] => True
  | x :: l' => (forall y, In y l' -> f x <= f y) /\ sorted_by f l'
  end.

(** The search of [field_closest_tiles_local] with [done] the tiles popped
    so far: the tiles leave the queue in the order of their distance. *)
Definition closest_bfs_inv (target : coord) (done : list coord)
    (visited : Z -> Z -> bool) (q : list coord) : Prop :=
  NoDup (done ++ q)
  /\ (forall t, at_coord visited t = true <-> In t (done ++ q))
  /\ (forall t, In t (done ++ q) -> in_bounds t)
  /\ sorted_by (manhattan_dist target) (done ++ q)
  /\ (forall t n, In t done -> in_bounds n -> adjacent4 n t ->
        at_coord visited n = true)
  /\ (forall h t, In h q -> In t q ->
        manhattan_dist target t <= manhattan_dist target h + 1)
  /\ In target (done ++ q)
  /\ Z.of_nat (length q) + Z.of_nat (unvisited_count visited)
     <= FIELD_RES_R * FIELD_RES_C.

Definition closest_out_inv (target : coord) (cand : coord -> bool)
    (done out : list coord) (first : Z) : Prop :=
  out = filter cand done
  /\ (forall t, In t out -> manhattan_dist target t = first)
  /\ (out = [] -> first = -1)
  /\ -1 <= first.

(** What [field_closest_tiles_local] returns, [n0] tiles being written
    already. *)
Definition closest_post (target : coord) (cand : coord -> bool)
    (maxout : Z) (n0 : nat) (res : list coord) : Prop :=
  NoDup res
  /\ (forall t, In t res -> nearest_candidate cand target t)
  /\ (Z.of_nat (length res) <> maxout \/ maxout <= 0 ->
      forall t, nearest_candidate cand target t -> In t res)
  /\ (Z.of_nat n0 < maxout -> Z.of_nat (length res) <= maxout).

(** ** Flow field toward the nearest tiles of an island
       (field.c, lines 1242-1322) *)

Definition INT_MAX : Z := 2147483647.

(** One round of the loop over the initial frontier, on [min_mh_dist] and
    the entries of [new_init_frontier]; a write past the end of
    [new_init_frontier] is the result [None]. *)
Definition island_nearest_step (fuel : nat) (chunk : nav_chunk)
    (isl : island_ids) (local_iid : Z) (st : option (Z * list coord))
    (curr : coord) : option (Z * list coord) :=
  match st with
  | None => None
  | Some (min_mh_dist, new_init_frontier) =>
      let nelems := FIELD_RES_R * FIELD_RES_C in
      let curr_giid := islands isl (coord_r curr) (coord_c curr) in
      let curr_liid := local_islands isl (coord_r curr) (coord_c curr) in
      if curr_liid =? local_iid then
        let new_init_frontier :=
          if min_mh_dist >? 0 then [] else new_init_frontier in
        if Z.of_nat (length new_init_frontier) <? nelems
        then Some (0, new_init_frontier ++ [curr])
        else None
      else
        match field_closest_tiles_local fuel chunk isl curr local_iid
                curr_giid (nelems - Z.of_nat (length new_init_frontier))
        with
        | None => None
        | Some [] => Some (min_mh_dist, new_init_frontier)
        | Some (t0 :: rest) =>
            let mh_dist := manhattan_dist t0 curr in
            let '(min_mh_dist, new_init_frontier) :=
              if mh_dist <? min_mh_dist then (mh_dist, [])
              else (min_mh_dist, new_init_frontier) in
            if mh_dist >? min_mh_dist
            then Some (min_mh_dist, new_init_frontier)
            else if Z.of_nat (length new_init_frontier)
                    + Z.of_nat (length (t0 :: rest)) <=? nelems
            then Some (min_mh_dist, new_init_frontier ++ t0 :: rest)
            else None
        end
  end.

(** [N_FlowFieldUpdateIslandToNearest] on the chunk of [inout_flow] whose
    island arrays are [isl], returning next to the flow field the entries
    of [new_init_frontier] and the integration field. *)
Definition N_FlowFieldUpdateIslandToNearest_run (fuel : nat) (local_iid : Z)
    (priv : nav_private) (isl : island_ids) (layer : Z) (faction_id : Z)
    (inout_flow : flow_field)
    : option (list coord * int_field * flow_field) :=
  let chunk_coord := ff_chunk inout_flow in
  let chunk :=
    chunks priv layer (IDX (coord_r chunk_coord) (width priv)
                           (coord_c chunk_coord)) in
  let nelems := FIELD_RES_R * FIELD_RES_C in
  match field_initial_frontier (ff_target inout_flow) chunk priv false
          faction_id nelems with
  | None => None
  | Some init_frontier =>
      match (if Z.of_nat (length init_frontier) =? 0
             then field_initial_frontier (ff_target inout_flow) chunk priv
                    true faction_id nelems
             else Some init_frontier) with
      | None => None
      | Some init_frontier =>
          match fold_left (island_nearest_step fuel chunk isl local_iid)
                  init_frontier (Some (INT_MAX, [])) with
          | None => None
          | Some (_, new_init_frontier) =>
              let '(frontier, integration_field) :=
                seed_frontier new_init_frontier
                              (pq_coord_init, all_infinite) in
              match field_build_integration fuel frontier chunk faction_id
                      integration_field with
              | None => None
              | Some integration_field =>
                  match field_build_flow integration_field inout_flow with
                  | None => None
                  | Some flow =>
                      match field_fixup (ff_target inout_flow)
                              integration_field flow chunk with
                      | None => None
                      | Some flow =>
                          Some (new_init_frontier, integration_field, flow)
                      end
                  end
              end
          end
      end
  end.

Definition N_FlowFieldUpdateIslandToNearest (fuel : nat) (local_iid : Z)
    (priv : nav_private) (isl : island_ids) (layer : Z) (faction_id : Z)
    (inout_flow : flow_field) : option flow_field :=
  option_map snd
    (N_FlowFieldUpdateIslandToNearest_run fuel local_iid priv isl layer
                                          faction_id inout_flow).

(** The tiles that may stand in for the frontier tile [f]: [f] itself
    when it belongs to the local island, otherwise the candidates of its
    global island nearest to it. *)
Definition island_replacement (chunk : nav_chunk) (isl : island_ids)
    (local_iid : Z) (f s : coord) : Prop :=
  if at_coord (local_islands isl) f =? local_iid then s = f
  else nearest_candidate
         (island_candidate chunk isl local_iid (at_coord (islands isl) f))
         f s.

(** The loop over the initial frontier after the tiles [seen]. *)
Definition island_select_inv (chunk : nav_chunk) (isl : island_ids)
    (local_iid : Z) (seen : list coord) (st : Z * list coord) : Prop :=
  0 <= fst st
  /\ (forall s, In s (snd st) ->
        exists f, In f seen /\ island_replacement chunk isl local_iid f s
                  /\ manhattan_dist s f = fst st)
  /\ (forall f s, In f seen -> island_replacement chunk isl local_iid f s ->
        fst st <= manhattan_dist s f).

End WithParams.

(** ** A list-backed priority queue

    The entries in insertion order; [pop] removes the first entry of least
    priority. It gives the interface [PQueue] a computable inhabitant. *)

Definition lpq_min_prio (q : list (fnum * coord)) : fnum :=
  fold_right (fun e m => MIN (fst e) m) PosInf q.

Fixpoint lpq_extract (p : fnum) (q : list (fnum * coord))
    : option (coord * list (fnum * coord)) :=
  match q with
  | [] => None
  | e :: q' =>
      if feqb (fst e) p then Some (snd e, q')
      else
        match lpq_extract p q' with
        | None => None
        | Some (x, rest) => Some (x, e :: rest)
        end
  end.

Definition lpq_pop (q : list (fnum * coord))
    : option (coord * list (fnum * coord)) :=
  lpq_extract (lpq_min_prio q) q.

Definition lpq_push (q : list (fnum * coord)) (p : fnum) (x : coord)
    : list (fnum * coord) :=
  q ++ [(p, x)].

Definition lpq_contains (q : list (fnum * coord)) (cmp : coord -> coord -> Z)
    (x : coord) : bool :=
  existsb (fun e => cmp (snd e) x =? 0) q.

(** ** Scenario data

    Modelled from the spec: the 8 x 8 field of the end-to-end scenarios of
    section 8, with sample values for the constants the sources at hand do
    not fix (16 factions, -1 for "no faction", the enum members numbered in
    declaration order). *)
Definition scenario_params : nav_params := {|
  FIELD_RES_R := 8;
  FIELD_RES_C := 8;
  MAX_FACTIONS := 16;
  FACTION_ID_NONE := -1;
  target_type_code := fun t =>
    match t with
    | TARGET_PORTAL => 0
    | TARGET_TILE => 1
    | TARGET_ENEMIES => 2
    | TARGET_PORTALMASK => 3
    end
|}.

(** Sample collaborators: no diplomacy, destinations without a faction on
    layer 0, no enemies, and a shadow-line slope computed in integers from
    the tile offsets (world x runs against the column index, world z with
    the row index). *)
Definition scenario_slope (target corner : tile_desc) : los_slope :=
  let vx :=
    - ((chunk_c target * 8 + tile_c target)
       - (chunk_c corner * 8 + tile_c corner)) in
  let vz :=
    (chunk_r target * 8 + tile_r target)
    - (chunk_r corner * 8 + tile_r corner) in
  let norm := Z.sqrt (1000000 * (vx * vx + vz * vz)) in
  LosSlope (Z.quot (1000000 * vx) norm) (Z.quot (1000000 * vz) norm)
           (0 <? vx) (vz <? 0).

Definition scenario_env : nav_env := {|
  vec3_t := unit;
  entity := Z;
  G_GetEnemyFactions := fun _ => 0;
  N_DestFactionID := fun _ => -1;
  N_DestLayer := fun _ => 0;
  Sched_UsingBigStack := true;
  G_Pos_EntsInRect := fun _ => [];
  G_GetFactionID := fun _ => 0;
  ent_combatable := fun _ => false;
  G_GetDiplomacyState := fun _ _ => None;
  G_Fog_ObjVisible := fun _ => false;
  ent_tiles := fun _ _ _ => [];
  wavefront_slope := fun target corner _ _ => scenario_slope target corner
|}.

(** Collaborators with a war on: factions 0 and 1 are enemies of each
    other, faction 2 is at peace with both. Three entities are found for
    the chunk (0,0), each of the faction its number names: entity 0
    belongs to faction 0, entity 1 stands on the tiles (2,5) and (2,6) of
    the chunk and on a tile of its eastern neighbour, entity 2 stands on
    the tile (4,4). *)
Definition war_env : nav_env := {|
  vec3_t := unit;
  entity := Z;
  G_GetEnemyFactions := fun f => if f =? 0 then 2 else if f =? 1 then 1 else 0;
  N_DestFactionID := fun _ => -1;
  N_DestLayer := fun _ => 0;
  Sched_UsingBigStack := true;
  G_Pos_EntsInRect := fun en =>
    if (coord_r (enemies_chunk en) =? 0) && (coord_c (enemies_chunk en) =? 0)
    then [0; 1; 2] else [];
  G_GetFactionID := fun ent => ent;
  ent_combatable := fun _ => true;
  G_GetDiplomacyState := fun a b =>
    if a =? b then None
    else Some (((a =? 0) && (b =? 1)) || ((a =? 1) && (b =? 0)));
  G_Fog_ObjVisible := fun _ => true;
  ent_tiles := fun _ _ ent =>
    if ent =? 1
    then [TileDesc 0 0 2 5; TileDesc 0 0 2 6; TileDesc 0 1 2 0]
    else if ent =? 2 then [TileDesc 0 0 4 4]
    else [TileDesc 0 0 0 0];
  wavefront_slope := fun target corner _ _ => scenario_slope target corner
|}.

Definition no_portal : portal :=
  Portal (Coord 0 0) (Coord 0 0) (Coord 0 0) (Coord 0 0).

(** A chunk given by its cost and blocker grids, without factions or
    portals. *)
Definition plain_chunk (cost blk : Z -> Z -> Z) : nav_chunk :=
  NavChunk cost blk (fun _ _ _ => false) 0 (fun _ => no_portal).

Definition open_chunk : nav_chunk := plain_chunk (fun _ _ => 1) (fun _ _ => 0).

(** A one-chunk map. *)
Definition single_chunk_map (chunk : nav_chunk) : nav_private :=
  NavPrivate 1 1 (fun _ _ => chunk).

Definition empty_flow : flow_field :=
  FlowField (Coord 0 0) (Target_tile (Coord 0 0)) (fun _ _ => FD_NONE).

(** Reading one cell out of the result of a run. *)
Definition flow_dir_at (res : option (int_field * flow_field)) (t : coord)
    : option flow_dir :=
  option_map (fun p => at_coord (dir_idx (snd p)) t) res.

Definition integration_at (res : option (int_field * flow_field)) (t : coord)
    : option fnum :=
  option_map (fun p => at_coord (fst p) t) res.

(** A field with one impassable tile at (1,2) and one expensive tile (cost
    5) at (2,3), and a TILE target at (2,4). *)
Definition corner_chunk : nav_chunk :=
  plain_chunk (fun r c =>
                 if (r =? 1) && (c =? 2) then 255
                 else if (r =? 2) && (c =? 3) then 5
                 else 1)
              (fun _ _ => 0).

(** A flow field left over from an earlier update: every cell points east. *)
Definition stale_flow : flow_field :=
  FlowField (Coord 0 0) (Target_tile (Coord 0 0)) (fun _ _ => FD_E).

(** A chunk without a passable tile. *)
Definition walled_chunk : nav_chunk :=
  plain_chunk (fun _ _ => 255) (fun _ _ => 0).

(** Chunk (1,1) of a 3 x 3 map with two portals: portal 0 on its top edge
    (tiles (0,3)..(0,5)) leads to chunk (0,1) above, portal 1 on its right
    edge (tiles (3,7)..(5,7)) leads to chunk (1,2). *)
Definition top_portal : portal :=
  Portal (Coord 1 1) (Coord 0 3) (Coord 0 5) (Coord 0 1).

Definition right_portal : portal :=
  Portal (Coord 1 1) (Coord 3 7) (Coord 5 7) (Coord 1 2).

Definition two_portal_chunk : nav_chunk :=
  NavChunk (fun _ _ => 1) (fun _ _ => 0) (fun _ _ _ => false) 2
           (fun i => if i =? 0 then top_portal else right_portal).

Definition two_portal_map : nav_private :=
  NavPrivate 3 3 (fun _ _ => two_portal_chunk).

(** Two blockers side by side at (4,3) and (4,4). *)
Definition two_blocker_chunk : nav_chunk :=
  plain_chunk (fun _ _ => 1)
              (fun r c => if (r =? 4) && ((c =? 3) || (c =? 4)) then 1 else 0).

(** An open field whose tile (0,1) costs 2. *)
Definition costly_chunk : nav_chunk :=
  plain_chunk (fun r c => if (r =? 0) && (c =? 1) then 2 else 1)
              (fun _ _ => 0).

Definition los_tile_at (res : option LOS_field) (t : coord) : option los_tile :=
  option_map (fun los => at_coord (los_field los) t) res.

Definition los_none_blocked (res : option LOS_field) : bool :=
  match res with
  | Some los =>
      forallb (fun t => negb (wavefront_blocked (at_coord (los_field los) t)))
              (grid 8 8)
  | None => false
  end.


(** One global island split into a western local island 1 (columns 0-3)
    and an eastern local island 2 (columns 4-7). *)
Definition west_east_islands : island_ids :=
  IslandIds (fun _ _ => 0) (fun _ c => if c <? 4 then 1 else 2).

(** * Properties *)

(** ** Basic facts about coordinates, maps and enumerations *)

Lemma coord_eqb_eq (a b : coord) : coord_eqb a b = true <-> a = b.
Proof.
  destruct a as [ar ac], b as [br bc]; unfold coord_eqb; simpl.
  rewrite andb_true_iff, !Z.eqb_eq. split.
  - intros [-> ->]; reflexivity.
  - intros H; inversion H; auto.
Qed.

Lemma coord_eqb_refl (a : coord) : coord_eqb a a = true.
Proof. apply coord_eqb_eq; reflexivity. Qed.

Lemma coord_eqb_neq (a b : coord) : coord_eqb a b = false <-> a <> b.
Proof.
  split.
  - intros H E. apply coord_eqb_eq in E. congruence.
  - intros H. destruct (coord_eqb a b) eqn:E; [|reflexivity].
    apply coord_eqb_eq in E. contradiction.
Qed.

Lemma coord_eq_dec (a b : coord) : {a = b} + {a <> b}.
Proof.
  destruct (coord_eqb a b) eqn:E.
  - left. apply coord_eqb_eq; exact E.
  - right. apply coord_eqb_neq; exact E.
Defined.

Lemma upd_same {A} (f : Z -> Z -> A) r c v : upd f r c v r c = v.
Proof. unfold upd. rewrite !Z.eqb_refl. reflexivity. Qed.

Lemma upd_other {A} (f : Z -> Z -> A) r c v r' c' :
  (r', c') <> (r, c) -> upd f r c v r' c' = f r' c'.
Proof.
  intros H. unfold upd.
  destruct (r' =? r) eqn:Er; destruct (c' =? c) eqn:Ec; simpl; auto.
  apply Z.eqb_eq in Er, Ec. subst. contradiction.
Qed.

Lemma in_zrange (lo n x : Z) : In x (zrange lo n) <-> lo <= x < lo + n.
Proof.
  unfold zrange. rewrite in_map_iff. split.
  - intros [i [<- Hi]]. apply in_seq in Hi. lia.
  - intros H. exists (Z.to_nat (x - lo)). split; [lia|].
    apply in_seq. lia.
Qed.

Lemma in_boundsb_spec {P : nav_params} (t : coord) :
  in_boundsb t = true <-> in_bounds t.
Proof.
  unfold in_boundsb, in_bounds.
  rewrite !andb_true_iff, !Z.leb_le, !Z.ltb_lt. tauto.
Qed.

Lemma in_grid (nr nc : Z) (t : coord) :
  In t (grid nr nc) <-> (0 <= coord_r t < nr /\ 0 <= coord_c t < nc).
Proof.
  unfold grid. rewrite in_flat_map. split.
  - intros [r [Hr Ht]]. apply in_map_iff in Ht. destruct Ht as [c [<- Hc]].
    apply in_zrange in Hr, Hc. simpl. lia.
  - intros [Hr Hc]. exists (coord_r t). split.
    + apply in_zrange. lia.
    + apply in_map_iff. exists (coord_c t). split.
      * destruct t; reflexivity.
      * apply in_zrange. lia.
Qed.

(** ** Float comparisons *)

Lemma flt_irrefl a : flt a a = false.
Proof. destruct a; simpl; auto. apply Z.ltb_irrefl. Qed.

Lemma flt_PosInf a : flt a PosInf = true <-> is_finite a.
Proof.
  unfold is_finite. destruct a; simpl; split; intros H; try discriminate; eauto.
  destruct H; discriminate.
Qed.

Lemma feqb_eq a b : feqb a b = true <-> a = b.
Proof.
  destruct a, b; simpl; split; intros H; try discriminate; auto.
  - apply Z.eqb_eq in H. congruence.
  - inversion H. apply Z.eqb_refl.
Qed.

Lemma feqb_refl a : feqb a a = true.
Proof. apply feqb_eq. reflexivity. Qed.

Lemma flt_trans a b c : flt a b = true -> flt b c = true -> flt a c = true.
Proof.
  destruct a, b, c; simpl; intros H1 H2; try discriminate; auto.
  apply Z.ltb_lt in H1, H2. apply Z.ltb_lt. lia.
Qed.

(** [a <= b] on floats, as [!(b < a)]. *)
Lemma fle_trans a b c : flt b a = false -> flt c b = false -> flt c a = false.
Proof.
  destruct a, b, c; simpl; intros H1 H2; try discriminate; auto.
  apply Z.ltb_ge in H1, H2. apply Z.ltb_ge. lia.
Qed.

Lemma MIN_cases a b : MIN a b = a \/ MIN a b = b.
Proof. unfold MIN. destruct (flt a b); auto. Qed.

Lemma MIN_le_l a b : flt a (MIN a b) = false.
Proof.
  unfold MIN. destruct (flt a b) eqn:H; [apply flt_irrefl | exact H].
Qed.

Lemma MIN_le_r a b : flt b (MIN a b) = false.
Proof.
  unfold MIN. destruct (flt a b) eqn:H; [|apply flt_irrefl].
  destruct a, b; simpl in *; auto; try discriminate.
  apply Z.ltb_lt in H. apply Z.ltb_ge. lia.
Qed.

Lemma min_step_cases cond v m :
  min_step cond v m = m \/ (cond = true /\ min_step cond v m = v).
Proof.
  unfold min_step. destruct cond; auto.
  destruct (MIN_cases m v) as [->| ->]; auto.
Qed.

Lemma min_step_le_acc cond v m : flt m (min_step cond v m) = false.
Proof.
  unfold min_step. destruct cond; [apply MIN_le_l | apply flt_irrefl].
Qed.

Lemma min_step_le_val v m : flt v (min_step true v m) = false.
Proof. apply MIN_le_r. Qed.

(** ** The list-backed queue implements the interface *)

Lemma lpq_min_prio_le q e : In e q -> flt (fst e) (lpq_min_prio q) = false.
Proof.
  induction q as [|e0 q IH]; intros Hin; [destruct Hin|]. simpl.
  destruct Hin as [->|Hin].
  - apply MIN_le_l.
  - eapply fle_trans; [apply MIN_le_r | apply IH; exact Hin].
Qed.

Lemma lpq_min_prio_in q :
  q <> [] -> exists e, In e q /\ fst e = lpq_min_prio q.
Proof.
  induction q as [|e0 q IH]; intros Hne; [contradiction|]. simpl.
  destruct (MIN_cases (fst e0) (lpq_min_prio q)) as [Hm|Hm]; rewrite Hm.
  - exists e0. auto.
  - destruct q as [|e1 q'].
    + simpl in *. exists e0. split; [left; reflexivity|].
      unfold MIN in Hm. destruct (fst e0); simpl in *; [discriminate|reflexivity].
    + destruct IH as (e & Hin & He); [discriminate|].
      exists e. split; [right; exact Hin | exact He].
Qed.

Lemma lpq_extract_some p q :
  (exists e, In e q /\ fst e = p) ->
  exists x rest, lpq_extract p q = Some (x, rest)
                 /\ Permutation q ((p, x) :: rest).
Proof.
  induction q as [|e0 q IH]; intros (e & Hin & He); [destruct Hin|]. simpl.
  destruct (feqb (fst e0) p) eqn:Heq.
  - apply feqb_eq in Heq. exists (snd e0), q. split; [reflexivity|].
    destruct e0; simpl in *; subst. apply Permutation_refl.
  - destruct Hin as [->|Hin].
    + rewrite He, feqb_refl in Heq. discriminate.
    + destruct IH as (x & rest & Hx & Hperm); [eauto|].
      rewrite Hx. exists x, (e0 :: rest). split; [reflexivity|].
      eapply Permutation_trans; [apply perm_skip; exact Hperm|].
      apply perm_swap.
Qed.

Lemma lpq_pop_spec q :
  q <> [] ->
  exists p x q', lpq_pop q = Some (x, q')
    /\ Permutation q ((p, x) :: q')
    /\ forall e, In e q -> flt (fst e) p = false.
Proof.
  intros Hne. unfold lpq_pop.
  destruct (lpq_extract_some (lpq_min_prio q) q (lpq_min_prio_in q Hne))
    as (x & rest & Hx & Hperm).
  exists (lpq_min_prio q), x, rest. split; [exact Hx|]. split; [exact Hperm|].
  apply lpq_min_prio_le.
Qed.

Lemma lpq_push_spec q p x : Permutation (lpq_push q p x) ((p, x) :: q).
Proof.
  unfold lpq_push. apply Permutation_sym, Permutation_cons_append.
Qed.

Lemma lpq_pop_nil q : q = [] -> lpq_pop q = None.
Proof. intros ->. reflexivity. Qed.

#[export] Instance list_pqueue : PQueue := {|
  pq_coord_t := list (fnum * coord);
  pq_entries := fun q => q;
  pq_coord_init := [];
  pq_size := fun q => Z.of_nat (length q);
  pq_coord_push := lpq_push;
  pq_coord_pop := lpq_pop;
  pq_coord_contains := lpq_contains;
  pq_init_entries := eq_refl;
  pq_size_entries := fun q => eq_refl;
  pq_push_entries := lpq_push_spec;
  pq_pop_empty := lpq_pop_nil;
  pq_pop_entries := lpq_pop_spec;
  pq_contains_entries := fun q cmp x => eq_refl
|}.

(** ** Scenario runs *)

(** Scenario 1 of the spec: an open field with a TILE target at (4,4). *)
Abbreviation open_field_run :=
  (N_FlowFieldUpdate_run (P := scenario_params) (E := scenario_env) 200
    (Coord 0 0) (single_chunk_map open_chunk) (-1) 0
    (Target_tile (Coord 4 4)) empty_flow)
  (only parsing).

Abbreviation corner_run :=
  (N_FlowFieldUpdate_run (P := scenario_params) (E := scenario_env) 200
    (Coord 0 0) (single_chunk_map corner_chunk) (-1) 0
    (Target_tile (Coord 2 4)) empty_flow)
  (only parsing).

(** Scenario 6 of the spec: a 3 x 3 block of blockers at rows and columns
    2..4, and a start tile (3,3) in its middle. *)
Definition blocked_square : nav_chunk :=
  plain_chunk (fun _ _ => 1)
              (fun r c =>
                 if (2 <=? r) && (r <=? 4) && (2 <=? c) && (c <=? 4)
                 then 1 else 0).

Abbreviation blocked_square_run :=
  (N_FlowFieldUpdateToNearestPathable_run (P := scenario_params)
    (E := scenario_env) 200 blocked_square (Coord 3 3) (-1) empty_flow)
  (only parsing).


(** The integration field of scenario 1, built from its single seed. *)
Abbreviation open_field_integration :=
  (field_build_integration (P := scenario_params) (E := scenario_env)
    (Q := list_pqueue) 200
    (fst (seed_frontier [Coord 4 4] (pq_coord_init, all_infinite)))
    open_chunk (-1)
    (snd (seed_frontier [Coord 4 4] (pq_coord_init, all_infinite))))
  (only parsing).

(** The corner field again, over a stale flow field. *)
Abbreviation corner_stale_run :=
  (N_FlowFieldUpdate_run (P := scenario_params) (E := scenario_env) 200
    (Coord 0 0) (single_chunk_map corner_chunk) (-1) 0
    (Target_tile (Coord 2 4)) stale_flow)
  (only parsing).

Abbreviation blocked_square_stale_run :=
  (N_FlowFieldUpdateToNearestPathable_run (P := scenario_params)
    (E := scenario_env) 200 blocked_square (Coord 3 3) (-1) stale_flow)
  (only parsing).

(** Scenario 3 of the spec: a PORTAL target on the top edge. *)
Abbreviation top_portal_run :=
  (N_FlowFieldUpdate_run (P := scenario_params) (E := scenario_env) 200
    (Coord 1 1) two_portal_map (-1) 0 (Target_portal top_portal) empty_flow)
  (only parsing).

(** A PORTAL_MASK target that selects both portals of the chunk. *)
Abbreviation both_portals_run :=
  (N_FlowFieldUpdate_run (P := scenario_params) (E := scenario_env) 200
    (Coord 1 1) two_portal_map (-1) 0 (Target_portalmask 3) empty_flow)
  (only parsing).

(** Line-of-sight fields of the destination chunk, target tile (7,7). *)
Abbreviation los_run chunk :=
  (N_LOSFieldCreate (P := scenario_params) (E := scenario_env)
    (Q := list_pqueue) 200 0 (Coord 0 0) (TileDesc 0 0 7 7)
    (single_chunk_map chunk) tt None)
  (only parsing).

(** The state of the wavefront loop after seeding at (0,0). *)
Definition los_seeded_state : los_state (Q := list_pqueue) :=
  LosState (pq_coord_push pq_coord_init (Finite 0) (Coord 0 0))
           (LOSField (Coord 0 0) (fun _ _ => LosTile false false))
           (upd all_infinite 0 0 (Finite 0)).

(** The integration field of the corner field, built from its target. *)
Abbreviation corner_integration :=
  (field_build_integration (P := scenario_params) (E := scenario_env)
    (Q := list_pqueue) 200
    (fst (seed_frontier [Coord 2 4] (pq_coord_init, all_infinite)))
    corner_chunk (-1)
    (snd (seed_frontier [Coord 2 4] (pq_coord_init, all_infinite))))
  (only parsing).

(** The integration field over the blocked square, built from the four
    passable tiles next to the middles of its sides. *)
Abbreviation blocked_square_integration :=
  (field_build_integration_nonpass (P := scenario_params)
    (E := scenario_env) (Q := list_pqueue) 200
    (fst (seed_frontier [Coord 1 3; Coord 3 1; Coord 3 5; Coord 5 3]
                        (pq_coord_init, all_infinite)))
    blocked_square (-1)
    (snd (seed_frontier [Coord 1 3; Coord 3 1; Coord 3 5; Coord 5 3]
                        (pq_coord_init, all_infinite))))
  (only parsing).

(** The passable frontier of the blocked square, searched from its middle. *)
Abbreviation blocked_square_frontier :=
  (field_passable_frontier (P := scenario_params) 200 blocked_square
    (Coord 3 3) 64)
  (only parsing).

(** The island update of an open field toward the tile (2,6) of the
    eastern half, for the western local island. *)
Abbreviation west_island_run :=
  (N_FlowFieldUpdateIslandToNearest_run (P := scenario_params)
    (E := scenario_env) (Q := list_pqueue) 200 1
    (single_chunk_map open_chunk) west_east_islands 0 (-1)
    (FlowField (Coord 0 0) (Target_tile (Coord 2 6)) (fun _ _ => FD_NONE)))
  (only parsing).
(** ** Passability *)

Lemma land_bit_eqb (a i : Z) :
  0 <= i -> (Z.land a (Z.shiftl 1 i) =? 0) = negb (Z.testbit a i).
Proof.
  intros Hi. rewrite Z.shiftl_1_l.
  destruct (Z.testbit a i) eqn:Hb; simpl.
  - apply Z.eqb_neq. intros H0.
    assert (Hc : Z.testbit (Z.land a (2 ^ i)) i = true).
    { rewrite Z.land_spec, Hb, Z.pow2_bits_true by lia. reflexivity. }
    rewrite H0, Z.bits_0 in Hc. discriminate.
  - apply Z.eqb_eq. apply Z.bits_inj'. intros n Hn.
    rewrite Z.land_spec, Z.bits_0, Z.pow2_bits_eqb by lia.
    destruct (Z.eqb_spec i n) as [->|Hne].
    + rewrite Hb. reflexivity.
    + apply andb_false_r.
Qed.

Lemma field_tile_passable_true (chunk : nav_chunk) (t : coord) :
  field_tile_passable chunk t = true <->
  cost_base chunk (coord_r t) (coord_c t) <> COST_IMPASSABLE
  /\ blockers chunk (coord_r t) (coord_c t) <= 0.
Proof.
  unfold field_tile_passable.
  destruct (Z.eqb_spec (cost_base chunk (coord_r t) (coord_c t)) COST_IMPASSABLE).
  - split; [discriminate | intros [H _]; contradiction].
  - rewrite Z.gtb_ltb.
    destruct (Z.ltb_spec 0 (blockers chunk (coord_r t) (coord_c t))).
    + split; [discriminate | lia].
    + split; auto.
Qed.

Section PassabilityFacts.

Context {P : nav_params} {E : nav_env}.

Lemma enemies_only_scan_true chunk t enemies idxs :
  (forall i, In i idxs -> 0 <= i) ->
  (enemies_only_scan chunk t enemies idxs = true <->
   forall i, In i idxs ->
     factions chunk i (coord_r t) (coord_c t) = true ->
     Z.testbit enemies i = true).
Proof.
  induction idxs as [|i idxs IH]; intros Hpos; simpl.
  - split; [intros _ i [] | reflexivity].
  - rewrite land_bit_eqb by (apply Hpos; left; reflexivity).
    destruct (factions chunk i (coord_r t) (coord_c t)) eqn:Hf;
      destruct (Z.testbit enemies i) eqn:Hb; simpl.
    + rewrite IH by (intros; apply Hpos; right; assumption).
      split; intros H j.
      * intros [<-|Hj]; [intros _; exact Hb | apply H; exact Hj].
      * intros Hj. apply H. right; exact Hj.
    + split; [discriminate|]. intros H.
      specialize (H i (or_introl eq_refl) Hf). congruence.
    + rewrite IH by (intros; apply Hpos; right; assumption).
      split; intros H j.
      * intros [<-|Hj]; [congruence | apply H; exact Hj].
      * intros Hj. apply H. right; exact Hj.
    + rewrite IH by (intros; apply Hpos; right; assumption).
      split; intros H j.
      * intros [<-|Hj]; [congruence | apply H; exact Hj].
      * intros Hj. apply H. right; exact Hj.
Qed.

Lemma enemies_only_scan_spec chunk t enemies :
  enemies_only_scan chunk t enemies (zrange 0 MAX_FACTIONS) = true <->
  no_other_faction chunk t enemies.
Proof.
  rewrite enemies_only_scan_true.
  - unfold no_other_faction. split; intros H i Hi.
    + apply H. apply in_zrange. lia.
    + apply H. apply in_zrange in Hi. lia.
  - intros i Hi. apply in_zrange in Hi. lia.
Qed.

Lemma enemies_only_scan_false_in chunk t enemies idxs :
  (forall i, In i idxs -> 0 <= i) ->
  (enemies_only_scan chunk t enemies idxs = false <->
   exists i, In i idxs
             /\ factions chunk i (coord_r t) (coord_c t) = true
             /\ Z.testbit enemies i = false).
Proof.
  induction idxs as [|i idxs IH]; intros Hpos; cbn [enemies_only_scan].
  - split; [discriminate|intros (i & [] & _)].
  - rewrite land_bit_eqb by (apply Hpos; left; reflexivity).
    assert (Hpos' : forall j, In j idxs -> 0 <= j)
      by (intros j Hj; apply Hpos; right; exact Hj).
    destruct (factions chunk i (coord_r t) (coord_c t)) eqn:Hf;
      destruct (Z.testbit enemies i) eqn:Hb; cbn [andb negb].
    2:{ split; [intros _|reflexivity].
        exists i. split; [left; reflexivity|auto]. }
    all: rewrite (IH Hpos'); split;
      [intros (j & Hj & H); exists j; split; [right; exact Hj|exact H]
      |intros (j & [<-|Hj] & Hfj & Hbj);
       [congruence|exists j; split; [exact Hj|auto]]].
Qed.

Lemma enemies_only_scan_false chunk t enemies :
  enemies_only_scan chunk t enemies (zrange 0 MAX_FACTIONS) = false <->
  other_faction_present chunk t enemies.
Proof.
  rewrite enemies_only_scan_false_in
    by (intros i Hi; apply in_zrange in Hi; lia).
  unfold other_faction_present.
  split; intros (i & Hi & H); exists i; (split; [|exact H]).
  - apply in_zrange in Hi. lia.
  - apply in_zrange. lia.
Qed.



Lemma field_tile_passable_no_enemies_true chunk t enemies :
  field_tile_passable_no_enemies chunk t enemies = true <->
  cost_base chunk (coord_r t) (coord_c t) <> COST_IMPASSABLE
  /\ (blockers chunk (coord_r t) (coord_c t) <= 0
      \/ no_other_faction chunk t enemies).
Proof.
  unfold field_tile_passable_no_enemies.
  destruct (Z.eqb_spec (cost_base chunk (coord_r t) (coord_c t)) COST_IMPASSABLE).
  - split; [discriminate | intros [H _]; contradiction].
  - destruct (enemies_only_scan chunk t enemies (zrange 0 MAX_FACTIONS)) eqn:Hs.
    + apply enemies_only_scan_spec in Hs. split; auto.
    + assert (Hn : ~ no_other_faction chunk t enemies).
      { intros H. apply enemies_only_scan_spec in H. congruence. }
      rewrite Z.gtb_ltb.
      destruct (Z.ltb_spec 0 (blockers chunk (coord_r t) (coord_c t))).
      * split; [discriminate|]. intros [_ [H1|H1]]; [lia|contradiction].
      * split; auto.
Qed.

(** When a tile is not passable for a faction. *)
Lemma tile_passable_for_false chunk faction_id t :
  tile_passable_for chunk faction_id t = false <->
  at_coord (cost_base chunk) t = COST_IMPASSABLE
  \/ (0 < at_coord (blockers chunk) t
      /\ (faction_id = FACTION_ID_NONE
          \/ other_faction_present chunk t (G_GetEnemyFactions faction_id))).
Proof.
  unfold tile_passable_for, enemies_of, at_coord.
  destruct (Z.eqb_spec faction_id FACTION_ID_NONE) as [Hf|Hf].
  - unfold field_tile_passable.
    destruct (Z.eqb_spec (cost_base chunk (coord_r t) (coord_c t))
                         COST_IMPASSABLE) as [Hc|Hc]; [tauto|].
    rewrite Z.gtb_ltb.
    destruct (Z.ltb_spec 0 (blockers chunk (coord_r t) (coord_c t)));
      [tauto|].
    split; [discriminate|]. intros [H'|[H' _]]; [contradiction|lia].
  - unfold field_tile_passable_no_enemies.
    destruct (Z.eqb_spec (cost_base chunk (coord_r t) (coord_c t))
                         COST_IMPASSABLE) as [Hc|Hc]; [tauto|].
    cbv zeta.
    destruct (enemies_only_scan chunk t (G_GetEnemyFactions faction_id)
                (zrange 0 MAX_FACTIONS)) eqn:Hs.
    + split; [discriminate|].
      intros [H'|[_ [H'|H']]]; [contradiction|contradiction|].
      apply enemies_only_scan_false in H'. congruence.
    + apply enemies_only_scan_false in Hs. rewrite Z.gtb_ltb.
      destruct (Z.ltb_spec 0 (blockers chunk (coord_r t) (coord_c t)));
        [tauto|].
      split; [discriminate|]. intros [H'|[H' _]]; [contradiction|lia].
Qed.


End PassabilityFacts.



(** ** Flow-field identities *)

Lemma lor_high_low (h y k : Z) :
  0 <= k -> 0 <= y < 2 ^ k -> Z.lor (h * 2 ^ k) y = h * 2 ^ k + y.
Proof.
  intros Hk Hy.
  rewrite <- (Z.add_lor_land (h * 2 ^ k) y).
  replace (Z.land (h * 2 ^ k) y) with 0; [lia|].
  symmetry. apply Z.bits_inj'. intros n Hn.
  rewrite Z.land_spec, Z.bits_0.
  destruct (Z.ltb_spec n k).
  - rewrite Z.mul_pow2_bits_low by lia. reflexivity.
  - replace y with (y mod 2 ^ k) by (apply Z.mod_small; lia).
    rewrite Z.mod_pow2_bits_high by lia. apply andb_false_r.
Qed.

Lemma shl64_small (x k : Z) :
  0 <= k -> 0 <= x -> x * 2 ^ k < 2 ^ 64 -> shl64 x k = x * 2 ^ k.
Proof.
  intros Hk Hx Hlt. unfold shl64, u64.
  assert (0 < 2 ^ k) by (apply Z.pow_pos_nonneg; lia).
  rewrite (Z.mod_small x) by nia.
  rewrite Z.shiftl_mul_pow2 by lia.
  apply Z.mod_small. nia.
Qed.

Lemma lor_sum (x y k h : Z) :
  x = h * 2 ^ k -> 0 <= k -> 0 <= y < 2 ^ k -> Z.lor x y = x + y.
Proof. intros -> Hk Hy. apply lor_high_low; assumption. Qed.

Ltac lor_first k h :=
  match goal with
  | |- context [Z.lor (?a * ?b) ?y] => rewrite (lor_sum (a * b) y k h) by lia
  end.

Ltac lor_next k h :=
  match goal with
  | |- context [Z.lor (?a + ?b) ?y] => rewrite (lor_sum (a + b) y k h) by lia
  end.

Section IdentityFacts.

Context {P : nav_params}.

Hypothesis code_range : forall t, 0 <= target_type_code t < 16.

Lemma flow_field_id_closed_form chunk target layer :
  id_fields_in_range chunk target layer ->
  N_FlowField_ID chunk target layer
  = Some (layer * 2 ^ 60
          + target_type_code (target_type_of target) * 2 ^ 56
          + id_payload target
          + coord_r chunk * 2 ^ 8 + coord_c chunk).
Proof.
  intros (Hl & [Hcr Hcc] & Ht).
  pose proof (code_range (target_type_of target)) as Hc.
  destruct target as [port|tile|en|mask];
    unfold N_FlowField_ID, id_payload; cbn [target_type_of] in *;
    cbn [id_fields_in_range] in Ht; [| | |contradiction].
  - destruct Ht as [[Ha Hb] [Hd He]].
    set (T := target_type_code TARGET_PORTAL) in *.
    rewrite !shl64_small by lia. f_equal.
    lor_first 60 layer.
    lor_next 56 (layer * 16 + T).
    lor_next 40 (layer * 2 ^ 20 + T * 2 ^ 16 + coord_r (endpoints0 port)).
    lor_next 32 (layer * 2 ^ 28 + T * 2 ^ 24 + coord_r (endpoints0 port) * 2 ^ 8
       + coord_c (endpoints0 port)).
    lor_next 24 (layer * 2 ^ 36 + T * 2 ^ 32 + coord_r (endpoints0 port) * 2 ^ 16
       + coord_c (endpoints0 port) * 2 ^ 8 + coord_r (endpoints1 port)).
    lor_next 16 (layer * 2 ^ 44 + T * 2 ^ 40 + coord_r (endpoints0 port) * 2 ^ 24
       + coord_c (endpoints0 port) * 2 ^ 16 + coord_r (endpoints1 port) * 2 ^ 8
       + coord_c (endpoints1 port)).
    lor_next 8 (layer * 2 ^ 52 + T * 2 ^ 48 + coord_r (endpoints0 port) * 2 ^ 32
       + coord_c (endpoints0 port) * 2 ^ 24 + coord_r (endpoints1 port) * 2 ^ 16
       + coord_c (endpoints1 port) * 2 ^ 8 + coord_r chunk).
    lia.
  - destruct Ht as [Ha Hb].
    set (T := target_type_code TARGET_TILE) in *.
    rewrite !shl64_small by lia. f_equal.
    lor_first 60 layer.
    lor_next 56 (layer * 16 + T).
    lor_next 24 (layer * 2 ^ 36 + T * 2 ^ 32 + coord_r tile).
    lor_next 16 (layer * 2 ^ 44 + T * 2 ^ 40 + coord_r tile * 2 ^ 8 + coord_c tile).
    lor_next 8 (layer * 2 ^ 52 + T * 2 ^ 48 + coord_r tile * 2 ^ 16
       + coord_c tile * 2 ^ 8 + coord_r chunk).
    lia.
  - set (T := target_type_code TARGET_ENEMIES) in *.
    rewrite !shl64_small by lia. f_equal.
    lor_first 60 layer.
    lor_next 56 (layer * 16 + T).
    lor_next 24 (layer * 2 ^ 36 + T * 2 ^ 32 + enemies_faction_id en).
    lor_next 8 (layer * 2 ^ 52 + T * 2 ^ 48 + enemies_faction_id en * 2 ^ 16
       + coord_r chunk).
    lia.
Qed.

End IdentityFacts.

Section IdentityInjective.

Context {P : nav_params}.

(** C5 (amended). For targets of type TILE, PORTAL and ENEMIES whose fields
    fit their bit fields, [N_FlowField_ID] returns an identity, and two
    inputs that differ in the layer, the chunk or the encoded part of the
    target (tile; portal endpoints; enemy faction) get different
    identities. *)
Theorem flow_field_id_injective
    (code_range : forall t, 0 <= target_type_code t < 16)
    (code_inj : forall a b, target_type_code a = target_type_code b -> a = b)
    (chunk1 chunk2 : coord) (target1 target2 : field_target)
    (layer1 layer2 : Z) :
  id_fields_in_range chunk1 target1 layer1 ->
  id_fields_in_range chunk2 target2 layer2 ->
  (layer1, key_of target1, chunk1) <> (layer2, key_of target2, chunk2) ->
  exists id1 id2,
    N_FlowField_ID chunk1 target1 layer1 = Some id1
    /\ N_FlowField_ID chunk2 target2 layer2 = Some id2
    /\ id1 <> id2.
Proof.
  intros H1 H2 Hne.
  rewrite (flow_field_id_closed_form code_range _ _ _ H1).
  rewrite (flow_field_id_closed_form code_range _ _ _ H2).
  eexists; eexists; split; [reflexivity|split; [reflexivity|]].
  intros Heq. apply Hne. clear Hne.
  destruct H1 as (Hl1 & [Hr1 Hc1] & Ht1), H2 as (Hl2 & [Hr2 Hc2] & Ht2).
  pose proof (code_range (target_type_of target1)) as Hk1.
  pose proof (code_range (target_type_of target2)) as Hk2.
  assert (Hp1 : 0 <= id_payload target1 < 2 ^ 56
                /\ exists m, id_payload target1 = m * 2 ^ 16).
  { destruct target1 as [p|t|e|m]; simpl in Ht1; unfold id_payload,
      byte_coord in *; [| | |contradiction].
    - split; [lia|].
      exists (coord_r (endpoints0 p) * 2 ^ 24 + coord_c (endpoints0 p) * 2 ^ 16
              + coord_r (endpoints1 p) * 2 ^ 8 + coord_c (endpoints1 p)). lia.
    - split; [lia|]. exists (coord_r t * 2 ^ 8 + coord_c t). lia.
    - split; [lia|]. exists (enemies_faction_id e * 2 ^ 8). lia. }
  assert (Hp2 : 0 <= id_payload target2 < 2 ^ 56
                /\ exists m, id_payload target2 = m * 2 ^ 16).
  { destruct target2 as [p|t|e|m]; simpl in Ht2; unfold id_payload,
      byte_coord in *; [| | |contradiction].
    - split; [lia|].
      exists (coord_r (endpoints0 p) * 2 ^ 24 + coord_c (endpoints0 p) * 2 ^ 16
              + coord_r (endpoints1 p) * 2 ^ 8 + coord_c (endpoints1 p)). lia.
    - split; [lia|]. exists (coord_r t * 2 ^ 8 + coord_c t). lia.
    - split; [lia|]. exists (enemies_faction_id e * 2 ^ 8). lia. }
  destruct Hp1 as [Hb1 [m1 Hm1]], Hp2 as [Hb2 [m2 Hm2]].
  assert (Hlayer : layer1 = layer2) by lia.
  assert (Hcode : target_type_code (target_type_of target1)
                  = target_type_code (target_type_of target2)) by lia.
  assert (Hpay : id_payload target1 = id_payload target2) by lia.
  assert (Hchunk : chunk1 = chunk2).
  { destruct chunk1, chunk2; simpl in *. f_equal; lia. }
  apply code_inj in Hcode.
  assert (Hkey : key_of target1 = key_of target2).
  { clear Heq Hm1 Hm2 Hb1 Hb2.
    destruct target1 as [p1|t1|e1|k1], target2 as [p2|t2|e2|k2];
      simpl in Hcode; try discriminate; simpl in Ht1, Ht2;
      try contradiction; unfold id_payload, byte_coord in *; simpl.
    - destruct (endpoints0 p1), (endpoints1 p1), (endpoints0 p2),
        (endpoints1 p2); simpl in *.
      f_equal; f_equal; lia.
    - destruct t1, t2; simpl in *. f_equal; f_equal; lia.
    - f_equal; lia. }
  rewrite Hlayer, Hkey, Hchunk. reflexivity.
Qed.

End IdentityInjective.

Lemma scenario_code_range (t : target_type) :
  0 <= target_type_code (nav_params := scenario_params) t < 16.
Proof. destruct t; simpl; lia. Qed.

Lemma scenario_code_inj (a b : target_type) :
  target_type_code (nav_params := scenario_params) a
  = target_type_code (nav_params := scenario_params) b -> a = b.
Proof. destruct a, b; simpl; intros H; try reflexivity; discriminate. Qed.

(** Two TILE targets one column apart in the same chunk and layer. *)
Lemma flow_field_id_injective_witness :
  exists id1 id2,
    N_FlowField_ID (P := scenario_params) (Coord 1 2)
                   (Target_tile (Coord 3 4)) 0 = Some id1
    /\ N_FlowField_ID (P := scenario_params) (Coord 1 2)
                      (Target_tile (Coord 3 5)) 0 = Some id2
    /\ id1 <> id2.
Proof.
  apply (flow_field_id_injective (P := scenario_params)
           scenario_code_range scenario_code_inj).
  - unfold id_fields_in_range, byte_coord; simpl; lia.
  - unfold id_fields_in_range, byte_coord; simpl; lia.
  - intros H; inversion H.
Defined.

(** C5 as stated fails on PORTAL_MASK targets: [N_FlowField_ID] has no case
    for them, so two different masks are not told apart (neither gets an
    identity). *)
Lemma flow_field_id_portalmask_collision :
  Target_portalmask 1 <> Target_portalmask 2
  /\ N_FlowField_ID (P := scenario_params) (Coord 0 0) (Target_portalmask 1) 0
     = None
  /\ N_FlowField_ID (P := scenario_params) (Coord 0 0) (Target_portalmask 2) 0
     = None.
Proof.
  split; [intros H; inversion H|]. split; reflexivity.
Qed.

(** ** The flow direction of one tile *)

Section FlowDirFacts.

Context {P : nav_params}.

Lemma flow_min_cost_fold intf t :
  flow_min_cost intf t = min_fold intf t min_order PosInf.
Proof.
  unfold flow_min_cost, min_fold, min_order, at_coord, dir_neighbour,
    min_candidate.
  cbn [fold_left dir_offset fst snd coord_r coord_c].
  rewrite !Z.add_0_r. reflexivity.
Qed.

Lemma flow_pick_dir_first intf t m :
  flow_pick_dir intf t m = pick_first intf t m pick_order.
Proof.
  unfold flow_pick_dir, pick_order, pick_first, at_coord, dir_neighbour,
    pick_guard.
  cbn [dir_offset fst snd coord_r coord_c].
  rewrite !Z.add_0_r. reflexivity.
Qed.

Lemma min_fold_le_acc intf t ds m : flt m (min_fold intf t ds m) = false.
Proof.
  revert m. induction ds as [|d ds IH]; intros m; simpl.
  - apply flt_irrefl.
  - eapply fle_trans; [apply IH | apply min_step_le_acc].
Qed.

Lemma min_fold_le_cand intf t ds m d :
  In d ds -> min_candidate intf t d = true ->
  flt (at_coord intf (dir_neighbour d t)) (min_fold intf t ds m) = false.
Proof.
  revert m. induction ds as [|d0 ds IH]; intros m Hin Hc; [destruct Hin|].
  simpl. destruct Hin as [->|Hin].
  - rewrite Hc. eapply fle_trans; [apply min_fold_le_acc|].
    apply min_step_le_val.
  - apply IH; assumption.
Qed.

Lemma min_fold_cases intf t ds m :
  min_fold intf t ds m = m
  \/ exists d, In d ds /\ min_candidate intf t d = true
               /\ min_fold intf t ds m = at_coord intf (dir_neighbour d t).
Proof.
  revert m. induction ds as [|d0 ds IH]; intros m; simpl; [left; reflexivity|].
  destruct (IH (min_step (min_candidate intf t d0)
                         (at_coord intf (dir_neighbour d0 t)) m))
    as [Heq|(d & Hin & Hc & Heq)].
  - destruct (min_step_cases (min_candidate intf t d0)
                (at_coord intf (dir_neighbour d0 t)) m) as [Hm|[Hc Hm]].
    + left. unfold min_fold in *. rewrite Heq. exact Hm.
    + right. exists d0. split; [left; reflexivity|]. split; [exact Hc|].
      unfold min_fold in *. rewrite Heq. exact Hm.
  - right. exists d. split; [right; exact Hin|]. split; assumption.
Qed.

Lemma pick_first_some intf t m ds d :
  pick_first intf t m ds = Some d ->
  In d ds /\ pick_guard t d = true /\ at_coord intf (dir_neighbour d t) = m.
Proof.
  induction ds as [|d0 ds IH]; simpl; [discriminate|].
  destruct (pick_guard t d0 && feqb (at_coord intf (dir_neighbour d0 t)) m)
    eqn:Hg.
  - intros H; injection H as <-. apply andb_true_iff in Hg.
    destruct Hg as [Hg He]. apply feqb_eq in He. auto.
  - intros H. destruct (IH H) as (Hin & Hgd & Hv). auto.
Qed.

Lemma pick_first_none intf t m ds d :
  pick_first intf t m ds = None ->
  In d ds -> pick_guard t d = true ->
  at_coord intf (dir_neighbour d t) <> m.
Proof.
  induction ds as [|d0 ds IH]; simpl; [intros _ []|].
  destruct (pick_guard t d0 && feqb (at_coord intf (dir_neighbour d0 t)) m)
    eqn:Hg; [discriminate|].
  intros Hn [->|Hin] Hgd; [|apply IH; assumption].
  rewrite Hgd in Hg. simpl in Hg. intros Heq. apply feqb_eq in Heq. congruence.
Qed.

Lemma pick_first_skips intf t m l1 l2 d :
  pick_first intf t m (l1 ++ d :: l2) = Some d -> ~ In d l1 ->
  forall d', In d' l1 -> pick_guard t d' = true ->
    at_coord intf (dir_neighbour d' t) <> m.
Proof.
  induction l1 as [|d0 l1 IH]; simpl; [intros _ _ d' []|].
  destruct (pick_guard t d0 && feqb (at_coord intf (dir_neighbour d0 t)) m)
    eqn:Hg.
  - intros H Hn. injection H as ->. exfalso. apply Hn. left; reflexivity.
  - intros H Hn d' [->|Hin] Hgd.
    + rewrite Hgd in Hg. simpl in Hg. intros Heq. apply feqb_eq in Heq.
      congruence.
    + apply IH; auto.
Qed.

Lemma candidate_guard intf t d :
  d <> FD_SE -> min_candidate intf t d = true -> pick_guard t d = true.
Proof.
  destruct d; simpl; intros Hne H; try congruence;
    repeat (apply andb_true_iff in H; destruct H as [H ?]);
    try rewrite H; try assumption; simpl; assumption.
Qed.

Lemma candidate_guard_SE intf t :
  FIELD_RES_C <= FIELD_RES_R ->
  min_candidate intf t FD_SE = true -> pick_guard t FD_SE = true.
Proof.
  simpl. intros Hle H.
  repeat (apply andb_true_iff in H; destruct H as [H ?]).
  rewrite H. simpl. apply Z.ltb_lt. apply Z.ltb_lt in H2. lia.
Qed.

(** What a returned direction satisfies. *)
Lemma field_flow_dir_some intf t d :
  field_flow_dir intf t = Some d ->
  is_finite (flow_min_cost intf t)
  /\ at_coord intf (dir_neighbour d t) = flow_min_cost intf t
  /\ In d pick_order
  /\ pick_guard t d = true
  /\ (d = FD_SE -> min_candidate intf t FD_SE = true).
Proof.
  unfold field_flow_dir.
  destruct (flt (flow_min_cost intf t) PosInf) eqn:Hfin; [|discriminate].
  apply flt_PosInf in Hfin. rewrite flow_pick_dir_first. intros Hp.
  destruct (pick_first_some _ _ _ _ _ Hp) as (Hin & Hg & Hv).
  repeat split; auto.
  intros ->.
  rewrite flow_min_cost_fold in Hfin, Hp.
  destruct (min_fold_cases intf t min_order PosInf) as [Heq|(k & Hk & Hc & Heq)].
  - rewrite Heq in Hfin. destruct Hfin; discriminate.
  - destruct k; try exact Hc; exfalso;
      (eapply (pick_first_skips intf t _
                 [FD_N; FD_S; FD_E; FD_W; FD_NW; FD_NE; FD_SW] [] FD_SE Hp);
       [ simpl; intuition discriminate
       | | eapply candidate_guard; [|exact Hc]; discriminate
       | symmetry; exact Heq ]);
      simpl in *; intuition discriminate.
Qed.

(** With [FIELD_RES_C <= FIELD_RES_R] a finite [min_cost] always yields a
    direction. *)
Lemma field_flow_dir_total intf t :
  FIELD_RES_C <= FIELD_RES_R ->
  is_finite (flow_min_cost intf t) ->
  exists d, field_flow_dir intf t = Some d /\ d <> FD_NONE.
Proof.
  intros Hle Hfin. unfold field_flow_dir.
  assert (Hb : flt (flow_min_cost intf t) PosInf = true)
    by (apply flt_PosInf; exact Hfin).
  rewrite Hb, flow_pick_dir_first.
  destruct (pick_first intf t (flow_min_cost intf t) pick_order) as [d|] eqn:Hp.
  - exists d. split; [reflexivity|].
    destruct (pick_first_some _ _ _ _ _ Hp) as (_ & Hg & _).
    intros ->. discriminate.
  - exfalso. rewrite flow_min_cost_fold in Hfin, Hp.
    destruct (min_fold_cases intf t min_order PosInf)
      as [Heq|(k & Hk & Hc & Heq)].
    + rewrite Heq in Hfin. destruct Hfin; discriminate.
    + assert (Hg : pick_guard t k = true).
      { destruct k; try (eapply candidate_guard; [|exact Hc]; discriminate).
        apply (candidate_guard_SE intf); assumption. }
      apply (pick_first_none _ _ _ _ k Hp); auto.
      simpl in Hk. unfold pick_order. simpl. intuition congruence.
Qed.

End FlowDirFacts.

(** ** Geometry of neighbours *)

Ltac boolp :=
  repeat match goal with
  | H : _ && _ = true |- _ => apply andb_true_iff in H; destruct H
  | H : _ || _ = false |- _ => apply orb_false_iff in H; destruct H
  | H : negb _ = true |- _ => apply negb_true_iff in H
  | H : negb _ = false |- _ => apply negb_false_iff in H
  | H : (_ <? _) = true |- _ => apply Z.ltb_lt in H
  | H : (_ <? _) = false |- _ => apply Z.ltb_ge in H
  | H : (_ <=? _) = true |- _ => apply Z.leb_le in H
  | H : (_ <=? _) = false |- _ => apply Z.leb_gt in H
  | H : (_ >? _) = true |- _ => rewrite Z.gtb_ltb in H
  | H : (_ >? _) = false |- _ => rewrite Z.gtb_ltb in H
  | H : (_ >=? _) = true |- _ => rewrite Z.geb_leb in H
  | H : (_ >=? _) = false |- _ => rewrite Z.geb_leb in H
  | H : (_ =? _) = true |- _ => apply Z.eqb_eq in H
  | H : (_ =? _) = false |- _ => apply Z.eqb_neq in H
  end.

Section Geometry.

Context {P : nav_params} {E : nav_env}.

Lemma guard_in_bounds t d :
  in_bounds t -> pick_guard t d = true -> d <> FD_SE ->
  in_bounds (dir_neighbour d t).
Proof.
  unfold in_bounds, dir_neighbour. intros [Hr Hc] Hg Hne.
  destruct d; simpl in *; try discriminate; try congruence; boolp; lia.
Qed.

Lemma candidate_in_bounds intf t d :
  in_bounds t -> min_candidate intf t d = true ->
  in_bounds (dir_neighbour d t).
Proof.
  unfold in_bounds, dir_neighbour. intros [Hr Hc] Hg.
  destruct d; simpl in *; try discriminate; boolp; lia.
Qed.

Lemma adjacent_cardinal intf t n :
  in_bounds t -> in_bounds n -> adjacent4 n t ->
  exists k, In k min_order /\ n = dir_neighbour k t
            /\ min_candidate intf t k = true.
Proof.
  unfold in_bounds, adjacent4, dir_neighbour.
  destruct t as [r c], n as [nr nc]; simpl. intros [Hr Hc] [Hnr Hnc] Hadj.
  assert (Hcases : (nr = r - 1 /\ nc = c) \/ (nr = r + 1 /\ nc = c)
                   \/ (nr = r /\ nc = c - 1) \/ (nr = r /\ nc = c + 1)) by lia.
  destruct Hcases as [[-> ->]|[[-> ->]|[[-> ->]|[-> ->]]]].
  - exists FD_N. simpl. repeat split; auto.
    + f_equal; lia.
    + rewrite Z.gtb_ltb. apply Z.ltb_lt. lia.
  - exists FD_S. simpl. repeat split; auto.
    + f_equal; lia.
    + apply Z.ltb_lt. lia.
  - exists FD_W. simpl. repeat split; auto.
    + f_equal; lia.
    + rewrite Z.gtb_ltb. apply Z.ltb_lt. lia.
  - exists FD_E. simpl. repeat split; auto.
    + f_equal; lia.
    + apply Z.ltb_lt. lia.
Qed.

(** The direction returned for a tile leads to an in-bounds tile whose
    value is at most that of any finite in-bounds 4-neighbour. *)
Lemma flow_dir_downhill intf t d n w :
  in_bounds t -> field_flow_dir intf t = Some d ->
  in_bounds n -> adjacent4 n t -> at_coord intf n = Finite w ->
  d <> FD_NONE /\ in_bounds (dir_neighbour d t)
  /\ exists w', at_coord intf (dir_neighbour d t) = Finite w' /\ w' <= w.
Proof.
  intros Ht Hd Hn Hadj Hw.
  destruct (field_flow_dir_some _ _ _ Hd) as (Hfin & Hv & Hin & Hg & Hse).
  split; [intros ->; discriminate|]. split.
  - destruct d; try (apply guard_in_bounds; auto; discriminate).
    eapply candidate_in_bounds; eauto.
  - destruct Hfin as [m Hm]. exists m. split; [congruence|].
    destruct (adjacent_cardinal intf t n Ht Hn Hadj) as (k & Hk & -> & Hc).
    pose proof (min_fold_le_cand intf t min_order PosInf k Hk Hc) as Hle.
    rewrite <- flow_min_cost_fold, Hm, Hw in Hle. simpl in Hle.
    apply Z.ltb_ge in Hle. exact Hle.
Qed.

Lemma neighbours_grid_in chunk curr only_passable faction_id n cost :
  In (n, cost) (field_neighbours_grid chunk curr only_passable faction_id) ->
  in_bounds n /\ adjacent4 n curr
  /\ cost = (if blockers chunk (coord_r n) (coord_c n) =? 0
             then cost_base chunk (coord_r n) (coord_c n)
             else COST_IMPASSABLE)
  /\ (only_passable = true -> tile_passable_for chunk faction_id n = true).
Proof.
  unfold field_neighbours_grid. rewrite in_flat_map.
  intros [r [Hr H]]. rewrite in_flat_map in H. destruct H as [c [Hc H]].
  assert (Hr' : -1 <= r <= 1) by (simpl in Hr; lia).
  assert (Hc' : -1 <= c <= 1) by (simpl in Hc; lia).
  clear Hr Hc. cbv zeta in H.
  destruct ((coord_r curr + r <? 0) || (coord_r curr + r >=? FIELD_RES_R))
    eqn:B1; [destruct H|].
  destruct ((coord_c curr + c <? 0) || (coord_c curr + c >=? FIELD_RES_C))
    eqn:B2; [destruct H|].
  destruct ((r =? 0) && (c =? 0)) eqn:B3; [destruct H|].
  destruct ((r =? c) || (r =? - c)) eqn:B4; [destruct H|].
  destruct (only_passable
            && negb (tile_passable_for chunk faction_id
                       (Coord (coord_r curr + r) (coord_c curr + c))))
    eqn:B5; [destruct H|].
  destruct H as [H|[]]. injection H as <- <-. simpl.
  boolp. unfold in_bounds, adjacent4. simpl.
  repeat split; try lia.
  intros ->. simpl in B5. apply negb_false_iff in B5. exact B5.
Qed.

End Geometry.

(** ** Priority-queue facts *)

Section QueueFacts.

Context {Q : PQueue}.

Lemma pq_pop_some q x q' :
  pq_coord_pop q = Some (x, q') ->
  exists p, Permutation (pq_entries q) ((p, x) :: pq_entries q')
            /\ forall e, In e (pq_entries q) -> flt (fst e) p = false.
Proof.
  intros Hpop.
  destruct (pq_entries q) as [|e es] eqn:He.
  - rewrite (pq_pop_empty q He) in Hpop. discriminate.
  - destruct (pq_pop_entries q) as (p & x0 & q0 & Hp & Hperm & Hmin).
    { rewrite He. discriminate. }
    rewrite Hp in Hpop. injection Hpop as -> ->.
    exists p. rewrite <- He. split; assumption.
Qed.

Lemma pq_size_zero q : (pq_size q >? 0) = false <-> pq_entries q = [].
Proof.
  rewrite pq_size_entries, Z.gtb_ltb, Z.ltb_ge.
  destruct (pq_entries q); simpl; split; intros H; try reflexivity;
    try discriminate; lia.
Qed.

Lemma pq_pop_nonempty q :
  (pq_size q >? 0) = true -> exists x q', pq_coord_pop q = Some (x, q').
Proof.
  intros Hs.
  destruct (pq_pop_entries q) as (p & x & q' & Hp & _).
  - intros He. apply pq_size_zero in He. congruence.
  - eauto.
Qed.

Lemma pq_contains_in q x :
  pq_coord_contains q field_compare_tiles x = true <->
  exists p, In (p, x) (pq_entries q).
Proof.
  rewrite pq_contains_entries, existsb_exists. split.
  - intros [[p y] [Hin Hc]]. exists p. simpl in Hc.
    unfold field_compare_tiles in Hc.
    destruct ((coord_r x =? coord_r y) && (coord_c x =? coord_c y)) eqn:Hb;
      [|discriminate].
    boolp. destruct x, y; simpl in *; subst. exact Hin.
  - intros [p Hin]. exists (p, x). split; [exact Hin|]. simpl.
    unfold field_compare_tiles. rewrite !Z.eqb_refl. reflexivity.
Qed.

End QueueFacts.

(** ** Invariants of the integration loops *)

Lemma adjacent4_sym a b : adjacent4 a b -> adjacent4 b a.
Proof. unfold adjacent4. lia. Qed.

Lemma adjacent4_neq a b : adjacent4 a b -> a <> b.
Proof. unfold adjacent4. intros H ->. lia. Qed.

Lemma at_coord_upd_same {A} (f : Z -> Z -> A) (t : coord) (v : A) :
  at_coord (upd f (coord_r t) (coord_c t) v) t = v.
Proof. unfold at_coord. apply upd_same. Qed.

Lemma at_coord_upd_other {A} (f : Z -> Z -> A) (t t' : coord) (v : A) :
  t' <> t -> at_coord (upd f (coord_r t) (coord_c t) v) t' = at_coord f t'.
Proof.
  intros H. unfold at_coord. apply upd_other. intros Heq. apply H.
  destruct t, t'; simpl in *. congruence.
Qed.

Section IntegrationFacts.

Context {P : nav_params} {E : nav_env} {Q : PQueue}.

Variable rel : Z -> Z -> Prop.
Hypothesis rel_down : forall w w' v, w' <= w -> rel w v -> rel w' v.

Lemma integration_relax_inv curr st nb :
  integ_inv rel st -> in_bounds curr -> in_bounds (fst nb) ->
  adjacent4 (fst nb) curr ->
  (forall w, rel w (w + snd nb)) ->
  integ_inv rel (integration_relax curr st nb).
Proof.
  destruct st as [q inout], nb as [n cost]. unfold integ_inv. simpl.
  intros [Hsup Hq] Hcurr Hn Hadj Hcost.
  fold (at_coord inout curr). fold (at_coord inout n).
  destruct (flt (fadd (at_coord inout curr) cost) (at_coord inout n)) eqn:Hlt;
    [|split; assumption].
  destruct (at_coord inout curr) as [vc|] eqn:Hvc; [|discriminate].
  simpl in Hlt.
  assert (Hsup' : supported rel (upd inout (coord_r n) (coord_c n)
                                     (Finite (vc + cost)))).
  { intros t v Ht Hv Hv0.
    destruct (coord_eq_dec t n) as [->|Hne].
    - rewrite at_coord_upd_same in Hv. injection Hv as <-.
      exists curr, vc.
      split; [exact Hcurr|]. split; [apply adjacent4_sym; exact Hadj|].
      split; [|apply Hcost].
      rewrite at_coord_upd_other; [exact Hvc|].
      apply adjacent4_neq, adjacent4_sym; exact Hadj.
    - rewrite at_coord_upd_other in Hv by exact Hne.
      destruct (Hsup t v Ht Hv Hv0) as (m & w & Hm & Hmadj & Hmw & Hrel).
      destruct (coord_eq_dec m n) as [->|Hmn].
      + exists n, (vc + cost).
        split; [exact Hm|]. split; [exact Hmadj|].
        split; [apply at_coord_upd_same|].
        rewrite Hmw in Hlt. simpl in Hlt. apply Z.ltb_lt in Hlt.
        apply (rel_down w); [lia | exact Hrel].
      + exists m, w.
        split; [exact Hm|]. split; [exact Hmadj|]. split; [|exact Hrel].
        rewrite at_coord_upd_other; assumption. }
  destruct (pq_coord_contains q field_compare_tiles n); simpl;
    (split; [exact Hsup'|]).
  - exact Hq.
  - intros e He.
    apply (Permutation_in _ (pq_push_entries q _ n)) in He.
    destruct He as [<-|He]; [exact Hn | apply Hq; exact He].
Qed.

Lemma fold_left_inv {A B : Type} (Inv : A -> Prop) (ok : B -> Prop)
    (f : A -> B -> A) (l : list B) (a : A) :
  (forall a b, Inv a -> ok b -> Inv (f a b)) ->
  (forall b, In b l -> ok b) -> Inv a -> Inv (fold_left f l a).
Proof.
  intros Hstep. revert a. induction l as [|b l IH]; intros a Hok Ha; simpl.
  - exact Ha.
  - apply IH.
    + intros b' Hb'. apply Hok. right; exact Hb'.
    + apply Hstep; [exact Ha | apply Hok; left; reflexivity].
Qed.

Lemma pq_pop_inv q I curr q1 :
  integ_inv rel (q, I) -> pq_coord_pop q = Some (curr, q1) ->
  in_bounds curr /\ integ_inv rel (q1, I).
Proof.
  intros [Hsup Hq] Hpop. simpl in *.
  destruct (pq_pop_some _ _ _ Hpop) as (p & Hperm & _).
  split.
  - apply (Hq (p, curr)). apply (Permutation_in _ (Permutation_sym Hperm)).
    left; reflexivity.
  - split; [exact Hsup|]. intros e He. apply Hq.
    apply (Permutation_in _ (Permutation_sym Hperm)). right; exact He.
Qed.

(** The invariant survives [field_build_integration] when every step cost
    of a passable neighbour satisfies [rel]. *)
Lemma build_integration_inv fuel q chunk faction_id inout out :
  (forall t, in_bounds t -> tile_passable_for chunk faction_id t = true ->
     forall w, rel w (w + (if blockers chunk (coord_r t) (coord_c t) =? 0
                           then cost_base chunk (coord_r t) (coord_c t)
                           else COST_IMPASSABLE))) ->
  integ_inv rel (q, inout) ->
  field_build_integration fuel q chunk faction_id inout = Some out ->
  supported rel out.
Proof.
  intros Hcost. revert q inout.
  induction fuel as [|fuel IH]; intros q inout Hinv; simpl; [discriminate|].
  destruct (pq_size q >? 0); [|intros H; injection H as <-; apply Hinv].
  destruct (pq_coord_pop q) as [[curr q1]|] eqn:Hpop; [|discriminate].
  destruct (pq_pop_inv _ _ _ _ Hinv Hpop) as [Hcurr Hinv1].
  destruct (fold_left (integration_relax curr)
              (field_neighbours_grid chunk curr true faction_id) (q1, inout))
    as [q2 inout2] eqn:Hfold.
  apply IH. rewrite <- Hfold.
  apply (fold_left_inv (integ_inv rel)
           (fun nb => In nb (field_neighbours_grid chunk curr true faction_id))).
  - intros a [n cost] Ha Hnb.
    destruct (neighbours_grid_in _ _ _ _ _ _ Hnb) as (Hn & Hadj & -> & Hp).
    apply integration_relax_inv; auto.
    simpl snd. apply Hcost; auto.
  - auto.
  - exact Hinv1.
Qed.

(** The same for [field_build_integration_nonpass], whose step costs are
    all [COST_IMPASSABLE]. *)
Lemma build_integration_nonpass_inv fuel q chunk faction_id inout out :
  (forall w, rel w (w + COST_IMPASSABLE)) ->
  integ_inv rel (q, inout) ->
  field_build_integration_nonpass fuel q chunk faction_id inout = Some out ->
  supported rel out.
Proof.
  intros Hcost. revert q inout.
  induction fuel as [|fuel IH]; intros q inout Hinv; simpl; [discriminate|].
  destruct (pq_size q >? 0); [|intros H; injection H as <-; apply Hinv].
  destruct (pq_coord_pop q) as [[curr q1]|] eqn:Hpop; [|discriminate].
  destruct (pq_pop_inv _ _ _ _ Hinv Hpop) as [Hcurr Hinv1].
  destruct (fold_left (integration_relax_nonpass chunk curr)
              (field_neighbours_grid chunk curr false faction_id) (q1, inout))
    as [q2 inout2] eqn:Hfold.
  apply IH. rewrite <- Hfold.
  apply (fold_left_inv (integ_inv rel)
           (fun nb => In nb (field_neighbours_grid chunk curr false faction_id))).
  - intros a [n cost] Ha Hnb.
    destruct (neighbours_grid_in _ _ _ _ _ _ Hnb) as (Hn & Hadj & -> & _).
    unfold integration_relax_nonpass. simpl fst.
    destruct (field_tile_passable chunk n) eqn:Hpass; [exact Ha|].
    apply integration_relax_inv; auto. simpl snd.
    destruct (Z.eqb_spec (blockers chunk (coord_r n) (coord_c n)) 0) as [Hb|Hb];
      [|exact Hcost].
    assert (Hc : cost_base chunk (coord_r n) (coord_c n) = COST_IMPASSABLE).
    { destruct (Z.eq_dec (cost_base chunk (coord_r n) (coord_c n))
                         COST_IMPASSABLE) as [Hc|Hc]; [exact Hc|].
      exfalso. assert (field_tile_passable chunk n = true).
      { apply field_tile_passable_true. split; [exact Hc | lia]. }
      congruence. }
    rewrite Hc. exact Hcost.
  - auto.
  - exact Hinv1.
Qed.

End IntegrationFacts.

(** ** Initial frontiers stay inside the field *)

Section FrontierFacts.

Context {P : nav_params} {E : nav_env}.

Lemma portal_tiles_in_bounds port t :
  portal_in_bounds port -> In t (portal_tiles port) -> in_bounds t.
Proof.
  unfold portal_in_bounds, in_bounds, portal_tiles.
  intros [[H0r H0c] [H1r H1c]] Hin.
  apply in_flat_map in Hin. destruct Hin as [r [Hr Hin]].
  apply in_map_iff in Hin. destruct Hin as [c [<- Hc]].
  apply in_zrange in Hr, Hc. simpl. lia.
Qed.

Lemma portal_frontier_loop_in chunk faction_id tiles maxout out res :
  portal_frontier_loop chunk faction_id tiles maxout out = Some res ->
  forall t, In t res -> In t out \/ In t tiles.
Proof.
  revert out. induction tiles as [|t0 tiles IH]; intros out; simpl.
  - intros H; injection H as <-. auto.
  - destruct (cost_base chunk (coord_r t0) (coord_c t0) =? COST_IMPASSABLE);
      [discriminate|].
    destruct (tile_passable_for chunk faction_id t0).
    + destruct (Z.of_nat (length (out ++ [t0])) =? maxout).
      * intros H; injection H as <-. intros t Ht.
        apply in_app_or in Ht. destruct Ht as [Ht|[<-|[]]]; auto.
      * intros H t Ht. destruct (IH _ H t Ht) as [Hin|Hin]; auto.
        apply in_app_or in Hin. destruct Hin as [Hin|[<-|[]]]; auto.
    + intros H t Ht. destruct (IH _ H t Ht); auto.
Qed.

Lemma portal_frontier_in_bounds port chunk ignoreblock faction_id maxout res :
  portal_in_bounds port ->
  field_portal_initial_frontier port chunk ignoreblock faction_id maxout
  = Some res ->
  forall t, In t res -> in_bounds t.
Proof.
  unfold field_portal_initial_frontier. intros Hp.
  destruct (maxout =? 0).
  - intros H; injection H as <-. intros t [].
  - intros H t Ht.
    destruct (portal_frontier_loop_in _ _ _ _ _ _ H t Ht) as [[]|Hin].
    eapply portal_tiles_in_bounds; eauto.
Qed.

Lemma enemies_frontier_loop_in g tiles maxout out :
  forall t, In t (enemies_frontier_loop g tiles maxout out) ->
    In t out \/ In t tiles.
Proof.
  revert out. induction tiles as [|t0 tiles IH]; intros out t; simpl; auto.
  destruct (g (coord_r t0) (coord_c t0)).
  - destruct (Z.of_nat (length (out ++ [t0])) =? maxout).
    + intros Ht. apply in_app_or in Ht. destruct Ht as [Ht|[<-|[]]]; auto.
    + intros Ht. destruct (IH _ _ Ht) as [Hin|Hin]; auto.
      apply in_app_or in Hin. destruct Hin as [Hin|[<-|[]]]; auto.
  - intros Ht. destruct (IH _ _ Ht); auto.
Qed.

Lemma portalmask_frontier_loop_in mask chunk ignoreblock faction_id idxs
    maxout out res :
  (forall i, In i idxs -> portal_in_bounds (portals chunk i)) ->
  (forall t, In t out -> in_bounds t) ->
  portalmask_frontier_loop mask chunk ignoreblock faction_id idxs maxout out
  = Some res ->
  forall t, In t res -> in_bounds t.
Proof.
  revert maxout out. induction idxs as [|i idxs IH]; intros maxout out Hp Hout;
    simpl.
  - intros H; injection H as <-. exact Hout.
  - destruct (Z.land mask (Z.shiftl 1 i) =? 0).
    + apply IH; auto. intros j Hj. apply Hp. right; exact Hj.
    + destruct (field_portal_initial_frontier (portals chunk i) chunk
                  ignoreblock faction_id maxout) as [added|] eqn:Ha;
        [|discriminate].
      apply IH.
      * intros j Hj. apply Hp. right; exact Hj.
      * intros t Ht. apply in_app_or in Ht. destruct Ht as [Ht|Ht]; auto.
        eapply portal_frontier_in_bounds; eauto. apply Hp. left; reflexivity.
Qed.

Lemma initial_frontier_in_bounds target chunk priv ignoreblock faction_id
    maxout res :
  target_in_bounds chunk target ->
  field_initial_frontier target chunk priv ignoreblock faction_id maxout
  = Some res ->
  forall t, In t res -> in_bounds t.
Proof.
  destruct target as [port|tile|en|mask]; simpl; intros Hb H.
  - eapply portal_frontier_in_bounds; eauto.
  - injection H as <-. unfold field_tile_initial_frontier.
    destruct (maxout =? 0); [intros t []|].
    destruct ignoreblock; [intros t [<-|[]]; exact Hb|].
    destruct (tile_passable_for chunk faction_id tile);
      [intros t [<-|[]]; exact Hb | intros t []].
  - unfold field_enemies_initial_frontier in H.
    destruct (negb Sched_UsingBigStack); [discriminate|]. cbv zeta in H.
    destruct (Z.of_nat (length (G_Pos_EntsInRect en)) =? 0); [discriminate|].
    destruct (enemies_grid en priv) as [g|]; [|discriminate].
    injection H as <-. intros t Ht.
    destruct (enemies_frontier_loop_in _ _ _ _ _ Ht) as [[]|Hin].
    apply in_grid in Hin. exact Hin.
  - unfold field_portalmask_initial_frontier in H.
    eapply portalmask_frontier_loop_in; eauto.
    + intros i Hi. apply Hb. apply in_zrange in Hi. lia.
    + intros t [].
Qed.

End FrontierFacts.

(** ** Seeding *)

Section SeedFacts.

Context {P : nav_params} {Q : PQueue}.

Lemma seed_frontier_spec seeds st :
  zero_or_inf (snd st) -> queued_in_bounds (fst st) ->
  (forall t, In t seeds -> in_bounds t) ->
  zero_or_inf (snd (seed_frontier seeds st))
  /\ queued_in_bounds (fst (seed_frontier seeds st)).
Proof.
  unfold seed_frontier. revert st.
  induction seeds as [|s seeds IH]; intros st Hz Hq Hs; simpl; [auto|].
  apply IH; simpl.
  - intros t. destruct (coord_eq_dec t s) as [->|Hne].
    + right. apply at_coord_upd_same.
    + rewrite at_coord_upd_other by exact Hne. apply Hz.
  - intros e He. apply (Permutation_in _ (pq_push_entries _ _ _)) in He.
    destruct He as [<-|He]; [apply Hs; left; reflexivity | apply Hq; exact He].
  - intros t Ht. apply Hs. right; exact Ht.
Qed.

Lemma zero_or_inf_supported rel intf : zero_or_inf intf -> supported rel intf.
Proof.
  intros Hz t v _ Hv Hv0. destruct (Hz t) as [H|H]; rewrite H in Hv.
  - discriminate.
  - injection Hv as <-. contradiction.
Qed.

Lemma seed_frontier_inv rel seeds :
  (forall t, In t seeds -> in_bounds t) ->
  integ_inv rel (seed_frontier seeds (pq_coord_init, all_infinite)).
Proof.
  intros Hs.
  destruct (seed_frontier_spec seeds (pq_coord_init, all_infinite))
    as [Hz Hq]; simpl.
  - intros t. left. reflexivity.
  - intros e He. rewrite pq_init_entries in He. destruct He.
  - exact Hs.
  - split; [apply zero_or_inf_supported; exact Hz | exact Hq].
Qed.

End SeedFacts.

(** ** Flow derivation *)

Section FlowFacts.

Context {P : nav_params} {E : nav_env}.

Lemma feqb_PosInf x : feqb x PosInf = true <-> x = PosInf.
Proof. apply feqb_eq. Qed.

Lemma build_flow_loop_spec intf tiles dirs dirs' :
  build_flow_loop intf tiles dirs = Some dirs' ->
  forall t,
    (In t tiles -> flow_cell_ok intf t (at_coord dirs t) (at_coord dirs' t))
    /\ (~ In t tiles -> at_coord dirs' t = at_coord dirs t).
Proof.
  revert dirs. induction tiles as [|t0 tiles IH]; intros dirs; simpl.
  - intros H; injection H as <-. intros t. split; [intros []|reflexivity].
  - fold (at_coord intf t0).
    assert (Hstep : forall dirs1,
      build_flow_loop intf tiles dirs1 = Some dirs' ->
      (forall t, at_coord intf t = PosInf -> at_coord dirs1 t = at_coord dirs t) ->
      (forall t, t <> t0 -> at_coord dirs1 t = at_coord dirs t) ->
      flow_cell_ok intf t0 (at_coord dirs t0) (at_coord dirs1 t0) ->
      forall t,
        (t0 = t \/ In t tiles ->
         flow_cell_ok intf t (at_coord dirs t) (at_coord dirs' t))
        /\ (~ (t0 = t \/ In t tiles) -> at_coord dirs' t = at_coord dirs t)).
    { intros dirs1 Hloop Hinf Hother Hok t.
      destruct (IH _ Hloop t) as [Hin Hout]. split.
      - intros Hor. destruct (in_dec coord_eq_dec t tiles) as [Ht|Ht].
        + specialize (Hin Ht). unfold flow_cell_ok in *.
          destruct (at_coord intf t) eqn:Hv; [exact Hin|].
          rewrite Hin. apply Hinf. exact Hv.
        + destruct Hor as [<-|Hor]; [|contradiction].
          rewrite (Hout Ht). exact Hok.
      - intros Hn. rewrite Hout by tauto. apply Hother. intros ->. tauto. }
    destruct (feqb (at_coord intf t0) PosInf) eqn:Hinf.
    { intros Hloop. apply (Hstep dirs Hloop); auto.
      apply feqb_eq in Hinf. unfold flow_cell_ok. rewrite Hinf. reflexivity. }
    destruct (feqb (at_coord intf t0) (Finite 0)) eqn:Hzero.
    { intros Hloop. apply feqb_eq in Hzero. apply (Hstep _ Hloop).
      - intros t Ht. apply at_coord_upd_other. intros ->. congruence.
      - intros t Ht. apply at_coord_upd_other. exact Ht.
      - unfold flow_cell_ok. rewrite Hzero. simpl. apply at_coord_upd_same. }
    destruct (field_flow_dir intf t0) as [d|] eqn:Hd; [|discriminate].
    intros Hloop. apply (Hstep _ Hloop).
    + intros t Ht. apply at_coord_upd_other. intros ->.
      rewrite Ht in Hinf. discriminate.
    + intros t Ht. apply at_coord_upd_other. exact Ht.
    + unfold flow_cell_ok. destruct (at_coord intf t0) as [v|]; [|discriminate].
      simpl in Hzero. rewrite Hzero. rewrite at_coord_upd_same. exact Hd.
Qed.

Lemma nearest_flow_loop_spec intf tiles dirs dirs' :
  nearest_flow_loop intf tiles dirs = Some dirs' ->
  forall t,
    (In t tiles -> nearest_cell_ok intf t (at_coord dirs t) (at_coord dirs' t))
    /\ (~ In t tiles -> at_coord dirs' t = at_coord dirs t).
Proof.
  revert dirs. induction tiles as [|t0 tiles IH]; intros dirs; simpl.
  - intros H; injection H as <-. intros t. split; [intros []|reflexivity].
  - fold (at_coord intf t0).
    assert (Hstep : forall dirs1,
      nearest_flow_loop intf tiles dirs1 = Some dirs' ->
      (forall t, at_coord intf t = PosInf \/ at_coord intf t = Finite 0 ->
         at_coord dirs1 t = at_coord dirs t) ->
      (forall t, t <> t0 -> at_coord dirs1 t = at_coord dirs t) ->
      nearest_cell_ok intf t0 (at_coord dirs t0) (at_coord dirs1 t0) ->
      forall t,
        (t0 = t \/ In t tiles ->
         nearest_cell_ok intf t (at_coord dirs t) (at_coord dirs' t))
        /\ (~ (t0 = t \/ In t tiles) -> at_coord dirs' t = at_coord dirs t)).
    { intros dirs1 Hloop Hinf Hother Hok t.
      destruct (IH _ Hloop t) as [Hin Hout]. split.
      - intros Hor. destruct (in_dec coord_eq_dec t tiles) as [Ht|Ht].
        + specialize (Hin Ht). unfold nearest_cell_ok in *.
          destruct (at_coord intf t) as [v|] eqn:Hv.
          * destruct (Z.eqb_spec v 0) as [->|Hv0]; [|exact Hin].
            rewrite Hin. apply Hinf. right. exact Hv.
          * rewrite Hin. apply Hinf. left. exact Hv.
        + destruct Hor as [<-|Hor]; [|contradiction].
          rewrite (Hout Ht). exact Hok.
      - intros Hn. rewrite Hout by tauto. apply Hother. intros ->. tauto. }
    destruct (feqb (at_coord intf t0) PosInf) eqn:Hinf.
    { intros Hloop. apply (Hstep dirs Hloop); auto.
      apply feqb_eq in Hinf. unfold nearest_cell_ok. rewrite Hinf.
      reflexivity. }
    destruct (feqb (at_coord intf t0) (Finite 0)) eqn:Hzero.
    { intros Hloop. apply (Hstep dirs Hloop); auto.
      apply feqb_eq in Hzero. unfold nearest_cell_ok. rewrite Hzero.
      reflexivity. }
    destruct (field_flow_dir intf t0) as [d|] eqn:Hd; [|discriminate].
    intros Hloop. apply (Hstep _ Hloop).
    + intros t Ht. apply at_coord_upd_other. intros ->.
      destruct Ht as [Ht|Ht]; rewrite Ht in *; simpl in *; discriminate.
    + intros t Ht. apply at_coord_upd_other. exact Ht.
    + unfold nearest_cell_ok.
      destruct (at_coord intf t0) as [v|]; [|discriminate].
      simpl in Hzero. rewrite Hzero. rewrite at_coord_upd_same. exact Hd.
Qed.

(** The portal fix-up only writes cells whose integration value is 0. *)
Lemma fixup_edges_loop_spec intf d tiles dirs t :
  at_coord (fixup_edges_loop intf d tiles dirs) t
  = if feqb (at_coord intf t) (Finite 0) && existsb (coord_eqb t) tiles
    then d else at_coord dirs t.
Proof.
  unfold fixup_edges_loop. revert dirs.
  induction tiles as [|t0 tiles IH]; intros dirs; simpl.
  - rewrite andb_false_r. reflexivity.
  - rewrite IH. fold (at_coord intf t0).
    destruct (coord_eqb t t0) eqn:Heq; simpl.
    + apply coord_eqb_eq in Heq. subst t0.
      destruct (feqb (at_coord intf t) (Finite 0)) eqn:Hz; simpl.
      * rewrite at_coord_upd_same. destruct (existsb _ tiles); reflexivity.
      * reflexivity.
    + apply coord_eqb_neq in Heq.
      destruct (feqb (at_coord intf t0) (Finite 0)); [|reflexivity].
      rewrite at_coord_upd_other by exact Heq. reflexivity.
Qed.

Lemma existsb_grid t :
  existsb (coord_eqb t) (grid FIELD_RES_R FIELD_RES_C) = true <-> in_bounds t.
Proof.
  rewrite existsb_exists. split.
  - intros [x [Hin Heq]]. apply coord_eqb_eq in Heq. subst x.
    apply in_grid in Hin. exact Hin.
  - intros Hb. exists t. split; [apply in_grid; exact Hb|].
    apply coord_eqb_refl.
Qed.

Lemma fixup_portal_edges_frame intf flow port flow' t :
  field_fixup_portal_edges intf flow port = Some flow' ->
  at_coord intf t <> Finite 0 ->
  at_coord (dir_idx flow') t = at_coord (dir_idx flow) t.
Proof.
  unfold field_fixup_portal_edges.
  destruct (portal_edge_dir port) as [d|]; [|discriminate].
  intros H; injection H as <-. intros Hnz. simpl.
  rewrite fixup_edges_loop_spec.
  destruct (feqb (at_coord intf t) (Finite 0)) eqn:Hz; [|reflexivity].
  apply feqb_eq in Hz. contradiction.
Qed.

Lemma fixup_mask_loop_frame intf mask chunk idxs flow flow' t :
  fixup_mask_loop intf mask chunk idxs flow = Some flow' ->
  at_coord intf t <> Finite 0 ->
  at_coord (dir_idx flow') t = at_coord (dir_idx flow) t.
Proof.
  revert flow. induction idxs as [|i idxs IH]; intros flow; simpl.
  - intros H; injection H as <-. reflexivity.
  - destruct (Z.land mask (Z.shiftl 1 i) =? 0); [apply IH|].
    destruct (field_fixup_portal_edges intf flow (portals chunk i))
      as [flow1|] eqn:H1; [|discriminate].
    intros H Hnz. rewrite (IH _ H Hnz).
    eapply fixup_portal_edges_frame; eauto.
Qed.

Lemma field_fixup_frame target intf flow chunk flow' t :
  field_fixup target intf flow chunk = Some flow' ->
  at_coord intf t <> Finite 0 ->
  at_coord (dir_idx flow') t = at_coord (dir_idx flow) t.
Proof.
  destruct target as [port|tile|en|mask]; simpl.
  - apply fixup_portal_edges_frame.
  - intros H; injection H as <-. reflexivity.
  - intros H; injection H as <-. reflexivity.
  - apply fixup_mask_loop_frame.
Qed.

End FlowFacts.

(** ** The breadth-first search for passable tiles *)

Section PassableFrontierFacts.

Context {P : nav_params}.

Lemma bfs_visit_queue curr st d visited' q' :
  bfs_visit curr st d = Some (visited', q') ->
  exists visited q, st = Some (visited, q)
    /\ forall t, In t q' -> In t q \/ in_bounds t.
Proof.
  unfold bfs_visit. destruct st as [[visited q]|]; [|discriminate].
  intros H. exists visited, q. split; [reflexivity|]. revert H.
  set (nr := coord_r curr + fst d). set (nc := coord_c curr + snd d).
  cbn [coord_r coord_c].
  destruct ((nr <? 0) || (nr >=? FIELD_RES_R)) eqn:B1;
    [intros H; injection H as <- <-; auto|].
  destruct ((nc <? 0) || (nc >=? FIELD_RES_C)) eqn:B2;
    [intros H; injection H as <- <-; auto|].
  destruct (visited nr nc); [intros H; injection H as <- <-; auto|].
  unfold qpush.
  destruct (Z.of_nat (length q) <? FIELD_RES_R * FIELD_RES_C); [|discriminate].
  intros H; injection H as <- <-. intros t Ht.
  apply in_app_or in Ht. destruct Ht as [Ht|[<-|[]]]; [left; exact Ht|].
  right. boolp. unfold in_bounds. simpl. lia.
Qed.

Lemma bfs_visit_fold_queue curr ds st visited' q' :
  fold_left (bfs_visit curr) ds st = Some (visited', q') ->
  exists visited q, st = Some (visited, q)
    /\ forall t, In t q' -> In t q \/ in_bounds t.
Proof.
  revert st. induction ds as [|d ds IH]; intros st; simpl.
  - intros ->. exists visited', q'. auto.
  - intros H. destruct (IH _ H) as (v1 & q1 & H1 & Hq1).
    destruct (bfs_visit_queue _ _ _ _ _ H1) as (v0 & q0 & -> & Hq0).
    exists v0, q0. split; [reflexivity|]. intros t Ht.
    destruct (Hq1 t Ht) as [Hin|Hb]; auto.
Qed.

Lemma passable_frontier_loop_out fuel chunk visited q out maxout res :
  passable_frontier_loop fuel chunk visited q out maxout = Some res ->
  (forall t, In t q -> in_bounds t) ->
  (forall t, In t out -> in_bounds t /\ field_tile_passable chunk t = true) ->
  forall t, In t res -> in_bounds t /\ field_tile_passable chunk t = true.
Proof.
  revert visited q out.
  induction fuel as [|fuel IH]; intros visited q out;
    cbn [passable_frontier_loop]; [discriminate|].
  destruct q as [|curr q1]; cbn [qpop].
  - intros H; injection H as <-. auto.
  - destruct (field_tile_passable chunk curr) eqn:Hpass.
    + assert (Hout' : (forall t, In t (curr :: q1) -> in_bounds t) ->
                (forall t, In t out ->
                   in_bounds t /\ field_tile_passable chunk t = true) ->
                forall t, In t (out ++ [curr]) ->
                  in_bounds t /\ field_tile_passable chunk t = true).
      { intros Hq Hout t Ht. apply in_app_or in Ht.
        destruct Ht as [Ht|[<-|[]]]; [auto|].
        split; [apply Hq; left; reflexivity | exact Hpass]. }
      destruct (Z.of_nat (length (out ++ [curr])) =? maxout).
      * intros H; injection H as <-. auto.
      * intros H Hq Hout.
        apply (IH _ _ _ H);
          [intros t Ht; apply Hq; right; exact Ht | apply Hout'; assumption].
    + destruct (fold_left (bfs_visit curr) bfs_deltas (Some (visited, q1)))
        as [[visited' q2]|] eqn:Hfold; [|discriminate].
      intros H Hq Hout. apply (IH _ _ _ H); [|exact Hout].
      destruct (bfs_visit_fold_queue _ _ _ _ _ Hfold) as (v0 & q0 & Heq & Hq2).
      injection Heq as <- <-.
      intros t Ht. destruct (Hq2 t Ht) as [Hin|Hb]; auto.
      apply Hq. right; exact Hin.
Qed.

Lemma passable_frontier_out fuel chunk start maxout res :
  in_bounds start ->
  field_passable_frontier fuel chunk start maxout = Some res ->
  forall t, In t res -> in_bounds t /\ field_tile_passable chunk t = true.
Proof.
  unfold field_passable_frontier. intros Hs.
  destruct (field_tile_passable chunk start); [discriminate|].
  unfold qpush. simpl.
  destruct (0 <? FIELD_RES_R * FIELD_RES_C); [|discriminate].
  intros H. eapply passable_frontier_loop_out; eauto.
  - intros t [<-|[]]. exact Hs.
  - intros t [].
Qed.

End PassableFrontierFacts.

(** ** Flow fields point downhill *)

Section Downhill.

Context {P : nav_params} {E : nav_env} {Q : PQueue}.

Lemma downhill_from_supported intf dirs t v :
  supported Z.lt intf -> in_bounds t ->
  at_coord intf t = Finite v -> 0 < v ->
  field_flow_dir intf t = Some (at_coord dirs t) ->
  at_coord dirs t <> FD_NONE /\ in_bounds (dir_neighbour (at_coord dirs t) t)
  /\ exists w, at_coord intf (dir_neighbour (at_coord dirs t) t) = Finite w
               /\ w < v.
Proof.
  intros Hsup Ht Hv Hpos Hd.
  destruct (Hsup t v Ht Hv) as (n & w & Hn & Hadj & Hw & Hlt); [lia|].
  destruct (flow_dir_downhill _ _ _ _ _ Ht Hd Hn Hadj Hw)
    as (Hne & Hb & w' & Hw' & Hle).
  split; [exact Hne|]. split; [exact Hb|]. exists w'. split; [exact Hw'|lia].
Qed.

Lemma flow_update_downhill fuel chunk_coord priv faction_id layer target
    inout_flow intf flow :
  costs_positive
    (chunks priv layer
       (IDX (coord_r chunk_coord) (width priv) (coord_c chunk_coord))) ->
  target_in_bounds
    (chunks priv layer
       (IDX (coord_r chunk_coord) (width priv) (coord_c chunk_coord)))
    target ->
  N_FlowFieldUpdate_run fuel chunk_coord priv faction_id layer target
                        inout_flow = Some (intf, flow) ->
  flows_downhill intf flow.
Proof.
  unfold N_FlowFieldUpdate_run.
  set (chunk := chunks priv layer _). intros Hcost Htarget.
  destruct (field_initial_frontier target chunk priv false faction_id
              (FIELD_RES_R * FIELD_RES_C)) as [seeds|] eqn:Hseeds;
    [|discriminate].
  pose proof (seed_frontier_inv Z.lt seeds
                (initial_frontier_in_bounds _ _ _ _ _ _ _ Htarget Hseeds))
    as Hinv.
  destruct (seed_frontier seeds (pq_coord_init, all_infinite)) as [q0 I0].
  destruct (field_build_integration fuel q0 chunk faction_id I0)
    as [I|] eqn:Hint; [|discriminate].
  assert (Hsup : supported Z.lt I).
  { eapply (build_integration_inv Z.lt); [| |exact Hinv|exact Hint].
    - intros; lia.
    - intros t Ht _ w. specialize (Hcost t Ht). unfold at_coord in Hcost.
      destruct (blockers chunk (coord_r t) (coord_c t) =? 0);
        unfold COST_IMPASSABLE; lia. }
  unfold field_build_flow. cbn [dir_idx].
  destruct (build_flow_loop I (grid FIELD_RES_R FIELD_RES_C)
              (dir_idx inout_flow)) as [dirs1|] eqn:Hflow; [|discriminate].
  destruct (field_fixup target I _ chunk) as [flow2|] eqn:Hfix; [|discriminate].
  intros H; injection H as <- <-.
  intros t v Ht Hv Hpos. cbv zeta.
  assert (Hnz : at_coord I t <> Finite 0) by (rewrite Hv; intros H; injection H; lia).
  rewrite (field_fixup_frame _ _ _ _ _ t Hfix Hnz). cbn [set_dirs dir_idx].
  destruct (build_flow_loop_spec _ _ _ _ Hflow t) as [Hin _].
  assert (Hgrid : In t (grid FIELD_RES_R FIELD_RES_C)) by (apply in_grid; exact Ht).
  specialize (Hin Hgrid). unfold flow_cell_ok in Hin. rewrite Hv in Hin.
  destruct (Z.eqb_spec v 0) as [->|_]; [lia|].
  apply (downhill_from_supported I dirs1 t v); assumption.
Qed.

Lemma nearest_pathable_downhill fuel chunk start faction_id inout_flow
    intf flow :
  in_bounds start ->
  N_FlowFieldUpdateToNearestPathable_run fuel chunk start faction_id
                                         inout_flow = Some (intf, flow) ->
  flows_downhill intf flow.
Proof.
  unfold N_FlowFieldUpdateToNearestPathable_run. intros Hstart.
  destruct (field_passable_frontier fuel chunk start
              (FIELD_RES_R * FIELD_RES_C)) as [seeds|] eqn:Hseeds;
    [|discriminate].
  assert (Hsb : forall t, In t seeds -> in_bounds t).
  { intros t Ht. eapply passable_frontier_out; eauto. }
  pose proof (seed_frontier_inv Z.lt seeds Hsb) as Hinv.
  destruct (seed_frontier seeds (pq_coord_init, all_infinite)) as [q0 I0].
  destruct (field_build_integration_nonpass fuel q0 chunk faction_id I0)
    as [I|] eqn:Hint; [|discriminate].
  assert (Hsup : supported Z.lt I).
  { eapply (build_integration_nonpass_inv Z.lt); [| |exact Hinv|exact Hint].
    - intros; lia.
    - intros w. unfold COST_IMPASSABLE. lia. }
  destruct (nearest_flow_loop I (grid FIELD_RES_R FIELD_RES_C)
              (dir_idx inout_flow)) as [dirs1|] eqn:Hflow; [|discriminate].
  intros H; injection H as <- <-.
  intros t v Ht Hv Hpos. cbv zeta. cbn [set_dirs dir_idx].
  destruct (nearest_flow_loop_spec _ _ _ _ Hflow t) as [Hin _].
  assert (Hgrid : In t (grid FIELD_RES_R FIELD_RES_C)) by (apply in_grid; exact Ht).
  specialize (Hin Hgrid). unfold nearest_cell_ok in Hin. rewrite Hv in Hin.
  destruct (Z.eqb_spec v 0) as [->|_]; [lia|].
  apply (downhill_from_supported I dirs1 t v); assumption.
Qed.

End Downhill.

Section DownhillTheorem.

Context {P : nav_params} {E : nav_env} {Q : PQueue}.

(** C1. In every flow field produced by [N_FlowFieldUpdate] (for a chunk
    whose base costs are at least 1 and a target inside the field) or by
    [N_FlowFieldUpdateToNearestPathable] (for a start tile inside the
    field), every tile with a finite, strictly positive integration value
    holds a direction set by flow derivation, and the neighbour in that
    direction lies in the field and has a strictly smaller integration
    value. *)
Theorem flow_points_downhill :
  (forall fuel chunk_coord priv faction_id layer target inout_flow intf flow,
     costs_positive
       (chunks priv layer
          (IDX (coord_r chunk_coord) (width priv) (coord_c chunk_coord))) ->
     target_in_bounds
       (chunks priv layer
          (IDX (coord_r chunk_coord) (width priv) (coord_c chunk_coord)))
       target ->
     N_FlowFieldUpdate_run fuel chunk_coord priv faction_id layer target
                           inout_flow = Some (intf, flow) ->
     flows_downhill intf flow)
  /\ (forall fuel chunk start faction_id inout_flow intf flow,
        in_bounds start ->
        N_FlowFieldUpdateToNearestPathable_run fuel chunk start faction_id
                                               inout_flow = Some (intf, flow) ->
        flows_downhill intf flow).
Proof.
  split.
  - intros. eapply flow_update_downhill; eauto.
  - intros. eapply nearest_pathable_downhill; eauto.
Qed.

End DownhillTheorem.

Lemma open_chunk_costs_positive :
  costs_positive (P := scenario_params) open_chunk.
Proof. intros t _. unfold at_coord. simpl. lia. Qed.

(** The open field of scenario 1 and the blocked square of scenario 6. *)
Lemma flow_points_downhill_witness :
  match open_field_run with
  | Some (intf, flow) => flows_downhill (P := scenario_params) intf flow
  | None => False
  end
  /\ match blocked_square_run with
     | Some (intf, flow) => flows_downhill (P := scenario_params) intf flow
     | None => False
     end.
Proof.
  split.
  - destruct open_field_run as [[intf flow]|] eqn:Hrun.
    + apply (proj1 (flow_points_downhill (P := scenario_params)
                      (E := scenario_env) (Q := list_pqueue))
               200%nat (Coord 0 0) (single_chunk_map open_chunk) (-1) 0
               (Target_tile (Coord 4 4)) empty_flow).
      * exact open_chunk_costs_positive.
      * unfold target_in_bounds, in_bounds. simpl. lia.
      * exact Hrun.
    + vm_compute in Hrun. discriminate.
  - destruct blocked_square_run as [[intf flow]|] eqn:Hrun.
    + apply (proj2 (flow_points_downhill (P := scenario_params)
                      (E := scenario_env) (Q := list_pqueue))
               200%nat blocked_square (Coord 3 3) (-1) empty_flow).
      * unfold in_bounds. simpl. lia.
      * exact Hrun.
    + vm_compute in Hrun. discriminate.
Defined.

(** C2 fails on the code. With (1,2) impassable and (2,3) expensive, the
    tile (2,2) is given the diagonal direction NE although its northern
    neighbour (1,2), one of the two sides of that corner, has an infinite
    integration value: the chain of comparisons in [field_flow_dir] tests
    the diagonals without the corner rule the minimum was computed under. *)
Theorem flow_dir_cuts_corner :
  flow_dir_at corner_run (Coord 2 2) = Some FD_NE
  /\ integration_at corner_run (Coord 2 2) = Some (Finite 4)
  /\ integration_at corner_run (dir_neighbour FD_NE (Coord 2 2))
     = Some (Finite 2)
  /\ integration_at corner_run (fst (corner_sides FD_NE (Coord 2 2)))
     = Some PosInf
  /\ integration_at corner_run (Coord 2 3) = Some (Finite 5)
  /\ integration_at corner_run (Coord 3 3) = Some (Finite 2).
Proof. vm_compute. repeat split; reflexivity. Qed.

(** ** The assertions of [field_flow_dir] *)

Section MinCostAssertion.

Context {P : nav_params} {E : nav_env} {Q : PQueue}.

Lemma finite_neighbour_min_cost intf t n :
  in_bounds t -> in_bounds n -> adjacent4 n t ->
  is_finite (at_coord intf n) -> is_finite (flow_min_cost intf t).
Proof.
  intros Ht Hn Hadj [w Hw].
  destruct (adjacent_cardinal intf t n Ht Hn Hadj) as (k & Hk & -> & Hc).
  pose proof (min_fold_le_cand intf t min_order PosInf k Hk Hc) as Hle.
  rewrite <- flow_min_cost_fold, Hw in Hle.
  destruct (flow_min_cost intf t) as [m|]; [exists m; reflexivity|].
  simpl in Hle. discriminate.
Qed.

(** C10. In an integration field that [field_build_integration] or
    [field_build_integration_nonpass] produced from a frontier of seed
    tiles inside the field, every tile with a finite, strictly positive
    value has an in-bounds 4-neighbour with a finite value, so the
    [assert(min_cost < INFINITY)] of [field_flow_dir] holds there; and (the
    field being at least as tall as wide, as the square field is)
    [field_flow_dir] returns a direction other than [FD_NONE]. *)
Theorem min_cost_assertion_holds fuel seeds chunk faction_id intf t v :
  (forall s, In s seeds -> in_bounds s) ->
  (field_build_integration fuel
     (fst (seed_frontier seeds (pq_coord_init, all_infinite)))
     chunk faction_id
     (snd (seed_frontier seeds (pq_coord_init, all_infinite))) = Some intf
   \/ field_build_integration_nonpass fuel
        (fst (seed_frontier seeds (pq_coord_init, all_infinite)))
        chunk faction_id
        (snd (seed_frontier seeds (pq_coord_init, all_infinite))) = Some intf) ->
  in_bounds t -> at_coord intf t = Finite v -> 0 < v ->
  (exists n, in_bounds n /\ adjacent4 n t /\ is_finite (at_coord intf n))
  /\ flt (flow_min_cost intf t) PosInf = true
  /\ (FIELD_RES_C <= FIELD_RES_R ->
      exists d, field_flow_dir intf t = Some d /\ d <> FD_NONE).
Proof.
  intros Hseeds Hrun Ht Hv Hpos.
  pose proof (seed_frontier_inv (fun _ _ => True) seeds Hseeds) as Hinv.
  destruct (seed_frontier seeds (pq_coord_init, all_infinite)) as [q0 I0].
  simpl fst in Hrun. simpl snd in Hrun.
  assert (Hsup : supported (fun _ _ => True) intf).
  { destruct Hrun as [Hrun|Hrun].
    - eapply (build_integration_inv (fun _ _ => True)); eauto.
    - eapply (build_integration_nonpass_inv (fun _ _ => True)); eauto. }
  destruct (Hsup t v Ht Hv) as (n & w & Hn & Hadj & Hw & _); [lia|].
  assert (Hfin : is_finite (flow_min_cost intf t)).
  { apply (finite_neighbour_min_cost intf t n); auto. exists w; exact Hw. }
  split; [exists n; repeat split; auto; try apply Hn; exists w; exact Hw|].
  split; [apply flt_PosInf; exact Hfin|].
  intros Hle. apply field_flow_dir_total; assumption.
Qed.

End MinCostAssertion.

(** The tile (0,0) of the open field of scenario 1, eight steps from the
    target. *)
Lemma min_cost_assertion_holds_witness :
  match open_field_integration with
  | Some intf =>
      (exists n, in_bounds (P := scenario_params) n
                 /\ adjacent4 n (Coord 0 0) /\ is_finite (at_coord intf n))
      /\ flt (flow_min_cost (P := scenario_params) intf (Coord 0 0)) PosInf
         = true
      /\ (FIELD_RES_C (nav_params := scenario_params)
          <= FIELD_RES_R (nav_params := scenario_params) ->
          exists d,
            field_flow_dir (P := scenario_params) intf (Coord 0 0) = Some d
            /\ d <> FD_NONE)
  | None => False
  end.
Proof.
  destruct open_field_integration as [intf|] eqn:Hrun.
  - apply (min_cost_assertion_holds (P := scenario_params)
             (E := scenario_env) (Q := list_pqueue) 200 [Coord 4 4]
             open_chunk (-1) intf (Coord 0 0) 8).
    + intros s [<-|[]]. unfold in_bounds. simpl. lia.
    + left. exact Hrun.
    + unfold in_bounds. simpl. lia.
    + vm_compute in Hrun. injection Hrun as <-. reflexivity.
    + lia.
  - vm_compute in Hrun. discriminate.
Defined.

(** ** Termination of the breadth-first search *)

Section PassableFrontierTermination.

Context {P : nav_params}.

Lemma length_zrange lo n : length (zrange lo n) = Z.to_nat n.
Proof. unfold zrange. rewrite length_map, length_seq. reflexivity. Qed.

Lemma length_grid nr nc :
  length (grid nr nc) = (Z.to_nat nr * Z.to_nat nc)%nat.
Proof.
  unfold grid.
  rewrite (flat_map_constant_length (c := Z.to_nat nc)).
  - rewrite length_zrange. reflexivity.
  - intros r _. rewrite length_map, length_zrange. reflexivity.
Qed.

Lemma filter_mark_le (visited : Z -> Z -> bool) t l :
  (length (filter (fun x =>
             negb (at_coord (upd visited (coord_r t) (coord_c t) true) x)) l)
   <= length (filter (fun x => negb (at_coord visited x)) l))%nat.
Proof.
  induction l as [|x l IH]; simpl; [lia|].
  destruct (coord_eq_dec x t) as [->|Hne].
  - rewrite at_coord_upd_same. simpl.
    destruct (negb (at_coord visited t)); simpl; lia.
  - rewrite at_coord_upd_other by exact Hne.
    destruct (negb (at_coord visited x)); simpl; lia.
Qed.

Lemma filter_mark_lt (visited : Z -> Z -> bool) t l :
  In t l -> at_coord visited t = false ->
  (length (filter (fun x =>
             negb (at_coord (upd visited (coord_r t) (coord_c t) true) x)) l)
   < length (filter (fun x => negb (at_coord visited x)) l))%nat.
Proof.
  intros Hin Hv. induction l as [|x l IH]; [destruct Hin|]. simpl.
  destruct (coord_eq_dec x t) as [->|Hne].
  - rewrite at_coord_upd_same, Hv. simpl.
    pose proof (filter_mark_le visited t l). lia.
  - rewrite at_coord_upd_other by exact Hne.
    destruct Hin as [->|Hin]; [contradiction|]. specialize (IH Hin).
    destruct (negb (at_coord visited x)); simpl; lia.
Qed.

Lemma unvisited_mark visited t :
  in_bounds t -> at_coord visited t = false ->
  (unvisited_count (upd visited (coord_r t) (coord_c t) true)
   < unvisited_count visited)%nat.
Proof.
  intros Ht Hv. unfold unvisited_count. apply filter_mark_lt; [|exact Hv].
  apply in_grid. exact Ht.
Qed.

Lemma unvisited_count_le visited :
  Z.of_nat (unvisited_count visited) <= Z.max 0 FIELD_RES_R * Z.max 0 FIELD_RES_C.
Proof.
  unfold unvisited_count.
  pose proof (filter_length_le (fun t => negb (at_coord visited t))
                (grid FIELD_RES_R FIELD_RES_C)) as Hle.
  rewrite length_grid in Hle. nia.
Qed.

(** One visit keeps the queue within the ring buffer and does not raise
    the number of queued plus unmarked tiles. *)
Lemma bfs_visit_ok curr visited q d :
  Z.of_nat (length q) + Z.of_nat (unvisited_count visited)
  < FIELD_RES_R * FIELD_RES_C ->
  exists visited' q',
    bfs_visit curr (Some (visited, q)) d = Some (visited', q')
    /\ (length q' + unvisited_count visited'
        <= length q + unvisited_count visited)%nat.
Proof.
  intros Hm. unfold bfs_visit.
  set (nr := coord_r curr + fst d). set (nc := coord_c curr + snd d).
  cbn [coord_r coord_c].
  destruct ((nr <? 0) || (nr >=? FIELD_RES_R)) eqn:B1;
    [exists visited, q; split; [reflexivity|lia]|].
  destruct ((nc <? 0) || (nc >=? FIELD_RES_C)) eqn:B2;
    [exists visited, q; split; [reflexivity|lia]|].
  destruct (visited nr nc) eqn:Hv;
    [exists visited, q; split; [reflexivity|lia]|].
  unfold qpush.
  assert (Hb : in_bounds (Coord nr nc)).
  { boolp. unfold in_bounds. simpl. lia. }
  pose proof (unvisited_mark visited (Coord nr nc) Hb Hv) as Hlt.
  simpl in Hlt.
  destruct (Z.ltb_spec (Z.of_nat (length q)) (FIELD_RES_R * FIELD_RES_C));
    [|lia].
  eexists; eexists; split; [reflexivity|].
  rewrite length_app. simpl. lia.
Qed.

Lemma bfs_visit_fold_ok curr ds visited q :
  Z.of_nat (length q) + Z.of_nat (unvisited_count visited)
  < FIELD_RES_R * FIELD_RES_C ->
  exists visited' q',
    fold_left (bfs_visit curr) ds (Some (visited, q)) = Some (visited', q')
    /\ (length q' + unvisited_count visited'
        <= length q + unvisited_count visited)%nat.
Proof.
  revert visited q.
  induction ds as [|d ds IH]; intros visited q Hm; cbn [fold_left].
  - exists visited, q. split; [reflexivity|lia].
  - destruct (bfs_visit_ok curr visited q d Hm) as (v1 & q1 & H1 & Hle1).
    rewrite H1.
    destruct (IH v1 q1) as (v2 & q2 & H2 & Hle2); [lia|].
    exists v2, q2. split; [exact H2|lia].
Qed.

Lemma passable_frontier_loop_terminates fuel chunk visited q out maxout :
  (length q + unvisited_count visited < fuel)%nat ->
  Z.of_nat (length q) + Z.of_nat (unvisited_count visited)
  <= FIELD_RES_R * FIELD_RES_C ->
  exists res, passable_frontier_loop fuel chunk visited q out maxout = Some res.
Proof.
  revert visited q out.
  induction fuel as [|fuel IH]; intros visited q out Hfuel Hm; [lia|].
  cbn [passable_frontier_loop].
  destruct q as [|curr q1]; cbn [qpop]; [eauto|].
  simpl length in Hfuel, Hm.
  destruct (field_tile_passable chunk curr).
  - destruct (Z.of_nat (length (out ++ [curr])) =? maxout); [eauto|].
    apply IH; lia.
  - destruct (bfs_visit_fold_ok curr bfs_deltas visited q1)
      as (v2 & q2 & H2 & Hle); [lia|].
    rewrite H2. apply IH; lia.
Qed.

(** [field_passable_frontier] returns once the fuel exceeds the number of
    tiles; none of its assertions fails on an impassable start tile inside
    the field. *)
Lemma passable_frontier_terminates fuel chunk start maxout :
  in_bounds start -> field_tile_passable chunk start = false ->
  FIELD_RES_R * FIELD_RES_C < Z.of_nat fuel ->
  exists res, field_passable_frontier fuel chunk start maxout = Some res.
Proof.
  intros Hs Hp Hfuel. unfold field_passable_frontier. rewrite Hp.
  assert (Hpos : 0 < FIELD_RES_R * FIELD_RES_C).
  { unfold in_bounds in Hs. nia. }
  unfold qpush. simpl length.
  destruct (Z.ltb_spec (Z.of_nat 0) (FIELD_RES_R * FIELD_RES_C)); [|lia].
  simpl app.
  assert (Hlt : (unvisited_count
                   (upd (fun _ _ => false) (coord_r start) (coord_c start) true)
                 < unvisited_count (fun _ _ => false))%nat).
  { apply unvisited_mark; [exact Hs | reflexivity]. }
  pose proof (unvisited_count_le (fun _ _ => false)) as Hle.
  assert (Hmax : Z.max 0 FIELD_RES_R * Z.max 0 FIELD_RES_C
                 = FIELD_RES_R * FIELD_RES_C).
  { unfold in_bounds in Hs. rewrite !Z.max_r by lia. reflexivity. }
  apply passable_frontier_loop_terminates; simpl length; lia.
Qed.

End PassableFrontierTermination.

(** ** Unreached tiles keep their direction *)

Section Frame.

Context {P : nav_params} {E : nav_env} {Q : PQueue}.

Lemma build_flow_loop_frame intf tiles dirs dirs' t :
  build_flow_loop intf tiles dirs = Some dirs' ->
  at_coord intf t = PosInf -> at_coord dirs' t = at_coord dirs t.
Proof.
  intros Hloop Hinf.
  destruct (build_flow_loop_spec _ _ _ _ Hloop t) as [Hin Hout].
  destruct (in_dec coord_eq_dec t tiles) as [Ht|Ht]; [|apply Hout; exact Ht].
  specialize (Hin Ht). unfold flow_cell_ok in Hin. rewrite Hinf in Hin.
  exact Hin.
Qed.

Lemma nearest_flow_loop_frame intf tiles dirs dirs' t :
  nearest_flow_loop intf tiles dirs = Some dirs' ->
  at_coord intf t = PosInf -> at_coord dirs' t = at_coord dirs t.
Proof.
  intros Hloop Hinf.
  destruct (nearest_flow_loop_spec _ _ _ _ Hloop t) as [Hin Hout].
  destruct (in_dec coord_eq_dec t tiles) as [Ht|Ht]; [|apply Hout; exact Ht].
  specialize (Hin Ht). unfold nearest_cell_ok in Hin. rewrite Hinf in Hin.
  exact Hin.
Qed.

Lemma flow_update_frame fuel chunk_coord priv faction_id layer target
    inout_flow intf flow t :
  N_FlowFieldUpdate_run fuel chunk_coord priv faction_id layer target
                        inout_flow = Some (intf, flow) ->
  at_coord intf t = PosInf ->
  at_coord (dir_idx flow) t = at_coord (dir_idx inout_flow) t.
Proof.
  unfold N_FlowFieldUpdate_run.
  set (chunk := chunks priv layer _).
  destruct (field_initial_frontier target chunk priv false faction_id
              (FIELD_RES_R * FIELD_RES_C)) as [seeds|]; [|discriminate].
  destruct (seed_frontier seeds (pq_coord_init, all_infinite)) as [q0 I0].
  destruct (field_build_integration fuel q0 chunk faction_id I0)
    as [I|]; [|discriminate].
  unfold field_build_flow. cbn [dir_idx].
  destruct (build_flow_loop I (grid FIELD_RES_R FIELD_RES_C)
              (dir_idx inout_flow)) as [dirs1|] eqn:Hflow; [|discriminate].
  destruct (field_fixup target I _ chunk) as [flow2|] eqn:Hfix; [|discriminate].
  intros H; injection H as <- <-. intros Hinf.
  rewrite (field_fixup_frame _ _ _ _ _ t Hfix) by (rewrite Hinf; discriminate).
  cbn [set_dirs dir_idx].
  eapply build_flow_loop_frame; eauto.
Qed.

Lemma nearest_pathable_frame fuel chunk start faction_id inout_flow intf
    flow t :
  N_FlowFieldUpdateToNearestPathable_run fuel chunk start faction_id
                                         inout_flow = Some (intf, flow) ->
  at_coord intf t = PosInf ->
  at_coord (dir_idx flow) t = at_coord (dir_idx inout_flow) t.
Proof.
  unfold N_FlowFieldUpdateToNearestPathable_run.
  destruct (field_passable_frontier fuel chunk start
              (FIELD_RES_R * FIELD_RES_C)) as [seeds|]; [|discriminate].
  destruct (seed_frontier seeds (pq_coord_init, all_infinite)) as [q0 I0].
  destruct (field_build_integration_nonpass fuel q0 chunk faction_id I0)
    as [I|]; [|discriminate].
  destruct (nearest_flow_loop I (grid FIELD_RES_R FIELD_RES_C)
              (dir_idx inout_flow)) as [dirs1|] eqn:Hflow; [|discriminate].
  intros H; injection H as <- <-. intros Hinf. cbn [set_dirs dir_idx].
  eapply nearest_flow_loop_frame; eauto.
Qed.

Lemma nearest_flow_loop_all_infinite tiles dirs :
  nearest_flow_loop all_infinite tiles dirs = Some dirs.
Proof. induction tiles as [|t tiles IH]; simpl; auto. Qed.

Lemma pq_init_size : (pq_size pq_coord_init >? 0) = false.
Proof. apply pq_size_zero. apply pq_init_entries. Qed.

(** In a chunk without a passable tile the search finds no seed, the
    integration field stays infinite and the flow field is returned as it
    came. *)
Lemma nearest_pathable_all_impassable fuel chunk start faction_id inout_flow :
  in_bounds start ->
  (forall t, in_bounds t -> field_tile_passable chunk t = false) ->
  FIELD_RES_R * FIELD_RES_C < Z.of_nat fuel ->
  N_FlowFieldUpdateToNearestPathable_run fuel chunk start faction_id
                                         inout_flow
  = Some (all_infinite, inout_flow).
Proof.
  intros Hs Himp Hfuel. unfold N_FlowFieldUpdateToNearestPathable_run.
  destruct (passable_frontier_terminates fuel chunk start
              (FIELD_RES_R * FIELD_RES_C) Hs (Himp start Hs) Hfuel)
    as [seeds Hseeds].
  rewrite Hseeds.
  assert (Hnil : seeds = []).
  { destruct seeds as [|s seeds]; [reflexivity|]. exfalso.
    destruct (passable_frontier_out _ _ _ _ _ Hs Hseeds s
                (or_introl eq_refl)) as [Hb Hp].
    rewrite (Himp s Hb) in Hp. discriminate. }
  subst seeds. cbn [seed_frontier fold_left].
  destruct fuel as [|fuel]; [unfold in_bounds in Hs; simpl in Hfuel; nia|].
  cbn [field_build_integration_nonpass]. rewrite pq_init_size.
  rewrite nearest_flow_loop_all_infinite.
  destruct inout_flow; reflexivity.
Qed.

(** C9. A tile whose integration value is still infinite after the
    wavefront keeps the direction the buffer held on entry, under
    [N_FlowFieldUpdate] and under [N_FlowFieldUpdateToNearestPathable];
    and when no tile of the chunk is passable, the latter returns (given
    fuel for one visit of every tile) the flow field it was given. *)
Theorem unreached_tiles_keep_direction :
  (forall fuel chunk_coord priv faction_id layer target inout_flow intf flow t,
     N_FlowFieldUpdate_run fuel chunk_coord priv faction_id layer target
                           inout_flow = Some (intf, flow) ->
     at_coord intf t = PosInf ->
     at_coord (dir_idx flow) t = at_coord (dir_idx inout_flow) t)
  /\ (forall fuel chunk start faction_id inout_flow intf flow t,
        N_FlowFieldUpdateToNearestPathable_run fuel chunk start faction_id
                                               inout_flow = Some (intf, flow) ->
        at_coord intf t = PosInf ->
        at_coord (dir_idx flow) t = at_coord (dir_idx inout_flow) t)
  /\ (forall fuel chunk start faction_id inout_flow,
        in_bounds start ->
        (forall t, in_bounds t -> field_tile_passable chunk t = false) ->
        FIELD_RES_R * FIELD_RES_C < Z.of_nat fuel ->
        N_FlowFieldUpdateToNearestPathable fuel chunk start faction_id
                                           inout_flow
        = Some inout_flow).
Proof.
  split; [|split].
  - intros. eapply flow_update_frame; eauto.
  - intros. eapply nearest_pathable_frame; eauto.
  - intros fuel chunk start faction_id inout_flow Hs Himp Hfuel.
    unfold N_FlowFieldUpdateToNearestPathable.
    rewrite (nearest_pathable_all_impassable _ _ _ _ _ Hs Himp Hfuel).
    reflexivity.
Qed.

End Frame.

Lemma walled_chunk_impassable t :
  field_tile_passable walled_chunk t = false.
Proof. reflexivity. Qed.

(** The impassable tile (1,2) of the corner field, the far corner (0,0) of
    the blocked square, and a chunk of walls. *)
Lemma unreached_tiles_keep_direction_witness :
  flow_dir_at corner_stale_run (Coord 1 2) = Some FD_E
  /\ flow_dir_at blocked_square_stale_run (Coord 0 0) = Some FD_E
  /\ N_FlowFieldUpdateToNearestPathable (P := scenario_params)
       (E := scenario_env) (Q := list_pqueue) 65 walled_chunk (Coord 3 3)
       (-1) stale_flow = Some stale_flow.
Proof.
  pose proof (unreached_tiles_keep_direction (P := scenario_params)
                (E := scenario_env) (Q := list_pqueue)) as (H1 & H2 & H3).
  split; [|split].
  - destruct corner_stale_run as [[intf flow]|] eqn:Hrun.
    + simpl. f_equal.
      apply (H1 _ _ _ _ _ _ _ _ _ (Coord 1 2) Hrun).
      vm_compute in Hrun. injection Hrun as <- _. reflexivity.
    + vm_compute in Hrun. discriminate.
  - destruct blocked_square_stale_run as [[intf flow]|] eqn:Hrun.
    + simpl. f_equal.
      apply (H2 _ _ _ _ _ _ _ (Coord 0 0) Hrun).
      vm_compute in Hrun. injection Hrun as <- _. reflexivity.
    + vm_compute in Hrun. discriminate.
  - apply H3.
    + unfold in_bounds. simpl. lia.
    + intros t _. apply walled_chunk_impassable.
    + simpl. lia.
Defined.

(** ** The portal fix-up *)

Section Fixup.

Context {P : nav_params} {E : nav_env} {Q : PQueue}.

Lemma portal_edge_dir_spec port d :
  portal_edge_dir port = Some d ->
  is_cardinal d = true /\ points_toward d port.
Proof.
  unfold portal_edge_dir, points_toward.
  rewrite !Z.gtb_ltb.
  destruct (Z.ltb_spec (coord_r (connected_chunk port))
                       (coord_r (port_chunk port)));
  destruct (Z.ltb_spec (coord_r (port_chunk port))
                       (coord_r (connected_chunk port)));
  destruct (Z.ltb_spec (coord_c (connected_chunk port))
                       (coord_c (port_chunk port)));
  destruct (Z.ltb_spec (coord_c (port_chunk port))
                       (coord_c (connected_chunk port)));
  simpl; intros Hd; try discriminate; injection Hd as <-; simpl;
  (split; [reflexivity|]); split; lia.
Qed.

Lemma fixup_portal_edges_seeds intf flow port flow' :
  field_fixup_portal_edges intf flow port = Some flow' ->
  exists d, portal_edge_dir port = Some d /\ seeds_point intf flow' d.
Proof.
  unfold field_fixup_portal_edges.
  destruct (portal_edge_dir port) as [d|]; [|discriminate].
  intros H; injection H as <-. exists d. split; [reflexivity|].
  intros t Ht Hz. simpl. rewrite fixup_edges_loop_spec.
  rewrite Hz. simpl.
  destruct (existsb (coord_eqb t) (grid FIELD_RES_R FIELD_RES_C)) eqn:He;
    [reflexivity|].
  apply existsb_grid in Ht. congruence.
Qed.

Lemma fixup_mask_loop_unselected intf mask chunk idxs flow :
  (forall j, In j idxs -> portal_selected mask j = false) ->
  fixup_mask_loop intf mask chunk idxs flow = Some flow.
Proof.
  induction idxs as [|j idxs IH]; intros Hn; simpl; [reflexivity|].
  pose proof (Hn j (or_introl eq_refl)) as Hj. unfold portal_selected in Hj.
  apply negb_false_iff in Hj. rewrite Hj. apply IH.
  intros k Hk. apply Hn. right; exact Hk.
Qed.

Lemma fixup_mask_loop_last intf mask chunk l1 i l2 flow flow' :
  fixup_mask_loop intf mask chunk (l1 ++ i :: l2) flow = Some flow' ->
  portal_selected mask i = true ->
  (forall j, In j l2 -> portal_selected mask j = false) ->
  exists d, portal_edge_dir (portals chunk i) = Some d
            /\ seeds_point intf flow' d.
Proof.
  revert flow. induction l1 as [|k l1 IH]; intros flow; simpl.
  - intros H Hi Hl2. unfold portal_selected in Hi.
    apply negb_true_iff in Hi. rewrite Hi in H.
    destruct (field_fixup_portal_edges intf flow (portals chunk i))
      as [flow1|] eqn:H1; [|discriminate].
    rewrite (fixup_mask_loop_unselected _ _ _ _ _ Hl2) in H.
    injection H as <-. eapply fixup_portal_edges_seeds; eauto.
  - destruct (Z.land mask (Z.shiftl 1 k) =? 0); [apply IH|].
    destruct (field_fixup_portal_edges intf flow (portals chunk k))
      as [flow1|]; [|discriminate].
    apply IH.
Qed.

Lemma map_seq_from {A} (f : nat -> A) s n :
  map f (seq s n) = map (fun x => f (s + x)%nat) (seq 0 n).
Proof.
  revert s f. induction n as [|n IH]; intros s f; simpl; [reflexivity|].
  rewrite Nat.add_0_r. f_equal.
  rewrite (IH (S s)), (IH 1%nat). apply map_ext. intros a.
  f_equal. lia.
Qed.

Lemma zrange_split lo n i :
  lo <= i < lo + n ->
  zrange lo n = zrange lo (i - lo) ++ i :: zrange (i + 1) (lo + n - i - 1).
Proof.
  intros Hi. unfold zrange.
  replace (Z.to_nat n)
    with (Z.to_nat (i - lo) + S (Z.to_nat (lo + n - i - 1)))%nat by lia.
  rewrite seq_app, map_app. f_equal. simpl. f_equal; [lia|].
  rewrite map_seq_from. apply map_ext. intros a. lia.
Qed.

(** X1, the part of C8 the code keeps. After [N_FlowFieldUpdate] with a
    PORTAL target every tile with integration value 0 holds the cardinal
    direction that points to the chunk the portal is connected to. With a PORTAL_MASK target every
    such tile holds the cardinal direction that points to the chunk the
    selected portal of highest index is connected to (so to the connected
    chunk of each selected portal when they all lie the same way). *)
Theorem portal_seeds_point_across :
  (forall fuel chunk_coord priv faction_id layer port inout_flow intf flow,
     N_FlowFieldUpdate_run fuel chunk_coord priv faction_id layer
                           (Target_portal port) inout_flow
     = Some (intf, flow) ->
     exists d, is_cardinal d = true /\ points_toward d port
               /\ seeds_point intf flow d)
  /\ (forall fuel chunk_coord priv faction_id layer mask inout_flow intf
             flow i,
        N_FlowFieldUpdate_run fuel chunk_coord priv faction_id layer
                              (Target_portalmask mask) inout_flow
        = Some (intf, flow) ->
        let chunk :=
          chunks priv layer
                 (IDX (coord_r chunk_coord) (width priv)
                      (coord_c chunk_coord)) in
        0 <= i < num_portals chunk ->
        portal_selected mask i = true ->
        (forall j, i < j < num_portals chunk ->
           portal_selected mask j = false) ->
        exists d, is_cardinal d = true
                  /\ points_toward d (portals chunk i)
                  /\ seeds_point intf flow d).
Proof.
  split.
  - intros fuel chunk_coord priv faction_id layer port inout_flow intf flow.
    unfold N_FlowFieldUpdate_run.
    set (chunk := chunks priv layer _).
    destruct (field_initial_frontier _ chunk priv false faction_id _)
      as [seeds|]; [|discriminate].
    destruct (seed_frontier seeds (pq_coord_init, all_infinite)) as [q0 I0].
    destruct (field_build_integration fuel q0 chunk faction_id I0)
      as [I|]; [|discriminate].
    destruct (field_build_flow I _) as [flow1|]; [|discriminate].
    destruct (field_fixup _ I flow1 chunk) as [flow2|] eqn:Hfix;
      [|discriminate].
    intros H; injection H as <- <-. simpl in Hfix.
    destruct (fixup_portal_edges_seeds _ _ _ _ Hfix) as (d & Hd & Hs).
    destruct (portal_edge_dir_spec _ _ Hd) as [Hc Hp].
    exists d. auto.
  - intros fuel chunk_coord priv faction_id layer mask inout_flow intf flow i.
    unfold N_FlowFieldUpdate_run.
    set (chunk := chunks priv layer _).
    destruct (field_initial_frontier _ chunk priv false faction_id _)
      as [seeds|]; [|discriminate].
    destruct (seed_frontier seeds (pq_coord_init, all_infinite)) as [q0 I0].
    destruct (field_build_integration fuel q0 chunk faction_id I0)
      as [I|]; [|discriminate].
    destruct (field_build_flow I _) as [flow1|]; [|discriminate].
    destruct (field_fixup _ I flow1 chunk) as [flow2|] eqn:Hfix;
      [|discriminate].
    intros H; injection H as <- <-. cbv zeta. intros Hi Hsel Hlast.
    simpl in Hfix.
    rewrite (zrange_split 0 (num_portals chunk) i) in Hfix by lia.
    destruct (fixup_mask_loop_last _ _ _ _ _ _ _ _ Hfix Hsel)
      as (d & Hd & Hs).
    { intros j Hj. apply in_zrange in Hj. apply Hlast. lia. }
    destruct (portal_edge_dir_spec _ _ Hd) as [Hc Hp].
    exists d. auto.
Qed.

End Fixup.

(** The top portal alone, and both portals of the chunk, of which the right
    one has the higher index. *)
Lemma portal_seeds_point_across_witness :
  match top_portal_run with
  | Some (intf, flow) =>
      exists d, is_cardinal d = true /\ points_toward d top_portal
                /\ seeds_point (P := scenario_params) intf flow d
  | None => False
  end
  /\ match both_portals_run with
     | Some (intf, flow) =>
         exists d, is_cardinal d = true /\ points_toward d right_portal
                   /\ seeds_point (P := scenario_params) intf flow d
     | None => False
     end.
Proof.
  pose proof (portal_seeds_point_across (P := scenario_params)
                (E := scenario_env) (Q := list_pqueue)) as [H1 H2].
  split.
  - destruct top_portal_run as [[intf flow]|] eqn:Hrun.
    + apply (H1 _ _ _ _ _ _ _ _ _ Hrun).
    + vm_compute in Hrun. discriminate.
  - destruct both_portals_run as [[intf flow]|] eqn:Hrun.
    + apply (H2 _ _ _ _ _ _ _ _ _ 1 Hrun).
      * simpl. lia.
      * reflexivity.
      * intros j Hj. simpl in Hj. lia.
    + vm_compute in Hrun. discriminate.
Defined.

(** C8 fails on the code for a PORTAL_MASK target whose portals lie on
    different edges: every pass of [field_fixup_portal_edges] rewrites all
    tiles with integration value 0, so the seed (0,4) of the selected top
    portal, whose connected chunk lies to the north, ends up pointing
    east. *)
Lemma portalmask_seed_points_sideways :
  portal_selected 3 0 = true
  /\ In (Coord 0 4) (portal_tiles top_portal)
  /\ portal_edge_dir top_portal = Some FD_N
  /\ integration_at both_portals_run (Coord 0 4) = Some (Finite 0)
  /\ flow_dir_at both_portals_run (Coord 0 4) = Some FD_E.
Proof. vm_compute. intuition. Qed.

(** ** Padding of the wavefront *)

Section Padding.

Context {P : nav_params} {E : nav_env} {Q : PQueue}.

Lemma in_pad_offsets r c t :
  In t (pad_offsets r c) <-> near (Coord r c) t.
Proof.
  unfold pad_offsets, near. rewrite in_flat_map. cbn [coord_r coord_c]. split.
  - intros [rr [Hr Ht]]. apply in_map_iff in Ht. destruct Ht as [cc [<- Hc]].
    apply in_zrange in Hr, Hc. simpl. lia.
  - intros [Hr Hc]. exists (coord_r t). split; [apply in_zrange; lia|].
    apply in_map_iff. exists (coord_c t). split; [destruct t; reflexivity|].
    apply in_zrange. lia.
Qed.

Lemma pad_step_spec f t x :
  wavefront_blocked (at_coord (pad_step f t) x)
  = wavefront_blocked (at_coord f x)
  /\ (visible (at_coord (pad_step f t) x) = true ->
      visible (at_coord f x) = true)
  /\ (x = t -> in_bounds t -> visible (at_coord (pad_step f t) x) = false).
Proof.
  unfold pad_step. cbv zeta.
  destruct ((coord_r t <? 0) || (coord_r t >? FIELD_RES_R - 1)) eqn:B1.
  { split; [reflexivity|]. split; [auto|]. intros -> Hb.
    unfold in_bounds in Hb. apply orb_true_iff in B1.
    destruct B1 as [B1|B1]; boolp; lia. }
  destruct ((coord_c t <? 0) || (coord_c t >? FIELD_RES_C - 1)) eqn:B2.
  { split; [reflexivity|]. split; [auto|]. intros -> Hb.
    unfold in_bounds in Hb. apply orb_true_iff in B2.
    destruct B2 as [B2|B2]; boolp; lia. }
  destruct (coord_eq_dec x t) as [->|Hne].
  - rewrite at_coord_upd_same. simpl. split; [reflexivity|].
    split; [discriminate|reflexivity].
  - rewrite at_coord_upd_other by exact Hne. split; [reflexivity|].
    split; [auto|contradiction].
Qed.

Lemma pad_fold_spec l f x :
  wavefront_blocked (at_coord (fold_left pad_step l f) x)
  = wavefront_blocked (at_coord f x)
  /\ (visible (at_coord (fold_left pad_step l f) x) = true ->
      visible (at_coord f x) = true)
  /\ (In x l -> in_bounds x ->
      visible (at_coord (fold_left pad_step l f) x) = false).
Proof.
  revert f. induction l as [|t l IH]; intros f; simpl.
  - split; [reflexivity|]. split; [auto|intros []].
  - destruct (IH (pad_step f t)) as (Hwb & Hmono & Hclr).
    destruct (pad_step_spec f t x) as (Hwb1 & Hmono1 & Hclr1).
    split; [congruence|]. split; [auto|].
    intros [->|Hin] Hb; [|auto].
    apply not_true_is_false. intros Hv.
    apply Hmono in Hv. rewrite Hclr1 in Hv by auto. discriminate.
Qed.

Lemma pad_clear_spec f r c x :
  wavefront_blocked (at_coord (pad_clear f r c) x)
  = wavefront_blocked (at_coord f x)
  /\ (visible (at_coord (pad_clear f r c) x) = true ->
      visible (at_coord f x) = true)
  /\ (near (Coord r c) x -> in_bounds x ->
      visible (at_coord (pad_clear f r c) x) = false).
Proof.
  change (pad_clear f r c) with (fold_left pad_step (pad_offsets r c) f).
  destruct (pad_fold_spec (pad_offsets r c) f x) as (H1 & H2 & H3).
  split; [exact H1|]. split; [exact H2|].
  intros Hn. apply H3. apply in_pad_offsets. exact Hn.
Qed.

Lemma pad_outer_spec f t x :
  wavefront_blocked (at_coord (pad_outer f t) x)
  = wavefront_blocked (at_coord f x)
  /\ (visible (at_coord (pad_outer f t) x) = true ->
      visible (at_coord f x) = true)
  /\ (wavefront_blocked (at_coord f t) = true -> near t x -> in_bounds x ->
      visible (at_coord (pad_outer f t) x) = false).
Proof.
  unfold pad_outer. fold (at_coord f t).
  destruct (wavefront_blocked (at_coord f t)) eqn:Hwb.
  - destruct (pad_clear_spec f (coord_r t) (coord_c t) x) as (H1 & H2 & H3).
    split; [exact H1|]. split; [exact H2|]. intros _ Hn. apply H3.
    destruct t; exact Hn.
  - split; [reflexivity|]. split; [auto|discriminate].
Qed.

Lemma pad_outer_fold_spec l f x :
  wavefront_blocked (at_coord (fold_left pad_outer l f) x)
  = wavefront_blocked (at_coord f x)
  /\ (visible (at_coord (fold_left pad_outer l f) x) = true ->
      visible (at_coord f x) = true)
  /\ (forall t, In t l -> wavefront_blocked (at_coord f t) = true ->
        near t x -> in_bounds x ->
        visible (at_coord (fold_left pad_outer l f) x) = false).
Proof.
  revert f. induction l as [|t0 l IH]; intros f; simpl.
  - split; [reflexivity|]. split; [auto|intros t []].
  - destruct (IH (pad_outer f t0)) as (Hwb & Hmono & Hclr).
    destruct (pad_outer_spec f t0 x) as (Hwb1 & Hmono1 & Hclr1).
    split; [congruence|]. split; [auto|].
    intros t [->|Hin] Hb Hn Hx.
    + apply not_true_is_false. intros Hv.
      apply Hmono in Hv. rewrite Hclr1 in Hv by auto. discriminate.
    + apply (Hclr t Hin); auto.
      destruct (pad_outer_spec f t0 t) as (Hwbt & _). congruence.
Qed.

Lemma field_pad_wavefront_padded los : padded (field_pad_wavefront los).
Proof.
  intros t t' Ht Ht' Hn Hwb.
  unfold field_pad_wavefront in *. cbn [los_field] in *.
  change (fold_left _ (grid FIELD_RES_R FIELD_RES_C) (los_field los))
    with (fold_left pad_outer (grid FIELD_RES_R FIELD_RES_C) (los_field los))
    in *.
  destruct (pad_outer_fold_spec (grid FIELD_RES_R FIELD_RES_C)
              (los_field los) t') as (_ & _ & Hclr).
  destruct (pad_outer_fold_spec (grid FIELD_RES_R FIELD_RES_C)
              (los_field los) t) as (Hwbt & _ & _).
  apply (Hclr t); auto.
  - apply in_grid. exact Ht.
  - congruence.
Qed.

Lemma near_refl t : near t t.
Proof. unfold near. rewrite !Z.sub_diag. simpl. lia. Qed.

(** C7. In the field [N_LOSFieldCreate] returns, no tile of the field within
    the 3 x 3 neighbourhood of a tile marked [wavefront_blocked] is visible,
    and so no tile is both visible and blocked. *)
Theorem los_field_is_padded fuel id chunk_coord target priv map_pos prev_los
    los :
  N_LOSFieldCreate fuel id chunk_coord target priv map_pos prev_los
  = Some los ->
  padded los
  /\ forall t, in_bounds t ->
       ~ (visible (at_coord (los_field los) t) = true
          /\ wavefront_blocked (at_coord (los_field los) t) = true).
Proof.
  unfold N_LOSFieldCreate.
  destruct (los_initial_state fuel chunk_coord target priv map_pos prev_los)
    as [st|]; [|discriminate].
  destruct (los_wavefront_loop fuel _ chunk_coord target priv map_pos _ st)
    as [st'|]; [|discriminate].
  intros H; injection H as <-.
  pose proof (field_pad_wavefront_padded (ls_los st')) as Hpad.
  split; [exact Hpad|].
  intros t Ht [Hv Hwb].
  rewrite (Hpad t t Ht Ht (near_refl t) Hwb) in Hv. discriminate.
Qed.

End Padding.

(** The field around the blockers (4,3) and (4,4), seen from (7,7). *)
Lemma los_field_is_padded_witness :
  match los_run two_blocker_chunk with
  | Some los =>
      padded (P := scenario_params) los
      /\ forall t, in_bounds (P := scenario_params) t ->
           ~ (visible (at_coord (los_field los) t) = true
              /\ wavefront_blocked (at_coord (los_field los) t) = true)
  | None => False
  end.
Proof.
  destruct (los_run two_blocker_chunk) as [los|] eqn:Hrun.
  - exact (los_field_is_padded (P := scenario_params) (E := scenario_env)
             (Q := list_pqueue) _ _ _ _ _ _ _ _ Hrun).
  - vm_compute in Hrun. discriminate.
Defined.

(** ** The wavefront of the line-of-sight field *)

Section LosNeighbours.

Context {P : nav_params} {E : nav_env} {Q : PQueue}.

Lemma neighbours_grid_los_in chunk los faction_id curr n cost :
  In (n, cost) (field_neighbours_grid_los chunk los faction_id curr) <->
  in_bounds n /\ adjacent4 n curr
  /\ wavefront_blocked (at_coord (los_field los) n) = false
  /\ cost = (if tile_passable_for chunk faction_id n
             then at_coord (cost_base chunk) n else COST_IMPASSABLE).
Proof.
  unfold field_neighbours_grid_los. rewrite in_flat_map. split.
  - intros [r [Hr H]]. rewrite in_flat_map in H. destruct H as [c [Hc H]].
    assert (Hr' : -1 <= r <= 1) by (simpl in Hr; lia).
    assert (Hc' : -1 <= c <= 1) by (simpl in Hc; lia).
    clear Hr Hc. cbv zeta in H.
    destruct ((coord_r curr + r <? 0) || (coord_r curr + r >=? FIELD_RES_R))
      eqn:B1; [destruct H|].
    destruct ((coord_c curr + c <? 0) || (coord_c curr + c >=? FIELD_RES_C))
      eqn:B2; [destruct H|].
    destruct ((r =? 0) && (c =? 0)) eqn:B3; [destruct H|].
    destruct ((r =? c) || (r =? - c)) eqn:B4; [destruct H|].
    destruct (wavefront_blocked
                (los_field los (coord_r curr + r) (coord_c curr + c)))
      eqn:B5; [destruct H|].
    destruct H as [H|[]]. injection H as <- <-.
    boolp. unfold in_bounds, adjacent4, at_coord. simpl.
    split; [lia|]. split; [lia|]. split; [exact B5|reflexivity].
  - intros (Hb & Hadj & Hwb & ->).
    unfold in_bounds, adjacent4 in *.
    exists (coord_r n - coord_r curr). split; [simpl; lia|].
    rewrite in_flat_map. exists (coord_c n - coord_c curr).
    split; [simpl; lia|]. cbv zeta.
    replace (coord_r curr + (coord_r n - coord_r curr)) with (coord_r n) by lia.
    replace (coord_c curr + (coord_c n - coord_c curr)) with (coord_c n) by lia.
    replace ((coord_r n <? 0) || (coord_r n >=? FIELD_RES_R)) with false
      by (symmetry; apply orb_false_iff; rewrite Z.geb_leb;
          split; [apply Z.ltb_ge|apply Z.leb_gt]; lia).
    replace ((coord_c n <? 0) || (coord_c n >=? FIELD_RES_C)) with false
      by (symmetry; apply orb_false_iff; rewrite Z.geb_leb;
          split; [apply Z.ltb_ge|apply Z.leb_gt]; lia).
    replace ((coord_r n - coord_r curr =? 0) && (coord_c n - coord_c curr =? 0))
      with false
      by (symmetry; apply andb_false_iff;
          destruct (Z.eqb_spec (coord_r n - coord_r curr) 0); [right|left; reflexivity];
          apply Z.eqb_neq; lia).
    replace ((coord_r n - coord_r curr =? coord_c n - coord_c curr)
             || (coord_r n - coord_r curr =? - (coord_c n - coord_c curr)))
      with false
      by (symmetry; apply orb_false_iff; split; apply Z.eqb_neq; lia).
    unfold at_coord in Hwb. rewrite Hwb.
    left. destruct n; reflexivity.
Qed.

Lemma los_step_cost_impassable chunk faction_id n :
  ((if tile_passable_for chunk faction_id n
    then at_coord (cost_base chunk) n else COST_IMPASSABLE) >? 1) = true
  <-> los_impassable chunk faction_id n.
Proof.
  unfold los_impassable, COST_IMPASSABLE. rewrite Z.gtb_ltb.
  destruct (tile_passable_for chunk faction_id n).
  - rewrite Z.ltb_lt. split; [auto|]. intros [H|H]; [exact H|discriminate].
  - split; [auto|reflexivity].
Qed.

Lemma wavefront_line_walk_visible fuel dx dy sx sy err curr field field' :
  wavefront_line_walk fuel dx dy sx sy err curr field = Some field' ->
  forall t, visible (at_coord field' t) = visible (at_coord field t).
Proof.
  revert err curr field.
  induction fuel as [|fuel IH]; intros err curr field; simpl; [discriminate|].
  set (field1 := upd field (coord_r curr) (coord_c curr) _).
  assert (H1 : forall t, visible (at_coord field1 t) = visible (at_coord field t)).
  { intros t. unfold field1. destruct (coord_eq_dec t curr) as [->|Hne].
    - rewrite at_coord_upd_same. reflexivity.
    - rewrite at_coord_upd_other by exact Hne. reflexivity. }
  match goal with
  | |- (if ?b then _ else _) = _ -> _ => destruct b
  end.
  - intros H t. rewrite (IH _ _ _ H t). apply H1.
  - intros H; injection H as <-. exact H1.
Qed.

Lemma wavefront_blocked_line_visible fuel target corner priv map_pos los los' :
  field_create_wavefront_blocked_line fuel target corner priv map_pos los
  = Some los' ->
  forall t, visible (at_coord (los_field los') t)
            = visible (at_coord (los_field los) t).
Proof.
  unfold field_create_wavefront_blocked_line.
  destruct (wavefront_line_walk _ _ _ _ _ _ _ _) as [f|] eqn:Hw;
    [|discriminate].
  intros H; injection H as <-. simpl.
  eapply wavefront_line_walk_visible; eauto.
Qed.

(** A visit of a neighbour whose step cost exceeds 1. *)
Lemma los_visit_impassable fuel chunk chunk_coord target priv map_pos curr st
    n cost st' :
  (cost >? 1) = true ->
  los_visit fuel chunk chunk_coord target priv map_pos curr (Some st)
            (n, cost) = Some st' ->
  ls_frontier st' = ls_frontier st
  /\ ls_integration st' = ls_integration st
  /\ (forall t, visible (at_coord (los_field (ls_los st')) t)
                = visible (at_coord (los_field (ls_los st)) t))
  /\ (if field_is_los_corner n (cost_base chunk) (blockers chunk)
      then field_create_wavefront_blocked_line fuel target
             (TileDesc (coord_r chunk_coord) (coord_c chunk_coord)
                       (coord_r n) (coord_c n))
             priv map_pos (ls_los st) = Some (ls_los st')
      else ls_los st' = ls_los st).
Proof.
  destruct st as [q los I]. unfold los_visit.
  cbn [fst snd ls_frontier ls_los ls_integration]. intros ->.
  destruct (field_is_los_corner n (cost_base chunk) (blockers chunk)).
  - destruct (field_create_wavefront_blocked_line fuel target _ priv map_pos
                los) as [los'|] eqn:Hline; [|discriminate].
    intros H; injection H as <-. simpl.
    split; [reflexivity|]. split; [reflexivity|]. split; [|reflexivity].
    eapply wavefront_blocked_line_visible; eauto.
  - intros H; injection H as <-. simpl. repeat split; reflexivity.
Qed.

(** A visit of a neighbour whose step cost is at most 1. *)
Lemma los_visit_passable fuel chunk chunk_coord target priv map_pos curr st
    n cost :
  (cost >? 1) = false ->
  exists st',
    los_visit fuel chunk chunk_coord target priv map_pos curr (Some st)
              (n, cost) = Some st'
    /\ ls_los st'
       = LOSField (los_chunk (ls_los st))
           (upd (los_field (ls_los st)) (coord_r n) (coord_c n)
                (set_visible (at_coord (los_field (ls_los st)) n) true))
    /\ if flt (fadd (at_coord (ls_integration st) curr) 1)
              (at_coord (ls_integration st) n)
       then ls_integration st'
            = upd (ls_integration st) (coord_r n) (coord_c n)
                  (fadd (at_coord (ls_integration st) curr) 1)
            /\ (if pq_coord_contains (ls_frontier st) field_compare_tiles n
                then ls_frontier st' = ls_frontier st
                else ls_frontier st'
                     = pq_coord_push (ls_frontier st)
                         (fadd (at_coord (ls_integration st) curr) 1) n)
       else ls_integration st' = ls_integration st
            /\ ls_frontier st' = ls_frontier st.
Proof.
  destruct st as [q los I]. unfold los_visit.
  cbn [fst snd ls_frontier ls_los ls_integration]. intros ->.
  fold (at_coord I curr). fold (at_coord I n).
  fold (at_coord (los_field los) n).
  destruct (flt (fadd (at_coord I curr) 1) (at_coord I n)) eqn:Hlt.
  - destruct (pq_coord_contains q field_compare_tiles n) eqn:Hc;
      eexists; (split; [reflexivity|]); simpl; auto.
  - eexists. split; [reflexivity|]. simpl. auto.
Qed.

Lemma los_flags_after_visit (los : LOS_field) n :
  let f := upd (los_field los) (coord_r n) (coord_c n)
               (set_visible (at_coord (los_field los) n) true) in
  visible (at_coord f n) = true
  /\ (forall t, wavefront_blocked (at_coord f t)
                = wavefront_blocked (at_coord (los_field los) t))
  /\ (forall t, t <> n -> at_coord f t = at_coord (los_field los) t).
Proof.
  cbv zeta. split; [rewrite at_coord_upd_same; reflexivity|].
  split; intros t.
  - destruct (coord_eq_dec t n) as [->|Hne].
    + rewrite at_coord_upd_same. reflexivity.
    + rewrite at_coord_upd_other by exact Hne. reflexivity.
  - intros Hne. apply at_coord_upd_other. exact Hne.
Qed.

Lemma if_same_nil {A} (b : bool) : (if b then @nil A else []) = [].
Proof. destruct b; reflexivity. Qed.

(** No neighbour is listed twice. *)
Lemma neighbours_grid_los_nodup chunk los faction_id curr :
  NoDup (map fst (field_neighbours_grid_los chunk los faction_id curr)).
Proof.
  unfold field_neighbours_grid_los, deltas3.
  cbn [flat_map app Z.eqb Z.opp Pos.eqb andb orb].
  rewrite !if_same_nil. cbn [app].
  repeat (match goal with
          | |- context [if ?b then [] else _] => destruct b
          end; cbv iota);
    cbn [map fst app];
    repeat (constructor;
            [cbn [In]; intros H;
             repeat (destruct H as [H|H]; [injection H; lia|]); exact H|]);
    constructor.
Qed.

Lemma neighbours_grid_los_fst chunk los faction_id curr n :
  In n (map fst (field_neighbours_grid_los chunk los faction_id curr)) <->
  in_bounds n /\ adjacent4 n curr
  /\ wavefront_blocked (at_coord (los_field los) n) = false.
Proof.
  rewrite in_map_iff. split.
  - intros ([n' cost] & Hfst & Hin). cbn [fst] in Hfst. subst n'.
    apply neighbours_grid_los_in in Hin. tauto.
  - intros (Hb & Hadj & Hwb).
    exists (n, if tile_passable_for chunk faction_id n
               then at_coord (cost_base chunk) n else COST_IMPASSABLE).
    split; [reflexivity|]. apply neighbours_grid_los_in. auto.
Qed.

(** When the wavefront treats a tile as impassable, in terms of the
    chunk. *)
Lemma los_impassable_spec chunk faction_id n :
  los_impassable chunk faction_id n <->
  1 < at_coord (cost_base chunk) n
  \/ (0 < at_coord (blockers chunk) n
      /\ (faction_id = FACTION_ID_NONE
          \/ other_faction_present chunk n (G_GetEnemyFactions faction_id))).
Proof.
  unfold los_impassable. rewrite tile_passable_for_false.
  unfold COST_IMPASSABLE. split.
  - intros [H|[H|H]]; [left; exact H|left; lia|right; exact H].
  - intros [H|H]; [left; exact H|right; right; exact H].
Qed.

(** One visit of the [for] loop treats its neighbour by its step cost;
    the visit of a neighbour that is not impassable always returns. *)
Lemma los_visit_rule fuel chunk chunk_coord target priv map_pos faction_id
    curr n st :
  (los_impassable chunk faction_id n ->
   forall st',
     los_visit fuel chunk chunk_coord target priv map_pos curr (Some st)
       (n, if tile_passable_for chunk faction_id n
           then at_coord (cost_base chunk) n else COST_IMPASSABLE)
     = Some st' ->
     los_treated_impassable fuel chunk chunk_coord target priv map_pos n st
                            st')
  /\ (~ los_impassable chunk faction_id n ->
      exists st',
        los_visit fuel chunk chunk_coord target priv map_pos curr (Some st)
          (n, if tile_passable_for chunk faction_id n
              then at_coord (cost_base chunk) n else COST_IMPASSABLE)
        = Some st'
        /\ los_treated_passable curr n st st').
Proof.
  pose proof (los_step_cost_impassable chunk faction_id n) as Hiff.
  destruct ((if tile_passable_for chunk faction_id n
             then at_coord (cost_base chunk) n else COST_IMPASSABLE) >? 1)
    eqn:Hcost.
  - split; [intros _ st' Hst; eapply los_visit_impassable; eauto|].
    intros Hn. exfalso. apply Hn. apply Hiff. reflexivity.
  - split; [intros H; apply Hiff in H; discriminate|]. intros _.
    destruct (los_visit_passable fuel chunk chunk_coord target priv map_pos
                curr st n _ Hcost) as (st1 & Hst1 & Hlos & Hint).
    exists st1. split; [exact Hst1|].
    unfold los_treated_passable. rewrite Hlos. cbn [los_field].
    destruct (los_flags_after_visit (ls_los st) n) as (Hv & Hw & Ho).
    split; [exact Hv|]. split; [exact Hw|]. split; [exact Ho|].
    destruct (flt (fadd (at_coord (ls_integration st) curr) 1)
                  (at_coord (ls_integration st) n)); [|exact Hint].
    destruct Hint as [HI Hq]. split; [exact HI|].
    destruct (pq_coord_contains (ls_frontier st) field_compare_tiles n) eqn:Hc.
    + rewrite Hq. apply pq_contains_in. exact Hc.
    + rewrite Hq. exists (fadd (at_coord (ls_integration st) curr) 1).
      apply (Permutation_in _ (Permutation_sym (pq_push_entries _ _ n))).
      left; reflexivity.
Qed.

(** C3 (amended). A round of the wavefront loop with a non-empty queue
    pops a tile [curr] and visits, one after the other and each once, the
    neighbours [field_neighbours_grid_los] lists, which are exactly the
    in-bounds 4-neighbours of [curr] not marked [wavefront_blocked] when
    [curr] is popped. Every such neighbour [n] is treated as impassable
    exactly when its step cost exceeds 1, that is when its base cost
    exceeds 1, or it carries blockers and either the destination has no
    faction or a faction that is not an enemy of the destination's
    faction is present on it. Such a neighbour gets a shadow line when it
    is a LOS corner and nothing else changes: no [visible] flag, no
    integration value, no queue entry. The visit of any other neighbour
    returns and marks it visible, and when the value of [curr] plus 1 is
    below its integration value, that value is lowered and the neighbour
    is in the queue afterwards. *)
Theorem los_neighbour_rule fuel chunk chunk_coord target priv map_pos
    faction_id st :
  0 < pq_size (ls_frontier st) ->
  exists curr frontier1,
    pq_coord_pop (ls_frontier st) = Some (curr, frontier1)
    /\ los_wavefront_loop (S fuel) chunk chunk_coord target priv map_pos
                          faction_id st
       = match fold_left
                 (los_visit fuel chunk chunk_coord target priv map_pos curr)
                 (field_neighbours_grid_los chunk (ls_los st) faction_id curr)
                 (Some (LosState frontier1 (ls_los st) (ls_integration st)))
         with
         | None => None
         | Some st' =>
             los_wavefront_loop fuel chunk chunk_coord target priv map_pos
                                faction_id st'
         end
    /\ NoDup (map fst (field_neighbours_grid_los chunk (ls_los st)
                         faction_id curr))
    /\ (forall n,
          In n (map fst (field_neighbours_grid_los chunk (ls_los st)
                           faction_id curr)) <->
          in_bounds n /\ adjacent4 n curr
          /\ wavefront_blocked (at_coord (los_field (ls_los st)) n) = false)
    /\ forall n,
         in_bounds n -> adjacent4 n curr ->
         wavefront_blocked (at_coord (los_field (ls_los st)) n) = false ->
         (los_impassable chunk faction_id n <->
          1 < at_coord (cost_base chunk) n
          \/ (0 < at_coord (blockers chunk) n
              /\ (faction_id = FACTION_ID_NONE
                  \/ other_faction_present chunk n
                       (G_GetEnemyFactions faction_id))))
         /\ exists pre cost post,
              field_neighbours_grid_los chunk (ls_los st) faction_id curr
              = pre ++ (n, cost) :: post
              /\ ((cost >? 1) = true <-> los_impassable chunk faction_id n)
              /\ forall st1,
                   fold_left
                     (los_visit fuel chunk chunk_coord target priv map_pos
                                curr)
                     pre
                     (Some (LosState frontier1 (ls_los st)
                                     (ls_integration st))) = Some st1 ->
                   (los_impassable chunk faction_id n ->
                    forall st2,
                      los_visit fuel chunk chunk_coord target priv map_pos
                                curr (Some st1) (n, cost) = Some st2 ->
                      los_treated_impassable fuel chunk chunk_coord target
                        priv map_pos n st1 st2)
                   /\ (~ los_impassable chunk faction_id n ->
                       exists st2,
                         los_visit fuel chunk chunk_coord target priv
                                   map_pos curr (Some st1) (n, cost)
                         = Some st2
                         /\ los_treated_passable curr n st1 st2).
Proof.
  intros Hsize.
  assert (Hs : (pq_size (ls_frontier st) >? 0) = true)
    by (apply Z.gtb_lt; exact Hsize).
  destruct (pq_pop_nonempty _ Hs) as (curr & frontier1 & Hpop).
  exists curr, frontier1. split; [exact Hpop|].
  split; [cbn [los_wavefront_loop]; rewrite Hs, Hpop; reflexivity|].
  split; [apply neighbours_grid_los_nodup|].
  split; [intros n; apply neighbours_grid_los_fst|].
  intros n Hb Hadj Hwb. split; [apply los_impassable_spec|].
  assert (Hin : In (n, if tile_passable_for chunk faction_id n
                       then at_coord (cost_base chunk) n
                       else COST_IMPASSABLE)
                  (field_neighbours_grid_los chunk (ls_los st) faction_id
                     curr))
    by (apply neighbours_grid_los_in; auto).
  destruct (in_split _ _ Hin) as (pre & post & Hsplit).
  exists pre, (if tile_passable_for chunk faction_id n
               then at_coord (cost_base chunk) n else COST_IMPASSABLE), post.
  split; [exact Hsplit|]. split; [apply los_step_cost_impassable|].
  intros st1 _.
  apply (los_visit_rule fuel chunk chunk_coord target priv map_pos
           faction_id curr n st1).
Qed.

End LosNeighbours.

(** The round that pops the seed (0,0) of the costly field: its two
    neighbours (0,1) and (1,0) are listed once each. *)
Lemma los_neighbour_rule_witness :
  0 < pq_size (ls_frontier los_seeded_state)
  /\ exists curr frontier1,
       pq_coord_pop (ls_frontier los_seeded_state) = Some (curr, frontier1)
       /\ NoDup (map fst
                   (field_neighbours_grid_los (P := scenario_params)
                      (E := scenario_env) costly_chunk
                      (ls_los los_seeded_state) (-1) curr))
       /\ (forall n,
             In n (map fst
                     (field_neighbours_grid_los (P := scenario_params)
                        (E := scenario_env) costly_chunk
                        (ls_los los_seeded_state) (-1) curr)) <->
             in_bounds (P := scenario_params) n /\ adjacent4 n curr
             /\ wavefront_blocked
                  (at_coord (los_field (ls_los los_seeded_state)) n) = false).
Proof.
  assert (Hsize : 0 < pq_size (ls_frontier los_seeded_state))
    by (vm_compute; reflexivity).
  split; [exact Hsize|].
  destruct (los_neighbour_rule (P := scenario_params) (E := scenario_env)
              (Q := list_pqueue) 200 costly_chunk (Coord 0 0)
              (TileDesc 0 0 0 0) (single_chunk_map costly_chunk) tt (-1)
              los_seeded_state Hsize)
    as (curr & frontier1 & Hpop & _ & Hnd & Hin & _).
  exists curr, frontier1. split; [exact Hpop|]. split; assumption.
Defined.

(** C3 as stated fails: the tile (0,1) has base cost 2, which is not
    [COST_IMPASSABLE], and carries no blockers, yet visiting it from (0,0)
    neither marks it visible nor queues it, and it is still invisible in
    the finished field although no tile of that field is blocked. *)
Lemma los_costly_tile_not_visible :
  at_coord (cost_base costly_chunk) (Coord 0 1) <> COST_IMPASSABLE
  /\ at_coord (blockers costly_chunk) (Coord 0 1) = 0
  /\ In (Coord 0 1, 2)
        (field_neighbours_grid_los (P := scenario_params) (E := scenario_env)
           costly_chunk (ls_los los_seeded_state) (-1) (Coord 0 0))
  /\ option_map
       (fun st => (visible (at_coord (los_field (ls_los st)) (Coord 0 1)),
                   pq_entries (ls_frontier st)))
       (los_visit (P := scenario_params) (E := scenario_env) 200 costly_chunk
          (Coord 0 0) (TileDesc 0 0 0 0) (single_chunk_map costly_chunk) tt
          (Coord 0 0) (Some los_seeded_state) (Coord 0 1, 2))
     = Some (false, [(Finite 0, Coord 0 0)])
  /\ option_map visible (los_tile_at (los_run costly_chunk) (Coord 0 1))
     = Some false
  /\ los_none_blocked (los_run costly_chunk) = true.
Proof.
  split; [vm_compute; discriminate|].
  split; [reflexivity|].
  split; [vm_compute; left; reflexivity|].
  split; [vm_compute; reflexivity|].
  split; vm_compute; reflexivity.
Qed.


(** ** Progress measures of the wavefront loops *)

Section Measures.

Context {P : nav_params}.

Lemma filter_length_ext {A} (p q : A -> bool) l :
  (forall x, In x l -> p x = q x) ->
  length (filter p l) = length (filter q l).
Proof.
  intros H. rewrite (filter_ext_in p q l H). reflexivity.
Qed.

Lemma filter_clear_lt (intf : int_field) n w l :
  In n l -> at_coord intf n = PosInf ->
  (length (filter (fun t =>
             is_inf (at_coord (upd intf (coord_r n) (coord_c n) (Finite w)) t))
             l)
   < length (filter (fun t => is_inf (at_coord intf t)) l))%nat.
Proof.
  intros Hin Hinf.
  assert (Hle : forall l',
    (length (filter (fun t =>
               is_inf (at_coord (upd intf (coord_r n) (coord_c n) (Finite w)) t))
               l')
     <= length (filter (fun t => is_inf (at_coord intf t)) l'))%nat).
  { induction l' as [|x l' IH]; simpl; [lia|].
    destruct (coord_eq_dec x n) as [->|Hne].
    - rewrite at_coord_upd_same, Hinf. simpl. lia.
    - rewrite at_coord_upd_other by exact Hne.
      destruct (is_inf (at_coord intf x)); simpl; lia. }
  induction l as [|x l IH]; [destruct Hin|]. simpl.
  destruct (coord_eq_dec x n) as [->|Hne].
  - rewrite at_coord_upd_same, Hinf. simpl. specialize (Hle l). lia.
  - rewrite at_coord_upd_other by exact Hne.
    destruct Hin as [->|Hin]; [contradiction|]. specialize (IH Hin).
    destruct (is_inf (at_coord intf x)); simpl; lia.
Qed.

Lemma list_sum_lower (intf : int_field) n v w l :
  In n l -> at_coord intf n = Finite v -> 0 <= w < v ->
  (list_sum (map (fun t =>
               fnum_weight
                 (at_coord (upd intf (coord_r n) (coord_c n) (Finite w)) t)) l)
   < list_sum (map (fun t => fnum_weight (at_coord intf t)) l))%nat.
Proof.
  intros Hin Hv Hw.
  assert (Hle : forall l',
    (list_sum (map (fun t =>
                 fnum_weight
                   (at_coord (upd intf (coord_r n) (coord_c n) (Finite w)) t))
                 l')
     <= list_sum (map (fun t => fnum_weight (at_coord intf t)) l'))%nat).
  { induction l' as [|x l' IH]; simpl; [lia|].
    destruct (coord_eq_dec x n) as [->|Hne].
    - rewrite at_coord_upd_same, Hv. simpl. lia.
    - rewrite at_coord_upd_other by exact Hne. lia. }
  induction l as [|x l IH]; [destruct Hin|]. simpl.
  destruct (coord_eq_dec x n) as [->|Hne].
  - rewrite at_coord_upd_same, Hv. simpl. specialize (Hle l). lia.
  - rewrite at_coord_upd_other by exact Hne.
    destruct Hin as [->|Hin]; [contradiction|]. specialize (IH Hin). lia.
Qed.

(** Lowering the value of a tile of the field is progress. *)
Lemma upd_lowered intf n w :
  in_bounds n -> nonneg_field intf -> 0 <= w ->
  flt (Finite w) (at_coord intf n) = true ->
  lowered intf (upd intf (coord_r n) (coord_c n) (Finite w))
  /\ nonneg_field (upd intf (coord_r n) (coord_c n) (Finite w)).
Proof.
  intros Hn Hnn Hw Hlt.
  assert (Hin : In n (grid FIELD_RES_R FIELD_RES_C)) by (apply in_grid; exact Hn).
  split.
  - unfold lowered, inf_count, value_sum.
    destruct (at_coord intf n) as [v|] eqn:Hv.
    + right. simpl in Hlt. apply Z.ltb_lt in Hlt. split.
      * apply filter_length_ext. intros x _.
        destruct (coord_eq_dec x n) as [->|Hne].
        -- rewrite at_coord_upd_same, Hv. reflexivity.
        -- rewrite at_coord_upd_other by exact Hne. reflexivity.
      * apply (list_sum_lower intf n v w); auto.
    + left. apply filter_clear_lt; assumption.
  - intros t v Hv. destruct (coord_eq_dec t n) as [->|Hne].
    + rewrite at_coord_upd_same in Hv. injection Hv as <-. exact Hw.
    + rewrite at_coord_upd_other in Hv by exact Hne. eapply Hnn; eauto.
Qed.

Lemma lowered_trans a b c : lowered a b -> lowered b c -> lowered a c.
Proof. unfold lowered. intros [H1|[H1 H1']] [H2|[H2 H2']]; lia. Qed.

End Measures.

(** ** The wavefront over an open chunk *)

Section OpenField.

Context {P : nav_params} {E : nav_env} {Q : PQueue}.

Variables (chunk : nav_chunk) (faction_id : Z).
Hypothesis chunk_open : open_for chunk faction_id.

Lemma los_extends_refl st : los_extends st st.
Proof. repeat split; auto. Qed.

Lemma los_extends_trans st1 st2 st3 :
  los_extends st1 st2 -> los_extends st2 st3 -> los_extends st1 st3.
Proof.
  intros (Hv1 & Hf1 & Hq1) (Hv2 & Hf2 & Hq2). repeat split; auto.
Qed.

Lemma los_reached_mono st st' n :
  los_extends st st' -> los_reached st n -> los_reached st' n.
Proof. intros (Hv & Hf & _) [H1 H2]. split; auto. Qed.

Lemma los_done_mono st st' t :
  los_extends st st' -> los_done st t -> los_done st' t.
Proof.
  intros Hext Hd n Hn Hadj.
  apply (los_reached_mono st st' n Hext). apply Hd; assumption.
Qed.

Lemma fadd_finite x k : is_finite x -> is_finite (fadd x k).
Proof. intros [v ->]. exists (v + k). reflexivity. Qed.

Lemma not_flt_finite x y : is_finite x -> flt x y = false -> is_finite y.
Proof.
  intros [v ->]. destruct y as [w|]; simpl; [exists w; reflexivity|discriminate].
Qed.

Lemma los_visit_open fuel chunk_coord target priv map_pos curr st n cost :
  los_open_inv (Some curr) st ->
  is_finite (at_coord (ls_integration st) curr) ->
  in_bounds n -> adjacent4 n curr -> (cost >? 1) = false ->
  exists st',
    los_visit fuel chunk chunk_coord target priv map_pos curr (Some st)
              (n, cost) = Some st'
    /\ los_open_inv (Some curr) st' /\ los_extends st st'
    /\ los_reached st' n.
Proof.
  intros (Hwb & Hq & Hfin) Hcurr Hn Hadj Hcost.
  destruct (los_visit_passable fuel chunk chunk_coord target priv map_pos
              curr st n cost Hcost) as (st' & Hst' & Hlos & Hint).
  exists st'. split; [exact Hst'|].
  destruct (los_flags_after_visit (ls_los st) n) as (Hv & Hw & Ho).
  set (new := fadd (at_coord (ls_integration st) curr) 1) in *.
  assert (Hnew : is_finite new) by (apply fadd_finite; exact Hcurr).
  assert (Hvis : forall t,
            visible (at_coord (los_field (ls_los st)) t) = true ->
            visible (at_coord (los_field (ls_los st')) t) = true).
  { intros t Ht. rewrite Hlos. cbn [los_field].
    destruct (coord_eq_dec t n) as [->|Hne]; [exact Hv|].
    rewrite Ho by exact Hne. exact Ht. }
  assert (Hval : forall t, t <> n ->
            at_coord (ls_integration st') t = at_coord (ls_integration st) t).
  { intros t Hne.
    destruct (flt new (at_coord (ls_integration st) n));
      destruct Hint as [-> _]; [|reflexivity].
    apply at_coord_upd_other. exact Hne. }
  assert (Hvaln : is_finite (at_coord (ls_integration st') n)).
  { destruct (flt new (at_coord (ls_integration st) n)) eqn:Hlt;
      destruct Hint as [-> _].
    - rewrite at_coord_upd_same. exact Hnew.
    - eapply not_flt_finite; eauto. }
  assert (Hfinite : forall t,
            is_finite (at_coord (ls_integration st) t) ->
            is_finite (at_coord (ls_integration st') t)).
  { intros t Ht. destruct (coord_eq_dec t n) as [->|Hne]; [exact Hvaln|].
    rewrite Hval by exact Hne. exact Ht. }
  assert (Hentries : forall e,
            In e (pq_entries (ls_frontier st')) ->
            In e (pq_entries (ls_frontier st)) \/ snd e = n).
  { intros e He.
    destruct (flt new (at_coord (ls_integration st) n));
      destruct Hint as [_ Hfr]; [|rewrite Hfr in He; auto].
    destruct (pq_coord_contains (ls_frontier st) field_compare_tiles n);
      rewrite Hfr in He; [auto|].
    apply (Permutation_in _ (pq_push_entries _ _ _)) in He.
    destruct He as [<-|He]; auto. }
  assert (Hqueued : forall t, los_queued st t -> los_queued st' t).
  { intros t [p Hp]. unfold los_queued.
    destruct (flt new (at_coord (ls_integration st) n));
      destruct Hint as [_ Hfr]; [|rewrite Hfr; eauto].
    destruct (pq_coord_contains (ls_frontier st) field_compare_tiles n);
      rewrite Hfr; [eauto|].
    exists p. apply (Permutation_in _ (Permutation_sym (pq_push_entries _ _ _))).
    right; exact Hp. }
  assert (Hext : los_extends st st') by (repeat split; assumption).
  split; [|split; [exact Hext|split; [|exact Hvaln]]];
    [|rewrite Hlos; exact Hv].
  - split; [|split].
    + intros t. rewrite Hlos. cbn [los_field]. rewrite Hw. apply Hwb.
    + intros e He. destruct (Hentries e He) as [Hin| ->].
      * destruct (Hq e Hin) as [Hb Hf]. split; [exact Hb|auto].
      * split; assumption.
    + intros t Ht Hft.
      destruct (coord_eq_dec t n) as [->|Hne].
      * destruct (flt new (at_coord (ls_integration st) n)) eqn:Hlt.
        -- right. left. destruct Hint as [_ Hfr]. unfold los_queued.
           destruct (pq_coord_contains (ls_frontier st) field_compare_tiles n)
             eqn:Hc; rewrite Hfr.
           ++ apply pq_contains_in. exact Hc.
           ++ exists new.
              apply (Permutation_in _
                       (Permutation_sym (pq_push_entries _ _ _))).
              left; reflexivity.
        -- destruct Hint as [HI _]. rewrite HI in Hft.
           destruct (Hfin n Ht Hft) as [He|[Hqd|Hd]]; auto.
           right. right. eapply los_done_mono; eauto.
      * rewrite Hval in Hft by exact Hne.
        destruct (Hfin t Ht Hft) as [He|[Hqd|Hd]]; auto.
        right. right. eapply los_done_mono; eauto.
Qed.

Lemma los_visit_fold_open fuel chunk_coord target priv map_pos curr l st :
  los_open_inv (Some curr) st ->
  is_finite (at_coord (ls_integration st) curr) ->
  (forall nb, In nb l ->
     in_bounds (fst nb) /\ adjacent4 (fst nb) curr /\ (snd nb >? 1) = false) ->
  exists st',
    fold_left (los_visit fuel chunk chunk_coord target priv map_pos curr) l
              (Some st) = Some st'
    /\ los_open_inv (Some curr) st' /\ los_extends st st'
    /\ forall nb, In nb l -> los_reached st' (fst nb).
Proof.
  revert st. induction l as [|[n cost] l IH]; intros st Hinv Hcurr Hl.
  - exists st. split; [reflexivity|]. split; [exact Hinv|].
    split; [apply los_extends_refl|intros nb []].
  - destruct (Hl (n, cost) (or_introl eq_refl)) as (Hn & Hadj & Hcost).
    destruct (los_visit_open fuel chunk_coord target priv map_pos curr st n
                cost Hinv Hcurr Hn Hadj Hcost)
      as (st1 & Hst1 & Hinv1 & Hext1 & Hr1).
    destruct (IH st1 Hinv1) as (st2 & Hst2 & Hinv2 & Hext2 & Hr2).
    { destruct Hext1 as (_ & Hf & _). apply Hf. exact Hcurr. }
    { intros nb Hnb. apply Hl. right; exact Hnb. }
    exists st2. cbn [fold_left]. rewrite Hst1.
    split; [exact Hst2|]. split; [exact Hinv2|].
    split; [eapply los_extends_trans; eauto|].
    intros nb [<-|Hnb]; [|auto].
    eapply los_reached_mono; eauto.
Qed.

Lemma los_neighbours_open los curr nb :
  In nb (field_neighbours_grid_los chunk los faction_id curr) ->
  in_bounds (fst nb) /\ adjacent4 (fst nb) curr /\ (snd nb >? 1) = false.
Proof.
  destruct nb as [n cost]. intros Hin.
  apply neighbours_grid_los_in in Hin. destruct Hin as (Hn & Hadj & _ & ->).
  split; [exact Hn|]. split; [exact Hadj|]. simpl.
  destruct (_ >? 1) eqn:Hc; [|reflexivity].
  apply los_step_cost_impassable in Hc. exfalso. exact (chunk_open n Hn Hc).
Qed.

Lemma los_visit_fuel_indep fuel fuel2 chunk_coord target priv map_pos curr st
    nb :
  (snd nb >? 1) = false ->
  los_visit fuel chunk chunk_coord target priv map_pos curr st nb
  = los_visit fuel2 chunk chunk_coord target priv map_pos curr st nb.
Proof.
  intros Hc. unfold los_visit. destruct st as [[q los I]|]; [|reflexivity].
  rewrite Hc. reflexivity.
Qed.

Lemma los_visit_fold_fuel_indep fuel fuel2 chunk_coord target priv map_pos
    curr l st :
  (forall nb, In nb l -> (snd nb >? 1) = false) ->
  fold_left (los_visit fuel chunk chunk_coord target priv map_pos curr) l st
  = fold_left (los_visit fuel2 chunk chunk_coord target priv map_pos curr) l st.
Proof.
  revert st. induction l as [|nb l IH]; intros st Hl; [reflexivity|].
  cbn [fold_left].
  rewrite (los_visit_fuel_indep fuel fuel2) by (apply Hl; left; reflexivity).
  apply IH. intros nb' Hnb'. apply Hl. right; exact Hnb'.
Qed.

Lemma los_progress_trans st1 st2 st3 :
  los_progress st1 st2 -> los_progress st2 st3 -> los_progress st1 st3.
Proof.
  intros [[HI1 Hq1]|H1] [[HI2 Hq2]|H2].
  - left. split; congruence.
  - right. rewrite <- HI1. exact H2.
  - right. rewrite HI2. exact H1.
  - right. eapply lowered_trans; eauto.
Qed.

Lemma los_visit_progress fuel chunk_coord target priv map_pos curr st n cost
    st' vc :
  (cost >? 1) = false -> in_bounds n -> adjacent4 n curr ->
  at_coord (ls_integration st) curr = Finite vc ->
  nonneg_field (ls_integration st) ->
  los_visit fuel chunk chunk_coord target priv map_pos curr (Some st)
            (n, cost) = Some st' ->
  los_progress st st' /\ nonneg_field (ls_integration st')
  /\ at_coord (ls_integration st') curr = Finite vc.
Proof.
  intros Hcost Hn Hadj Hvc Hnn Hst.
  destruct (los_visit_passable fuel chunk chunk_coord target priv map_pos
              curr st n cost Hcost) as (st1 & Hst1 & _ & Hint).
  rewrite Hst1 in Hst. injection Hst as <-. rewrite Hvc in Hint.
  simpl fadd in Hint.
  destruct (flt (Finite (vc + 1)) (at_coord (ls_integration st) n)) eqn:Hlt.
  - destruct Hint as [HI _].
    destruct (upd_lowered (ls_integration st) n (vc + 1) Hn Hnn) as [Hlow Hnn'].
    { specialize (Hnn curr vc Hvc). lia. }
    { exact Hlt. }
    unfold los_progress. rewrite HI.
    split; [right; exact Hlow|]. split; [exact Hnn'|].
    rewrite at_coord_upd_other; [exact Hvc|].
    apply adjacent4_neq, adjacent4_sym. exact Hadj.
  - destruct Hint as [HI Hq]. unfold los_progress. rewrite HI.
    split; [left; auto|]. split; assumption.
Qed.

Lemma los_visit_fold_progress fuel chunk_coord target priv map_pos curr l st
    st' vc :
  (forall nb, In nb l ->
     in_bounds (fst nb) /\ adjacent4 (fst nb) curr /\ (snd nb >? 1) = false) ->
  at_coord (ls_integration st) curr = Finite vc ->
  nonneg_field (ls_integration st) ->
  fold_left (los_visit fuel chunk chunk_coord target priv map_pos curr) l
            (Some st) = Some st' ->
  los_progress st st' /\ nonneg_field (ls_integration st').
Proof.
  revert st. induction l as [|[n cost] l IH]; intros st Hl Hvc Hnn.
  - intros H; injection H as <-. split; [left; auto|exact Hnn].
  - cbn [fold_left]. intros Hfold.
    destruct (Hl (n, cost) (or_introl eq_refl)) as (Hn & Hadj & Hcost).
    destruct (los_visit_passable fuel chunk chunk_coord target priv map_pos
                curr st n cost Hcost) as (st1 & Hst1 & _).
    rewrite Hst1 in Hfold.
    destruct (los_visit_progress _ _ _ _ _ _ _ _ _ _ _ Hcost Hn Hadj Hvc Hnn
                Hst1) as (Hp1 & Hnn1 & Hvc1).
    destruct (IH st1) as (Hp2 & Hnn2); auto.
    { intros nb Hnb. apply Hl. right; exact Hnb. }
    split; [eapply los_progress_trans; eauto | exact Hnn2].
Qed.

(** One iteration of the wavefront loop on an open chunk: the visits of
    the neighbours of the popped tile never fail, do not depend on the
    fuel, and restore the invariant. *)
Lemma los_iteration_open chunk_coord target priv map_pos st curr q1 :
  los_open_inv None st ->
  pq_coord_pop (ls_frontier st) = Some (curr, q1) ->
  exists st2,
    (forall fuel,
       fold_left (los_visit fuel chunk chunk_coord target priv map_pos curr)
         (field_neighbours_grid_los chunk (ls_los st) faction_id curr)
         (Some (LosState q1 (ls_los st) (ls_integration st))) = Some st2)
    /\ los_open_inv None st2
    /\ (forall t, is_finite (at_coord (ls_integration st) t) ->
                  is_finite (at_coord (ls_integration st2) t))
    /\ (nonneg_field (ls_integration st) ->
        los_progress (LosState q1 (ls_los st) (ls_integration st)) st2
        /\ nonneg_field (ls_integration st2))
    /\ S (length (pq_entries q1)) = length (pq_entries (ls_frontier st)).
Proof.
  intros (Hwb & Hq & Hfin) Hpop.
  destruct (pq_pop_some _ _ _ Hpop) as (p & Hperm & _).
  assert (Hcurr_in : In (p, curr) (pq_entries (ls_frontier st))).
  { apply (Permutation_in _ (Permutation_sym Hperm)). left; reflexivity. }
  destruct (Hq _ Hcurr_in) as [Hcb Hcf]. simpl in Hcb, Hcf.
  set (st1 := LosState q1 (ls_los st) (ls_integration st)) in *.
  assert (Hinv1 : los_open_inv (Some curr) st1).
  { split; [exact Hwb|]. split.
    - intros e He. apply Hq.
      apply (Permutation_in _ (Permutation_sym Hperm)). right; exact He.
    - intros t Ht Hft. destruct (coord_eq_dec t curr) as [->|Hne]; [auto|].
      destruct (Hfin t Ht Hft) as [He|[[pt Hpt]|Hd]]; [discriminate| |].
      + right. left. exists pt.
        apply (Permutation_in _ Hperm) in Hpt.
        destruct Hpt as [Heq|Hpt]; [|exact Hpt].
        injection Heq as _ Heq. congruence.
      + right. right. exact Hd. }
  assert (Hl : forall nb,
            In nb (field_neighbours_grid_los chunk (ls_los st) faction_id curr) ->
            in_bounds (fst nb) /\ adjacent4 (fst nb) curr
            /\ (snd nb >? 1) = false).
  { intros nb Hnb. eapply los_neighbours_open; eauto. }
  destruct (los_visit_fold_open O chunk_coord target priv map_pos curr
              (field_neighbours_grid_los chunk (ls_los st) faction_id curr)
              st1 Hinv1 Hcf Hl)
    as (st2 & Hst2 & (Hwb2 & Hq2 & Hfin2) & Hext2 & Hr2).
  exists st2.
  split.
  { intros fuel. rewrite <- Hst2. apply los_visit_fold_fuel_indep.
    intros nb Hnb. apply Hl. exact Hnb. }
  assert (Hdone : los_done st2 curr).
  { intros n Hn Hadj.
    apply (Hr2 (n, if tile_passable_for chunk faction_id n
                   then at_coord (cost_base chunk) n else COST_IMPASSABLE)).
    apply neighbours_grid_los_in. repeat split; try assumption; try apply Hn.
    apply Hwb. }
  split.
  { split; [exact Hwb2|]. split; [exact Hq2|].
    intros t Ht Hft. destruct (Hfin2 t Ht Hft) as [He|[Hqd|Hd]]; auto.
    injection He as ->. right. right. exact Hdone. }
  split.
  { destruct Hext2 as (_ & Hf & _). exact Hf. }
  split.
  { intros Hnn. destruct Hcf as [vc Hvc].
    eapply los_visit_fold_progress; eauto. }
  apply Permutation_length in Hperm. simpl in Hperm. lia.
Qed.

(** The wavefront loop on an open chunk: when it returns, the queue is
    empty and every reached tile has all its neighbours reached and
    visible. *)
Lemma los_wavefront_loop_open fuel chunk_coord target priv map_pos st st' :
  los_wavefront_loop fuel chunk chunk_coord target priv map_pos faction_id st
  = Some st' ->
  los_open_inv None st ->
  los_open_inv None st' /\ pq_entries (ls_frontier st') = []
  /\ forall t, is_finite (at_coord (ls_integration st) t) ->
                is_finite (at_coord (ls_integration st') t).
Proof.
  revert st. induction fuel as [|fuel IH]; intros st; [discriminate|].
  cbn [los_wavefront_loop].
  destruct (pq_size (ls_frontier st) >? 0) eqn:Hsize.
  2:{ intros H; injection H as <-. intros Hinv. split; [exact Hinv|].
      split; [apply pq_size_zero; exact Hsize | auto]. }
  destruct (pq_coord_pop (ls_frontier st)) as [[curr q1]|] eqn:Hpop;
    [|discriminate].
  intros Hloop Hinv.
  destruct (los_iteration_open chunk_coord target priv map_pos st curr q1
              Hinv Hpop) as (st2 & Hst2 & Hinv2 & Hmono2 & _).
  rewrite Hst2 in Hloop.
  destruct (IH st2 Hloop Hinv2) as (Hinv' & Hempty & Hmono').
  split; [exact Hinv'|]. split; [exact Hempty|]. auto.
Qed.

(** The wavefront loop on an open chunk returns once it has enough fuel:
    every iteration either lowers an integration value or shortens the
    queue. *)
Lemma los_wavefront_loop_terminates chunk_coord target priv map_pos :
  forall a b c st,
    inf_count (ls_integration st) = a ->
    value_sum (ls_integration st) = b ->
    length (pq_entries (ls_frontier st)) = c ->
    los_open_inv None st -> nonneg_field (ls_integration st) ->
    exists fuel0, forall fuel, (fuel0 <= fuel)%nat ->
      exists st',
        los_wavefront_loop fuel chunk chunk_coord target priv map_pos
                           faction_id st = Some st'.
Proof.
  intros a. induction a as [a IHa] using lt_wf_ind.
  intros b. induction b as [b IHb] using lt_wf_ind.
  intros c. induction c as [c IHc] using lt_wf_ind.
  intros st Ha Hb Hc Hinv Hnn.
  destruct (pq_size (ls_frontier st) >? 0) eqn:Hsize.
  2:{ exists 1%nat. intros [|fuel] Hf; [lia|].
      cbn [los_wavefront_loop]. rewrite Hsize. eauto. }
  destruct (pq_pop_nonempty _ Hsize) as (curr & q1 & Hpop).
  destruct (los_iteration_open chunk_coord target priv map_pos st curr q1
              Hinv Hpop) as (st2 & Hst2 & Hinv2 & _ & Hprog & Hlen).
  destruct (Hprog Hnn) as [Hp Hnn2].
  assert (Hrec : exists fuel0, forall fuel, (fuel0 <= fuel)%nat ->
            exists st',
              los_wavefront_loop fuel chunk chunk_coord target priv map_pos
                                 faction_id st2 = Some st').
  { destruct Hp as [[HI Hq]|[Hlow|[Hsame Hlow]]]; cbn [ls_integration
      ls_frontier] in *.
    - apply (IHc (length (pq_entries (ls_frontier st2)))); auto.
      + rewrite Hq. lia.
      + rewrite HI. exact Ha.
      + rewrite HI. exact Hb.
    - apply (IHa (inf_count (ls_integration st2))
               ltac:(lia) (value_sum (ls_integration st2))
               (length (pq_entries (ls_frontier st2)))); auto.
    - apply (IHb (value_sum (ls_integration st2)) ltac:(lia)
               (length (pq_entries (ls_frontier st2)))); auto.
      lia. }
  destruct Hrec as [f2 Hf2]. exists (S f2). intros [|fuel] Hf; [lia|].
  cbn [los_wavefront_loop]. rewrite Hsize, Hpop, Hst2.
  apply Hf2. lia.
Qed.

End OpenField.

(** ** The open field *)

Section OpenFieldTheorem.

Context {P : nav_params} {E : nav_env} {Q : PQueue}.

Lemma grid_connected (good : coord -> Prop) (g : coord) :
  in_bounds g -> good g ->
  (forall t n, in_bounds t -> good t -> in_bounds n -> adjacent4 n t ->
     good n) ->
  forall t, in_bounds t -> good t.
Proof.
  intros Hg Hgood Hstep.
  assert (H : forall d t, in_bounds t ->
            Z.abs (coord_r t - coord_r g) + Z.abs (coord_c t - coord_c g)
            = Z.of_nat d -> good t).
  { induction d as [|d IH]; intros t Ht Hd.
    - assert (t = g) by (destruct t, g; simpl in *; f_equal; lia).
      subst t. exact Hgood.
    - unfold in_bounds in Ht, Hg.
      destruct (Z.eq_dec (coord_r t) (coord_r g)) as [Hr|Hr].
      + destruct (Z.lt_trichotomy (coord_c t) (coord_c g)) as [Hc|[Hc|Hc]];
          [|lia|].
        * apply (Hstep (Coord (coord_r t) (coord_c t + 1)) t);
            unfold in_bounds, adjacent4; simpl; try lia.
          apply IH; unfold in_bounds; simpl; lia.
        * apply (Hstep (Coord (coord_r t) (coord_c t - 1)) t);
            unfold in_bounds, adjacent4; simpl; try lia.
          apply IH; unfold in_bounds; simpl; lia.
      + destruct (Z.lt_trichotomy (coord_r t) (coord_r g)) as [Hc|[Hc|Hc]];
          [|lia|].
        * apply (Hstep (Coord (coord_r t + 1) (coord_c t)) t);
            unfold in_bounds, adjacent4; simpl; try lia.
          apply IH; unfold in_bounds; simpl; lia.
        * apply (Hstep (Coord (coord_r t - 1) (coord_c t)) t);
            unfold in_bounds, adjacent4; simpl; try lia.
          apply IH; unfold in_bounds; simpl; lia. }
  intros t Ht.
  apply (H (Z.to_nat (Z.abs (coord_r t - coord_r g)
                      + Z.abs (coord_c t - coord_c g))) t Ht).
  lia.
Qed.

Lemma has_neighbour t :
  in_bounds t -> 2 <= FIELD_RES_R \/ 2 <= FIELD_RES_C ->
  exists n, in_bounds n /\ adjacent4 n t.
Proof.
  unfold in_bounds, adjacent4. intros [Hr Hc] [H2|H2].
  - destruct (Z.eq_dec (coord_r t) 0).
    + exists (Coord (coord_r t + 1) (coord_c t)). simpl. lia.
    + exists (Coord (coord_r t - 1) (coord_c t)). simpl. lia.
  - destruct (Z.eq_dec (coord_c t) 0).
    + exists (Coord (coord_r t) (coord_c t + 1)). simpl. lia.
    + exists (Coord (coord_r t) (coord_c t - 1)). simpl. lia.
Qed.

Lemma pad_outer_fold_unblocked l f :
  (forall t, wavefront_blocked (at_coord f t) = false) ->
  fold_left pad_outer l f = f.
Proof.
  intros Hwb. induction l as [|t l IH]; simpl; [reflexivity|].
  unfold pad_outer at 2. fold (at_coord f t). rewrite Hwb. exact IH.
Qed.

Lemma unit_cost_open chunk faction_id :
  unit_cost_no_blockers chunk -> open_for chunk faction_id.
Proof.
  intros Hu t Ht [Hc|Hp]; destruct (Hu t Ht) as [H1 H0];
    unfold at_coord in *; [lia|].
  unfold tile_passable_for in Hp.
  destruct (faction_id =? FACTION_ID_NONE).
  - assert (field_tile_passable chunk t = true); [|congruence].
    apply field_tile_passable_true. unfold COST_IMPASSABLE. lia.
  - assert (field_tile_passable_no_enemies chunk t (enemies_of faction_id)
            = true); [|congruence].
    apply field_tile_passable_no_enemies_true. unfold COST_IMPASSABLE.
    split; [lia|left; lia].
Qed.

(** On the destination chunk, if the wavefront meets no impassable tile,
    the field [N_LOSFieldCreate] returns has every tile visible and none
    blocked. *)
Lemma los_initial_state_dest fuel chunk_coord target priv map_pos :
  coord_r chunk_coord = chunk_r target ->
  coord_c chunk_coord = chunk_c target ->
  in_bounds (Coord (tile_r target) (tile_c target)) ->
  los_initial_state fuel chunk_coord target priv map_pos None
  = Some (los_dest_state chunk_coord target).
Proof.
  intros Hr Hc Htgt. unfold los_initial_state.
  replace ((coord_r chunk_coord =? chunk_r target)
           && (coord_c chunk_coord =? chunk_c target)) with true
    by (symmetry; apply andb_true_iff; split; apply Z.eqb_eq; assumption).
  rewrite (proj2 (in_boundsb_spec _) Htgt). reflexivity.
Qed.

Lemma los_dest_state_target chunk_coord target :
  at_coord (ls_integration (los_dest_state chunk_coord target))
           (Coord (tile_r target) (tile_c target)) = Finite 0.
Proof.
  apply (at_coord_upd_same all_infinite
           (Coord (tile_r target) (tile_c target))).
Qed.

Lemma los_dest_state_other chunk_coord target t :
  t <> Coord (tile_r target) (tile_c target) ->
  at_coord (ls_integration (los_dest_state chunk_coord target)) t = PosInf.
Proof.
  intros Hne.
  apply (at_coord_upd_other all_infinite
           (Coord (tile_r target) (tile_c target)) t (Finite 0)).
  exact Hne.
Qed.

Lemma los_dest_state_inv chunk_coord target :
  in_bounds (Coord (tile_r target) (tile_c target)) ->
  los_open_inv None (los_dest_state chunk_coord target)
  /\ nonneg_field (ls_integration (los_dest_state chunk_coord target)).
Proof.
  intros Htgt. set (tgt := Coord (tile_r target) (tile_c target)) in *.
  split.
  - split; [intros t; reflexivity|]. split.
    + intros e He. simpl in He.
      apply (Permutation_in _ (pq_push_entries _ _ _)) in He.
      rewrite pq_init_entries in He. destruct He as [<-|[]].
      split; [exact Htgt|]. exists 0. apply los_dest_state_target.
    + intros t Ht [v Hv]. right. left.
      destruct (coord_eq_dec t tgt) as [->|Hne].
      * exists (Finite 0). simpl.
        apply (Permutation_in _ (Permutation_sym (pq_push_entries _ _ _))).
        left; reflexivity.
      * rewrite los_dest_state_other in Hv by exact Hne. discriminate.
  - intros t v Hv. destruct (coord_eq_dec t tgt) as [->|Hne].
    + unfold tgt in Hv. rewrite los_dest_state_target in Hv.
      injection Hv as <-. lia.
    + rewrite los_dest_state_other in Hv by exact Hne. discriminate.
Qed.

Lemma los_open_chunk_all_visible fuel id chunk_coord target priv map_pos los :
  open_for
    (chunks priv (N_DestLayer id)
            (coord_r chunk_coord * width priv + coord_c chunk_coord))
    (N_DestFactionID id) ->
  coord_r chunk_coord = chunk_r target ->
  coord_c chunk_coord = chunk_c target ->
  in_bounds (Coord (tile_r target) (tile_c target)) ->
  2 <= FIELD_RES_R \/ 2 <= FIELD_RES_C ->
  N_LOSFieldCreate fuel id chunk_coord target priv map_pos None = Some los ->
  forall t, in_bounds t ->
    visible (at_coord (los_field los) t) = true
    /\ wavefront_blocked (at_coord (los_field los) t) = false.
Proof.
  intros Hopen Hr Hc Htgt Hsize. unfold N_LOSFieldCreate.
  rewrite (los_initial_state_dest fuel chunk_coord target priv map_pos Hr Hc
             Htgt).
  set (chunk := chunks priv (N_DestLayer id) _) in *.
  set (tgt := Coord (tile_r target) (tile_c target)) in *.
  set (st0 := los_dest_state chunk_coord target).
  destruct (los_wavefront_loop fuel chunk chunk_coord target priv map_pos
              (N_DestFactionID id) st0) as [st'|] eqn:Hloop; [|discriminate].
  intros H; injection H as <-.
  destruct (los_dest_state_inv chunk_coord target Htgt) as [Hinv0 _].
  destruct (los_wavefront_loop_open chunk _ Hopen _ _ _ _ _ _ _ Hloop Hinv0)
    as ((Hwb & _ & Hfin) & Hempty & Hmono).
  assert (Hdone : forall t, in_bounds t ->
            is_finite (at_coord (ls_integration st') t) -> los_done st' t).
  { intros t Ht Hft. destruct (Hfin t Ht Hft) as [He|[[p Hp]|Hd]];
      [discriminate| |exact Hd].
    rewrite Hempty in Hp. destruct Hp. }
  assert (Hall : forall t, in_bounds t ->
            is_finite (at_coord (ls_integration st') t)).
  { apply (grid_connected _ tgt Htgt).
    - apply Hmono. exists 0. apply los_dest_state_target.
    - intros t n Ht Hft Hn Hadj. apply (Hdone t Ht Hft n Hn Hadj). }
  intros t Ht. unfold field_pad_wavefront. cbn [los_field].
  change (fold_left _ (grid FIELD_RES_R FIELD_RES_C) (los_field (ls_los st')))
    with (fold_left pad_outer (grid FIELD_RES_R FIELD_RES_C)
                    (los_field (ls_los st'))).
  rewrite pad_outer_fold_unblocked by exact Hwb.
  split; [|apply Hwb].
  destruct (has_neighbour t Ht Hsize) as (n & Hn & Hadj).
  apply (Hdone n Hn (Hall n Hn) t Ht). apply adjacent4_sym. exact Hadj.
Qed.

(** On an open destination chunk the creation of the field returns once
    it has enough fuel. *)
Lemma los_open_chunk_returns id chunk_coord target priv map_pos :
  open_for
    (chunks priv (N_DestLayer id)
            (coord_r chunk_coord * width priv + coord_c chunk_coord))
    (N_DestFactionID id) ->
  coord_r chunk_coord = chunk_r target ->
  coord_c chunk_coord = chunk_c target ->
  in_bounds (Coord (tile_r target) (tile_c target)) ->
  exists fuel0, forall fuel, (fuel0 <= fuel)%nat ->
    exists los,
      N_LOSFieldCreate fuel id chunk_coord target priv map_pos None = Some los.
Proof.
  intros Hopen Hr Hc Htgt.
  destruct (los_dest_state_inv chunk_coord target Htgt) as [Hinv0 Hnn0].
  destruct (los_wavefront_loop_terminates _ _ Hopen chunk_coord target priv
              map_pos _ _ _ _ eq_refl eq_refl eq_refl Hinv0 Hnn0)
    as [fuel0 Hfuel0].
  exists fuel0. intros fuel Hfuel. unfold N_LOSFieldCreate.
  rewrite (los_initial_state_dest fuel chunk_coord target priv map_pos Hr Hc
             Htgt).
  destruct (Hfuel0 fuel Hfuel) as [st' ->]. eauto.
Qed.

End OpenFieldTheorem.

(** C6. On an 8 x 8 field with base cost 1 everywhere and no blockers,
    [N_LOSFieldCreate] on the destination chunk with target tile (7,7)
    returns a field once it has enough fuel, and in every field it returns
    every tile, the target included, is visible and no tile is
    [wavefront_blocked], whichever queue implements the interface and
    whatever the collaborators are. *)
Theorem los_open_field_8x8 {E : nav_env} {Q : PQueue} id chunk_coord priv
    map_pos :
  unit_cost_no_blockers (P := scenario_params)
    (chunks priv (N_DestLayer id)
            (coord_r chunk_coord * width priv + coord_c chunk_coord)) ->
  (exists fuel0, forall fuel, (fuel0 <= fuel)%nat ->
     exists los,
       N_LOSFieldCreate (P := scenario_params) fuel id chunk_coord
         (TileDesc (coord_r chunk_coord) (coord_c chunk_coord) 7 7) priv
         map_pos None = Some los)
  /\ forall fuel los,
       N_LOSFieldCreate (P := scenario_params) fuel id chunk_coord
         (TileDesc (coord_r chunk_coord) (coord_c chunk_coord) 7 7) priv
         map_pos None = Some los ->
       forall t, in_bounds (P := scenario_params) t ->
         visible (at_coord (los_field los) t) = true
         /\ wavefront_blocked (at_coord (los_field los) t) = false.
Proof.
  intros Hunit.
  assert (Hopen := unit_cost_open (P := scenario_params) _ (N_DestFactionID id)
                     Hunit).
  assert (Htgt : in_bounds (P := scenario_params) (Coord 7 7))
    by (unfold in_bounds; simpl; lia).
  split.
  - apply (los_open_chunk_returns (P := scenario_params) id chunk_coord
             (TileDesc (coord_r chunk_coord) (coord_c chunk_coord) 7 7)
             priv map_pos); auto.
  - intros fuel los Hrun.
    apply (los_open_chunk_all_visible (P := scenario_params) fuel id
             chunk_coord
             (TileDesc (coord_r chunk_coord) (coord_c chunk_coord) 7 7)
             priv map_pos los); auto.
    left. simpl. lia.
Qed.

(** The sample queue and collaborators: with fuel 200 the run returns a
    field, and it is all visible. *)
Lemma los_open_field_8x8_witness :
  match los_run open_chunk with
  | Some los =>
      forall t, in_bounds (P := scenario_params) t ->
        visible (at_coord (los_field los) t) = true
        /\ wavefront_blocked (at_coord (los_field los) t) = false
  | None => False
  end.
Proof.
  destruct (los_run open_chunk) as [los|] eqn:Hrun.
  - apply (proj2 (los_open_field_8x8 (E := scenario_env) (Q := list_pqueue) 0
                    (Coord 0 0) (single_chunk_map open_chunk) tt
                    (fun t _ => conj eq_refl eq_refl)) 200%nat los Hrun).
  - vm_compute in Hrun. discriminate.
Defined.


(** ** Termination of the integration loop *)

Section IntegrationTermination.

Context {P : nav_params} {E : nav_env} {Q : PQueue}.

Lemma relax_progress_trans st1 st2 st3 :
  relax_progress st1 st2 -> relax_progress st2 st3 -> relax_progress st1 st3.
Proof.
  intros [[HI1 Hq1]|H1] [[HI2 Hq2]|H2].
  - left. split; congruence.
  - right. rewrite <- HI1. exact H2.
  - right. rewrite HI2. exact H1.
  - right. eapply lowered_trans; eauto.
Qed.

Lemma integration_relax_progress curr st n cost :
  in_bounds n -> 0 <= cost -> nonneg_field (snd st) ->
  relax_progress st (integration_relax curr st (n, cost))
  /\ nonneg_field (snd (integration_relax curr st (n, cost))).
Proof.
  destruct st as [q inout]. intros Hn Hcost Hnn. simpl in Hnn.
  unfold integration_relax.
  fold (at_coord inout curr). fold (at_coord inout n).
  destruct (flt (fadd (at_coord inout curr) cost) (at_coord inout n)) eqn:Hlt;
    [|split; [left; auto | exact Hnn]].
  destruct (at_coord inout curr) as [vc|] eqn:Hvc; [|discriminate].
  simpl fadd in *.
  destruct (upd_lowered inout n (vc + cost) Hn Hnn) as [Hlow Hnn'].
  { specialize (Hnn curr vc Hvc). lia. }
  { exact Hlt. }
  destruct (pq_coord_contains q field_compare_tiles n);
    (split; [right; exact Hlow | exact Hnn']).
Qed.

Lemma integration_relax_fold_progress curr l st :
  (forall nb, In nb l -> in_bounds (fst nb) /\ 0 <= snd nb) ->
  nonneg_field (snd st) ->
  relax_progress st (fold_left (integration_relax curr) l st)
  /\ nonneg_field (snd (fold_left (integration_relax curr) l st)).
Proof.
  revert st. induction l as [|[n cost] l IH]; intros st Hl Hnn.
  - split; [left; auto | exact Hnn].
  - cbn [fold_left].
    destruct (Hl (n, cost) (or_introl eq_refl)) as [Hn Hcost].
    destruct (integration_relax_progress curr st n cost Hn Hcost Hnn)
      as [Hp1 Hnn1].
    destruct (IH (integration_relax curr st (n, cost))) as [Hp2 Hnn2]; auto.
    { intros nb Hnb. apply Hl. right; exact Hnb. }
    split; [eapply relax_progress_trans; eauto | exact Hnn2].
Qed.

Lemma neighbours_grid_cost_nonneg chunk curr faction_id nb :
  costs_positive chunk ->
  In nb (field_neighbours_grid chunk curr true faction_id) ->
  in_bounds (fst nb) /\ 0 <= snd nb.
Proof.
  intros Hpos Hnb. destruct nb as [n cost].
  destruct (neighbours_grid_in _ _ _ _ _ _ Hnb) as (Hn & _ & -> & _).
  split; [exact Hn|]. simpl.
  destruct (blockers chunk (coord_r n) (coord_c n) =? 0).
  - specialize (Hpos n Hn). unfold at_coord in Hpos. lia.
  - unfold COST_IMPASSABLE. lia.
Qed.

(** [field_build_integration] returns once it has enough fuel: every
    iteration lowers an integration value or shortens the queue. *)
Lemma field_build_integration_terminates chunk faction_id :
  costs_positive chunk ->
  forall a b c q inout,
    inf_count inout = a -> value_sum inout = b ->
    length (pq_entries q) = c -> nonneg_field inout ->
    exists fuel0, forall fuel, (fuel0 <= fuel)%nat ->
      exists out,
        field_build_integration fuel q chunk faction_id inout = Some out.
Proof.
  intros Hpos a. induction a as [a IHa] using lt_wf_ind.
  intros b. induction b as [b IHb] using lt_wf_ind.
  intros c. induction c as [c IHc] using lt_wf_ind.
  intros q inout Ha Hb Hc Hnn.
  destruct (pq_size q >? 0) eqn:Hsize.
  2:{ exists 1%nat. intros [|fuel] Hf; [lia|].
      cbn [field_build_integration]. rewrite Hsize. eauto. }
  destruct (pq_pop_nonempty _ Hsize) as (curr & q1 & Hpop).
  destruct (pq_pop_some _ _ _ Hpop) as (p & Hperm & _).
  apply Permutation_length in Hperm. simpl in Hperm.
  destruct (integration_relax_fold_progress curr
              (field_neighbours_grid chunk curr true faction_id) (q1, inout))
    as [Hp Hnn2].
  { intros nb Hnb. eapply neighbours_grid_cost_nonneg; eauto. }
  { exact Hnn. }
  destruct (fold_left (integration_relax curr)
              (field_neighbours_grid chunk curr true faction_id) (q1, inout))
    as [q2 inout2] eqn:Hfold.
  simpl in Hp, Hnn2.
  assert (Hrec : exists fuel0, forall fuel, (fuel0 <= fuel)%nat ->
            exists out,
              field_build_integration fuel q2 chunk faction_id inout2
              = Some out).
  { destruct Hp as [[HI Hq]|[Hlow|[Hsame Hlow]]]; simpl in *.
    - subst inout2 q2. apply (IHc (length (pq_entries q1))); auto. lia.
    - apply (IHa (inf_count inout2) ltac:(lia) (value_sum inout2)
               (length (pq_entries q2))); auto.
    - apply (IHb (value_sum inout2) ltac:(lia) (length (pq_entries q2)));
        auto. lia. }
  destruct Hrec as [f2 Hf2]. exists (S f2). intros [|fuel] Hf; [lia|].
  cbn [field_build_integration]. rewrite Hsize, Hpop, Hfold.
  apply Hf2. lia.
Qed.

Lemma zero_or_inf_nonneg intf : zero_or_inf intf -> nonneg_field intf.
Proof.
  intros Hz t v Hv. destruct (Hz t) as [H|H]; rewrite H in Hv.
  - discriminate.
  - injection Hv as <-. lia.
Qed.

(** No assertion of [field_build_flow] fires on a field in which every
    finite non-zero value has a finite neighbour. *)
Lemma build_flow_loop_total intf tiles dirs :
  FIELD_RES_C <= FIELD_RES_R ->
  supported (fun _ _ => True) intf ->
  (forall t, In t tiles -> in_bounds t) ->
  exists dirs', build_flow_loop intf tiles dirs = Some dirs'.
Proof.
  intros Hle Hsup. revert dirs.
  induction tiles as [|t tiles IH]; intros dirs Hin; cbn [build_flow_loop].
  - eauto.
  - assert (Hin' : forall t', In t' tiles -> in_bounds t')
      by (intros t' Ht'; apply Hin; right; exact Ht').
    fold (at_coord intf t).
    destruct (feqb (at_coord intf t) PosInf) eqn:Hinf; [apply IH; exact Hin'|].
    destruct (feqb (at_coord intf t) (Finite 0)) eqn:Hzero;
      [apply IH; exact Hin'|].
    destruct (at_coord intf t) as [v|] eqn:Hv; [|discriminate].
    assert (Hv0 : v <> 0).
    { intros ->. simpl in Hzero. discriminate. }
    destruct (Hsup t v (Hin t (or_introl eq_refl)) Hv Hv0)
      as (n & w & Hn & Hadj & Hw & _).
    destruct (field_flow_dir_total intf t Hle) as (d & Hd & _).
    { apply (finite_neighbour_min_cost intf t n); auto.
      - apply Hin. left; reflexivity.
      - exists w. exact Hw. }
    rewrite Hd. apply IH. exact Hin'.
Qed.

End IntegrationTermination.

(** X2. [N_FlowFieldUpdate] with a TILE target inside the field, on a
    chunk whose base costs are at least 1 and a field at least as tall as
    wide, returns once it has enough fuel: no assertion fires and the
    integration loop ends. *)
Theorem flow_field_update_returns {P : nav_params} {E : nav_env} {Q : PQueue}
    chunk_coord priv faction_id layer tile inout_flow :
  FIELD_RES_C <= FIELD_RES_R ->
  costs_positive
    (chunks priv layer (IDX (coord_r chunk_coord) (width priv)
                            (coord_c chunk_coord))) ->
  in_bounds tile ->
  exists fuel0, forall fuel, (fuel0 <= fuel)%nat ->
    exists intf flow,
      N_FlowFieldUpdate_run fuel chunk_coord priv faction_id layer
                            (Target_tile tile) inout_flow
      = Some (intf, flow).
Proof.
  intros Hle Hpos Htile. unfold N_FlowFieldUpdate_run.
  set (chunk := chunks priv layer _) in *.
  cbn [field_initial_frontier].
  set (seeds := field_tile_initial_frontier tile chunk false faction_id
                  (FIELD_RES_R * FIELD_RES_C)).
  assert (Hseeds : forall t, In t seeds -> in_bounds t).
  { intros t. unfold seeds, field_tile_initial_frontier.
    destruct (FIELD_RES_R * FIELD_RES_C =? 0); [intros []|].
    cbn. destruct (tile_passable_for chunk faction_id tile); [|intros []].
    intros [<-|[]]. exact Htile. }
  pose proof (seed_frontier_inv (fun _ _ => True) seeds Hseeds) as Hinv.
  destruct (seed_frontier_spec seeds (pq_coord_init, all_infinite))
    as [Hz _].
  { intros t. left. reflexivity. }
  { intros e He. simpl in He. rewrite pq_init_entries in He. destruct He. }
  { exact Hseeds. }
  destruct (seed_frontier seeds (pq_coord_init, all_infinite)) as [q0 I0].
  simpl in Hz.
  destruct (field_build_integration_terminates chunk faction_id Hpos _ _ _
              q0 I0 eq_refl eq_refl eq_refl (zero_or_inf_nonneg _ Hz))
    as [fuel0 Hfuel0].
  exists fuel0. intros fuel Hfuel.
  destruct (Hfuel0 fuel Hfuel) as [intf Hintf]. rewrite Hintf.
  assert (Hsup : supported (fun _ _ => True) intf).
  { eapply (build_integration_inv (fun _ _ => True)); eauto. }
  unfold field_build_flow.
  destruct (build_flow_loop_total intf (grid FIELD_RES_R FIELD_RES_C)
              (dir_idx inout_flow) Hle Hsup) as [dirs' Hdirs].
  { intros t Ht. apply in_grid. exact Ht. }
  cbn [dir_idx]. rewrite Hdirs. cbn [field_fixup]. eauto.
Qed.

(** The open 8 x 8 field of scenario 1, target (4,4). *)
Lemma flow_field_update_returns_witness :
  exists fuel0, forall fuel, (fuel0 <= fuel)%nat ->
    exists intf flow,
      N_FlowFieldUpdate_run (P := scenario_params) (E := scenario_env)
        (Q := list_pqueue) fuel (Coord 0 0) (single_chunk_map open_chunk)
        (-1) 0 (Target_tile (Coord 4 4)) empty_flow
      = Some (intf, flow).
Proof.
  apply (flow_field_update_returns (P := scenario_params)
           (E := scenario_env) (Q := list_pqueue)).
  - simpl. lia.
  - intros t _. reflexivity.
  - unfold in_bounds. simpl. lia.
Defined.

(** * Further properties of the code *)

(** ** Decoding an identity *)

Section IdentityDecode.

Context {P : nav_params}.

Hypothesis code_range : forall t, 0 <= target_type_code t < 16.

Lemma id_payload_bound chunk target layer :
  id_fields_in_range chunk target layer ->
  0 <= id_payload target <= 2 ^ 56 - 2 ^ 16.
Proof.
  intros (_ & _ & Ht).
  destruct target as [p|t|e|m]; simpl in Ht; unfold id_payload, byte_coord in *;
    [lia|lia|lia|contradiction].
Qed.

(** X3. The layer stored in an identity is read back by
    [N_FlowField_Layer], and the identity fits 64 bits. *)
Theorem flow_field_layer_of_id chunk target layer :
  id_fields_in_range chunk target layer ->
  exists id,
    N_FlowField_ID chunk target layer = Some id
    /\ N_FlowField_Layer id = layer
    /\ 0 <= id < 2 ^ 64.
Proof.
  intros Hrange.
  pose proof (id_payload_bound _ _ _ Hrange) as Hpay.
  pose proof (code_range (target_type_of target)) as Hcode.
  rewrite (flow_field_id_closed_form code_range _ _ _ Hrange).
  destruct Hrange as (Hl & [Hr Hc] & _).
  eexists. split; [reflexivity|].
  unfold byte_coord in *.
  unfold N_FlowField_Layer. rewrite Z.shiftr_div_pow2 by lia.
  split; [|lia].
  symmetry.
  apply (Z.div_unique _ _ layer
           (target_type_code (target_type_of target) * 2 ^ 56
            + id_payload target + coord_r chunk * 2 ^ 8 + coord_c chunk));
    lia.
Qed.

End IdentityDecode.

(** A PORTAL target in layer 3. *)
Lemma flow_field_layer_of_id_witness :
  exists id,
    N_FlowField_ID (P := scenario_params) (Coord 1 1)
                   (Target_portal top_portal) 3 = Some id
    /\ N_FlowField_Layer id = 3
    /\ 0 <= id < 2 ^ 64.
Proof.
  apply (flow_field_layer_of_id (P := scenario_params) scenario_code_range).
  unfold id_fields_in_range, byte_coord; simpl; lia.
Defined.

(** ** The integration field solves the shortest-path equations *)

Section Bellman.

Context {P : nav_params} {E : nav_env} {Q : PQueue}.

Variables (chunk : nav_chunk) (faction_id : Z) (ok : coord -> bool).

Lemma neighbours_grid_complete curr only_passable n :
  in_bounds n -> adjacent4 n curr ->
  (only_passable = true -> tile_passable_for chunk faction_id n = true) ->
  In (n, step_cost chunk n)
     (field_neighbours_grid chunk curr only_passable faction_id).
Proof.
  intros Hb Hadj Hp. unfold field_neighbours_grid, step_cost.
  rewrite in_flat_map. unfold in_bounds, adjacent4 in *.
  exists (coord_r n - coord_r curr). split; [simpl; lia|].
  rewrite in_flat_map. exists (coord_c n - coord_c curr).
  split; [simpl; lia|]. cbv zeta.
  replace (coord_r curr + (coord_r n - coord_r curr)) with (coord_r n) by lia.
  replace (coord_c curr + (coord_c n - coord_c curr)) with (coord_c n) by lia.
  replace ((coord_r n <? 0) || (coord_r n >=? FIELD_RES_R)) with false
    by (symmetry; apply orb_false_iff; rewrite Z.geb_leb;
        split; [apply Z.ltb_ge|apply Z.leb_gt]; lia).
  replace ((coord_c n <? 0) || (coord_c n >=? FIELD_RES_C)) with false
    by (symmetry; apply orb_false_iff; rewrite Z.geb_leb;
        split; [apply Z.ltb_ge|apply Z.leb_gt]; lia).
  replace ((coord_r n - coord_r curr =? 0) && (coord_c n - coord_c curr =? 0))
    with false
    by (symmetry; apply andb_false_iff;
        destruct (Z.eqb_spec (coord_r n - coord_r curr) 0);
        [right|left; reflexivity]; apply Z.eqb_neq; lia).
  replace ((coord_r n - coord_r curr =? coord_c n - coord_c curr)
           || (coord_r n - coord_r curr =? - (coord_c n - coord_c curr)))
    with false
    by (symmetry; apply orb_false_iff; split; apply Z.eqb_neq; lia).
  replace (only_passable
           && negb (tile_passable_for chunk faction_id
                      (Coord (coord_r n) (coord_c n)))) with false.
  - left. destruct n; reflexivity.
  - symmetry. destruct only_passable; [|reflexivity].
    destruct n; simpl in *. rewrite Hp; reflexivity.
Qed.

Lemma field_le_refl intf : field_le intf intf.
Proof. intros t w Hw. exists w. split; [exact Hw|lia]. Qed.

Lemma field_le_trans I1 I2 I3 :
  field_le I2 I1 -> field_le I3 I2 -> field_le I3 I1.
Proof.
  intros H12 H23 t w Hw. destruct (H12 t w Hw) as (w2 & Hw2 & Hle2).
  destruct (H23 t w2 Hw2) as (w3 & Hw3 & Hle3). exists w3. split; [auto|lia].
Qed.

Lemma edge_relaxed_mono I I' t n :
  at_coord I' t = at_coord I t -> field_le I' I ->
  edge_relaxed chunk I t n -> edge_relaxed chunk I' t n.
Proof.
  intros Ht Hle Hrel v Hv. rewrite Ht in Hv.
  destruct (Hrel v Hv) as (w & Hw & Hwv).
  destruct (Hle n w Hw) as (w' & Hw' & Hle'). exists w'. split; [auto|lia].
Qed.

(** One relaxation, seen from the invariant. *)
Lemma integration_relax_bellman curr st n :
  in_bounds curr -> in_bounds n -> adjacent4 n curr -> ok n = true ->
  bellman_inv chunk ok (Some curr) st ->
  let st' := integration_relax curr st (n, step_cost chunk n) in
  bellman_inv chunk ok (Some curr) st'
  /\ at_coord (snd st') curr = at_coord (snd st) curr
  /\ field_le (snd st') (snd st)
  /\ edge_relaxed chunk (snd st') curr n.
Proof.
  destruct st as [q I]. intros Hcurr Hn Hadj Hpass (Hq & Htight & Hfin).
  cbn [fst snd] in *. unfold integration_relax.
  fold (at_coord I curr). fold (at_coord I n).
  destruct (flt (fadd (at_coord I curr) (step_cost chunk n)) (at_coord I n))
    eqn:Hlt.
  - destruct (at_coord I curr) as [vc|] eqn:Hvc; [|discriminate].
    cbn [fadd] in *.
    set (I' := upd I (coord_r n) (coord_c n)
                   (Finite (vc + step_cost chunk n))).
    assert (Hne : curr <> n)
      by (apply not_eq_sym, adjacent4_neq; exact Hadj).
    assert (Hsame : forall t, t <> n -> at_coord I' t = at_coord I t)
      by (intros t Ht; apply at_coord_upd_other; exact Ht).
    assert (Hnew : at_coord I' n = Finite (vc + step_cost chunk n))
      by apply at_coord_upd_same.
    assert (Hle : field_le I' I).
    { intros t w Hw. destruct (coord_eq_dec t n) as [->|Ht].
      - rewrite Hw in Hlt. simpl in Hlt. apply Z.ltb_lt in Hlt.
        exists (vc + step_cost chunk n). split; [exact Hnew|lia].
      - exists w. rewrite Hsame by exact Ht. split; [exact Hw|lia]. }
    set (q' := if pq_coord_contains q field_compare_tiles n then q
               else pq_coord_push q (Finite (vc + step_cost chunk n)) n).
    assert (Hkeep : forall e, In e (pq_entries q) -> In e (pq_entries q')).
    { intros e He. unfold q'.
      destruct (pq_coord_contains q field_compare_tiles n); [exact He|].
      apply (Permutation_in _ (Permutation_sym (pq_push_entries _ _ _))).
      right; exact He. }
    assert (Hqn : exists p, In (p, n) (pq_entries q')).
    { unfold q'.
      destruct (pq_coord_contains q field_compare_tiles n) eqn:Hc.
      - apply pq_contains_in. exact Hc.
      - eexists.
        apply (Permutation_in _ (Permutation_sym (pq_push_entries _ _ _))).
        left; reflexivity. }
    assert (Hq' : queued_in_bounds q').
    { intros e He. unfold q' in He.
      destruct (pq_coord_contains q field_compare_tiles n);
        [apply Hq; exact He|].
      apply (Permutation_in _ (pq_push_entries _ _ _)) in He.
      destruct He as [<-|He]; [exact Hn | apply Hq; exact He]. }
    replace (if pq_coord_contains q field_compare_tiles n
             then (q, I') else (pq_coord_push q _ n, I')) with (q', I')
      by (unfold q'; destruct (pq_coord_contains q field_compare_tiles n);
          reflexivity).
    cbv zeta. unfold bellman_inv. cbn [fst snd].
    split; [split; [exact Hq'|split]|].
    + intros t Ht v Hv Hv0. destruct (coord_eq_dec t n) as [->|Htn].
      * rewrite Hnew in Hv. injection Hv as <-.
        split; [exact Hpass|]. exists curr, vc.
        split; [exact Hcurr|]. split; [apply adjacent4_sym; exact Hadj|].
        split; [rewrite Hsame by exact Hne; exact Hvc | lia].
      * rewrite Hsame in Hv by exact Htn.
        destruct (Htight t Ht v Hv Hv0) as (Hp & m & w & Hm & Hmadj & Hw & Hwv).
        split; [exact Hp|].
        destruct (Hle m w Hw) as (w' & Hw' & Hle').
        exists m, w'.
        split; [exact Hm|]. split; [exact Hmadj|]. split; [exact Hw'|lia].
    + intros t Ht [v Hv]. destruct (coord_eq_dec t n) as [->|Htn].
      * right. left. exact Hqn.
      * rewrite Hsame in Hv by exact Htn.
        destruct (Hfin t Ht (ex_intro _ v Hv)) as [He|[[p Hp]|Hrel]].
        -- left. exact He.
        -- right. left. exists p. apply Hkeep. exact Hp.
        -- right. right. intros m Hm Hmadj Hmp.
           apply (edge_relaxed_mono I I'); auto.
    + split; [rewrite Hsame by exact Hne; exact Hvc|]. split; [exact Hle|].
      intros v Hv. rewrite Hsame in Hv by exact Hne.
      assert (v = vc) by congruence. subst v.
      exists (vc + step_cost chunk n). split; [exact Hnew|lia].
  - cbv zeta. unfold bellman_inv. cbn [fst snd].
    split; [split; [exact Hq|split; assumption]|].
    split; [reflexivity|]. split; [apply field_le_refl|].
    intros v Hv. rewrite Hv in Hlt. cbn [fadd] in Hlt.
    destruct (at_coord I n) as [w|]; [|discriminate].
    simpl in Hlt. apply Z.ltb_ge in Hlt. exists w. split; [reflexivity|lia].
Qed.

(** The [for] loop over the neighbours of [curr]; [step] relaxes the
    neighbours that satisfy [ok] and skips the others. *)
Lemma relax_fold_bellman (step : pq_coord_t * int_field -> coord * Z ->
                                 pq_coord_t * int_field) curr l st :
  in_bounds curr ->
  (forall a nb, In nb l ->
     step a nb = if ok (fst nb) then integration_relax curr a nb else a) ->
  (forall nb, In nb l ->
     in_bounds (fst nb) /\ adjacent4 (fst nb) curr
     /\ snd nb = step_cost chunk (fst nb)) ->
  bellman_inv chunk ok (Some curr) st ->
  let st' := fold_left step l st in
  bellman_inv chunk ok (Some curr) st'
  /\ at_coord (snd st') curr = at_coord (snd st) curr
  /\ field_le (snd st') (snd st)
  /\ forall nb, In nb l -> ok (fst nb) = true ->
       edge_relaxed chunk (snd st') curr (fst nb).
Proof.
  intros Hcurr. revert st.
  induction l as [|[n cost] l IH]; intros st Hstep Hl Hinv.
  - cbn. split; [exact Hinv|]. split; [reflexivity|].
    split; [apply field_le_refl|]. intros nb [].
  - cbn [fold_left].
    destruct (Hl (n, cost) (or_introl eq_refl)) as (Hn & Hadj & Hc).
    cbn [fst snd] in Hn, Hadj, Hc. subst cost.
    rewrite (Hstep st _ (or_introl eq_refl)). cbn [fst].
    assert (Hstep' : forall a nb, In nb l ->
              step a nb = if ok (fst nb) then integration_relax curr a nb
                          else a)
      by (intros a nb Hnb; apply Hstep; right; exact Hnb).
    assert (Hl' : forall nb, In nb l ->
              in_bounds (fst nb) /\ adjacent4 (fst nb) curr
              /\ snd nb = step_cost chunk (fst nb))
      by (intros nb Hnb; apply Hl; right; exact Hnb).
    destruct (ok n) eqn:Hok.
    + destruct (integration_relax_bellman curr st n Hcurr Hn Hadj Hok Hinv)
        as (Hinv1 & Hsame1 & Hle1 & Hrel1).
      destruct (IH (integration_relax curr st (n, step_cost chunk n))
                  Hstep' Hl' Hinv1) as (Hinv2 & Hsame2 & Hle2 & Hrel2).
      cbv zeta. split; [exact Hinv2|]. split; [congruence|].
      split; [eapply field_le_trans; eauto|].
      intros nb [<-|Hnb] Hnbok; [|apply Hrel2; assumption].
      cbn [fst]. apply (edge_relaxed_mono _ _ _ _ Hsame2 Hle2 Hrel1).
    + destruct (IH st Hstep' Hl' Hinv) as (Hinv2 & Hsame2 & Hle2 & Hrel2).
      cbv zeta. split; [exact Hinv2|]. split; [exact Hsame2|].
      split; [exact Hle2|].
      intros nb [<-|Hnb] Hnbok; [|apply Hrel2; assumption].
      cbn [fst] in Hnbok. congruence.
Qed.

(** Taking a tile out of the queue to expand it. *)
Lemma bellman_pop q inout curr q1 :
  bellman_inv chunk ok None (q, inout) ->
  pq_coord_pop q = Some (curr, q1) ->
  in_bounds curr /\ bellman_inv chunk ok (Some curr) (q1, inout).
Proof.
  intros (Hq & Htight & Hfin) Hpop. cbn [fst snd] in *.
  destruct (pq_pop_some _ _ _ Hpop) as (p & Hperm & _).
  split.
  - apply (Hq (p, curr)).
    apply (Permutation_in _ (Permutation_sym Hperm)). left; reflexivity.
  - split; [|split; [exact Htight|]]; cbn [fst snd].
    + intros e He. apply Hq.
      apply (Permutation_in _ (Permutation_sym Hperm)). right; exact He.
    + intros t Ht Hf. destruct (Hfin t Ht Hf) as [He|[[pt Hpt]|Hrel]];
        [discriminate| |auto].
      apply (Permutation_in _ Hperm) in Hpt.
      destruct Hpt as [Heq|Hpt]; [left; congruence|].
      right. left. exists pt. exact Hpt.
Qed.

(** Once all its neighbours were visited the expanded tile is relaxed. *)
Lemma bellman_expanded curr only_passable st :
  (only_passable = true ->
   forall n, ok n = true -> tile_passable_for chunk faction_id n = true) ->
  bellman_inv chunk ok (Some curr) st ->
  (forall nb,
     In nb (field_neighbours_grid chunk curr only_passable faction_id) ->
     ok (fst nb) = true -> edge_relaxed chunk (snd st) curr (fst nb)) ->
  bellman_inv chunk ok None st.
Proof.
  intros Hop (Hq & Htight & Hfin) Hrel.
  split; [exact Hq|split; [exact Htight|]].
  intros t Ht Hf. destruct (Hfin t Ht Hf) as [He|[Hqd|Hr]]; auto.
  injection He as ->. right. right. intros n Hn Hadj Hokn.
  apply (Hrel (n, step_cost chunk n)); [|exact Hokn].
  apply neighbours_grid_complete; auto.
Qed.

Lemma bellman_exit q inout :
  pq_entries q = [] -> bellman_inv chunk ok None (q, inout) ->
  forall t, in_bounds t ->
    tight_at chunk ok inout t
    /\ (is_finite (at_coord inout t) -> relaxed_at chunk ok inout t).
Proof.
  intros Hempty (_ & Htight & Hfin) t Ht. cbn [fst snd] in *.
  split; [apply Htight; exact Ht|].
  intros Hf. destruct (Hfin t Ht Hf) as [He|[[p Hp]|Hrel]];
    [discriminate| |exact Hrel].
  rewrite Hempty in Hp. destruct Hp.
Qed.

Lemma neighbours_grid_step curr only_passable nb :
  In nb (field_neighbours_grid chunk curr only_passable faction_id) ->
  in_bounds (fst nb) /\ adjacent4 (fst nb) curr
  /\ snd nb = step_cost chunk (fst nb).
Proof.
  destruct nb as [n cost]. intros Hnb.
  destruct (neighbours_grid_in _ _ _ _ _ _ Hnb) as (Hn & Hadj & Hc & Hp).
  cbn [fst snd]. split; [exact Hn|]. split; [exact Hadj|exact Hc].
Qed.

End Bellman.

Section BellmanLoops.

Context {P : nav_params} {E : nav_env} {Q : PQueue}.

Variables (chunk : nav_chunk) (faction_id : Z).

Lemma build_integration_bellman fuel q inout out :
  bellman_inv chunk (enters_passable chunk faction_id) None (q, inout) ->
  field_build_integration fuel q chunk faction_id inout = Some out ->
  field_le out inout
  /\ forall t, in_bounds t ->
       tight_at chunk (enters_passable chunk faction_id) out t
       /\ (is_finite (at_coord out t) ->
           relaxed_at chunk (enters_passable chunk faction_id) out t).
Proof.
  revert q inout. induction fuel as [|fuel IH]; intros q inout Hinv;
    cbn [field_build_integration]; [discriminate|].
  destruct (pq_size q >? 0) eqn:Hsize.
  2:{ intros H; injection H as <-. apply pq_size_zero in Hsize.
      split; [apply field_le_refl|].
      apply (bellman_exit chunk _ q); assumption. }
  destruct (pq_coord_pop q) as [[curr q1]|] eqn:Hpop; [|discriminate].
  destruct (bellman_pop chunk _ _ _ _ _ Hinv Hpop) as [Hcurr Hinv1].
  destruct (relax_fold_bellman chunk (enters_passable chunk faction_id)
              (integration_relax curr) curr
              (field_neighbours_grid chunk curr true faction_id) (q1, inout)
              Hcurr) as (Hinv2 & _ & Hle2 & Hrel2).
  { intros a nb Hnb. destruct nb as [n cost].
    destruct (neighbours_grid_in _ _ _ _ _ _ Hnb) as (_ & _ & _ & Hp).
    cbn [fst]. unfold enters_passable. rewrite Hp; reflexivity. }
  { intros nb Hnb. eapply neighbours_grid_step; eauto. }
  { exact Hinv1. }
  destruct (fold_left (integration_relax curr)
              (field_neighbours_grid chunk curr true faction_id) (q1, inout))
    as [q2 inout2] eqn:Hfold.
  cbn [fst snd] in *. intros Hrun.
  destruct (IH q2 inout2) as [Hle Hout]; [|exact Hrun|].
  - apply (bellman_expanded chunk faction_id _ curr true); auto.
  - split; [eapply field_le_trans; eauto | exact Hout].
Qed.

Lemma build_integration_nonpass_bellman fuel q inout out :
  bellman_inv chunk (enters_impassable chunk) None (q, inout) ->
  field_build_integration_nonpass fuel q chunk faction_id inout = Some out ->
  field_le out inout
  /\ forall t, in_bounds t ->
       tight_at chunk (enters_impassable chunk) out t
       /\ (is_finite (at_coord out t) ->
           relaxed_at chunk (enters_impassable chunk) out t).
Proof.
  revert q inout. induction fuel as [|fuel IH]; intros q inout Hinv;
    cbn [field_build_integration_nonpass]; [discriminate|].
  destruct (pq_size q >? 0) eqn:Hsize.
  2:{ intros H; injection H as <-. apply pq_size_zero in Hsize.
      split; [apply field_le_refl|].
      apply (bellman_exit chunk _ q); assumption. }
  destruct (pq_coord_pop q) as [[curr q1]|] eqn:Hpop; [|discriminate].
  destruct (bellman_pop chunk _ _ _ _ _ Hinv Hpop) as [Hcurr Hinv1].
  destruct (relax_fold_bellman chunk (enters_impassable chunk)
              (integration_relax_nonpass chunk curr) curr
              (field_neighbours_grid chunk curr false faction_id) (q1, inout)
              Hcurr) as (Hinv2 & _ & Hle2 & Hrel2).
  { intros a nb _. unfold integration_relax_nonpass, enters_impassable.
    destruct (field_tile_passable chunk (fst nb)); reflexivity. }
  { intros nb Hnb. eapply neighbours_grid_step; eauto. }
  { exact Hinv1. }
  destruct (fold_left (integration_relax_nonpass chunk curr)
              (field_neighbours_grid chunk curr false faction_id) (q1, inout))
    as [q2 inout2] eqn:Hfold.
  cbn [fst snd] in *. intros Hrun.
  destruct (IH q2 inout2) as [Hle Hout]; [|exact Hrun|].
  - apply (bellman_expanded chunk faction_id _ curr false); auto.
    discriminate.
  - split; [eapply field_le_trans; eauto | exact Hout].
Qed.

Lemma seed_frontier_bellman ok seeds :
  (forall s, In s seeds -> in_bounds s) ->
  bellman_inv chunk ok None
    (seed_frontier seeds (pq_coord_init, all_infinite)).
Proof.
  intros Hs.
  assert (Hgen : forall st,
    queued_in_bounds (fst st) -> zero_or_inf (snd st) ->
    (forall t, at_coord (snd st) t = Finite 0 ->
       exists p, In (p, t) (pq_entries (fst st))) ->
    let st' := seed_frontier seeds st in
    queued_in_bounds (fst st') /\ zero_or_inf (snd st')
    /\ forall t, at_coord (snd st') t = Finite 0 ->
         exists p, In (p, t) (pq_entries (fst st'))).
  { unfold seed_frontier. induction seeds as [|s seeds IH]; intros st Hq Hz Hin.
    - cbn. auto.
    - cbn [fold_left]. apply IH.
      + intros t Ht. apply Hs. right; exact Ht.
      + cbn [fst]. intros e He.
        apply (Permutation_in _ (pq_push_entries _ _ _)) in He.
        destruct He as [<-|He]; [apply Hs; left; reflexivity | apply Hq, He].
      + cbn [snd]. intros t. destruct (coord_eq_dec t s) as [->|Hne].
        * right. apply at_coord_upd_same.
        * rewrite at_coord_upd_other by exact Hne. apply Hz.
      + cbn [fst snd]. intros t Ht.
        destruct (coord_eq_dec t s) as [->|Hne].
        * exists (Finite 0).
          apply (Permutation_in _ (Permutation_sym (pq_push_entries _ _ _))).
          left; reflexivity.
        * rewrite at_coord_upd_other in Ht by exact Hne.
          destruct (Hin t Ht) as [p Hp]. exists p.
          apply (Permutation_in _ (Permutation_sym (pq_push_entries _ _ _))).
          right; exact Hp. }
  destruct (Hgen (pq_coord_init, all_infinite)) as (Hq & Hz & Hin).
  - intros e He. cbn in He. rewrite pq_init_entries in He. destruct He.
  - intros t. left. reflexivity.
  - intros t Ht. discriminate.
  - split; [exact Hq|]. split.
    + intros t _ v Hv Hv0. destruct (Hz t) as [H|H]; rewrite H in Hv.
      * discriminate.
      * injection Hv as <-. contradiction.
    + intros t _ [v Hv]. right. left. apply Hin.
      destruct (Hz t) as [H|H]; rewrite H in Hv; [discriminate|exact H].
Qed.

End BellmanLoops.

(** ** Integration values are costs of cheapest walks *)

Section CheapestWalk.

Context {P : nav_params} {E : nav_env} {Q : PQueue}.

Variables (chunk : nav_chunk) (faction_id : Z).

Lemma integration_relax_positive seeds curr st nb :
  0 < snd nb ->
  nonneg_field (snd st) /\ zero_is_seed seeds (snd st) ->
  nonneg_field (snd (integration_relax curr st nb))
  /\ zero_is_seed seeds (snd (integration_relax curr st nb)).
Proof.
  destruct st as [q I], nb as [n cost]. cbn [fst snd].
  intros Hcost [Hnn Hz]. unfold integration_relax.
  fold (at_coord I curr). fold (at_coord I n).
  destruct (flt (fadd (at_coord I curr) cost) (at_coord I n)) eqn:Hlt;
    [|split; assumption].
  destruct (at_coord I curr) as [vc|] eqn:Hvc; [|discriminate].
  cbn [fadd] in *. pose proof (Hnn curr vc Hvc) as Hvc0.
  assert (Hboth :
    nonneg_field (upd I (coord_r n) (coord_c n) (Finite (vc + cost)))
    /\ zero_is_seed seeds (upd I (coord_r n) (coord_c n) (Finite (vc + cost)))).
  { split.
    - intros t v Hv. destruct (coord_eq_dec t n) as [->|Hne].
      + rewrite at_coord_upd_same in Hv. injection Hv as <-. lia.
      + rewrite at_coord_upd_other in Hv by exact Hne. eapply Hnn; eauto.
    - intros t Hv. destruct (coord_eq_dec t n) as [->|Hne].
      + rewrite at_coord_upd_same in Hv. injection Hv as Hv. lia.
      + rewrite at_coord_upd_other in Hv by exact Hne. apply Hz; exact Hv. }
  destruct (pq_coord_contains q field_compare_tiles n); exact Hboth.
Qed.

Lemma relax_fold_positive (ok : coord -> bool)
    (step : pq_coord_t * int_field -> coord * Z -> pq_coord_t * int_field)
    seeds curr l st :
  (forall a nb, In nb l ->
     step a nb = if ok (fst nb) then integration_relax curr a nb else a) ->
  (forall nb, In nb l -> ok (fst nb) = true -> 0 < snd nb) ->
  nonneg_field (snd st) /\ zero_is_seed seeds (snd st) ->
  nonneg_field (snd (fold_left step l st))
  /\ zero_is_seed seeds (snd (fold_left step l st)).
Proof.
  revert st. induction l as [|nb l IH]; intros st Hstep Hl Hinv;
    [exact Hinv|].
  cbn [fold_left]. apply IH.
  - intros a nb' Hnb'. apply Hstep. right; exact Hnb'.
  - intros nb' Hnb'. apply Hl. right; exact Hnb'.
  - rewrite (Hstep st nb (or_introl eq_refl)).
    destruct (ok (fst nb)) eqn:Hok; [|exact Hinv].
    apply integration_relax_positive; [|exact Hinv].
    apply Hl; [left; reflexivity | exact Hok].
Qed.

Lemma step_cost_positive n :
  costs_positive chunk -> in_bounds n -> 0 < step_cost chunk n.
Proof.
  intros Hpos Hn. unfold step_cost.
  destruct (blockers chunk (coord_r n) (coord_c n) =? 0).
  - apply (Hpos n Hn).
  - unfold COST_IMPASSABLE. lia.
Qed.

Lemma step_cost_impassable n :
  enters_impassable chunk n = true -> step_cost chunk n = COST_IMPASSABLE.
Proof.
  unfold enters_impassable, step_cost, field_tile_passable.
  destruct (Z.eqb_spec (cost_base chunk (coord_r n) (coord_c n))
                       COST_IMPASSABLE) as [Hc|Hc].
  - intros _. rewrite Hc. destruct (_ =? 0); reflexivity.
  - destruct (Z.eqb_spec (blockers chunk (coord_r n) (coord_c n)) 0)
      as [Hb|Hb]; [|reflexivity].
    rewrite Hb. cbn. discriminate.
Qed.

Lemma build_integration_positive seeds fuel q inout out :
  costs_positive chunk ->
  nonneg_field inout /\ zero_is_seed seeds inout ->
  field_build_integration fuel q chunk faction_id inout = Some out ->
  nonneg_field out /\ zero_is_seed seeds out.
Proof.
  intros Hpos. revert q inout.
  induction fuel as [|fuel IH]; intros q inout Hinv;
    cbn [field_build_integration]; [discriminate|].
  destruct (pq_size q >? 0); [|intros H; injection H as <-; exact Hinv].
  destruct (pq_coord_pop q) as [[curr q1]|]; [|discriminate].
  pose proof (relax_fold_positive (fun _ => true) (integration_relax curr)
                seeds curr
                (field_neighbours_grid chunk curr true faction_id)
                (q1, inout)) as Hfold.
  destruct (fold_left (integration_relax curr)
              (field_neighbours_grid chunk curr true faction_id) (q1, inout))
    as [q2 inout2].
  apply IH. apply Hfold; [reflexivity| |exact Hinv].
  intros nb Hnb _.
  destruct (neighbours_grid_step chunk faction_id _ _ _ Hnb) as (Hn & _ & ->).
  apply step_cost_positive; assumption.
Qed.

Lemma build_integration_nonpass_positive seeds fuel q inout out :
  nonneg_field inout /\ zero_is_seed seeds inout ->
  field_build_integration_nonpass fuel q chunk faction_id inout = Some out ->
  nonneg_field out /\ zero_is_seed seeds out.
Proof.
  revert q inout.
  induction fuel as [|fuel IH]; intros q inout Hinv;
    cbn [field_build_integration_nonpass]; [discriminate|].
  destruct (pq_size q >? 0); [|intros H; injection H as <-; exact Hinv].
  destruct (pq_coord_pop q) as [[curr q1]|]; [|discriminate].
  pose proof (relax_fold_positive (enters_impassable chunk)
                (integration_relax_nonpass chunk curr) seeds curr
                (field_neighbours_grid chunk curr false faction_id)
                (q1, inout)) as Hfold.
  destruct (fold_left (integration_relax_nonpass chunk curr)
              (field_neighbours_grid chunk curr false faction_id) (q1, inout))
    as [q2 inout2].
  apply IH. apply Hfold; [| |exact Hinv].
  - intros a nb _. unfold integration_relax_nonpass, enters_impassable.
    destruct (field_tile_passable chunk (fst nb)); reflexivity.
  - intros nb Hnb Hok.
    destruct (neighbours_grid_step chunk faction_id _ _ _ Hnb) as (_ & _ & ->).
    rewrite (step_cost_impassable _ Hok). unfold COST_IMPASSABLE. lia.
Qed.

Lemma seed_frontier_zero seeds s :
  In s seeds ->
  at_coord (snd (seed_frontier seeds (pq_coord_init, all_infinite))) s
  = Finite 0.
Proof.
  unfold seed_frontier. generalize (pq_coord_init, all_infinite).
  induction seeds as [|x seeds IH]; intros st; [intros []|].
  cbn [fold_left]. intros [->|Hs]; [|apply IH; exact Hs].
  clear IH. revert st.
  assert (Hkeep : forall l (a : pq_coord_t * int_field),
            at_coord (snd a) s = Finite 0 ->
            at_coord (snd (fold_left (fun st curr =>
              (pq_coord_push (fst st) (Finite 0) curr,
               upd (snd st) (coord_r curr) (coord_c curr) (Finite 0)))
              l a)) s = Finite 0).
  { induction l as [|y l IHl]; intros a Ha; [exact Ha|].
    cbn [fold_left]. apply IHl. cbn [snd].
    destruct (coord_eq_dec s y) as [->|Hne].
    - apply at_coord_upd_same.
    - rewrite at_coord_upd_other by exact Hne. exact Ha. }
  intros st. apply Hkeep. cbn [snd]. apply at_coord_upd_same.
Qed.

Lemma seed_frontier_zero_is_seed seeds :
  zero_is_seed seeds (snd (seed_frontier seeds (pq_coord_init, all_infinite))).
Proof.
  assert (Hgen : forall l (st : pq_coord_t * int_field),
            (forall x, In x l -> In x seeds) ->
            zero_is_seed seeds (snd st) ->
            zero_is_seed seeds (snd (seed_frontier l st))).
  { unfold seed_frontier. induction l as [|x l IH]; intros st Hl Hz;
      [exact Hz|].
    cbn [fold_left]. apply IH.
    - intros y Hy. apply Hl. right; exact Hy.
    - cbn [snd]. intros t Ht. destruct (coord_eq_dec t x) as [->|Hne].
      + apply Hl. left; reflexivity.
      + rewrite at_coord_upd_other in Ht by exact Hne. apply Hz; exact Ht. }
  apply Hgen; [auto|]. intros t Ht. discriminate.
Qed.

Lemma seed_frontier_nonneg seeds :
  (forall s, In s seeds -> in_bounds s) ->
  nonneg_field (snd (seed_frontier seeds (pq_coord_init, all_infinite))).
Proof.
  intros Hs. apply zero_or_inf_nonneg.
  apply (seed_frontier_spec seeds (pq_coord_init, all_infinite)).
  - intros t. left. reflexivity.
  - intros e He. cbn in He. rewrite pq_init_entries in He. destruct He.
  - exact Hs.
Qed.

Lemma walk_snoc ok s p n t :
  walk ok s p n -> in_bounds t -> adjacent4 t n -> ok t = true ->
  walk ok s (p ++ [t]) t.
Proof.
  revert s. induction p as [|x p IH]; intros s; cbn [walk app].
  - intros <- Ht Hadj Hok. auto.
  - intros (Hx & Hxs & Hokx & Hw) Ht Hadj Hok.
    split; [exact Hx|]. split; [exact Hxs|]. split; [exact Hokx|].
    apply IH; assumption.
Qed.

Lemma path_cost_snoc p t :
  path_cost chunk (p ++ [t]) = path_cost chunk p + step_cost chunk t.
Proof.
  unfold path_cost. induction p as [|x p IH]; cbn [app fold_right]; lia.
Qed.

Lemma path_cost_impassable s p t :
  walk (enters_impassable chunk) s p t ->
  path_cost chunk p = COST_IMPASSABLE * Z.of_nat (length p).
Proof.
  revert s. induction p as [|x p IH]; intros s; cbn [walk].
  - intros _. reflexivity.
  - intros (_ & _ & Hok & Hw).
    change (path_cost chunk (x :: p))
      with (step_cost chunk x + path_cost chunk p).
    rewrite (IH x Hw), (step_cost_impassable _ Hok).
    cbn [length]. lia.
Qed.

(** A field that solves the equations holds, at every tile, the cost of a
    cheapest walk from a seed. *)
Lemma bellman_cheapest_walk ok seeds (out : int_field) :
  (forall n, in_bounds n -> ok n = true -> 0 < step_cost chunk n) ->
  (forall s, In s seeds -> in_bounds s) ->
  (forall s, In s seeds -> exists v, at_coord out s = Finite v /\ v <= 0) ->
  nonneg_field out -> zero_is_seed seeds out ->
  (forall t, in_bounds t ->
     tight_at chunk ok out t
     /\ (is_finite (at_coord out t) -> relaxed_at chunk ok out t)) ->
  forall t, in_bounds t ->
    (forall v, at_coord out t = Finite v ->
       exists s p, In s seeds /\ walk ok s p t /\ path_cost chunk p = v)
    /\ (forall s p, In s seeds -> walk ok s p t ->
          exists v, at_coord out t = Finite v /\ v <= path_cost chunk p).
Proof.
  intros Hcost Hseeds Hzero Hnn Hz Hbell t Ht. split.
  - assert (Hind : forall (k : nat) t v, in_bounds t ->
              at_coord out t = Finite v -> v < Z.of_nat k ->
              exists s p, In s seeds /\ walk ok s p t
                          /\ path_cost chunk p = v).
    { induction k as [|k IH]; intros t0 v Ht0 Hv Hk.
      - pose proof (Hnn t0 v Hv). lia.
      - destruct (Z.eq_dec v 0) as [->|Hv0].
        + exists t0, []. split; [apply Hz; exact Hv|]. split; reflexivity.
        + destruct (Hbell t0 Ht0) as [Htight _].
          destruct (Htight v Hv Hv0) as (Hok & n & w & Hn & Hadj & Hw & Hle).
          destruct (Hbell n Hn) as [_ Hrel].
          destruct (Hrel (ex_intro _ w Hw) t0 Ht0 (adjacent4_sym _ _ Hadj) Hok
                      w Hw) as (v' & Hv' & Hle').
          assert (v' = v) by congruence. subst v'.
          pose proof (Hcost t0 Ht0 Hok) as Hc.
          destruct (IH n w Hn Hw) as (s & p & Hs & Hwalk & Hp); [lia|].
          exists s, (p ++ [t0]). split; [exact Hs|]. split.
          * apply (walk_snoc ok s p n t0); auto using adjacent4_sym.
          * rewrite path_cost_snoc. lia. }
    intros v Hv. apply (Hind (S (Z.to_nat v)) t v Ht Hv).
    pose proof (Hnn t v Hv). lia.
  - intros s p Hs Hw.
    destruct (Hzero s Hs) as (v0 & Hv0 & Hle0).
    assert (Hgen : forall p s v0, in_bounds s -> at_coord out s = Finite v0 ->
              walk ok s p t ->
              exists v, at_coord out t = Finite v
                        /\ v <= v0 + path_cost chunk p).
    { clear s p Hs Hw v0 Hv0 Hle0.
      induction p as [|x p IH]; intros s v0 Hs Hv0; cbn [walk].
      - intros <-. exists v0. split; [exact Hv0|]. cbn. lia.
      - intros (Hx & Hadj & Hok & Hw).
        destruct (Hbell s Hs) as [_ Hrel].
        destruct (Hrel (ex_intro _ v0 Hv0) x Hx Hadj Hok v0 Hv0)
          as (w & Hw0 & Hle).
        destruct (IH x w Hx Hw0 Hw) as (v & Hv & Hlev).
        exists v. split; [exact Hv|].
        change (path_cost chunk (x :: p))
          with (step_cost chunk x + path_cost chunk p). lia. }
    destruct (Hgen p s v0 (Hseeds s Hs) Hv0 Hw) as (v & Hv & Hle).
    exists v. split; [exact Hv|lia].
Qed.

End CheapestWalk.

Section IntegrationWalks.

Context {P : nav_params} {E : nav_env} {Q : PQueue}.

Variables (chunk : nav_chunk) (faction_id : Z) (seeds : list coord).

Hypothesis seeds_in_bounds : forall s, In s seeds -> in_bounds s.

(** What is known of the field [field_build_integration] returns. *)
Lemma build_integration_walks fuel out :
  costs_positive chunk ->
  field_build_integration fuel
    (fst (seed_frontier seeds (pq_coord_init, all_infinite)))
    chunk faction_id
    (snd (seed_frontier seeds (pq_coord_init, all_infinite))) = Some out ->
  nonneg_field out /\ zero_is_seed seeds out
  /\ (forall s, In s seeds -> at_coord out s = Finite 0)
  /\ (forall t, in_bounds t ->
        tight_at chunk (enters_passable chunk faction_id) out t)
  /\ forall t, in_bounds t ->
       (forall v, at_coord out t = Finite v ->
          exists s p, In s seeds
                      /\ walk (enters_passable chunk faction_id) s p t
                      /\ path_cost chunk p = v)
       /\ (forall s p, In s seeds ->
             walk (enters_passable chunk faction_id) s p t ->
             exists v, at_coord out t = Finite v /\ v <= path_cost chunk p).
Proof.
  intros Hpos Hrun.
  pose proof (seed_frontier_bellman chunk (enters_passable chunk faction_id)
                seeds seeds_in_bounds) as Hinv.
  pose proof (seed_frontier_zero seeds) as Hzero.
  pose proof (seed_frontier_zero_is_seed seeds) as Hz.
  pose proof (seed_frontier_nonneg seeds seeds_in_bounds) as Hnn.
  destruct (seed_frontier seeds (pq_coord_init, all_infinite)) as [q0 I0].
  cbn [fst snd] in *.
  destruct (build_integration_bellman chunk faction_id fuel q0 I0 out Hinv
              Hrun) as [Hle Hbell].
  destruct (build_integration_positive chunk faction_id seeds fuel q0 I0 out
              Hpos (conj Hnn Hz) Hrun) as [Hnn' Hz'].
  assert (Hz0 : forall s, In s seeds -> at_coord out s = Finite 0).
  { intros s Hs. destruct (Hle s 0 (Hzero s Hs)) as (w & Hw & Hw0).
    pose proof (Hnn' s w Hw). replace w with 0 in Hw by lia. exact Hw. }
  split; [exact Hnn'|]. split; [exact Hz'|]. split; [exact Hz0|].
  split; [intros t Ht; apply Hbell; exact Ht|].
  apply (bellman_cheapest_walk chunk (enters_passable chunk faction_id)
           seeds out); try assumption.
  - intros n Hn _. apply step_cost_positive; assumption.
  - intros s Hs. exists 0. split; [apply Hz0; exact Hs|lia].
Qed.

(** The same of [field_build_integration_nonpass]. *)
Lemma build_integration_nonpass_walks fuel out :
  field_build_integration_nonpass fuel
    (fst (seed_frontier seeds (pq_coord_init, all_infinite)))
    chunk faction_id
    (snd (seed_frontier seeds (pq_coord_init, all_infinite))) = Some out ->
  nonneg_field out /\ zero_is_seed seeds out
  /\ (forall s, In s seeds -> at_coord out s = Finite 0)
  /\ (forall t, in_bounds t -> tight_at chunk (enters_impassable chunk) out t)
  /\ forall t, in_bounds t ->
       (forall v, at_coord out t = Finite v ->
          exists s p, In s seeds
                      /\ walk (enters_impassable chunk) s p t
                      /\ path_cost chunk p = v)
       /\ (forall s p, In s seeds -> walk (enters_impassable chunk) s p t ->
             exists v, at_coord out t = Finite v /\ v <= path_cost chunk p).
Proof.
  intros Hrun.
  pose proof (seed_frontier_bellman chunk (enters_impassable chunk)
                seeds seeds_in_bounds) as Hinv.
  pose proof (seed_frontier_zero seeds) as Hzero.
  pose proof (seed_frontier_zero_is_seed seeds) as Hz.
  pose proof (seed_frontier_nonneg seeds seeds_in_bounds) as Hnn.
  destruct (seed_frontier seeds (pq_coord_init, all_infinite)) as [q0 I0].
  cbn [fst snd] in *.
  destruct (build_integration_nonpass_bellman chunk faction_id fuel q0 I0 out
              Hinv Hrun) as [Hle Hbell].
  destruct (build_integration_nonpass_positive chunk faction_id seeds fuel q0
              I0 out (conj Hnn Hz) Hrun) as [Hnn' Hz'].
  assert (Hz0 : forall s, In s seeds -> at_coord out s = Finite 0).
  { intros s Hs. destruct (Hle s 0 (Hzero s Hs)) as (w & Hw & Hw0).
    pose proof (Hnn' s w Hw). replace w with 0 in Hw by lia. exact Hw. }
  split; [exact Hnn'|]. split; [exact Hz'|]. split; [exact Hz0|].
  split; [intros t Ht; apply Hbell; exact Ht|].
  apply (bellman_cheapest_walk chunk (enters_impassable chunk) seeds out);
    try assumption.
  - intros n _ Hok. rewrite (step_cost_impassable chunk _ Hok).
    unfold COST_IMPASSABLE. lia.
  - intros s Hs. exists 0. split; [apply Hz0; exact Hs|lia].
Qed.

End IntegrationWalks.

(** X4. The integration field [field_build_integration] builds from a
    frontier of seeds holds at every tile the cost of a cheapest walk from
    a seed over passable tiles: every finite value is the cost of such a
    walk, and every such walk reaches a tile with a finite value no larger
    than its cost. The step onto a tile costs its base cost, or 255 when
    it carries blockers. Base costs are at least 1. *)
Theorem integration_is_cheapest_walk {P : nav_params} {E : nav_env}
    {Q : PQueue} fuel seeds chunk faction_id out t :
  costs_positive chunk ->
  (forall s, In s seeds -> in_bounds s) ->
  field_build_integration fuel
    (fst (seed_frontier seeds (pq_coord_init, all_infinite)))
    chunk faction_id
    (snd (seed_frontier seeds (pq_coord_init, all_infinite))) = Some out ->
  in_bounds t ->
  (forall v, at_coord out t = Finite v ->
     exists s p, In s seeds
                 /\ walk (enters_passable chunk faction_id) s p t
                 /\ path_cost chunk p = v)
  /\ (forall s p, In s seeds ->
        walk (enters_passable chunk faction_id) s p t ->
        exists v, at_coord out t = Finite v /\ v <= path_cost chunk p).
Proof.
  intros Hpos Hseeds Hrun Ht.
  apply (build_integration_walks chunk faction_id seeds Hseeds fuel out Hpos
           Hrun).
  exact Ht.
Qed.

(** The corner field: the tile (2,2), behind the expensive tile, holds 4. *)
Lemma integration_is_cheapest_walk_witness :
  match corner_integration with
  | Some out =>
      (forall v, at_coord out (Coord 2 2) = Finite v ->
         exists s p,
           In s [Coord 2 4]
           /\ walk (P := scenario_params)
                   (enters_passable (P := scenario_params)
                      (E := scenario_env) corner_chunk (-1)) s p (Coord 2 2)
           /\ path_cost corner_chunk p = v)
      /\ (forall s p, In s [Coord 2 4] ->
            walk (P := scenario_params)
                 (enters_passable (P := scenario_params) (E := scenario_env)
                    corner_chunk (-1)) s p (Coord 2 2) ->
            exists v, at_coord out (Coord 2 2) = Finite v
                      /\ v <= path_cost corner_chunk p)
  | None => False
  end.
Proof.
  destruct corner_integration as [out|] eqn:Hrun.
  - apply (integration_is_cheapest_walk (P := scenario_params)
             (E := scenario_env) (Q := list_pqueue) 200 [Coord 2 4]
             corner_chunk (-1) out (Coord 2 2)).
    + intros t _. unfold at_coord. simpl.
      destruct ((coord_r t =? 1) && (coord_c t =? 2)); [lia|].
      destruct ((coord_r t =? 2) && (coord_c t =? 3)); lia.
    + intros s [<-|[]]. unfold in_bounds. simpl. lia.
    + exact Hrun.
    + unfold in_bounds. simpl. lia.
  - vm_compute in Hrun. discriminate.
Defined.

(** X5. The integration field [field_build_integration_nonpass] builds
    holds at every tile 255 times the length of a shortest walk from a
    seed over impassable tiles: every finite value is 255 times the length
    of such a walk, and every such walk reaches a tile with a finite value
    of at most 255 times its length. *)
Theorem nonpass_integration_is_walk_length {P : nav_params} {E : nav_env}
    {Q : PQueue} fuel seeds chunk faction_id out t :
  (forall s, In s seeds -> in_bounds s) ->
  field_build_integration_nonpass fuel
    (fst (seed_frontier seeds (pq_coord_init, all_infinite)))
    chunk faction_id
    (snd (seed_frontier seeds (pq_coord_init, all_infinite))) = Some out ->
  in_bounds t ->
  (forall v, at_coord out t = Finite v ->
     exists s p, In s seeds
                 /\ walk (enters_impassable chunk) s p t
                 /\ v = COST_IMPASSABLE * Z.of_nat (length p))
  /\ (forall s p, In s seeds -> walk (enters_impassable chunk) s p t ->
        exists v, at_coord out t = Finite v
                  /\ v <= COST_IMPASSABLE * Z.of_nat (length p)).
Proof.
  intros Hseeds Hrun Ht.
  destruct (build_integration_nonpass_walks chunk faction_id seeds Hseeds
              fuel out Hrun) as (_ & _ & _ & _ & Hwalks).
  destruct (Hwalks t Ht) as [Hfrom Hto]. split.
  - intros v Hv. destruct (Hfrom v Hv) as (s & p & Hs & Hw & Hp).
    exists s, p. split; [exact Hs|]. split; [exact Hw|].
    rewrite <- Hp. apply (path_cost_impassable chunk s p t Hw).
  - intros s p Hs Hw. destruct (Hto s p Hs Hw) as (v & Hv & Hlev).
    exists v. split; [exact Hv|].
    rewrite <- (path_cost_impassable chunk s p t Hw). exact Hlev.
Qed.

(** The blocked square: its middle (3,3) is two steps from the seeds. *)
Lemma nonpass_integration_is_walk_length_witness :
  match blocked_square_integration with
  | Some out =>
      (forall v, at_coord out (Coord 3 3) = Finite v ->
         exists s p,
           In s [Coord 1 3; Coord 3 1; Coord 3 5; Coord 5 3]
           /\ walk (P := scenario_params) (enters_impassable blocked_square)
                   s p (Coord 3 3)
           /\ v = COST_IMPASSABLE * Z.of_nat (length p))
      /\ (forall s p,
            In s [Coord 1 3; Coord 3 1; Coord 3 5; Coord 5 3] ->
            walk (P := scenario_params) (enters_impassable blocked_square)
                 s p (Coord 3 3) ->
            exists v, at_coord out (Coord 3 3) = Finite v
                      /\ v <= COST_IMPASSABLE * Z.of_nat (length p))
  | None => False
  end.
Proof.
  destruct blocked_square_integration as [out|] eqn:Hrun.
  - apply (nonpass_integration_is_walk_length (P := scenario_params)
             (E := scenario_env) (Q := list_pqueue) 200
             [Coord 1 3; Coord 3 1; Coord 3 5; Coord 5 3]
             blocked_square (-1) out (Coord 3 3)).
    + intros s Hs. unfold in_bounds.
      repeat (destruct Hs as [<-|Hs]; [simpl; lia|]). destruct Hs.
    + exact Hrun.
    + unfold in_bounds. simpl. lia.
  - vm_compute in Hrun. discriminate.
Defined.

(** ** The passable frontier of an impassable island *)

Section PassableFrontier.

Context {P : nav_params}.

Variables (chunk : nav_chunk) (start : coord).

Lemma adjacent4_delta n curr :
  adjacent4 n curr ->
  exists d, In d bfs_deltas
            /\ n = Coord (coord_r curr + fst d) (coord_c curr + snd d).
Proof.
  unfold adjacent4, bfs_deltas. intros Hadj. destruct n as [r c]. simpl in *.
  assert (Hcase : (r = coord_r curr /\ c = coord_c curr - 1)
                  \/ (r = coord_r curr /\ c = coord_c curr + 1)
                  \/ (r = coord_r curr - 1 /\ c = coord_c curr)
                  \/ (r = coord_r curr + 1 /\ c = coord_c curr)) by lia.
  destruct Hcase as [[-> ->]|[[-> ->]|[[-> ->]|[-> ->]]]].
  - exists (0, -1). split; [simpl; auto|]. simpl. f_equal; lia.
  - exists (0, 1). split; [simpl; auto|]. simpl. f_equal; lia.
  - exists (-1, 0). split; [simpl; auto|]. simpl. f_equal; lia.
  - exists (1, 0). split; [simpl; auto 6|]. simpl. f_equal; lia.
Qed.

Lemma delta_adjacent4 curr d :
  In d bfs_deltas ->
  adjacent4 (Coord (coord_r curr + fst d) (coord_c curr + snd d)) curr.
Proof.
  unfold bfs_deltas, adjacent4. simpl.
  intros [<-|[<-|[<-|[<-|[]]]]]; simpl; lia.
Qed.

(** What one step of the [for] loop over [deltas] does. *)
Lemma bfs_visit_cases curr visited q d visited' q' :
  bfs_visit curr (Some (visited, q)) d = Some (visited', q') ->
  let n := Coord (coord_r curr + fst d) (coord_c curr + snd d) in
  (in_bounds n /\ at_coord visited n = false
   /\ visited' = upd visited (coord_r n) (coord_c n) true
   /\ q' = q ++ [n])
  \/ ((~ in_bounds n \/ at_coord visited n = true)
      /\ visited' = visited /\ q' = q).
Proof.
  unfold bfs_visit. cbv zeta.
  set (n := Coord (coord_r curr + fst d) (coord_c curr + snd d)).
  destruct ((coord_r n <? 0) || (coord_r n >=? FIELD_RES_R)) eqn:B1.
  { intros H; injection H as <- <-. right. split; [|auto].
    left. unfold in_bounds. boolp. lia. }
  destruct ((coord_c n <? 0) || (coord_c n >=? FIELD_RES_C)) eqn:B2.
  { intros H; injection H as <- <-. right. split; [|auto].
    left. unfold in_bounds. boolp. lia. }
  destruct (visited (coord_r n) (coord_c n)) eqn:Hv.
  { intros H; injection H as <- <-. right. split; [|auto]. right. exact Hv. }
  destruct (qpush q n) as [q1|] eqn:Hpush; [|discriminate].
  intros H; injection H as <- <-. left.
  unfold qpush in Hpush.
  destruct (Z.of_nat (length q) <? FIELD_RES_R * FIELD_RES_C);
    [|discriminate].
  injection Hpush as <-.
  split; [unfold in_bounds; boolp; lia|]. split; [exact Hv|]. auto.
Qed.

(** The whole [for] loop: it appends the unmarked neighbours of [curr],
    marks them, and leaves every neighbour inside the field marked. *)
Lemma bfs_visit_fold_cases curr ds visited q visited' q' :
  (forall d, In d ds -> In d bfs_deltas) ->
  fold_left (bfs_visit curr) ds (Some (visited, q)) = Some (visited', q') ->
  exists added,
    q' = q ++ added /\ NoDup added
    /\ (forall n, In n added ->
          in_bounds n /\ adjacent4 n curr /\ at_coord visited n = false)
    /\ (forall t, at_coord visited' t = true <->
                  at_coord visited t = true \/ In t added)
    /\ forall d, In d ds ->
         in_bounds (Coord (coord_r curr + fst d) (coord_c curr + snd d)) ->
         at_coord visited'
           (Coord (coord_r curr + fst d) (coord_c curr + snd d)) = true.
Proof.
  revert visited q. induction ds as [|d ds IH]; intros visited q Hds;
    cbn [fold_left].
  - intros H; injection H as <- <-. exists []. rewrite app_nil_r.
    split; [reflexivity|]. split; [constructor|]. split; [intros n []|].
    split; [intros t; simpl; tauto|]. intros d [].
  - intros Hfold.
    destruct (bfs_visit curr (Some (visited, q)) d) as [[v1 q1]|] eqn:Hstep.
    2:{ exfalso. clear -Hfold. induction ds as [|d' ds IHds];
          cbn [fold_left] in Hfold; [discriminate|].
        apply IHds. exact Hfold. }
    destruct (IH v1 q1) as (added & Hq' & Hnd & Hadd & Hv' & Hall);
      [intros d' Hd'; apply Hds; right; exact Hd' | exact Hfold |].
    pose proof (delta_adjacent4 curr d (Hds d (or_introl eq_refl))) as Hadj.
    destruct (bfs_visit_cases _ _ _ _ _ _ Hstep)
      as [(Hn & Hvn & -> & ->)|(Hskip & -> & ->)].
    + set (n := Coord (coord_r curr + fst d) (coord_c curr + snd d)) in *.
      assert (Hmark : forall t,
                at_coord (upd visited (coord_r n) (coord_c n) true) t = true
                <-> at_coord visited t = true \/ t = n).
      { intros t. destruct (coord_eq_dec t n) as [->|Hne].
        - rewrite at_coord_upd_same. split; auto.
        - rewrite at_coord_upd_other by exact Hne. intuition congruence. }
      exists (n :: added). rewrite <- app_assoc in Hq'.
      split; [exact Hq'|]. split.
      { constructor; [|exact Hnd]. intros Hin.
        destruct (Hadd n Hin) as (_ & _ & Hf).
        rewrite at_coord_upd_same in Hf. discriminate. }
      split.
      { intros t [<-|Ht]; [auto|].
        destruct (Hadd t Ht) as (Hb & Ha & Hf). split; [exact Hb|].
        split; [exact Ha|].
        destruct (at_coord visited t) eqn:Hvt; [|reflexivity].
        rewrite (proj2 (Hmark t) (or_introl Hvt)) in Hf. discriminate. }
      split.
      { intros t. rewrite Hv', Hmark. simpl. intuition auto. }
      intros d' [<-|Hd'] Hb; [|apply Hall; assumption].
      apply Hv'. left. apply at_coord_upd_same.
    + exists added. split; [exact Hq'|]. split; [exact Hnd|].
      split; [exact Hadd|]. split; [exact Hv'|].
      intros d' [<-|Hd'] Hb; [|apply Hall; assumption].
      apply Hv'. left. destruct Hskip as [Hnb|Hvis]; [contradiction|exact Hvis].
Qed.

Lemma enters_impassable_false t :
  enters_impassable chunk t = true -> field_tile_passable chunk t = false.
Proof.
  unfold enters_impassable. destruct (field_tile_passable chunk t);
    [discriminate|reflexivity].
Qed.

Lemma bfs_inv_init :
  in_bounds start -> field_tile_passable chunk start = false ->
  bfs_inv chunk start
    (upd (fun _ _ => false) (coord_r start) (coord_c start) true) [start] [].
Proof.
  intros Hs Hp.
  assert (Hv : forall t,
            at_coord (upd (fun _ _ => false) (coord_r start) (coord_c start)
                          true) t = true -> t = start).
  { intros t Ht. destruct (coord_eq_dec t start) as [->|Hne]; [reflexivity|].
    rewrite at_coord_upd_other in Ht by exact Hne. discriminate. }
  split; [cbn; constructor; [intros []|constructor]|].
  split; [intros t [<-|[]]; apply at_coord_upd_same|].
  split.
  { intros t Ht. apply Hv in Ht. subst t. split; [exact Hs|].
    unfold bfs_touch. rewrite Hp. exists []. reflexivity. }
  split; [intros t Ht; left; left; symmetry; apply Hv; exact Ht|].
  split; [intros t []|apply at_coord_upd_same].
Qed.

(** With the queue empty every tile next to the island is marked. *)
Lemma bfs_inv_closed visited out :
  bfs_inv chunk start visited [] out ->
  field_tile_passable chunk start = false ->
  forall t, in_bounds t -> borders_island chunk start t ->
    at_coord visited t = true.
Proof.
  intros (_ & _ & _ & Hset & _ & Hstart) Hp.
  assert (Hnb : forall s, at_coord visited s = true ->
            field_tile_passable chunk s = false ->
            forall n, in_bounds n -> adjacent4 n s ->
              at_coord visited n = true).
  { intros s Hs Hps. destruct (Hset s Hs) as [[]|[[Hc _]|[_ Hall]]];
      [congruence|exact Hall]. }
  assert (Hwalk : forall p s u, at_coord visited s = true ->
            field_tile_passable chunk s = false ->
            walk (enters_impassable chunk) s p u ->
            at_coord visited u = true
            /\ field_tile_passable chunk u = false).
  { induction p as [|x p IH]; intros s u Hs Hps; cbn [walk].
    - intros <-. auto.
    - intros (Hx & Hadj & Hok & Hw).
      apply (IH x u); [|apply enters_impassable_false; exact Hok|exact Hw].
      apply (Hnb s Hs Hps x Hx Hadj). }
  intros t Ht (u & [p Hp'] & Hadj).
  destruct (Hwalk p start u Hstart Hp Hp') as [Hu Hpu].
  apply (Hnb u Hu Hpu t Ht Hadj).
Qed.

Lemma passable_frontier_loop_spec fuel visited q out maxout res :
  field_tile_passable chunk start = false ->
  bfs_inv chunk start visited q out ->
  passable_frontier_loop fuel chunk visited q out maxout = Some res ->
  NoDup res
  /\ (forall t, In t res ->
        in_bounds t /\ field_tile_passable chunk t = true
        /\ borders_island chunk start t)
  /\ (Z.of_nat (length out) < maxout -> Z.of_nat (length res) <= maxout)
  /\ (Z.of_nat (length res) <> maxout ->
      forall t, in_bounds t -> field_tile_passable chunk t = true ->
        borders_island chunk start t -> In t res).
Proof.
  intros Hstart. revert visited q out.
  assert (Hsound : forall visited q out,
            bfs_inv chunk start visited q out ->
            NoDup out
            /\ forall t, In t out ->
                 in_bounds t /\ field_tile_passable chunk t = true
                 /\ borders_island chunk start t).
  { intros visited q out (Hnd & Hvis & Htouch & _ & Hpass & _). split.
    - apply NoDup_app_remove_r in Hnd. exact Hnd.
    - intros t Ht. pose proof (Hpass t Ht) as Hp.
      destruct (Htouch t (Hvis t (in_or_app _ _ _ (or_introl Ht))))
        as [Hb Ht'].
      unfold bfs_touch in Ht'. rewrite Hp in Ht'. auto. }
  induction fuel as [|fuel IH]; intros visited q out Hinv;
    cbn [passable_frontier_loop]; [discriminate|].
  destruct q as [|curr q1]; cbn [qpop].
  - intros H; injection H as <-.
    destruct (Hsound _ _ _ Hinv) as [Hnd Hs].
    split; [exact Hnd|]. split; [exact Hs|]. split; [lia|].
    intros _ t Ht Hp Hb.
    pose proof (bfs_inv_closed visited out Hinv Hstart t Ht Hb) as Hv.
    destruct Hinv as (_ & _ & _ & Hset & _).
    destruct (Hset t Hv) as [[]|[[_ Hin]|[Hc _]]]; [exact Hin|congruence].
  - destruct Hinv as (Hnd & Hvis & Htouch & Hset & Hpass & Hst).
    destruct (field_tile_passable chunk curr) eqn:Hpc.
    + assert (Hinv' : bfs_inv chunk start visited q1 (out ++ [curr])).
      { split; [rewrite <- app_assoc; exact Hnd|].
        split; [intros t Ht; apply Hvis; rewrite <- app_assoc in Ht;
                exact Ht|].
        split; [exact Htouch|]. split.
        - intros t Ht. destruct (Hset t Ht) as [[<-|Hq]|[[Hp Hin]|Himp]].
          + right. left. split; [exact Hpc|].
            apply in_or_app. right. left. reflexivity.
          + left. exact Hq.
          + right. left. split; [exact Hp|]. apply in_or_app. left. exact Hin.
          + right. right. exact Himp.
        - split; [|exact Hst]. intros t Ht. apply in_app_or in Ht.
          destruct Ht as [Ht|[<-|[]]]; [apply Hpass; exact Ht | exact Hpc]. }
      destruct (Z.eqb_spec (Z.of_nat (length (out ++ [curr]))) maxout)
        as [Heq|Hne].
      * intros H; injection H as <-.
        destruct (Hsound _ _ _ Hinv') as [Hnd' Hs'].
        split; [exact Hnd'|]. split; [exact Hs'|]. split; [lia|].
        intros Hc. contradiction.
      * intros Hrun.
        destruct (IH _ _ _ Hinv' Hrun) as (R1 & R2 & R3 & R4).
        split; [exact R1|]. split; [exact R2|]. split; [|exact R4].
        intros Hlt. apply R3. rewrite length_app in *. cbn [length] in *. lia.
    + destruct (fold_left (bfs_visit curr) bfs_deltas (Some (visited, q1)))
        as [[visited' q2]|] eqn:Hfold; [|discriminate].
      destruct (bfs_visit_fold_cases curr bfs_deltas visited q1 visited' q2)
        as (added & -> & Hnda & Hadd & Hv' & Hall); [auto|exact Hfold|].
      assert (Hcv : at_coord visited curr = true)
        by (apply Hvis, in_or_app; right; left; reflexivity).
      assert (Hreach : island_reach chunk start curr).
      { destruct (Htouch curr Hcv) as [_ Ht]. unfold bfs_touch in Ht.
        rewrite Hpc in Ht. exact Ht. }
      intros Hrun. apply (IH visited' (q1 ++ added) out); [|exact Hrun].
      split.
      { rewrite app_assoc. apply NoDup_app.
        - apply NoDup_remove_1 in Hnd. exact Hnd.
        - exact Hnda.
        - intros t Ht Hta. destruct (Hadd t Hta) as (_ & _ & Hf).
          rewrite Hvis in Hf; [discriminate|].
          apply in_app_or in Ht. apply in_or_app.
          destruct Ht as [Ht|Ht]; [left; exact Ht|right; right; exact Ht]. }
      split.
      { intros t Ht. apply Hv'. rewrite app_assoc in Ht.
        apply in_app_or in Ht. destruct Ht as [Ht|Ht]; [|right; exact Ht].
        left. apply Hvis. apply in_app_or in Ht. apply in_or_app.
        destruct Ht as [Ht|Ht]; [left; exact Ht|right; right; exact Ht]. }
      split.
      { intros t Ht. apply Hv' in Ht. destruct Ht as [Ht|Ht];
          [apply Htouch; exact Ht|].
        destruct (Hadd t Ht) as (Hb & Hadj & _). split; [exact Hb|].
        unfold bfs_touch.
        destruct (field_tile_passable chunk t) eqn:Hpt.
        - exists curr. split; [exact Hreach|exact Hadj].
        - destruct Hreach as [p Hp]. exists (p ++ [t]).
          apply (walk_snoc _ start p curr t); auto.
          unfold enters_impassable. rewrite Hpt. reflexivity. }
      split.
      { intros t Ht. apply Hv' in Ht. destruct Ht as [Ht|Ht].
        - destruct (Hset t Ht) as [[<-|Hq]|[[Hp Hin]|[Hp Hn]]].
          + right. right. split; [exact Hpc|]. intros n Hn Hadj.
            destruct (adjacent4_delta n curr Hadj) as (d & Hd & ->).
            apply Hall; assumption.
          + left. apply in_or_app. left. exact Hq.
          + right. left. auto.
          + right. right. split; [exact Hp|]. intros n Hnb Hadj.
            apply Hv'. left. apply Hn; assumption.
        - left. apply in_or_app. right. exact Ht. }
      split; [exact Hpass|]. apply Hv'. left. exact Hst.
Qed.

Lemma passable_frontier_run fuel maxout res :
  in_bounds start ->
  field_passable_frontier fuel chunk start maxout = Some res ->
  field_tile_passable chunk start = false
  /\ NoDup res
  /\ (forall t, In t res ->
        in_bounds t /\ field_tile_passable chunk t = true
        /\ borders_island chunk start t)
  /\ (0 < maxout -> Z.of_nat (length res) <= maxout)
  /\ (Z.of_nat (length res) <> maxout ->
      forall t, in_bounds t -> field_tile_passable chunk t = true ->
        borders_island chunk start t -> In t res).
Proof.
  intros Hs. unfold field_passable_frontier.
  destruct (field_tile_passable chunk start) eqn:Hp; [discriminate|].
  unfold qpush. cbn [length app].
  destruct (Z.of_nat 0 <? FIELD_RES_R * FIELD_RES_C); [|discriminate].
  intros Hrun. split; [reflexivity|].
  apply (passable_frontier_loop_spec fuel _ _ _ _ _ Hp
           (bfs_inv_init Hs Hp) Hrun).
Qed.

(** Distinct passable tiles leave room for the impassable [start]. *)
Lemma frontier_below_field_size res :
  in_bounds start -> field_tile_passable chunk start = false ->
  NoDup res ->
  (forall t, In t res -> in_bounds t /\ field_tile_passable chunk t = true) ->
  Z.of_nat (length res) < FIELD_RES_R * FIELD_RES_C.
Proof.
  intros Hs Hp Hnd Hres.
  assert (Hnd' : NoDup (start :: res)).
  { constructor; [|exact Hnd]. intros Hin.
    destruct (Hres start Hin) as [_ Hc]. congruence. }
  assert (Hincl : incl (start :: res) (grid FIELD_RES_R FIELD_RES_C)).
  { intros t [<-|Ht]; apply in_grid; [exact Hs|].
    destruct (Hres t Ht) as [Hb _]. exact Hb. }
  pose proof (NoDup_incl_length Hnd' Hincl) as Hlen.
  rewrite length_grid in Hlen. cbn [length] in Hlen.
  unfold in_bounds in Hs. nia.
Qed.

End PassableFrontier.

(** X6. [field_passable_frontier] asserts that [start] is impassable and
    then returns, each once, passable tiles of the field that lie next to
    the island of impassable tiles around [start]; it returns at most
    [maxout] of them, and all of them when it stops short of [maxout], as
    it does when [maxout] is the number of tiles of the field. *)
Theorem passable_frontier_is_island_border {P : nav_params} fuel chunk start
    maxout res :
  in_bounds start ->
  field_passable_frontier fuel chunk start maxout = Some res ->
  field_tile_passable chunk start = false
  /\ NoDup res
  /\ (forall t, In t res ->
        in_bounds t /\ field_tile_passable chunk t = true
        /\ borders_island chunk start t)
  /\ (0 < maxout -> Z.of_nat (length res) <= maxout)
  /\ (Z.of_nat (length res) <> maxout \/ maxout = FIELD_RES_R * FIELD_RES_C ->
      forall t, in_bounds t -> field_tile_passable chunk t = true ->
        borders_island chunk start t -> In t res).
Proof.
  intros Hs Hrun.
  destruct (passable_frontier_run chunk start fuel maxout res Hs Hrun)
    as (Hp & R1 & R2 & R3 & R4).
  split; [exact Hp|]. split; [exact R1|]. split; [exact R2|].
  split; [exact R3|].
  intros [Hne|Hmax]; [exact (R4 Hne)|]. apply R4. subst maxout.
  pose proof (frontier_below_field_size chunk start res Hs Hp R1) as Hlt.
  assert (Hres : forall t, In t res ->
            in_bounds t /\ field_tile_passable chunk t = true)
    by (intros t Ht; destruct (R2 t Ht) as (Hb & Hpt & _); auto).
  specialize (Hlt Hres). lia.
Qed.

(** The blocked square, searched from its middle with room for all 64
    tiles: the twelve tiles along its sides come back. *)
Lemma passable_frontier_is_island_border_witness :
  match blocked_square_frontier with
  | Some res =>
      field_tile_passable blocked_square (Coord 3 3) = false
      /\ NoDup res
      /\ (forall t, In t res ->
            in_bounds (P := scenario_params) t
            /\ field_tile_passable blocked_square t = true
            /\ borders_island (P := scenario_params) blocked_square
                 (Coord 3 3) t)
      /\ (0 < 64 -> Z.of_nat (length res) <= 64)
      /\ (Z.of_nat (length res) <> 64
          \/ 64 = FIELD_RES_R (nav_params := scenario_params)
                  * FIELD_RES_C (nav_params := scenario_params) ->
          forall t, in_bounds (P := scenario_params) t ->
            field_tile_passable blocked_square t = true ->
            borders_island (P := scenario_params) blocked_square
              (Coord 3 3) t ->
            In t res)
  | None => False
  end.
Proof.
  destruct blocked_square_frontier as [res|] eqn:Hrun.
  - apply (passable_frontier_is_island_border (P := scenario_params) 200
             blocked_square (Coord 3 3) 64 res); [|exact Hrun].
    unfold in_bounds. simpl. lia.
  - vm_compute in Hrun. discriminate.
Defined.

(** ** Leading out of an impassable island *)

Section NearestPathable.

Context {P : nav_params} {E : nav_env} {Q : PQueue}.

Variable chunk : nav_chunk.

Lemma walk_end ok s p t :
  in_bounds s -> ok s = true -> walk ok s p t ->
  in_bounds t /\ ok t = true.
Proof.
  revert s. induction p as [|x p IH]; intros s Hs Hok; cbn [walk].
  - intros <-. auto.
  - intros (Hx & _ & Hokx & Hw). apply (IH x); assumption.
Qed.

Lemma walk_app ok s p u p' t :
  walk ok s p u -> walk ok u p' t -> walk ok s (p ++ p') t.
Proof.
  revert s. induction p as [|x p IH]; intros s; cbn [walk app].
  - intros <- Hw. exact Hw.
  - intros (Hx & Hadj & Hok & Hw) Hw'.
    split; [exact Hx|]. split; [exact Hadj|]. split; [exact Hok|].
    apply IH; assumption.
Qed.

Lemma walk_sym ok s p t :
  in_bounds s -> ok s = true -> walk ok s p t ->
  exists p', walk ok t p' s.
Proof.
  revert s. induction p as [|x p IH]; intros s Hs Hok; cbn [walk].
  - intros <-. exists []. reflexivity.
  - intros (Hx & Hadj & Hokx & Hw).
    destruct (IH x Hx Hokx Hw) as [p' Hp'].
    exists (p' ++ [s]). apply (walk_snoc ok t p' x s); auto.
    apply adjacent4_sym. exact Hadj.
Qed.

(** From a tile next to the island every tile of the island is reached
    over impassable tiles. *)
Lemma island_walk_from_border start b u :
  in_bounds start -> field_tile_passable chunk start = false ->
  borders_island chunk start b -> island_reach chunk start u ->
  exists p, walk (enters_impassable chunk) b p u.
Proof.
  intros Hs Hp (u0 & [p0 Hp0] & Hadj) [p Hpu].
  assert (Hoks : enters_impassable chunk start = true)
    by (unfold enters_impassable; rewrite Hp; reflexivity).
  destruct (walk_end _ _ _ _ Hs Hoks Hp0) as [Hu0 Hoku0].
  destruct (walk_sym _ _ _ _ Hs Hoks Hp0) as [p0' Hp0'].
  exists (u0 :: p0' ++ p). cbn [walk].
  split; [exact Hu0|]. split; [apply adjacent4_sym; exact Hadj|].
  split; [exact Hoku0|]. apply (walk_app _ u0 p0' start p u); assumption.
Qed.

Lemma integration_relax_nonpass_fold_progress curr l st :
  (forall nb, In nb l ->
     in_bounds (fst nb)
     /\ (field_tile_passable chunk (fst nb) = false -> 0 <= snd nb)) ->
  nonneg_field (snd st) ->
  relax_progress st (fold_left (integration_relax_nonpass chunk curr) l st)
  /\ nonneg_field
       (snd (fold_left (integration_relax_nonpass chunk curr) l st)).
Proof.
  revert st. induction l as [|[n cost] l IH]; intros st Hl Hnn.
  - split; [left; auto | exact Hnn].
  - cbn [fold_left].
    destruct (Hl (n, cost) (or_introl eq_refl)) as [Hn Hcost].
    cbn [fst snd] in Hn, Hcost.
    assert (Hl' : forall nb, In nb l ->
              in_bounds (fst nb)
              /\ (field_tile_passable chunk (fst nb) = false -> 0 <= snd nb))
      by (intros nb Hnb; apply Hl; right; exact Hnb).
    unfold integration_relax_nonpass at 2 4. cbn [fst].
    destruct (field_tile_passable chunk n) eqn:Hp; [apply IH; assumption|].
    destruct (integration_relax_progress curr st n cost Hn (Hcost eq_refl)
                Hnn) as [Hp1 Hnn1].
    destruct (IH (integration_relax curr st (n, cost)) Hl' Hnn1)
      as [Hp2 Hnn2].
    split; [eapply relax_progress_trans; eauto | exact Hnn2].
Qed.

(** [field_build_integration_nonpass] returns once it has enough fuel. *)
Lemma field_build_integration_nonpass_terminates faction_id :
  forall a b c q inout,
    inf_count inout = a -> value_sum inout = b ->
    length (pq_entries q) = c -> nonneg_field inout ->
    exists fuel0, forall fuel, (fuel0 <= fuel)%nat ->
      exists out,
        field_build_integration_nonpass fuel q chunk faction_id inout
        = Some out.
Proof.
  intros a. induction a as [a IHa] using lt_wf_ind.
  intros b. induction b as [b IHb] using lt_wf_ind.
  intros c. induction c as [c IHc] using lt_wf_ind.
  intros q inout Ha Hb Hc Hnn.
  destruct (pq_size q >? 0) eqn:Hsize.
  2:{ exists 1%nat. intros [|fuel] Hf; [lia|].
      cbn [field_build_integration_nonpass]. rewrite Hsize. eauto. }
  destruct (pq_pop_nonempty _ Hsize) as (curr & q1 & Hpop).
  destruct (pq_pop_some _ _ _ Hpop) as (p & Hperm & _).
  apply Permutation_length in Hperm. simpl in Hperm.
  destruct (integration_relax_nonpass_fold_progress curr
              (field_neighbours_grid chunk curr false faction_id) (q1, inout))
    as [Hp Hnn2].
  { intros nb Hnb.
    destruct (neighbours_grid_step chunk faction_id _ _ _ Hnb)
      as (Hn & _ & ->).
    split; [exact Hn|]. intros Himp.
    rewrite step_cost_impassable; [unfold COST_IMPASSABLE; lia|].
    unfold enters_impassable. rewrite Himp. reflexivity. }
  { exact Hnn. }
  destruct (fold_left (integration_relax_nonpass chunk curr)
              (field_neighbours_grid chunk curr false faction_id) (q1, inout))
    as [q2 inout2] eqn:Hfold.
  simpl in Hp, Hnn2.
  assert (Hrec : exists fuel0, forall fuel, (fuel0 <= fuel)%nat ->
            exists out,
              field_build_integration_nonpass fuel q2 chunk faction_id inout2
              = Some out).
  { destruct Hp as [[HI Hq]|[Hlow|[Hsame Hlow]]]; simpl in *.
    - subst inout2 q2. apply (IHc (length (pq_entries q1))); auto. lia.
    - apply (IHa (inf_count inout2) ltac:(lia) (value_sum inout2)
               (length (pq_entries q2))); auto.
    - apply (IHb (value_sum inout2) ltac:(lia) (length (pq_entries q2)));
        auto. lia. }
  destruct Hrec as [f2 Hf2]. exists (S f2). intros [|fuel] Hf; [lia|].
  cbn [field_build_integration_nonpass]. rewrite Hsize, Hpop, Hfold.
  apply Hf2. lia.
Qed.

Lemma nearest_flow_loop_total intf tiles dirs :
  FIELD_RES_C <= FIELD_RES_R ->
  supported (fun _ _ => True) intf ->
  (forall t, In t tiles -> in_bounds t) ->
  exists dirs', nearest_flow_loop intf tiles dirs = Some dirs'.
Proof.
  intros Hle Hsup. revert dirs.
  induction tiles as [|t tiles IH]; intros dirs Hin; cbn [nearest_flow_loop].
  - eauto.
  - assert (Hin' : forall t', In t' tiles -> in_bounds t')
      by (intros t' Ht'; apply Hin; right; exact Ht').
    fold (at_coord intf t).
    destruct (feqb (at_coord intf t) PosInf) eqn:Hinf; [apply IH; exact Hin'|].
    destruct (feqb (at_coord intf t) (Finite 0)) eqn:Hzero;
      [apply IH; exact Hin'|].
    destruct (at_coord intf t) as [v|] eqn:Hv; [|discriminate].
    assert (Hv0 : v <> 0).
    { intros ->. simpl in Hzero. discriminate. }
    destruct (Hsup t v (Hin t (or_introl eq_refl)) Hv Hv0)
      as (n & w & Hn & Hadj & Hw & _).
    destruct (field_flow_dir_total intf t Hle) as (d & Hd & _).
    { apply (finite_neighbour_min_cost intf t n); auto.
      - apply Hin. left; reflexivity.
      - exists w. exact Hw. }
    rewrite Hd. apply IH. exact Hin'.
Qed.

Lemma passable_frontier_loop_fuel_mono fuel fuel' visited q out maxout res :
  (fuel <= fuel')%nat ->
  passable_frontier_loop fuel chunk visited q out maxout = Some res ->
  passable_frontier_loop fuel' chunk visited q out maxout = Some res.
Proof.
  revert fuel' visited q out.
  induction fuel as [|fuel IH]; intros fuel' visited q out Hle;
    cbn [passable_frontier_loop]; [discriminate|].
  destruct fuel' as [|fuel']; [lia|]. cbn [passable_frontier_loop].
  destruct (qpop q) as [[curr q1]|]; [|auto].
  destruct (field_tile_passable chunk curr).
  - destruct (Z.of_nat (length (out ++ [curr])) =? maxout); [auto|].
    apply IH. lia.
  - destruct (fold_left (bfs_visit curr) bfs_deltas (Some (visited, q1)))
      as [[visited' q2]|]; [|discriminate].
    apply IH. lia.
Qed.

Lemma passable_frontier_fuel_mono fuel fuel' start maxout res :
  (fuel <= fuel')%nat ->
  field_passable_frontier fuel chunk start maxout = Some res ->
  field_passable_frontier fuel' chunk start maxout = Some res.
Proof.
  intros Hle. unfold field_passable_frontier.
  destruct (field_tile_passable chunk start); [discriminate|].
  destruct (qpush [] start); [|discriminate].
  apply passable_frontier_loop_fuel_mono. exact Hle.
Qed.

(** What is known of a run of [N_FlowFieldUpdateToNearestPathable]. *)
Lemma nearest_pathable_run fuel start faction_id inout_flow intf flow :
  in_bounds start ->
  N_FlowFieldUpdateToNearestPathable_run fuel chunk start faction_id
                                         inout_flow = Some (intf, flow) ->
  exists seeds,
    field_passable_frontier fuel chunk start (FIELD_RES_R * FIELD_RES_C)
    = Some seeds
    /\ field_build_integration_nonpass fuel
         (fst (seed_frontier seeds (pq_coord_init, all_infinite)))
         chunk faction_id
         (snd (seed_frontier seeds (pq_coord_init, all_infinite)))
       = Some intf
    /\ nearest_flow_loop intf (grid FIELD_RES_R FIELD_RES_C)
                         (dir_idx inout_flow) = Some (dir_idx flow).
Proof.
  intros Hs. unfold N_FlowFieldUpdateToNearestPathable_run.
  destruct (field_passable_frontier fuel chunk start
              (FIELD_RES_R * FIELD_RES_C)) as [seeds|]; [|discriminate].
  destruct (seed_frontier seeds (pq_coord_init, all_infinite)) as [q0 I0]
    eqn:Hsf.
  destruct (field_build_integration_nonpass fuel q0 chunk faction_id I0)
    as [I|] eqn:Hint; [|discriminate].
  destruct (nearest_flow_loop I (grid FIELD_RES_R FIELD_RES_C)
              (dir_idx inout_flow)) as [dirs1|] eqn:Hflow; [|discriminate].
  intros H; injection H as <- <-. exists seeds. rewrite Hsf.
  split; [reflexivity|]. split; [exact Hint|exact Hflow].
Qed.

End NearestPathable.

(** X7. [N_FlowFieldUpdateToNearestPathable] never changes the direction of
    a passable tile; and when some passable tile of the field lies next to
    the island of impassable tiles around [start], every tile of that
    island ends up with a finite, positive integration value and a
    direction other than [FD_NONE]. *)
Theorem nearest_pathable_leads_out {P : nav_params} {E : nav_env} {Q : PQueue}
    fuel chunk start faction_id inout_flow intf flow :
  in_bounds start ->
  N_FlowFieldUpdateToNearestPathable_run fuel chunk start faction_id
                                         inout_flow = Some (intf, flow) ->
  (forall t, field_tile_passable chunk t = true ->
     at_coord (dir_idx flow) t = at_coord (dir_idx inout_flow) t)
  /\ (forall b u, in_bounds b -> field_tile_passable chunk b = true ->
        borders_island chunk start b -> island_reach chunk start u ->
        at_coord (dir_idx flow) u <> FD_NONE
        /\ exists v, at_coord intf u = Finite v /\ 0 < v).
Proof.
  intros Hs Hrun.
  destruct (nearest_pathable_run chunk fuel start faction_id inout_flow intf
              flow Hs Hrun) as (seeds & Hseeds & Hint & Hflow).
  destruct (passable_frontier_run chunk start fuel _ seeds Hs Hseeds)
    as (Hp & Hnd & Hsound & _ & Hcomplete).
  assert (Hsb : forall s, In s seeds -> in_bounds s)
    by (intros s Hin; destruct (Hsound s Hin) as [Hb _]; exact Hb).
  assert (Hsp : forall s, In s seeds ->
            in_bounds s /\ field_tile_passable chunk s = true)
    by (intros s Hin; destruct (Hsound s Hin) as (Hb & Hpt & _); auto).
  pose proof (frontier_below_field_size chunk start seeds Hs Hp Hnd Hsp)
    as Hlt.
  destruct (build_integration_nonpass_walks chunk faction_id seeds Hsb fuel
              intf Hint) as (Hnn & Hz & _ & Htight & Hwalks).
  split.
  - intros t Hpt.
    destruct (nearest_flow_loop_spec _ _ _ _ Hflow t) as [Hin Hout].
    destruct (in_dec coord_eq_dec t (grid FIELD_RES_R FIELD_RES_C))
      as [Ht|Ht]; [|apply Hout; exact Ht].
    specialize (Hin Ht). apply in_grid in Ht.
    unfold nearest_cell_ok in Hin.
    destruct (at_coord intf t) as [v|] eqn:Hv; [|exact Hin].
    destruct (Z.eqb_spec v 0) as [_|Hv0]; [exact Hin|].
    destruct (Htight t Ht v Hv Hv0) as [Hok _].
    unfold enters_impassable in Hok. rewrite Hpt in Hok. discriminate.
  - intros b u Hb Hpb Hbord Hreach.
    assert (Hbs : In b seeds) by (apply Hcomplete; auto; lia).
    destruct (island_walk_from_border chunk start b u Hs Hp Hbord Hreach)
      as [p Hp'].
    assert (Hoks : enters_impassable chunk start = true)
      by (unfold enters_impassable; rewrite Hp; reflexivity).
    destruct Hreach as [pu Hpu].
    destruct (walk_end _ _ _ _ Hs Hoks Hpu) as [Hu Hoku].
    destruct (Hwalks u Hu) as [_ Hto].
    destruct (Hto b p Hbs Hp') as (v & Hv & _).
    assert (Hv0 : v <> 0).
    { intros ->. apply Hz in Hv. destruct (Hsp u Hv) as [_ Hc].
      unfold enters_impassable in Hoku. rewrite Hc in Hoku. discriminate. }
    pose proof (Hnn u v Hv) as Hvnn.
    split; [|exists v; split; [exact Hv|lia]].
    destruct (nearest_flow_loop_spec _ _ _ _ Hflow u) as [Hin _].
    specialize (Hin (proj2 (in_grid _ _ u) Hu)).
    unfold nearest_cell_ok in Hin. rewrite Hv in Hin.
    destruct (Z.eqb_spec v 0) as [Hc|_]; [contradiction|].
    destruct (field_flow_dir_some _ _ _ Hin) as (_ & _ & Hd & _).
    intros Hnone. rewrite Hnone in Hd. unfold pick_order in Hd.
    simpl in Hd. intuition discriminate.
Qed.

(** The blocked square: the tile (0,0) keeps its direction, the middle
    (3,3) gets one. *)
Lemma nearest_pathable_leads_out_witness :
  match blocked_square_stale_run with
  | Some (intf, flow) =>
      (forall t, field_tile_passable blocked_square t = true ->
         at_coord (dir_idx flow) t = at_coord (dir_idx stale_flow) t)
      /\ (forall b u, in_bounds (P := scenario_params) b ->
            field_tile_passable blocked_square b = true ->
            borders_island (P := scenario_params) blocked_square
              (Coord 3 3) b ->
            island_reach (P := scenario_params) blocked_square (Coord 3 3) u ->
            at_coord (dir_idx flow) u <> FD_NONE
            /\ exists v, at_coord intf u = Finite v /\ 0 < v)
  | None => False
  end.
Proof.
  destruct blocked_square_stale_run as [[intf flow]|] eqn:Hrun.
  - apply (nearest_pathable_leads_out (P := scenario_params)
             (E := scenario_env) (Q := list_pqueue) 200 blocked_square
             (Coord 3 3) (-1) stale_flow intf flow); [|exact Hrun].
    unfold in_bounds. simpl. lia.
  - vm_compute in Hrun. discriminate.
Defined.

(** X8. [N_FlowFieldUpdateToNearestPathable] fails its first assertion
    when [start] is passable; from an impassable [start] inside a field at
    least as tall as wide it returns once it has enough fuel: the search
    and the integration loop end and no assertion fires. *)
Theorem nearest_pathable_returns {P : nav_params} {E : nav_env} {Q : PQueue}
    chunk start faction_id inout_flow :
  in_bounds start ->
  (field_tile_passable chunk start = true ->
   forall fuel,
     N_FlowFieldUpdateToNearestPathable fuel chunk start faction_id
                                        inout_flow = None)
  /\ (field_tile_passable chunk start = false ->
      FIELD_RES_C <= FIELD_RES_R ->
      exists fuel0, forall fuel, (fuel0 <= fuel)%nat ->
        exists flow,
          N_FlowFieldUpdateToNearestPathable fuel chunk start faction_id
                                             inout_flow = Some flow).
Proof.
  intros Hs. split.
  - intros Hp fuel.
    unfold N_FlowFieldUpdateToNearestPathable,
      N_FlowFieldUpdateToNearestPathable_run, field_passable_frontier.
    rewrite Hp. reflexivity.
  - intros Hp Hle.
    set (f1 := S (Z.to_nat (FIELD_RES_R * FIELD_RES_C))).
    destruct (passable_frontier_terminates f1 chunk start
                (FIELD_RES_R * FIELD_RES_C) Hs Hp) as [seeds Hseeds].
    { unfold f1. unfold in_bounds in Hs. nia. }
    assert (Hsb : forall t, In t seeds -> in_bounds t).
    { intros t Ht. eapply passable_frontier_out; eauto. }
    pose proof (seed_frontier_inv (fun _ _ => True) seeds Hsb) as Hinv.
    pose proof (seed_frontier_nonneg seeds Hsb) as Hnn.
    destruct (seed_frontier seeds (pq_coord_init, all_infinite)) as [q0 I0]
      eqn:Hsf.
    cbn [snd] in Hnn.
    destruct (field_build_integration_nonpass_terminates chunk faction_id
                _ _ _ q0 I0 eq_refl eq_refl eq_refl Hnn) as [f2 Hf2].
    exists (Nat.max f1 f2). intros fuel Hfuel.
    unfold N_FlowFieldUpdateToNearestPathable,
      N_FlowFieldUpdateToNearestPathable_run.
    rewrite (passable_frontier_fuel_mono chunk f1 fuel start _ seeds
               ltac:(lia) Hseeds).
    rewrite Hsf.
    destruct (Hf2 fuel ltac:(lia)) as [intf Hintf]. rewrite Hintf.
    assert (Hsup : supported (fun _ _ => True) intf).
    { eapply (build_integration_nonpass_inv (fun _ _ => True)); eauto. }
    destruct (nearest_flow_loop_total intf (grid FIELD_RES_R FIELD_RES_C)
                (dir_idx inout_flow) Hle Hsup) as [dirs' Hdirs].
    { intros t Ht. apply in_grid. exact Ht. }
    rewrite Hdirs. cbn. eauto.
Qed.

(** The blocked square, from its middle and from its passable corner. *)
Lemma nearest_pathable_returns_witness :
  (forall fuel,
     N_FlowFieldUpdateToNearestPathable (P := scenario_params)
       (E := scenario_env) (Q := list_pqueue) fuel blocked_square (Coord 0 0)
       (-1) empty_flow = None)
  /\ (exists fuel0, forall fuel, (fuel0 <= fuel)%nat ->
        exists flow,
          N_FlowFieldUpdateToNearestPathable (P := scenario_params)
            (E := scenario_env) (Q := list_pqueue) fuel blocked_square
            (Coord 3 3) (-1) empty_flow = Some flow).
Proof.
  split.
  - apply (proj1 (nearest_pathable_returns (P := scenario_params)
                    (E := scenario_env) (Q := list_pqueue) blocked_square
                    (Coord 0 0) (-1) empty_flow
                    ltac:(unfold in_bounds; simpl; lia))).
    reflexivity.
  - apply (proj2 (nearest_pathable_returns (P := scenario_params)
                    (E := scenario_env) (Q := list_pqueue) blocked_square
                    (Coord 3 3) (-1) empty_flow
                    ltac:(unfold in_bounds; simpl; lia))).
    + reflexivity.
    + simpl. lia.
Defined.

(** ** Which tiles a TILE target gives a direction *)

Section TileTarget.

Context {P : nav_params} {E : nav_env} {Q : PQueue}.

(** The stages of a run of [N_FlowFieldUpdate]. *)
Lemma flow_update_run fuel chunk_coord priv faction_id layer target
    inout_flow intf flow :
  N_FlowFieldUpdate_run fuel chunk_coord priv faction_id layer target
                        inout_flow = Some (intf, flow) ->
  let chunk :=
    chunks priv layer
           (IDX (coord_r chunk_coord) (width priv) (coord_c chunk_coord)) in
  exists seeds dirs1,
    field_initial_frontier target chunk priv false faction_id
                           (FIELD_RES_R * FIELD_RES_C) = Some seeds
    /\ field_build_integration fuel
         (fst (seed_frontier seeds (pq_coord_init, all_infinite)))
         chunk faction_id
         (snd (seed_frontier seeds (pq_coord_init, all_infinite)))
       = Some intf
    /\ build_flow_loop intf (grid FIELD_RES_R FIELD_RES_C)
                       (dir_idx inout_flow) = Some dirs1
    /\ field_fixup target intf
         (FlowField (ff_chunk inout_flow) target dirs1) chunk = Some flow.
Proof.
  unfold N_FlowFieldUpdate_run. cbv zeta.
  set (chunk := chunks priv layer _).
  destruct (field_initial_frontier target chunk priv false faction_id
              (FIELD_RES_R * FIELD_RES_C)) as [seeds|]; [|discriminate].
  destruct (seed_frontier seeds (pq_coord_init, all_infinite)) as [q0 I0]
    eqn:Hsf.
  destruct (field_build_integration fuel q0 chunk faction_id I0)
    as [I|] eqn:Hint; [|discriminate].
  unfold field_build_flow. cbn [dir_idx].
  destruct (build_flow_loop I (grid FIELD_RES_R FIELD_RES_C)
              (dir_idx inout_flow)) as [dirs1|] eqn:Hflow; [|discriminate].
  destruct (field_fixup target I _ chunk) as [flow2|] eqn:Hfix;
    [|discriminate].
  intros H; injection H as <- <-. exists seeds, dirs1. rewrite Hsf.
  split; [reflexivity|]. split; [exact Hint|]. split; [exact Hflow|].
  exact Hfix.
Qed.

Lemma flow_field_init_none chunk_coord out t :
  in_bounds t -> at_coord (dir_idx (N_FlowFieldInit chunk_coord out)) t = FD_NONE.
Proof.
  intros Ht. unfold N_FlowFieldInit. cbn [dir_idx].
  assert (Hgen : forall l dirs,
            In t l \/ at_coord dirs t = FD_NONE ->
            at_coord (fold_left
                        (fun dirs t => upd dirs (coord_r t) (coord_c t) FD_NONE)
                        l dirs) t = FD_NONE).
  { induction l as [|x l IH]; intros dirs H; cbn [fold_left].
    - destruct H as [[]|H]; exact H.
    - apply IH. destruct (coord_eq_dec t x) as [->|Hne].
      + right. apply at_coord_upd_same.
      + destruct H as [[Hx|Hin]|H]; [congruence|left; exact Hin|].
        right. rewrite at_coord_upd_other by exact Hne. exact H. }
  apply Hgen. left. apply in_grid. exact Ht.
Qed.

Lemma flow_dir_is_direction intf t d :
  field_flow_dir intf t = Some d -> d <> FD_NONE.
Proof.
  intros Hd. destruct (field_flow_dir_some _ _ _ Hd) as (_ & _ & Hin & _).
  intros ->. unfold pick_order in Hin. simpl in Hin. intuition discriminate.
Qed.

End TileTarget.

(** X9. After [N_FlowFieldInit] and [N_FlowFieldUpdate] with a TILE target
    inside the field (base costs at least 1), a tile of the field holds a
    direction other than [FD_NONE] exactly when it is not the target, the
    target is passable, and a walk over passable tiles leads from the
    target to it; the flow field records the chunk and the target. *)
Theorem tile_target_directions {P : nav_params} {E : nav_env} {Q : PQueue}
    fuel chunk_coord priv faction_id layer tile flow0 intf flow :
  costs_positive
    (chunks priv layer
       (IDX (coord_r chunk_coord) (width priv) (coord_c chunk_coord))) ->
  in_bounds tile ->
  N_FlowFieldUpdate_run fuel chunk_coord priv faction_id layer
    (Target_tile tile) (N_FlowFieldInit chunk_coord flow0)
  = Some (intf, flow) ->
  ff_chunk flow = chunk_coord /\ ff_target flow = Target_tile tile
  /\ forall t, in_bounds t ->
       (at_coord (dir_idx flow) t <> FD_NONE <->
        t <> tile
        /\ tile_passable_for
             (chunks priv layer
                (IDX (coord_r chunk_coord) (width priv) (coord_c chunk_coord)))
             faction_id tile = true
        /\ exists p,
             walk (enters_passable
                     (chunks priv layer
                        (IDX (coord_r chunk_coord) (width priv)
                             (coord_c chunk_coord))) faction_id)
                  tile p t).
Proof.
  intros Hpos Htile Hrun.
  destruct (flow_update_run _ _ _ _ _ _ _ _ _ Hrun)
    as (seeds & dirs1 & Hseeds & Hint & Hflow & Hfix).
  set (chunk := chunks priv layer _) in *.
  cbn [field_fixup] in Hfix. injection Hfix as <-.
  cbn [ff_chunk ff_target dir_idx N_FlowFieldInit].
  split; [reflexivity|]. split; [reflexivity|].
  cbn [field_initial_frontier] in Hseeds. injection Hseeds as <-.
  set (seeds := field_tile_initial_frontier tile chunk false faction_id
                  (FIELD_RES_R * FIELD_RES_C)) in *.
  assert (Hseeds : seeds = if tile_passable_for chunk faction_id tile
                           then [tile] else []).
  { unfold seeds, field_tile_initial_frontier.
    destruct (Z.eqb_spec (FIELD_RES_R * FIELD_RES_C) 0) as [H0|_];
      [unfold in_bounds in Htile; nia | reflexivity]. }
  assert (Hsb : forall s, In s seeds -> in_bounds s).
  { intros s. rewrite Hseeds.
    destruct (tile_passable_for chunk faction_id tile); [|intros []].
    intros [<-|[]]. exact Htile. }
  destruct (build_integration_walks chunk faction_id seeds Hsb fuel intf
              Hpos Hint) as (_ & Hz & Hz0 & _ & Hwalks).
  intros t Ht.
  destruct (build_flow_loop_spec _ _ _ _ Hflow t) as [Hcell _].
  specialize (Hcell (proj2 (in_grid _ _ t) Ht)).
  rewrite (flow_field_init_none chunk_coord flow0 t Ht) in Hcell.
  unfold flow_cell_ok in Hcell.
  destruct (Hwalks t Ht) as [Hfrom Hto]. split.
  - intros Hdir.
    destruct (at_coord intf t) as [v|] eqn:Hv; [|contradiction].
    destruct (Z.eqb_spec v 0) as [Hv00|Hv0]; [contradiction|].
    destruct (Hfrom v eq_refl) as (s & p & Hs & Hw & _).
    rewrite Hseeds in Hs.
    destruct (tile_passable_for chunk faction_id tile) eqn:Hpt;
      [|destruct Hs].
    destruct Hs as [<-|[]].
    split; [|split; [reflexivity|exists p; exact Hw]].
    intros ->. rewrite Hz0 in Hv; [congruence|].
    rewrite Hseeds. left; reflexivity.
  - intros (Hne & Hpt & p & Hw).
    assert (Hin : In tile seeds) by (rewrite Hseeds, Hpt; left; reflexivity).
    destruct (Hto tile p Hin Hw) as (v & Hv & _).
    rewrite Hv in Hcell.
    destruct (Z.eqb_spec v 0) as [Hv00|Hv0].
    + rewrite Hv00 in Hv. apply Hz in Hv. rewrite Hseeds, Hpt in Hv.
      destruct Hv as [Hv|[]]. congruence.
    + apply (flow_dir_is_direction intf t). exact Hcell.
Qed.

(** The corner field: the tile (2,2) gets a direction. *)
Lemma tile_target_directions_witness :
  match N_FlowFieldUpdate_run (P := scenario_params) (E := scenario_env)
          (Q := list_pqueue) 200 (Coord 0 0) (single_chunk_map corner_chunk)
          (-1) 0 (Target_tile (Coord 2 4))
          (N_FlowFieldInit (P := scenario_params) (Coord 0 0) stale_flow) with
  | Some (intf, flow) =>
      ff_chunk flow = Coord 0 0 /\ ff_target flow = Target_tile (Coord 2 4)
      /\ forall t, in_bounds (P := scenario_params) t ->
           (at_coord (dir_idx flow) t <> FD_NONE <->
            t <> Coord 2 4
            /\ tile_passable_for (P := scenario_params) (E := scenario_env)
                 corner_chunk (-1) (Coord 2 4) = true
            /\ exists p,
                 walk (P := scenario_params)
                      (enters_passable (P := scenario_params)
                         (E := scenario_env) corner_chunk (-1))
                      (Coord 2 4) p t)
  | None => False
  end.
Proof.
  destruct (N_FlowFieldUpdate_run (P := scenario_params) (E := scenario_env)
              (Q := list_pqueue) 200 (Coord 0 0)
              (single_chunk_map corner_chunk) (-1) 0 (Target_tile (Coord 2 4))
              (N_FlowFieldInit (P := scenario_params) (Coord 0 0) stale_flow))
    as [[intf flow]|] eqn:Hrun.
  - apply (tile_target_directions (P := scenario_params) (E := scenario_env)
             (Q := list_pqueue) 200 (Coord 0 0)
             (single_chunk_map corner_chunk) (-1) 0 (Coord 2 4) stale_flow
             intf flow); [| |exact Hrun].
    + intros t _. unfold at_coord. simpl.
      destruct ((coord_r t =? 1) && (coord_c t =? 2)); [lia|].
      destruct ((coord_r t =? 2) && (coord_c t =? 3)); lia.
    + unfold in_bounds. simpl. lia.
  - vm_compute in Hrun. discriminate.
Defined.

(** ** The initial frontier as a list *)

Section InitialFrontier.

Context {P : nav_params} {E : nav_env}.

Variables (chunk : nav_chunk) (faction_id : Z).

Lemma firstn_succ_cons {A} (k : nat) (x : A) l :
  firstn (S k) (x :: l) = x :: firstn k l.
Proof. reflexivity. Qed.

Lemma portal_frontier_loop_firstn tiles maxout out :
  (forall t, In t tiles -> at_coord (cost_base chunk) t <> COST_IMPASSABLE) ->
  Z.of_nat (length out) < maxout ->
  portal_frontier_loop chunk faction_id tiles maxout out
  = Some (out ++ firstn (Z.to_nat maxout - length out)
                        (filter (tile_passable_for chunk faction_id) tiles)).
Proof.
  revert out. induction tiles as [|t tiles IH]; intros out Hc Hlen;
    cbn [portal_frontier_loop filter].
  - rewrite firstn_nil, app_nil_r. reflexivity.
  - assert (Hc' : forall t', In t' tiles ->
              at_coord (cost_base chunk) t' <> COST_IMPASSABLE)
      by (intros t' Ht'; apply Hc; right; exact Ht').
    destruct (Z.eqb_spec (cost_base chunk (coord_r t) (coord_c t))
                         COST_IMPASSABLE) as [Hbad|_].
    { exfalso. apply (Hc t (or_introl eq_refl)). exact Hbad. }
    destruct (tile_passable_for chunk faction_id t); [|apply IH; assumption].
    rewrite length_app. cbn [length].
    replace (Z.to_nat maxout - length out)%nat
      with (S (Z.to_nat maxout - (length out + 1)))%nat by lia.
    rewrite firstn_succ_cons.
    destruct (Z.eqb_spec (Z.of_nat (length out + 1)) maxout) as [Heq|Hne].
    + replace (Z.to_nat maxout - (length out + 1))%nat with 0%nat by lia.
      reflexivity.
    + rewrite IH; [|exact Hc'|rewrite length_app; cbn [length]; lia].
      rewrite length_app. cbn [length]. rewrite <- app_assoc. reflexivity.
Qed.

Lemma portal_frontier_firstn port ignoreblock maxout :
  (forall t, In t (portal_tiles port) ->
     at_coord (cost_base chunk) t <> COST_IMPASSABLE) ->
  0 <= maxout ->
  field_portal_initial_frontier port chunk ignoreblock faction_id maxout
  = Some (firstn (Z.to_nat maxout) (portal_candidates chunk faction_id port)).
Proof.
  intros Hc Hm. unfold field_portal_initial_frontier, portal_candidates.
  destruct (Z.eqb_spec maxout 0) as [->|Hne]; [reflexivity|].
  rewrite portal_frontier_loop_firstn; [|exact Hc|cbn; lia].
  cbn [length app]. rewrite Nat.sub_0_r. reflexivity.
Qed.

Lemma portalmask_frontier_loop_firstn mask ignoreblock idxs maxout out :
  (forall i, In i idxs -> portal_selected mask i = true ->
     forall t, In t (portal_tiles (portals chunk i)) ->
       at_coord (cost_base chunk) t <> COST_IMPASSABLE) ->
  0 <= maxout ->
  portalmask_frontier_loop mask chunk ignoreblock faction_id idxs maxout out
  = Some (out ++ firstn (Z.to_nat maxout)
            (flat_map (fun i => portal_candidates chunk faction_id
                                  (portals chunk i))
                      (filter (portal_selected mask) idxs))).
Proof.
  revert maxout out. induction idxs as [|i idxs IH]; intros maxout out Hc Hm;
    cbn [portalmask_frontier_loop filter flat_map].
  - rewrite firstn_nil, app_nil_r. reflexivity.
  - assert (Hc' : forall j, In j idxs -> portal_selected mask j = true ->
              forall t, In t (portal_tiles (portals chunk j)) ->
                at_coord (cost_base chunk) t <> COST_IMPASSABLE)
      by (intros j Hj; apply Hc; right; exact Hj).
    unfold portal_selected at 1.
    destruct (Z.land mask (Z.shiftl 1 i) =? 0) eqn:Hsel; cbn [negb].
    + apply IH; assumption.
    + rewrite (portal_frontier_firstn (portals chunk i) ignoreblock maxout);
        [|apply Hc; [left; reflexivity|unfold portal_selected; rewrite Hsel;
                                        reflexivity] | exact Hm].
      cbn [flat_map]. rewrite IH; [|exact Hc'|rewrite length_firstn; lia].
      rewrite <- app_assoc. f_equal. f_equal.
      rewrite firstn_app. f_equal. f_equal.
      rewrite length_firstn. lia.
Qed.

Lemma enemies_frontier_loop_firstn g tiles maxout out :
  Z.of_nat (length out) < maxout ->
  enemies_frontier_loop g tiles maxout out
  = out ++ firstn (Z.to_nat maxout - length out)
                  (filter (fun t => g (coord_r t) (coord_c t)) tiles).
Proof.
  revert out. induction tiles as [|t tiles IH]; intros out Hlen;
    cbn [enemies_frontier_loop filter].
  - rewrite firstn_nil, app_nil_r. reflexivity.
  - destruct (g (coord_r t) (coord_c t)); [|apply IH; assumption].
    rewrite length_app. cbn [length].
    replace (Z.to_nat maxout - length out)%nat
      with (S (Z.to_nat maxout - (length out + 1)))%nat by lia.
    rewrite firstn_succ_cons.
    destruct (Z.eqb_spec (Z.of_nat (length out + 1)) maxout) as [Heq|Hne].
    + replace (Z.to_nat maxout - (length out + 1))%nat with 0%nat by lia.
      reflexivity.
    + rewrite IH; [|rewrite length_app; cbn [length]; lia].
      rewrite length_app. cbn [length]. rewrite <- app_assoc. reflexivity.
Qed.

(** [field_enemy_ent] fails only on its assertion. *)
Lemma field_enemy_ent_none f ent :
  field_enemy_ent f ent = None <->
  G_GetFactionID ent <> f /\ ent_combatable ent = true
  /\ G_GetDiplomacyState f (G_GetFactionID ent) = None.
Proof.
  unfold field_enemy_ent.
  destruct (Z.eqb_spec (G_GetFactionID ent) f) as [Heq|Hne].
  { split; [discriminate|intros [H _]; contradiction]. }
  destruct (ent_combatable ent); cbn [negb].
  2:{ split; [discriminate|intros (_ & H & _); discriminate]. }
  destruct (G_GetDiplomacyState f (G_GetFactionID ent)) as [w|].
  - split; [|intros (_ & _ & H); discriminate].
    destruct w; cbn [negb]; [|discriminate].
    destruct (G_Fog_ObjVisible ent); discriminate.
  - split; auto.
Qed.

Lemma field_enemy_ent_hostile f ent :
  field_enemy_ent f ent <> None ->
  field_enemy_ent f ent = Some (hostile_in_sight f ent).
Proof.
  unfold field_enemy_ent, hostile_in_sight.
  destruct (G_GetFactionID ent =? f); cbn [negb andb]; [reflexivity|].
  destruct (ent_combatable ent); cbn [negb andb]; [|reflexivity].
  destruct (G_GetDiplomacyState f (G_GetFactionID ent)) as [w|];
    [|intros H; contradiction].
  intros _. destruct w; cbn [negb andb]; [|reflexivity].
  destruct (G_Fog_ObjVisible ent); reflexivity.
Qed.

Lemma enemies_mark_tile_none en tds :
  fold_left (enemies_mark_tile en) tds None = None.
Proof. induction tds as [|td tds IH]; [reflexivity|exact IH]. Qed.

Lemma enemies_mark_ent_none en priv ents :
  fold_left (enemies_mark_ent en priv) ents None = None.
Proof. induction ents as [|ent ents IH]; [reflexivity|exact IH]. Qed.

(** The tiles under one enemy: those of the chunk get their mark. *)
Lemma enemies_mark_tiles_spec en tds :
  forall g,
    (forall td, In td tds ->
       chunk_r td = coord_r (enemies_chunk en) ->
       chunk_c td = coord_c (enemies_chunk en) ->
       in_bounds (Coord (tile_r td) (tile_c td))) ->
    exists g',
      fold_left (enemies_mark_tile en) tds (Some g) = Some g'
      /\ forall t,
           at_coord g' t
           = at_coord g t
             || existsb (fun td =>
                  (chunk_r td =? coord_r (enemies_chunk en))
                  && (chunk_c td =? coord_c (enemies_chunk en))
                  && (tile_r td =? coord_r t) && (tile_c td =? coord_c t))
                tds.
Proof.
  induction tds as [|td tds IH]; intros g Hb; cbn [fold_left existsb].
  - exists g. split; [reflexivity|]. intros t. rewrite orb_false_r.
    reflexivity.
  - assert (Hb' : forall td', In td' tds ->
              chunk_r td' = coord_r (enemies_chunk en) ->
              chunk_c td' = coord_c (enemies_chunk en) ->
              in_bounds (Coord (tile_r td') (tile_c td')))
      by (intros td' Hin; apply Hb; right; exact Hin).
    unfold enemies_mark_tile at 2.
    destruct (Z.eqb_spec (chunk_r td) (coord_r (enemies_chunk en)))
      as [Hr|Hr]; cbn [negb orb andb].
    2:{ destruct (IH g Hb') as (g' & Hg' & Hspec). exists g'.
        split; [exact Hg'|exact Hspec]. }
    destruct (Z.eqb_spec (chunk_c td) (coord_c (enemies_chunk en)))
      as [Hc|Hc]; cbn [negb orb andb].
    2:{ destruct (IH g Hb') as (g' & Hg' & Hspec). exists g'.
        split; [exact Hg'|exact Hspec]. }
    rewrite (proj2 (in_boundsb_spec _)
               (Hb td (or_introl eq_refl) Hr Hc)).
    destruct (IH (upd g (tile_r td) (tile_c td) true) Hb')
      as (g' & Hg' & Hspec).
    exists g'. split; [exact Hg'|]. intros t. rewrite Hspec.
    rewrite orb_assoc. f_equal. unfold at_coord, upd.
    rewrite (Z.eqb_sym (tile_r td)), (Z.eqb_sym (tile_c td)).
    destruct ((coord_r t =? tile_r td) && (coord_c t =? tile_c td));
      [rewrite orb_true_r|rewrite orb_false_r]; reflexivity.
Qed.

(** The loop over the entities marks the tiles of the chunk under the
    enemies in sight, when no assertion fails on the way. *)
Lemma enemies_mark_ents_spec en priv ents :
  forall g,
    (forall ent, In ent ents ->
       field_enemy_ent (enemies_faction_id en) ent <> None) ->
    (forall ent td, In ent ents ->
       hostile_in_sight (enemies_faction_id en) ent = true ->
       In td (ent_tiles en priv ent) ->
       chunk_r td = coord_r (enemies_chunk en) ->
       chunk_c td = coord_c (enemies_chunk en) ->
       in_bounds (Coord (tile_r td) (tile_c td))) ->
    exists g',
      fold_left (enemies_mark_ent en priv) ents (Some g) = Some g'
      /\ forall t,
           at_coord g' t
           = at_coord g t
             || existsb (fun ent =>
                  hostile_in_sight (enemies_faction_id en) ent
                  && existsb (fun td =>
                       (chunk_r td =? coord_r (enemies_chunk en))
                       && (chunk_c td =? coord_c (enemies_chunk en))
                       && (tile_r td =? coord_r t)
                       && (tile_c td =? coord_c t))
                     (ent_tiles en priv ent))
                ents.
Proof.
  induction ents as [|ent ents IH]; intros g Hdip Htiles;
    cbn [fold_left existsb].
  - exists g. split; [reflexivity|]. intros t. rewrite orb_false_r.
    reflexivity.
  - assert (Hdip' : forall e, In e ents ->
              field_enemy_ent (enemies_faction_id en) e <> None)
      by (intros e He; apply Hdip; right; exact He).
    assert (Htiles' : forall e td, In e ents ->
              hostile_in_sight (enemies_faction_id en) e = true ->
              In td (ent_tiles en priv e) ->
              chunk_r td = coord_r (enemies_chunk en) ->
              chunk_c td = coord_c (enemies_chunk en) ->
              in_bounds (Coord (tile_r td) (tile_c td)))
      by (intros e td He; apply Htiles; right; exact He).
    unfold enemies_mark_ent at 2.
    rewrite (field_enemy_ent_hostile _ _ (Hdip ent (or_introl eq_refl))).
    destruct (hostile_in_sight (enemies_faction_id en) ent) eqn:Hh;
      cbn [andb orb].
    + destruct (enemies_mark_tiles_spec en (ent_tiles en priv ent) g)
        as (g1 & Hg1 & Hspec1).
      { intros td. apply (Htiles ent td (or_introl eq_refl) Hh). }
      rewrite Hg1.
      destruct (IH g1 Hdip' Htiles') as (g' & Hg' & Hspec).
      exists g'. split; [exact Hg'|]. intros t.
      rewrite Hspec, Hspec1, orb_assoc. reflexivity.
    + destruct (IH g Hdip' Htiles') as (g' & Hg' & Hspec).
      exists g'. split; [exact Hg'|exact Hspec].
Qed.

Lemma enemies_mark_ents_fail en priv ents :
  forall st,
    (exists ent, In ent ents
                 /\ field_enemy_ent (enemies_faction_id en) ent = None) ->
    fold_left (enemies_mark_ent en priv) ents st = None.
Proof.
  induction ents as [|ent ents IH]; intros st (bad & Hin & Hbad);
    [destruct Hin|]. cbn [fold_left].
  destruct st as [g|]; [|apply enemies_mark_ent_none].
  destruct Hin as [<-|Hin].
  - unfold enemies_mark_ent. rewrite Hbad. apply enemies_mark_ent_none.
  - apply IH. exists bad. auto.
Qed.

(** With the collaborators ready, the ENEMIES frontier is the scan of the
    tiles an enemy stands on. *)
Lemma enemies_frontier_firstn en priv maxout :
  0 < maxout -> enemy_query_ok (Target_enemies en) priv ->
  field_enemies_initial_frontier en chunk priv maxout
  = Some (firstn (Z.to_nat maxout)
            (filter (enemy_on en priv) (grid FIELD_RES_R FIELD_RES_C))).
Proof.
  intros Hm (Hstack & Hents & Hdip & Htiles).
  unfold field_enemies_initial_frontier. rewrite Hstack. cbn [negb].
  cbv zeta.
  destruct (Z.eqb_spec (Z.of_nat (length (G_Pos_EntsInRect en))) 0)
    as [H0|_].
  { destruct (G_Pos_EntsInRect en); [contradiction|cbn [length] in H0; lia]. }
  destruct (enemies_mark_ents_spec en priv (G_Pos_EntsInRect en)
              (fun _ _ => false)) as (g & Hg & Hspec).
  { intros ent Hin Hnone. apply field_enemy_ent_none in Hnone.
    destruct Hnone as (Hf & Hcomb & Hd). exact (Hdip ent Hin Hf Hcomb Hd). }
  { exact Htiles. }
  unfold enemies_grid. rewrite Hg. f_equal.
  rewrite enemies_frontier_loop_firstn by (cbn [length]; lia).
  cbn [length app]. rewrite Nat.sub_0_r. f_equal.
  apply filter_ext. intros t. fold (at_coord g t). rewrite Hspec.
  reflexivity.
Qed.

Lemma enemies_frontier_fails en priv maxout :
  Sched_UsingBigStack = false
  \/ G_Pos_EntsInRect en = []
  \/ (exists ent, In ent (G_Pos_EntsInRect en)
                  /\ G_GetFactionID ent <> enemies_faction_id en
                  /\ ent_combatable ent = true
                  /\ G_GetDiplomacyState (enemies_faction_id en)
                                         (G_GetFactionID ent) = None) ->
  field_enemies_initial_frontier en chunk priv maxout = None.
Proof.
  unfold field_enemies_initial_frontier.
  intros [Hstack|[Hents|(ent & Hin & Hbad)]].
  - rewrite Hstack. reflexivity.
  - rewrite Hents. destruct (negb Sched_UsingBigStack); reflexivity.
  - destruct (negb Sched_UsingBigStack); [reflexivity|]. cbv zeta.
    destruct (Z.of_nat (length (G_Pos_EntsInRect en)) =? 0); [reflexivity|].
    unfold enemies_grid.
    rewrite (enemies_mark_ents_fail en priv (G_Pos_EntsInRect en));
      [reflexivity|].
    exists ent. split; [exact Hin|]. apply field_enemy_ent_none. exact Hbad.
Qed.

End InitialFrontier.

(** X10. For [maxout > 0] and portals without a tile of impassable base
    cost, [field_initial_frontier] returns the first [maxout] seeds the
    target offers, in scan order: the target tile (if passable, or
    whatever it is under [ignoreblock]); the passable tiles of the portal,
    row by row; for a PORTAL_MASK the passable tiles of the selected
    portals, portal after portal; and for ENEMIES, when the big stack is
    in use, the entity index finds an entity, the diplomacy state towards
    every combatable entity of another faction is known and the tiles of
    the chunk under an enemy lie in the field, the tiles of the chunk on
    which stands a combatable entity of a faction at war that the fog
    does not hide. For ENEMIES the call fails an assertion when the big
    stack is not in use, when no entity is found, or when the diplomacy
    state towards a combatable entity of another faction is unknown. *)
Theorem initial_frontier_is_prefix {P : nav_params} {E : nav_env} target
    chunk priv ignoreblock faction_id maxout :
  0 < maxout -> portals_walkable target chunk ->
  (enemy_query_ok target priv ->
   field_initial_frontier target chunk priv ignoreblock faction_id maxout
   = Some (firstn (Z.to_nat maxout)
             (frontier_candidates target chunk priv ignoreblock faction_id)))
  /\ (forall en, target = Target_enemies en ->
        Sched_UsingBigStack = false
        \/ G_Pos_EntsInRect en = []
        \/ (exists ent, In ent (G_Pos_EntsInRect en)
                        /\ G_GetFactionID ent <> enemies_faction_id en
                        /\ ent_combatable ent = true
                        /\ G_GetDiplomacyState (enemies_faction_id en)
                                               (G_GetFactionID ent) = None) ->
        field_initial_frontier target chunk priv ignoreblock faction_id
                               maxout = None).
Proof.
  intros Hm Hw. split.
  - intros Hq. destruct target as [port|tile|en|mask];
      cbn [field_initial_frontier frontier_candidates portals_walkable] in *.
    + apply portal_frontier_firstn; [exact Hw|lia].
    + f_equal. unfold field_tile_initial_frontier.
      destruct (Z.eqb_spec maxout 0) as [H0|_]; [lia|].
      replace (Z.to_nat maxout) with (S (Z.to_nat maxout - 1)) by lia.
      destruct ignoreblock; cbn [orb];
        [rewrite firstn_succ_cons, firstn_nil; reflexivity|].
      destruct (tile_passable_for chunk faction_id tile);
        [rewrite firstn_succ_cons, firstn_nil; reflexivity | reflexivity].
    + apply enemies_frontier_firstn; assumption.
    + unfold field_portalmask_initial_frontier.
      rewrite (portalmask_frontier_loop_firstn chunk faction_id mask
                 ignoreblock _ maxout []); [reflexivity| |lia].
      intros i Hi Hsel. apply Hw; assumption.
  - intros en -> Hfail. cbn [field_initial_frontier].
    apply enemies_frontier_fails. exact Hfail.
Qed.

(** An ENEMIES target of faction 0 on the chunk (0,0) with the war on:
    the two tiles under the entity of faction 1; without an entity the
    call fails; and both portals of the two-portal chunk, with room for
    four seeds. *)
Lemma initial_frontier_is_prefix_witness :
  field_initial_frontier (P := scenario_params) (E := war_env)
    (Target_enemies (EnemiesDesc 0 (Coord 0 0))) open_chunk
    (single_chunk_map open_chunk) false 0 4
  = Some (firstn (Z.to_nat 4)
            (frontier_candidates (P := scenario_params) (E := war_env)
               (Target_enemies (EnemiesDesc 0 (Coord 0 0))) open_chunk
               (single_chunk_map open_chunk) false 0))
  /\ firstn (Z.to_nat 4)
       (frontier_candidates (P := scenario_params) (E := war_env)
          (Target_enemies (EnemiesDesc 0 (Coord 0 0))) open_chunk
          (single_chunk_map open_chunk) false 0)
     = [Coord 2 5; Coord 2 6]
  /\ field_initial_frontier (P := scenario_params) (E := scenario_env)
       (Target_enemies (EnemiesDesc 0 (Coord 0 0))) open_chunk
       (single_chunk_map open_chunk) false 0 4 = None
  /\ field_initial_frontier (P := scenario_params) (E := scenario_env)
       (Target_portalmask 3) two_portal_chunk two_portal_map false (-1) 4
     = Some (firstn (Z.to_nat 4)
               (frontier_candidates (P := scenario_params)
                  (E := scenario_env) (Target_portalmask 3)
                  two_portal_chunk two_portal_map false (-1))).
Proof.
  split.
  { apply (proj1 (initial_frontier_is_prefix (P := scenario_params)
                    (E := war_env)
                    (Target_enemies (EnemiesDesc 0 (Coord 0 0))) open_chunk
                    (single_chunk_map open_chunk) false 0 4
                    ltac:(lia) I)).
    split; [reflexivity|]. split; [discriminate|]. split.
    - intros ent [<-|[<-|[<-|[]]]] Hf _; cbn in *;
        [contradiction|discriminate|discriminate].
    - intros ent td [<-|[<-|[<-|[]]]] Hh; try discriminate Hh.
      cbn. intros [<-|[<-|[<-|[]]]]; cbn; intros; unfold in_bounds; cbn;
        try lia; discriminate. }
  split; [vm_compute; reflexivity|].
  split.
  { apply (proj2 (initial_frontier_is_prefix (P := scenario_params)
                    (E := scenario_env)
                    (Target_enemies (EnemiesDesc 0 (Coord 0 0))) open_chunk
                    (single_chunk_map open_chunk) false 0 4
                    ltac:(lia) I) (EnemiesDesc 0 (Coord 0 0)) eq_refl).
    right. left. reflexivity. }
  apply (proj1 (initial_frontier_is_prefix (P := scenario_params)
                  (E := scenario_env) (Target_portalmask 3)
                  two_portal_chunk two_portal_map false (-1) 4
                  ltac:(lia)
                  ltac:(intros i _ _ t _; unfold at_coord; simpl;
                        discriminate))).
  exact I.
Defined.

(** ** What padding leaves alone *)

Section PaddingFrame.

Context {P : nav_params}.

Lemma in_bounds_dec t : {in_bounds t} + {~ in_bounds t}.
Proof.
  unfold in_bounds.
  destruct (Z_le_dec 0 (coord_r t)); [|right; lia].
  destruct (Z_lt_dec (coord_r t) FIELD_RES_R); [|right; lia].
  destruct (Z_le_dec 0 (coord_c t)); [|right; lia].
  destruct (Z_lt_dec (coord_c t) FIELD_RES_C); [|right; lia].
  left. lia.
Qed.

Lemma pad_step_other f t x :
  x <> t -> at_coord (pad_step f t) x = at_coord f x.
Proof.
  intros Hne. unfold pad_step. cbv zeta.
  destruct ((coord_r t <? 0) || (coord_r t >? FIELD_RES_R - 1));
    [reflexivity|].
  destruct ((coord_c t <? 0) || (coord_c t >? FIELD_RES_C - 1));
    [reflexivity|].
  apply at_coord_upd_other. exact Hne.
Qed.

Lemma pad_step_out_of_bounds f t x :
  ~ in_bounds x -> at_coord (pad_step f t) x = at_coord f x.
Proof.
  intros Hx. destruct (coord_eq_dec x t) as [->|Hne];
    [|apply pad_step_other; exact Hne].
  unfold pad_step. cbv zeta.
  destruct ((coord_r t <? 0) || (coord_r t >? FIELD_RES_R - 1)) eqn:B1;
    [reflexivity|].
  destruct ((coord_c t <? 0) || (coord_c t >? FIELD_RES_C - 1)) eqn:B2;
    [reflexivity|].
  exfalso. apply Hx. unfold in_bounds. boolp. lia.
Qed.

Lemma pad_fold_other l f x :
  ~ In x l \/ ~ in_bounds x ->
  at_coord (fold_left pad_step l f) x = at_coord f x.
Proof.
  revert f. induction l as [|t l IH]; intros f Hx; cbn [fold_left];
    [reflexivity|].
  rewrite IH.
  - destruct Hx as [Hx|Hx]; [|apply pad_step_out_of_bounds; exact Hx].
    apply pad_step_other. intros ->. apply Hx. left; reflexivity.
  - destruct Hx as [Hx|Hx]; [left|right; exact Hx].
    intros Hin. apply Hx. right; exact Hin.
Qed.

Lemma pad_outer_other f t x :
  wavefront_blocked (at_coord f t) = false \/ ~ near t x \/ ~ in_bounds x ->
  at_coord (pad_outer f t) x = at_coord f x.
Proof.
  intros Hx. unfold pad_outer. fold (at_coord f t).
  destruct (wavefront_blocked (at_coord f t)) eqn:Hwb; [|reflexivity].
  change (pad_clear f (coord_r t) (coord_c t))
    with (fold_left pad_step (pad_offsets (coord_r t) (coord_c t)) f).
  apply pad_fold_other.
  destruct Hx as [Hx|[Hx|Hx]]; [discriminate| |right; exact Hx].
  left. intros Hin. apply in_pad_offsets in Hin. apply Hx.
  destruct t; exact Hin.
Qed.

Lemma pad_outer_fold_other l f x :
  (forall t, In t l -> wavefront_blocked (at_coord f t) = true -> ~ near t x)
  \/ ~ in_bounds x ->
  at_coord (fold_left pad_outer l f) x = at_coord f x.
Proof.
  revert f. induction l as [|t l IH]; intros f Hx; cbn [fold_left];
    [reflexivity|].
  rewrite IH.
  - apply pad_outer_other. destruct Hx as [Hx|Hx]; [|auto].
    destruct (wavefront_blocked (at_coord f t)) eqn:Hwb; [|auto].
    right. left. apply Hx; [left; reflexivity|exact Hwb].
  - destruct Hx as [Hx|Hx]; [left|right; exact Hx].
    intros t' Ht' Hwb. apply Hx; [right; exact Ht'|].
    destruct (pad_outer_spec f t t') as (Hsame & _). congruence.
Qed.

End PaddingFrame.

(** X11. [field_pad_wavefront] changes nothing but [visible] flags of tiles
    of the field: it keeps every [wavefront_blocked] flag and the chunk,
    and a tile is visible afterwards exactly when it was visible before
    and is not a tile of the field within one tile of a blocked tile of
    the field. *)
Theorem pad_wavefront_exact {P : nav_params} los t :
  los_chunk (field_pad_wavefront los) = los_chunk los
  /\ wavefront_blocked (at_coord (los_field (field_pad_wavefront los)) t)
     = wavefront_blocked (at_coord (los_field los) t)
  /\ (visible (at_coord (los_field (field_pad_wavefront los)) t) = true <->
      visible (at_coord (los_field los) t) = true
      /\ ~ (in_bounds t
            /\ exists b, in_bounds b /\ near b t
                         /\ wavefront_blocked (at_coord (los_field los) b)
                            = true)).
Proof.
  unfold field_pad_wavefront. cbn [los_chunk los_field].
  change (fold_left _ (grid FIELD_RES_R FIELD_RES_C) (los_field los))
    with (fold_left pad_outer (grid FIELD_RES_R FIELD_RES_C) (los_field los)).
  destruct (pad_outer_fold_spec (grid FIELD_RES_R FIELD_RES_C) (los_field los)
              t) as (Hwb & Hmono & Hclr).
  split; [reflexivity|]. split; [exact Hwb|]. split.
  - intros Hv. split; [apply Hmono; exact Hv|].
    intros (Ht & b & Hb & Hn & Hbb).
    rewrite (Hclr b) in Hv; [discriminate| |exact Hbb|exact Hn|exact Ht].
    apply in_grid. exact Hb.
  - intros [Hv Hno]. rewrite pad_outer_fold_other; [exact Hv|].
    destruct (in_bounds_dec t) as [Ht|Ht]; [left|right; exact Ht].
    intros b Hb Hbb Hn. apply Hno. split; [exact Ht|].
    exists b. split; [apply in_grid; exact Hb|]. split; assumption.
Qed.

(** ** Flags of a line-of-sight field *)

Section LosSound.

Context {P : nav_params} {E : nav_env} {Q : PQueue}.

Variables (chunk : nav_chunk) (faction_id : Z).

Lemma los_visit_fold_none fuel chunk_coord target priv map_pos curr l :
  fold_left (los_visit fuel chunk chunk_coord target priv map_pos curr) l None
  = None.
Proof. induction l as [|nb l IH]; [reflexivity|exact IH]. Qed.

Lemma los_visit_sound fuel chunk_coord target priv map_pos curr st n st' :
  in_bounds n ->
  los_sound chunk faction_id (ls_los st) ->
  los_visit fuel chunk chunk_coord target priv map_pos curr (Some st)
    (n, if tile_passable_for chunk faction_id n
        then at_coord (cost_base chunk) n else COST_IMPASSABLE) = Some st' ->
  los_sound chunk faction_id (ls_los st').
Proof.
  intros Hn [Hvis Hblk] Hst.
  destruct ((if tile_passable_for chunk faction_id n
             then at_coord (cost_base chunk) n else COST_IMPASSABLE) >? 1)
    eqn:Hcost.
  - destruct (los_visit_impassable _ _ _ _ _ _ _ _ _ _ _ Hcost Hst)
      as (_ & _ & Hv & Hline).
    apply los_step_cost_impassable in Hcost. split.
    + intros t Ht. rewrite Hv in Ht. apply Hvis. exact Ht.
    + intros Hnc. rewrite (Hnc n Hn Hcost) in Hline. rewrite Hline.
      apply Hblk. exact Hnc.
  - destruct (los_visit_passable fuel chunk chunk_coord target priv map_pos
                curr st n _ Hcost) as (st1 & Hst1 & Hlos & _).
    rewrite Hst1 in Hst. injection Hst as <-.
    destruct (los_flags_after_visit (ls_los st) n) as (_ & Hw & Ho).
    rewrite Hlos. cbn [los_field]. split.
    + intros t Ht. destruct (coord_eq_dec t n) as [->|Hne].
      * split; [exact Hn|]. intros Himp.
        apply los_step_cost_impassable in Himp. congruence.
      * rewrite Ho in Ht by exact Hne. apply Hvis. exact Ht.
    + intros Hnc t. rewrite Hw. apply Hblk. exact Hnc.
Qed.

Lemma los_visit_fold_sound fuel chunk_coord target priv map_pos curr los0 l
    st st' :
  (forall nb, In nb l ->
     In nb (field_neighbours_grid_los chunk los0 faction_id curr)) ->
  los_sound chunk faction_id (ls_los st) ->
  fold_left (los_visit fuel chunk chunk_coord target priv map_pos curr) l
            (Some st) = Some st' ->
  los_sound chunk faction_id (ls_los st').
Proof.
  revert st. induction l as [|[n cost] l IH]; intros st Hl Hs;
    cbn [fold_left].
  - intros H; injection H as <-. exact Hs.
  - destruct (los_visit fuel chunk chunk_coord target priv map_pos curr
                (Some st) (n, cost)) as [st1|] eqn:Hst1.
    2:{ rewrite los_visit_fold_none. discriminate. }
    pose proof (Hl (n, cost) (or_introl eq_refl)) as Hin.
    apply neighbours_grid_los_in in Hin. destruct Hin as (Hn & _ & _ & Hc).
    subst cost.
    apply IH; [intros nb Hnb; apply Hl; right; exact Hnb|].
    eapply los_visit_sound; eauto.
Qed.

Lemma los_wavefront_loop_sound fuel chunk_coord target priv map_pos st st' :
  los_sound chunk faction_id (ls_los st) ->
  los_wavefront_loop fuel chunk chunk_coord target priv map_pos faction_id st
  = Some st' ->
  los_sound chunk faction_id (ls_los st').
Proof.
  revert st. induction fuel as [|fuel IH]; intros st Hs;
    cbn [los_wavefront_loop]; [discriminate|].
  destruct (pq_size (ls_frontier st) >? 0);
    [|intros H; injection H as <-; exact Hs].
  destruct (pq_coord_pop (ls_frontier st)) as [[curr q1]|]; [|discriminate].
  destruct (fold_left _ _ _) as [st2|] eqn:Hfold; [|discriminate].
  apply IH.
  apply (los_visit_fold_sound fuel chunk_coord target priv map_pos curr
           (ls_los st)
           (field_neighbours_grid_los chunk (ls_los st) faction_id curr)
           (LosState q1 (ls_los st) (ls_integration st)) st2);
    [auto|exact Hs|exact Hfold].
Qed.

Lemma pad_wavefront_sound los :
  los_sound chunk faction_id los ->
  los_sound chunk faction_id (field_pad_wavefront los).
Proof.
  intros [Hvis Hblk]. unfold field_pad_wavefront. cbn [los_field].
  change (fold_left _ (grid FIELD_RES_R FIELD_RES_C) (los_field los))
    with (fold_left pad_outer (grid FIELD_RES_R FIELD_RES_C) (los_field los)).
  split.
  - intros t Ht. cbn [los_field] in Ht.
    destruct (pad_outer_fold_spec (grid FIELD_RES_R FIELD_RES_C)
                (los_field los) t) as (_ & Hmono & _).
    apply Hvis, Hmono. exact Ht.
  - intros Hnc t. cbn [los_field].
    destruct (pad_outer_fold_spec (grid FIELD_RES_R FIELD_RES_C)
                (los_field los) t) as (Hwb & _ & _).
    rewrite Hwb. apply Hblk. exact Hnc.
Qed.

End LosSound.

(** X12. In the line-of-sight field [N_LOSFieldCreate] returns for the
    destination chunk, every visible tile lies in the field and is not
    impassable for the wavefront (base cost at most 1, passable for the
    faction of the destination); and when no impassable tile of the chunk
    is a LOS corner, no tile is [wavefront_blocked]. *)
Theorem los_dest_field_sound {P : nav_params} {E : nav_env} {Q : PQueue}
    fuel id chunk_coord target priv map_pos los :
  N_LOSFieldCreate fuel id chunk_coord target priv map_pos None = Some los ->
  (forall t, visible (at_coord (los_field los) t) = true ->
     in_bounds t
     /\ ~ los_impassable
            (chunks priv (N_DestLayer id)
               (coord_r chunk_coord * width priv + coord_c chunk_coord))
            (N_DestFactionID id) t)
  /\ (no_los_corner
        (chunks priv (N_DestLayer id)
           (coord_r chunk_coord * width priv + coord_c chunk_coord))
        (N_DestFactionID id) ->
      forall t, wavefront_blocked (at_coord (los_field los) t) = false).
Proof.
  unfold N_LOSFieldCreate, los_initial_state.
  set (chunk := chunks priv (N_DestLayer id) _).
  destruct ((coord_r chunk_coord =? chunk_r target)
            && (coord_c chunk_coord =? chunk_c target)); [|discriminate].
  destruct (in_boundsb (Coord (tile_r target) (tile_c target)));
    [|discriminate].
  destruct (los_wavefront_loop fuel chunk chunk_coord target priv map_pos
              (N_DestFactionID id) _) as [st'|] eqn:Hloop; [|discriminate].
  intros H; injection H as <-.
  apply (pad_wavefront_sound chunk (N_DestFactionID id)).
  refine (los_wavefront_loop_sound chunk (N_DestFactionID id) fuel chunk_coord
            target priv map_pos _ st' _ Hloop).
  cbn [ls_los los_field]. split.
  - intros t Ht. discriminate.
  - intros _ t. reflexivity.
Qed.

(** The field with two blockers side by side, seen from (7,7). *)
Lemma los_dest_field_sound_witness :
  match los_run two_blocker_chunk with
  | Some los =>
      (forall t, visible (at_coord (los_field los) t) = true ->
         in_bounds (P := scenario_params) t
         /\ ~ los_impassable (P := scenario_params) (E := scenario_env)
                two_blocker_chunk (-1) t)
      /\ (no_los_corner (P := scenario_params) (E := scenario_env)
            two_blocker_chunk (-1) ->
          forall t, wavefront_blocked (at_coord (los_field los) t) = false)
  | None => False
  end.
Proof.
  destruct (los_run two_blocker_chunk) as [los|] eqn:Hrun.
  - apply (los_dest_field_sound (P := scenario_params) (E := scenario_env)
             (Q := list_pqueue) 200 0 (Coord 0 0) (TileDesc 0 0 7 7)
             (single_chunk_map two_blocker_chunk) tt los Hrun).
  - vm_compute in Hrun. discriminate.
Defined.

(** ** Shadow lines *)

Section ShadowLine.

Context {P : nav_params}.

Variables (dx dy sx sy : Z).

Hypothesis dx_nonneg : 0 <= dx.
Hypothesis dy_nonpos : dy <= 0.
Hypothesis sx_unit : unit_step sx.
Hypothesis sy_unit : unit_step sy.

Lemma wavefront_line_walk_returns fuel err curr field :
  in_bounds curr -> steps_left sx sy curr < Z.of_nat fuel ->
  exists field', wavefront_line_walk fuel dx dy sx sy err curr field
                 = Some field'.
Proof.
  revert err curr field.
  induction fuel as [|fuel IH]; intros err curr field Hc Hfuel.
  - unfold steps_left, in_bounds in *.
    destruct (sx =? 1), (sy =? 1); lia.
  - cbn [wavefront_line_walk]. cbv zeta.
    set (c1 := if 2 * err >=? dy then coord_c curr + sx else coord_c curr).
    set (r1 := if 2 * err <=? dx then coord_r curr + sy else coord_r curr).
    destruct ((r1 >=? 0) && (r1 <? FIELD_RES_R) && (c1 >=? 0)
              && (c1 <? FIELD_RES_C)) eqn:Hin; [|eauto].
    apply IH.
    + unfold in_bounds. cbn [coord_r coord_c]. boolp. lia.
    + unfold steps_left in *. cbn [coord_r coord_c]. unfold c1, r1.
      unfold in_bounds in Hc.
      rewrite Nat2Z.inj_succ in Hfuel.
      destruct (Z.geb_spec (2 * err) dy), (Z.leb_spec (2 * err) dx);
        destruct sx_unit as [Hsx | Hsx], sy_unit as [Hsy | Hsy];
        rewrite Hsx, Hsy in *; cbn [Z.eqb Pos.eqb] in *; lia.
Qed.

Lemma wavefront_line_walk_fuel_mono fuel fuel' err curr field field' :
  (fuel <= fuel')%nat ->
  wavefront_line_walk fuel dx dy sx sy err curr field = Some field' ->
  wavefront_line_walk fuel' dx dy sx sy err curr field = Some field'.
Proof.
  revert fuel' err curr field.
  induction fuel as [|fuel IH]; intros fuel' err curr field Hle;
    cbn [wavefront_line_walk]; [discriminate|].
  destruct fuel' as [|fuel']; [lia|]. cbn [wavefront_line_walk]. cbv zeta.
  destruct (_ && _); [|auto]. apply IH. lia.
Qed.

Lemma wavefront_line_walk_effect fuel err curr field field' :
  in_bounds curr ->
  wavefront_line_walk fuel dx dy sx sy err curr field = Some field' ->
  wavefront_blocked (at_coord field' curr) = true
  /\ (forall t, wavefront_blocked (at_coord field t) = true ->
                wavefront_blocked (at_coord field' t) = true)
  /\ (forall t, wavefront_blocked (at_coord field' t) = true ->
                wavefront_blocked (at_coord field t) = true
                \/ (in_bounds t /\ ahead_of sx sy curr t)).
Proof.
  revert err curr field.
  induction fuel as [|fuel IH]; intros err curr field Hc;
    cbn [wavefront_line_walk]; [discriminate|]. cbv zeta.
  set (field1 := upd field (coord_r curr) (coord_c curr)
                     (set_blocked (field (coord_r curr) (coord_c curr)))).
  set (c1 := if 2 * err >=? dy then coord_c curr + sx else coord_c curr).
  set (r1 := if 2 * err <=? dx then coord_r curr + sy else coord_r curr).
  assert (H1 : wavefront_blocked (at_coord field1 curr) = true)
    by (unfold field1; rewrite at_coord_upd_same; reflexivity).
  assert (H2 : forall t, wavefront_blocked (at_coord field t) = true ->
                 wavefront_blocked (at_coord field1 t) = true).
  { intros t Ht. unfold field1. destruct (coord_eq_dec t curr) as [->|Hne].
    - rewrite at_coord_upd_same. reflexivity.
    - rewrite at_coord_upd_other by exact Hne. exact Ht. }
  assert (H3 : forall t, wavefront_blocked (at_coord field1 t) = true ->
                 wavefront_blocked (at_coord field t) = true
                 \/ (in_bounds t /\ ahead_of sx sy curr t)).
  { intros t Ht. unfold field1 in Ht.
    destruct (coord_eq_dec t curr) as [->|Hne].
    - right. split; [exact Hc|]. unfold ahead_of. lia.
    - rewrite at_coord_upd_other in Ht by exact Hne. left. exact Ht. }
  destruct ((r1 >=? 0) && (r1 <? FIELD_RES_R) && (c1 >=? 0)
            && (c1 <? FIELD_RES_C)) eqn:Hin.
  - intros Hwalk.
    assert (Hnext : in_bounds (Coord r1 c1))
      by (unfold in_bounds; cbn [coord_r coord_c]; boolp; lia).
    destruct (IH _ _ _ Hnext Hwalk) as (I1 & I2 & I3).
    split; [apply I2; exact H1|]. split; [auto|].
    intros t Ht. destruct (I3 t Ht) as [Hb|[Hb Ha]]; [apply H3; exact Hb|].
    right. split; [exact Hb|]. unfold ahead_of in *.
    cbn [coord_r coord_c] in Ha. unfold c1, r1 in Ha.
    destruct (2 * err >=? dy), (2 * err <=? dx);
      destruct sx_unit as [Hsx | Hsx], sy_unit as [Hsy | Hsy];
      rewrite Hsx, Hsy in *; lia.
  - intros H; injection H as <-. auto.
Qed.

End ShadowLine.

Section ShadowLineOfCorner.

Context {P : nav_params} {E : nav_env}.

Lemma slope_steps (slope : los_slope) :
  0 <= Z.abs (slope_x_milli slope)
  /\ - Z.abs (slope_z_milli slope) <= 0
  /\ unit_step (if slope_x_pos slope then 1 else -1)
  /\ unit_step (if slope_z_neg slope then 1 else -1).
Proof.
  split; [lia|]. split; [lia|]. unfold unit_step.
  split; [destruct (slope_x_pos slope)|destruct (slope_z_neg slope)]; auto.
Qed.

Lemma wavefront_blocked_line_returns fuel target corner priv map_pos los :
  in_bounds (Coord (tile_r corner) (tile_c corner)) ->
  FIELD_RES_R + FIELD_RES_C <= Z.of_nat fuel ->
  exists los',
    field_create_wavefront_blocked_line fuel target corner priv map_pos los
    = Some los'.
Proof.
  intros Hc Hfuel. unfold field_create_wavefront_blocked_line. cbv zeta.
  destruct (slope_steps (wavefront_slope target corner priv map_pos))
    as (Hdx & Hdy & Hsx & Hsy).
  destruct (wavefront_line_walk_returns _ _ _ _ Hdx Hdy Hsx Hsy fuel
              (Z.abs (slope_x_milli (wavefront_slope target corner priv
                                       map_pos))
               + - Z.abs (slope_z_milli (wavefront_slope target corner priv
                                           map_pos)))
              (Coord (tile_r corner) (tile_c corner)) (los_field los) Hc)
    as [f Hf].
  - unfold steps_left, in_bounds in *. cbn [coord_r coord_c] in *.
    destruct (_ =? 1), (_ =? 1); lia.
  - rewrite Hf. eauto.
Qed.

Lemma wavefront_blocked_line_fuel_mono fuel fuel' target corner priv map_pos
    los los' :
  (fuel <= fuel')%nat ->
  field_create_wavefront_blocked_line fuel target corner priv map_pos los
  = Some los' ->
  field_create_wavefront_blocked_line fuel' target corner priv map_pos los
  = Some los'.
Proof.
  intros Hle. unfold field_create_wavefront_blocked_line. cbv zeta.
  destruct (wavefront_line_walk fuel _ _ _ _ _ _ _) as [f|] eqn:Hf;
    [|discriminate].
  rewrite (wavefront_line_walk_fuel_mono _ _ _ _ fuel fuel' _ _ _ f Hle Hf).
  auto.
Qed.

End ShadowLineOfCorner.

(** X13. From a corner tile inside the field,
    [field_create_wavefront_blocked_line] returns after at most
    [FIELD_RES_R + FIELD_RES_C] steps of the line walk, whatever the
    slope. It marks the corner tile; it clears no [wavefront_blocked] flag
    and changes no [visible] flag; every tile it newly marks lies in the
    field, on the side of the corner the steps of the walk point to. *)
Theorem shadow_line_stays_in_field {P : nav_params} {E : nav_env} target
    corner priv map_pos los :
  in_bounds (Coord (tile_r corner) (tile_c corner)) ->
  (forall fuel, FIELD_RES_R + FIELD_RES_C <= Z.of_nat fuel ->
     exists los',
       field_create_wavefront_blocked_line fuel target corner priv map_pos
                                           los = Some los')
  /\ forall fuel los',
       field_create_wavefront_blocked_line fuel target corner priv map_pos
                                           los = Some los' ->
       los_chunk los' = los_chunk los
       /\ wavefront_blocked
            (at_coord (los_field los')
                      (Coord (tile_r corner) (tile_c corner))) = true
       /\ (forall t, visible (at_coord (los_field los') t)
                     = visible (at_coord (los_field los) t))
       /\ (forall t, wavefront_blocked (at_coord (los_field los) t) = true ->
                     wavefront_blocked (at_coord (los_field los') t) = true)
       /\ forall t,
            wavefront_blocked (at_coord (los_field los') t) = true ->
            wavefront_blocked (at_coord (los_field los) t) = false ->
            in_bounds t
            /\ ahead_of
                 (if slope_x_pos (wavefront_slope target corner priv map_pos)
                  then 1 else -1)
                 (if slope_z_neg (wavefront_slope target corner priv map_pos)
                  then 1 else -1)
                 (Coord (tile_r corner) (tile_c corner)) t.
Proof.
  intros Hc. split.
  - intros fuel Hfuel. apply wavefront_blocked_line_returns; assumption.
  - intros fuel los' Hline.
    pose proof (wavefront_blocked_line_visible _ _ _ _ _ _ _ Hline) as Hvis.
    revert Hline. unfold field_create_wavefront_blocked_line. cbv zeta.
    destruct (wavefront_line_walk fuel _ _ _ _ _ _ _) as [f|] eqn:Hf;
      [|discriminate].
    intros H; injection H as <-. cbn [los_chunk los_field] in *.
    destruct (slope_steps (wavefront_slope target corner priv map_pos))
      as (_ & _ & Hsx & Hsy).
    destruct (wavefront_line_walk_effect _ _ _ _ Hsx Hsy _ _ _ _ _ Hc Hf)
      as (I1 & I2 & I3).
    split; [reflexivity|]. split; [exact I1|]. split; [exact Hvis|].
    split; [exact I2|].
    intros t Ht Hno. destruct (I3 t Ht) as [Hb|Hb]; [congruence|exact Hb].
Qed.

(** A line from the tile (4,3) of the open field towards (7,7). *)
Lemma shadow_line_stays_in_field_witness :
  (forall fuel,
     FIELD_RES_R (nav_params := scenario_params)
     + FIELD_RES_C (nav_params := scenario_params) <= Z.of_nat fuel ->
     exists los',
       field_create_wavefront_blocked_line (P := scenario_params)
         (E := scenario_env) fuel (TileDesc 0 0 7 7) (TileDesc 0 0 4 3)
         (single_chunk_map open_chunk) tt
         (LOSField (Coord 0 0) (fun _ _ => LosTile false false)) = Some los')
  /\ forall fuel los',
       field_create_wavefront_blocked_line (P := scenario_params)
         (E := scenario_env) fuel (TileDesc 0 0 7 7) (TileDesc 0 0 4 3)
         (single_chunk_map open_chunk) tt
         (LOSField (Coord 0 0) (fun _ _ => LosTile false false)) = Some los' ->
       los_chunk los' = Coord 0 0
       /\ wavefront_blocked (at_coord (los_field los') (Coord 4 3)) = true
       /\ (forall t, visible (at_coord (los_field los') t) = false)
       /\ (forall t, false = true ->
                     wavefront_blocked (at_coord (los_field los') t) = true)
       /\ forall t,
            wavefront_blocked (at_coord (los_field los') t) = true ->
            false = false ->
            in_bounds (P := scenario_params) t
            /\ ahead_of
                 (if slope_x_pos (scenario_slope (TileDesc 0 0 7 7)
                                                 (TileDesc 0 0 4 3))
                  then 1 else -1)
                 (if slope_z_neg (scenario_slope (TileDesc 0 0 7 7)
                                                 (TileDesc 0 0 4 3))
                  then 1 else -1)
                 (Coord 4 3) t.
Proof.
  apply (shadow_line_stays_in_field (P := scenario_params)
           (E := scenario_env) (TileDesc 0 0 7 7) (TileDesc 0 0 4 3)
           (single_chunk_map open_chunk) tt
           (LOSField (Coord 0 0) (fun _ _ => LosTile false false))).
  unfold in_bounds. simpl. lia.
Defined.

(** ** Termination of the line-of-sight wavefront *)

Section LosTermination.

Context {P : nav_params} {E : nav_env} {Q : PQueue}.

Variables (chunk : nav_chunk) (chunk_coord : coord) (target : tile_desc)
          (priv : nav_private) (map_pos : vec3_t).

Lemma line_fuel_enough fuel :
  (line_fuel <= fuel)%nat -> FIELD_RES_R + FIELD_RES_C <= Z.of_nat fuel.
Proof. unfold line_fuel. lia. Qed.

(** A visit never fails once the fuel lets a shadow line leave the field,
    and then does not depend on the fuel. *)
Lemma los_visit_total curr st n cost :
  in_bounds n -> nonneg_field (ls_integration st) ->
  exists st',
    (forall fuel, (line_fuel <= fuel)%nat ->
       los_visit fuel chunk chunk_coord target priv map_pos curr (Some st)
                 (n, cost) = Some st')
    /\ los_progress st st' /\ nonneg_field (ls_integration st').
Proof.
  intros Hn Hnn. destruct (cost >? 1) eqn:Hcost.
  - destruct st as [q los I]. unfold los_visit.
    cbn [fst snd]. rewrite Hcost.
    destruct (field_is_los_corner n (cost_base chunk) (blockers chunk)).
    + destruct (wavefront_blocked_line_returns line_fuel target
                  (TileDesc (coord_r chunk_coord) (coord_c chunk_coord)
                            (coord_r n) (coord_c n)) priv map_pos los)
        as [los1 Hlos1].
      { cbn [tile_r tile_c]. destruct n; exact Hn. }
      { apply line_fuel_enough. lia. }
      exists (LosState q los1 I). split; [|split; [left; auto|exact Hnn]].
      intros fuel Hfuel.
      rewrite (wavefront_blocked_line_fuel_mono line_fuel fuel _ _ _ _ _ _
                 Hfuel Hlos1). reflexivity.
    + exists (LosState q los I). split; [|split; [left; auto|exact Hnn]].
      reflexivity.
  - destruct (los_visit_passable O chunk chunk_coord target priv map_pos
                curr st n cost Hcost) as (st1 & Hst1 & _ & Hint).
    exists st1. split.
    { intros fuel _. rewrite <- Hst1. apply los_visit_fuel_indep. exact Hcost. }
    destruct (flt (fadd (at_coord (ls_integration st) curr) 1)
                  (at_coord (ls_integration st) n)) eqn:Hlt.
    + destruct Hint as [HI _].
      destruct (at_coord (ls_integration st) curr) as [vc|] eqn:Hvc;
        [|discriminate].
      cbn [fadd] in *.
      destruct (upd_lowered (ls_integration st) n (vc + 1) Hn Hnn)
        as [Hlow Hnn'].
      { specialize (Hnn curr vc Hvc). lia. }
      { exact Hlt. }
      unfold los_progress. rewrite HI. split; [right; exact Hlow|exact Hnn'].
    + destruct Hint as [HI Hq]. unfold los_progress. rewrite HI.
      split; [left; auto|exact Hnn].
Qed.

Lemma los_visit_fold_total curr l st :
  (forall nb, In nb l -> in_bounds (fst nb)) ->
  nonneg_field (ls_integration st) ->
  exists st',
    (forall fuel, (line_fuel <= fuel)%nat ->
       fold_left (los_visit fuel chunk chunk_coord target priv map_pos curr)
                 l (Some st) = Some st')
    /\ los_progress st st' /\ nonneg_field (ls_integration st').
Proof.
  revert st. induction l as [|[n cost] l IH]; intros st Hl Hnn.
  - exists st. split; [reflexivity|]. split; [left; auto|exact Hnn].
  - destruct (los_visit_total curr st n cost (Hl _ (or_introl eq_refl)) Hnn)
      as (st1 & Hst1 & Hp1 & Hnn1).
    destruct (IH st1) as (st2 & Hst2 & Hp2 & Hnn2); [|exact Hnn1|].
    { intros nb Hnb. apply Hl. right; exact Hnb. }
    exists st2. split.
    + intros fuel Hfuel. cbn [fold_left]. rewrite (Hst1 fuel Hfuel).
      apply Hst2. exact Hfuel.
    + split; [eapply los_progress_trans; eauto|exact Hnn2].
Qed.

(** The wavefront loop returns once it has enough fuel, on any chunk. *)
Lemma los_wavefront_loop_returns faction_id :
  forall a b c st,
    inf_count (ls_integration st) = a ->
    value_sum (ls_integration st) = b ->
    length (pq_entries (ls_frontier st)) = c ->
    nonneg_field (ls_integration st) ->
    exists fuel0, forall fuel, (fuel0 <= fuel)%nat ->
      exists st',
        los_wavefront_loop fuel chunk chunk_coord target priv map_pos
                           faction_id st = Some st'.
Proof.
  intros a. induction a as [a IHa] using lt_wf_ind.
  intros b. induction b as [b IHb] using lt_wf_ind.
  intros c. induction c as [c IHc] using lt_wf_ind.
  intros st Ha Hb Hc Hnn.
  destruct (pq_size (ls_frontier st) >? 0) eqn:Hsize.
  2:{ exists 1%nat. intros [|fuel] Hf; [lia|].
      cbn [los_wavefront_loop]. rewrite Hsize. eauto. }
  destruct (pq_pop_nonempty _ Hsize) as (curr & q1 & Hpop).
  destruct (pq_pop_some _ _ _ Hpop) as (p & Hperm & _).
  apply Permutation_length in Hperm. cbn [length] in Hperm.
  destruct (los_visit_fold_total curr
              (field_neighbours_grid_los chunk (ls_los st) faction_id curr)
              (LosState q1 (ls_los st) (ls_integration st)))
    as (st2 & Hst2 & Hp & Hnn2).
  { intros [n cost] Hnb. apply neighbours_grid_los_in in Hnb. apply Hnb. }
  { exact Hnn. }
  assert (Hrec : exists fuel0, forall fuel, (fuel0 <= fuel)%nat ->
            exists st',
              los_wavefront_loop fuel chunk chunk_coord target priv map_pos
                                 faction_id st2 = Some st').
  { destruct Hp as [[HI Hq]|[Hlow|[Hsame Hlow]]];
      cbn [ls_integration ls_frontier] in *.
    - apply (IHc (length (pq_entries (ls_frontier st2)))); auto.
      + rewrite Hq. lia.
      + rewrite HI. exact Ha.
      + rewrite HI. exact Hb.
    - apply (IHa (inf_count (ls_integration st2))
               ltac:(lia) (value_sum (ls_integration st2))
               (length (pq_entries (ls_frontier st2)))); auto.
    - apply (IHb (value_sum (ls_integration st2)) ltac:(lia)
               (length (pq_entries (ls_frontier st2)))); auto.
      lia. }
  destruct Hrec as [f2 Hf2]. exists (S (Nat.max f2 line_fuel)).
  intros [|fuel] Hf; [lia|].
  cbn [los_wavefront_loop]. rewrite Hsize, Hpop, Hst2 by lia.
  apply Hf2. lia.
Qed.

(** Carrying one tile of the shared edge over never fails with enough
    fuel, and then does not depend on the fuel. *)
Lemma los_carry_edge_total prev prev_of st cell :
  in_bounds cell -> nonneg_field (ls_integration st) ->
  exists st',
    (forall fuel, (line_fuel <= fuel)%nat ->
       los_carry_edge fuel chunk_coord target priv map_pos prev prev_of
                      (Some st) cell = Some st')
    /\ nonneg_field (ls_integration st').
Proof.
  intros Hcell Hnn. destruct st as [q los I]. unfold los_carry_edge.
  cbv zeta. cbn [los_field los_chunk ls_integration] in *.
  set (los1 := LOSField (los_chunk los)
                 (upd (los_field los) (coord_r cell) (coord_c cell)
                      (los_field prev (coord_r (prev_of cell))
                                 (coord_c (prev_of cell))))).
  assert (Hzero : nonneg_field (upd I (coord_r cell) (coord_c cell)
                                    (Finite 0))).
  { intros t v Hv. destruct (coord_eq_dec t cell) as [->|Hne].
    - rewrite at_coord_upd_same in Hv. injection Hv as <-. lia.
    - rewrite at_coord_upd_other in Hv by exact Hne. eapply Hnn; eauto. }
  match goal with
  | |- context [if wavefront_blocked ?x then _ else _] =>
      destruct (wavefront_blocked x)
  end.
  - destruct (wavefront_blocked_line_returns line_fuel target
                (TileDesc (coord_r chunk_coord) (coord_c chunk_coord)
                          (coord_r cell) (coord_c cell)) priv map_pos los1)
      as [los2 Hlos2].
    { cbn [tile_r tile_c]. destruct cell; exact Hcell. }
    { apply line_fuel_enough. lia. }
    destruct (visible (los_field los2 (coord_r cell) (coord_c cell))) eqn:Hv.
    + eexists. split.
      * intros fuel Hfuel.
        rewrite (wavefront_blocked_line_fuel_mono line_fuel fuel _ _ _ _ _ _
                   Hfuel Hlos2). rewrite Hv. reflexivity.
      * exact Hzero.
    + eexists. split.
      * intros fuel Hfuel.
        rewrite (wavefront_blocked_line_fuel_mono line_fuel fuel _ _ _ _ _ _
                   Hfuel Hlos2). rewrite Hv. reflexivity.
      * exact Hnn.
  - destruct (visible _).
    + eexists. split; [reflexivity|exact Hzero].
    + eexists. split; [reflexivity|exact Hnn].
Qed.

Lemma los_carry_edge_fold_total prev prev_of l st :
  (forall cell, In cell l -> in_bounds cell) ->
  nonneg_field (ls_integration st) ->
  exists st',
    (forall fuel, (line_fuel <= fuel)%nat ->
       fold_left (los_carry_edge fuel chunk_coord target priv map_pos prev
                                 prev_of) l (Some st) = Some st')
    /\ nonneg_field (ls_integration st').
Proof.
  revert st. induction l as [|cell l IH]; intros st Hl Hnn.
  - exists st. split; [reflexivity|exact Hnn].
  - destruct (los_carry_edge_total prev prev_of st cell
                (Hl _ (or_introl eq_refl)) Hnn) as (st1 & Hst1 & Hnn1).
    destruct (IH st1) as (st2 & Hst2 & Hnn2); [|exact Hnn1|].
    { intros c Hc. apply Hl. right; exact Hc. }
    exists st2. split; [|exact Hnn2].
    intros fuel Hfuel. cbn [fold_left]. rewrite (Hst1 fuel Hfuel).
    apply Hst2. exact Hfuel.
Qed.

End LosTermination.

Section LosInitialState.

Context {P : nav_params} {E : nav_env} {Q : PQueue}.

Variables (chunk_coord : coord) (target : tile_desc) (priv : nav_private)
          (map_pos : vec3_t).

Hypothesis rows_positive : 0 < FIELD_RES_R.
Hypothesis cols_positive : 0 < FIELD_RES_C.

Lemma shared_edge_cases prev :
  match los_shared_edge (los_chunk prev) chunk_coord with
  | Some (horizontal, curr_edge_idx, _) =>
      los_chunk prev <> chunk_coord
      /\ if horizontal then 0 <= curr_edge_idx < FIELD_RES_C
         else 0 <= curr_edge_idx < FIELD_RES_R
  | None => los_chunk prev = chunk_coord
  end.
Proof.
  unfold los_shared_edge.
  destruct (coord_r (los_chunk prev) <? coord_r chunk_coord) eqn:B1;
    [split; [intros Heq; rewrite Heq in B1; boolp; lia|lia]|].
  destruct (coord_r (los_chunk prev) >? coord_r chunk_coord) eqn:B2;
    [split; [intros Heq; rewrite Heq in B2; boolp; lia|lia]|].
  destruct (coord_c (los_chunk prev) <? coord_c chunk_coord) eqn:B3;
    [split; [intros Heq; rewrite Heq in B3; boolp; lia|lia]|].
  destruct (coord_c (los_chunk prev) >? coord_c chunk_coord) eqn:B4;
    [split; [intros Heq; rewrite Heq in B4; boolp; lia|lia]|].
  boolp. destruct (los_chunk prev), chunk_coord. cbn in *. f_equal; lia.
Qed.

Lemma los_initial_state_total prev_los :
  los_asserts_hold chunk_coord target prev_los ->
  exists st0,
    nonneg_field (ls_integration st0)
    /\ forall fuel, (line_fuel <= fuel)%nat ->
         los_initial_state fuel chunk_coord target priv map_pos prev_los
         = Some st0.
Proof.
  unfold los_asserts_hold, los_initial_state.
  destruct ((coord_r chunk_coord =? chunk_r target)
            && (coord_c chunk_coord =? chunk_c target)).
  - intros [Htgt ->]. rewrite (proj2 (in_boundsb_spec _) Htgt).
    eexists. split; [|intros fuel _; reflexivity].
    cbn [ls_integration].
    change (upd all_infinite (tile_r target) (tile_c target) (Finite 0))
      with (upd all_infinite
                (coord_r (Coord (tile_r target) (tile_c target)))
                (coord_c (Coord (tile_r target) (tile_c target)))
                (Finite 0)).
    intros t v Hv.
    destruct (coord_eq_dec t (Coord (tile_r target) (tile_c target)))
      as [->|Hne].
    + rewrite at_coord_upd_same in Hv. injection Hv as <-. lia.
    + rewrite at_coord_upd_other in Hv by exact Hne. discriminate.
  - intros (prev & -> & Hne).
    set (st00 := LosState pq_coord_init
                   (LOSField chunk_coord (fun _ _ => LosTile false false))
                   all_infinite).
    assert (Hnn0 : nonneg_field (ls_integration st00))
      by (intros t v Hv; discriminate).
    pose proof (shared_edge_cases prev) as Hedge.
    destruct (los_shared_edge (los_chunk prev) chunk_coord)
      as [[[horizontal curr_edge_idx] prev_edge_idx]|]; [|contradiction].
    destruct Hedge as [_ Hidx]. destruct horizontal.
    + destruct (los_carry_edge_fold_total chunk_coord target priv map_pos
                  prev (fun cell => Coord (coord_r cell) prev_edge_idx)
                  (map (fun r => Coord r curr_edge_idx)
                       (zrange 0 FIELD_RES_R)) st00) as (st0 & Hst0 & Hnn).
      { intros cell Hcell. apply in_map_iff in Hcell.
        destruct Hcell as (r & <- & Hr). apply in_zrange in Hr.
        unfold in_bounds. cbn [coord_r coord_c]. lia. }
      { exact Hnn0. }
      exists st0. split; [exact Hnn|exact Hst0].
    + destruct (los_carry_edge_fold_total chunk_coord target priv map_pos
                  prev (fun cell => Coord prev_edge_idx (coord_c cell))
                  (map (fun c => Coord curr_edge_idx c)
                       (zrange 0 FIELD_RES_C)) st00) as (st0 & Hst0 & Hnn).
      { intros cell Hcell. apply in_map_iff in Hcell.
        destruct Hcell as (c & <- & Hc). apply in_zrange in Hc.
        unfold in_bounds. cbn [coord_r coord_c]. lia. }
      { exact Hnn0. }
      exists st0. split; [exact Hnn|exact Hst0].
Qed.

Lemma los_initial_state_fails prev_los fuel :
  ~ los_asserts_hold chunk_coord target prev_los ->
  los_initial_state fuel chunk_coord target priv map_pos prev_los = None.
Proof.
  unfold los_asserts_hold, los_initial_state.
  destruct ((coord_r chunk_coord =? chunk_r target)
            && (coord_c chunk_coord =? chunk_c target)).
  - intros Hno.
    destruct (in_boundsb (Coord (tile_r target) (tile_c target))) eqn:Hb;
      [|reflexivity].
    destruct prev_los; [reflexivity|]. exfalso. apply Hno.
    split; [apply in_boundsb_spec; exact Hb|reflexivity].
  - intros Hno. destruct prev_los as [prev|]; [|reflexivity].
    pose proof (shared_edge_cases prev) as Hedge.
    destruct (los_shared_edge (los_chunk prev) chunk_coord)
      as [[[horizontal curr_edge_idx] prev_edge_idx]|]; [|reflexivity].
    exfalso. apply Hno. exists prev. split; [reflexivity|apply Hedge].
Qed.

End LosInitialState.

(** X14. [N_LOSFieldCreate] returns exactly when, for the destination
    chunk, the target tile lies in the field and no previous field is
    given, and for any other chunk, a previous field of a different chunk
    is given: then, with enough fuel, the carried edge, every shadow line
    and the wavefront loop end, on any chunk and for any queue; otherwise
    an assertion fails, or the seed is written outside the integration
    field. *)
Theorem los_field_create_returns {P : nav_params} {E : nav_env} {Q : PQueue}
    id chunk_coord target priv map_pos prev_los :
  0 < FIELD_RES_R -> 0 < FIELD_RES_C ->
  (los_asserts_hold chunk_coord target prev_los ->
   exists fuel0, forall fuel, (fuel0 <= fuel)%nat ->
     exists los,
       N_LOSFieldCreate fuel id chunk_coord target priv map_pos prev_los
       = Some los)
  /\ (~ los_asserts_hold chunk_coord target prev_los ->
      forall fuel,
        N_LOSFieldCreate fuel id chunk_coord target priv map_pos prev_los
        = None).
Proof.
  intros HR HC. split.
  - intros Hok.
    destruct (los_initial_state_total chunk_coord target priv map_pos HR HC
                prev_los Hok) as (st0 & Hnn & Hinit).
    destruct (los_wavefront_loop_returns
                (chunks priv (N_DestLayer id)
                   (coord_r chunk_coord * width priv + coord_c chunk_coord))
                chunk_coord target priv map_pos (N_DestFactionID id) _ _ _
                st0 eq_refl eq_refl eq_refl Hnn) as [f2 Hf2].
    exists (Nat.max line_fuel f2). intros fuel Hfuel. unfold N_LOSFieldCreate.
    rewrite (Hinit fuel) by lia.
    destruct (Hf2 fuel ltac:(lia)) as [st' Hst']. rewrite Hst'. eauto.
  - intros Hno fuel. unfold N_LOSFieldCreate.
    rewrite (los_initial_state_fails chunk_coord target priv map_pos HR HC _
               fuel Hno).
    reflexivity.
Qed.

(** The field with two blockers, as destination chunk; the same call
    with a previous field, which the assertion refuses; and the same call
    for the target tile (8,0), which lies below the field. *)
Lemma los_field_create_returns_witness :
  (exists fuel0, forall fuel, (fuel0 <= fuel)%nat ->
     exists los,
       N_LOSFieldCreate (P := scenario_params) (E := scenario_env)
         (Q := list_pqueue) fuel 0 (Coord 0 0) (TileDesc 0 0 7 7)
         (single_chunk_map two_blocker_chunk) tt None = Some los)
  /\ (forall fuel,
        N_LOSFieldCreate (P := scenario_params) (E := scenario_env)
          (Q := list_pqueue) fuel 0 (Coord 0 0) (TileDesc 0 0 7 7)
          (single_chunk_map two_blocker_chunk) tt
          (Some (LOSField (Coord 0 1) (fun _ _ => LosTile false false)))
        = None)
  /\ (forall fuel,
        N_LOSFieldCreate (P := scenario_params) (E := scenario_env)
          (Q := list_pqueue) fuel 0 (Coord 0 0) (TileDesc 0 0 8 0)
          (single_chunk_map two_blocker_chunk) tt None
        = None).
Proof.
  split; [|split].
  - apply (proj1 (los_field_create_returns (P := scenario_params)
                    (E := scenario_env) (Q := list_pqueue) 0 (Coord 0 0)
                    (TileDesc 0 0 7 7) (single_chunk_map two_blocker_chunk)
                    tt None ltac:(simpl; lia) ltac:(simpl; lia))).
    unfold los_asserts_hold, in_bounds. cbn. split; [lia|reflexivity].
  - apply (proj2 (los_field_create_returns (P := scenario_params)
                    (E := scenario_env) (Q := list_pqueue) 0 (Coord 0 0)
                    (TileDesc 0 0 7 7) (single_chunk_map two_blocker_chunk)
                    tt (Some (LOSField (Coord 0 1)
                                (fun _ _ => LosTile false false)))
                    ltac:(simpl; lia) ltac:(simpl; lia))).
    unfold los_asserts_hold. cbn. intros [_ H]. discriminate H.
  - apply (proj2 (los_field_create_returns (P := scenario_params)
                    (E := scenario_env) (Q := list_pqueue) 0 (Coord 0 0)
                    (TileDesc 0 0 8 0) (single_chunk_map two_blocker_chunk)
                    tt None ltac:(simpl; lia) ltac:(simpl; lia))).
    unfold los_asserts_hold, in_bounds. cbn. intros [H _]. lia.
Defined.

(** ** The ring buffer is a first-in first-out queue *)

Section RingBuffer.

Context {P : nav_params}.

Lemma mod_eq_close n a b :
  0 < n -> a mod n = b mod n -> Z.abs (a - b) < n -> a = b.
Proof.
  intros Hn Heq Hclose.
  rewrite (Z.div_mod a n), (Z.div_mod b n) in Hclose by lia.
  rewrite Heq in Hclose.
  assert (Hq : a / n = b / n) by nia.
  rewrite (Z.div_mod a n), (Z.div_mod b n) by lia. rewrite Heq, Hq.
  reflexivity.
Qed.

Lemma ring_contents_length r :
  0 <= ring_qsize r -> Z.of_nat (length (ring_contents r)) = ring_qsize r.
Proof.
  intros H. unfold ring_contents. rewrite length_map, length_seq. lia.
Qed.

Lemma ring_init_ok q :
  0 < ring_nelems -> ring_ok (ring_init q) /\ ring_contents (ring_init q) = [].
Proof.
  intros Hn. split; [|reflexivity].
  unfold ring_ok, ring_init. cbn [ring_head ring_qsize ring_tail].
  split; [lia|]. split; [lia|]. split; [lia|]. reflexivity.
Qed.

Lemma ring_qpush_refines r x :
  ring_ok r ->
  match ring_qpush r x with
  | Some r' => ring_ok r' /\ qpush (ring_contents r) x = Some (ring_contents r')
  | None => qpush (ring_contents r) x = None
  end.
Proof.
  intros (Hh & Hs & Ht & Hmod). unfold ring_qpush, qpush.
  rewrite ring_contents_length by lia. fold ring_nelems.
  destruct (Z.ltb_spec (ring_qsize r) ring_nelems) as [Hlt|Hge];
    [|reflexivity].
  cbv zeta. assert (Hn : 0 < ring_nelems) by lia.
  pose proof (Z.mod_pos_bound (ring_tail r + 1) ring_nelems Hn) as Hb.
  split.
  - unfold ring_ok. cbn [ring_head ring_qsize ring_tail].
    split; [exact Hh|]. split; [lia|]. split; [lia|].
    rewrite Z.add_assoc, <- (Zplus_mod_idemp_l (ring_head r + ring_qsize r)),
      <- Hmod.
    reflexivity.
  - f_equal. unfold ring_contents. cbn [ring_head ring_qsize ring_q].
    replace (Z.to_nat (ring_qsize r + 1)) with (Z.to_nat (ring_qsize r) + 1)%nat
      by lia.
    rewrite seq_app, map_app. cbn [seq map Nat.add]. f_equal.
    + apply map_ext_in. intros i Hi. apply in_seq in Hi.
      destruct (Z.eqb_spec ((ring_head r + Z.of_nat i) mod ring_nelems)
                           ((ring_tail r + 1) mod ring_nelems)) as [Heq|_];
        [|reflexivity].
      exfalso. rewrite Hmod in Heq.
      apply mod_eq_close in Heq; lia.
    + rewrite Hmod. rewrite Z2Nat.id by lia. rewrite Z.eqb_refl. reflexivity.
Qed.

Lemma ring_qpop_refines r :
  ring_ok r ->
  match ring_qpop r with
  | Some (x, r') =>
      ring_ok r' /\ qpop (ring_contents r) = Some (x, ring_contents r')
  | None => qpop (ring_contents r) = None
  end.
Proof.
  intros (Hh & Hs & Ht & Hmod). unfold ring_qpop.
  destruct (Z.gtb_spec (ring_qsize r) 0) as [Hpos|Hzero].
  2:{ unfold ring_contents. replace (ring_qsize r) with 0 by lia.
      reflexivity. }
  replace ((ring_head r >=? 0) && (ring_head r <? ring_nelems)) with true
    by (symmetry; apply andb_true_iff; split;
        [apply Z.geb_le|apply Z.ltb_lt]; lia).
  assert (Hn : 0 < ring_nelems) by lia.
  pose proof (Z.mod_pos_bound (ring_head r + 1) ring_nelems Hn) as Hb.
  split.
  - unfold ring_ok. cbn [ring_head ring_qsize ring_tail].
    split; [exact Hb|]. split; [lia|]. split; [exact Ht|].
    rewrite Hmod, Zplus_mod_idemp_l. f_equal. lia.
  - unfold ring_contents. cbn [ring_head ring_qsize ring_q].
    replace (Z.to_nat (ring_qsize r)) with (S (Z.to_nat (ring_qsize r - 1)))
      by lia.
    cbn [seq map qpop]. rewrite Z.add_0_r, (Z.mod_small (ring_head r)) by lia.
    f_equal. f_equal. rewrite <- seq_shift, map_map.
    apply map_ext. intros i. f_equal.
    rewrite Zplus_mod_idemp_l. f_equal. lia.
Qed.

End RingBuffer.

(** X15. The ring buffer behind [qpush] and [qpop] is a first-in
    first-out queue of capacity [FIELD_RES_R * FIELD_RES_C].  Started with
    [head = 0], [tail = -1] and [qsize = 0] it is empty and its counters
    are consistent; from consistent counters, [qpush] fails its assertion
    exactly when the ring is full and otherwise appends the entry behind
    the entries held, [qpop] fails exactly when the ring is empty and
    otherwise returns the oldest entry, and both leave the counters
    consistent. *)
Theorem ring_buffer_is_fifo {P : nav_params} (q0 : Z -> coord) (r : ring)
    (x : coord) :
  (0 < FIELD_RES_R * FIELD_RES_C ->
   ring_ok (ring_init q0) /\ ring_contents (ring_init q0) = [])
  /\ (ring_ok r ->
      match ring_qpush r x with
      | Some r' =>
          ring_ok r' /\ ring_contents r' = ring_contents r ++ [x]
          /\ ring_qsize r < FIELD_RES_R * FIELD_RES_C
      | None =>
          Z.of_nat (length (ring_contents r)) = FIELD_RES_R * FIELD_RES_C
      end
      /\ match ring_qpop r with
         | Some (y, r') =>
             ring_ok r' /\ ring_contents r = y :: ring_contents r'
         | None => ring_contents r = []
         end).
Proof.
  split; [apply ring_init_ok|].
  intros Hok. pose proof (ring_qpush_refines r x Hok) as Hpush.
  pose proof (ring_qpop_refines r Hok) as Hpop.
  destruct Hok as (Hh & Hs & Ht & Hmod). split.
  - unfold qpush in Hpush. rewrite ring_contents_length in Hpush by lia.
    destruct (ring_qpush r x) as [r'|] eqn:Hr.
    + destruct Hpush as [Hok' Hq].
      destruct (Z.ltb_spec (ring_qsize r) (FIELD_RES_R * FIELD_RES_C));
        [|discriminate].
      injection Hq as Hq. auto.
    + rewrite ring_contents_length by lia.
      unfold ring_qpush, ring_nelems in Hr.
      destruct (Z.ltb_spec (ring_qsize r) (FIELD_RES_R * FIELD_RES_C));
        [discriminate|]. unfold ring_nelems in Hs. lia.
  - destruct (ring_qpop r) as [[y r']|].
    + destruct Hpop as [Hok' Hq]. split; [exact Hok'|].
      destruct (ring_contents r) as [|z l]; cbn [qpop] in Hq;
        [discriminate|]. injection Hq as -> ->. reflexivity.
    + destruct (ring_contents r); [reflexivity|discriminate].
Qed.

(** A ring of capacity 64: empty at the start; holding (1,1) and (2,2) it
    takes (3,3) and gives (1,1). *)
Lemma ring_buffer_is_fifo_witness :
  (ring_ok (P := scenario_params) (ring_init (fun _ => Coord 0 0))
   /\ ring_contents (P := scenario_params) (ring_init (fun _ => Coord 0 0))
      = [])
  /\ match ring_qpush (P := scenario_params)
             (Ring (fun i => Coord (i + 1) (i + 1)) 2 0 1) (Coord 3 3) with
     | Some r' =>
         ring_ok (P := scenario_params) r'
         /\ ring_contents (P := scenario_params) r'
            = ring_contents (P := scenario_params)
                (Ring (fun i => Coord (i + 1) (i + 1)) 2 0 1) ++ [Coord 3 3]
         /\ 2 < FIELD_RES_R (nav_params := scenario_params)
                * FIELD_RES_C (nav_params := scenario_params)
     | None =>
         Z.of_nat (length (ring_contents (P := scenario_params)
                             (Ring (fun i => Coord (i + 1) (i + 1)) 2 0 1)))
         = FIELD_RES_R (nav_params := scenario_params)
           * FIELD_RES_C (nav_params := scenario_params)
     end
  /\ match ring_qpop (P := scenario_params)
             (Ring (fun i => Coord (i + 1) (i + 1)) 2 0 1) with
     | Some (y, r') =>
         ring_ok (P := scenario_params) r'
         /\ ring_contents (P := scenario_params)
              (Ring (fun i => Coord (i + 1) (i + 1)) 2 0 1)
            = y :: ring_contents (P := scenario_params) r'
     | None =>
         ring_contents (P := scenario_params)
           (Ring (fun i => Coord (i + 1) (i + 1)) 2 0 1) = []
     end.
Proof.
  destruct (ring_buffer_is_fifo (P := scenario_params) (fun _ => Coord 0 0)
              (Ring (fun i => Coord (i + 1) (i + 1)) 2 0 1) (Coord 3 3))
    as [Hinit Hstep].
  split.
  - apply Hinit. cbn. lia.
  - apply Hstep. unfold ring_ok, ring_nelems. cbn.
    repeat split; try lia; discriminate.
Defined.

(** ** The closest tiles of an island *)

Section ManhattanDistance.

Context {P : nav_params}.

Lemma manhattan_nonneg a b : 0 <= manhattan_dist a b.
Proof. unfold manhattan_dist. cbv zeta. lia. Qed.

Lemma manhattan_zero a b : manhattan_dist a b = 0 -> b = a.
Proof.
  destruct a as [ar ac], b as [br bc]. unfold manhattan_dist. cbn.
  intros H. f_equal; lia.
Qed.

Lemma manhattan_adjacent g n c :
  adjacent4 n c ->
  manhattan_dist g n = manhattan_dist g c + 1
  \/ manhattan_dist g n = manhattan_dist g c - 1.
Proof.
  destruct g as [gr gc], n as [nr nc], c as [cr cc].
  unfold adjacent4, manhattan_dist. cbn. lia.
Qed.

(** Off the target there is a tile of the field one step closer. *)
Lemma step_toward g t :
  in_bounds g -> in_bounds t -> t <> g ->
  exists p, in_bounds p /\ adjacent4 t p
            /\ manhattan_dist g p = manhattan_dist g t - 1.
Proof.
  destruct g as [gr gc], t as [r c].
  unfold in_bounds, adjacent4, manhattan_dist. cbn. intros Hg Ht Hne.
  destruct (Z.lt_trichotomy r gr) as [H|[H|H]].
  - exists (Coord (r + 1) c). cbn. lia.
  - destruct (Z.lt_trichotomy c gc) as [H'|[H'|H']].
    + exists (Coord r (c + 1)). cbn. lia.
    + exfalso. apply Hne. congruence.
    + exists (Coord r (c - 1)). cbn. lia.
  - exists (Coord (r - 1) c). cbn. lia.
Qed.

Lemma sorted_by_app f l1 l2 :
  sorted_by f (l1 ++ l2) <->
  sorted_by f l1 /\ sorted_by f l2
  /\ forall a b, In a l1 -> In b l2 -> f a <= f b.
Proof.
  induction l1 as [|x l1 IH]; cbn [app sorted_by].
  - split; [intros H|intros (_ & H & _); exact H].
    split; [exact I|]. split; [exact H|]. intros a b [].
  - rewrite IH. split.
    + intros (Hx & H1 & H2 & Hc).
      split; [split; [|exact H1]|split; [exact H2|]].
      * intros y Hy. apply Hx. apply in_or_app. left; exact Hy.
      * intros a b [<-|Ha] Hb;
          [apply Hx, in_or_app; right; exact Hb|apply Hc; assumption].
    + intros ((Hx & H1) & H2 & Hc).
      split; [|split; [exact H1|split; [exact H2|]]].
      * intros y Hy. apply in_app_or in Hy.
        destruct Hy as [Hy|Hy];
          [apply Hx; exact Hy|apply Hc; [left; reflexivity|exact Hy]].
      * intros a b Ha Hb. apply Hc; [right; exact Ha|exact Hb].
Qed.

Lemma sorted_by_flat f l :
  (forall a b, In a l -> In b l -> f a <= f b) -> sorted_by f l.
Proof.
  induction l as [|x l IH]; cbn [sorted_by]; intros H; [exact I|].
  split; [intros y Hy; apply H; [left; reflexivity|right; exact Hy]|].
  apply IH. intros a b Ha Hb. apply H; right; assumption.
Qed.

End ManhattanDistance.

Section ClosestTiles.

Context {P : nav_params}.

Variables (chunk : nav_chunk) (isl : island_ids) (target : coord)
          (local_iid global_iid : Z).

Hypothesis target_in_bounds : in_bounds target.

Local Abbreviation dist := (manhattan_dist target).
Local Abbreviation cand := (island_candidate chunk isl local_iid global_iid).

(** Every tile of the field no further than the head of the queue is
    marked. *)
Lemma closest_visited_upto done visited q :
  closest_bfs_inv target done visited q ->
  forall t, in_bounds t -> (forall h, In h q -> dist t <= dist h) ->
    at_coord visited t = true.
Proof.
  intros (Hnd & Hvis & Hb & Hs & Hcl & Hlay & Htg & _).
  assert (Hind : forall k t, dist t <= Z.of_nat k -> in_bounds t ->
            (forall h, In h q -> dist t <= dist h) ->
            at_coord visited t = true).
  { induction k as [|k IH]; intros t Hk Ht Hq.
    - pose proof (manhattan_nonneg target t) as H0.
      assert (Hz : dist t = 0) by lia. apply manhattan_zero in Hz. subst t.
      apply Hvis. exact Htg.
    - destruct (coord_eq_dec t target) as [->|Hne]; [apply Hvis, Htg|].
      destruct (step_toward target t target_in_bounds Ht Hne)
        as (p & Hp & Hadj & Hd).
      assert (Hvp : at_coord visited p = true).
      { apply IH; [lia|exact Hp|].
        intros h Hh. specialize (Hq h Hh). lia. }
      apply Hvis in Hvp. apply in_app_or in Hvp.
      destruct Hvp as [Hpd|Hpq]; [apply (Hcl p t Hpd Ht Hadj)|].
      specialize (Hq p Hpq). lia. }
  intros t Ht Hq.
  apply (Hind (Z.to_nat (dist t)) t); [|exact Ht|exact Hq].
  pose proof (manhattan_nonneg target t). lia.
Qed.

(** Every tile of the field closer than the whole queue has been
    popped. *)
Lemma closest_done_below done visited q :
  closest_bfs_inv target done visited q ->
  forall t, in_bounds t -> (forall h, In h q -> dist t < dist h) ->
    In t done.
Proof.
  intros Hinv t Ht Hq.
  pose proof (closest_visited_upto _ _ _ Hinv t Ht) as Hv.
  destruct Hinv as (_ & Hvis & _).
  assert (H : at_coord visited t = true).
  { apply Hv. intros h Hh. specialize (Hq h Hh). lia. }
  apply Hvis in H. apply in_app_or in H. destruct H as [H|H]; [exact H|].
  specialize (Hq t H). lia.
Qed.

Lemma closest_out_nearest done visited q out first :
  closest_bfs_inv target done visited q ->
  closest_out_inv target cand done out first ->
  NoDup out /\ forall t, In t out -> nearest_candidate cand target t.
Proof.
  intros Hinv (Hout & Hfirst & _ & _).
  pose proof (closest_done_below _ _ _ Hinv) as Hbelow.
  destruct Hinv as (Hnd & Hvis & Hb & Hs & _).
  apply sorted_by_app in Hs. destruct Hs as (_ & _ & Hcross).
  split.
  - subst out. apply NoDup_filter. apply NoDup_app_remove_r in Hnd.
    exact Hnd.
  - intros t Ht. pose proof (Hfirst t Ht) as Hdt. subst out.
    apply filter_In in Ht. destruct Ht as [Htd Htc].
    split; [apply Hb, in_or_app; left; exact Htd|]. split; [exact Htc|].
    intros u Hu Hcu.
    destruct (Z.le_gt_cases (dist t) (dist u)) as [Hle|Hgt]; [exact Hle|].
    exfalso.
    assert (Hud : In u done).
    { apply Hbelow; [exact Hu|]. intros h Hh.
      specialize (Hcross t h Htd Hh). lia. }
    assert (Huo : In u (filter cand done)) by (apply filter_In; auto).
    specialize (Hfirst u Huo). lia.
Qed.

Lemma closest_out_complete done visited q out first :
  closest_bfs_inv target done visited q ->
  closest_out_inv target cand done out first ->
  q = [] \/ (-1 < first /\ forall h, In h q -> first < dist h) ->
  forall t, nearest_candidate cand target t -> In t out.
Proof.
  intros Hinv Hoi Hstop t (Ht & Hc & Hmin).
  pose proof (closest_done_below _ _ _ Hinv) as Hbelow.
  destruct (closest_out_nearest _ _ _ _ _ Hinv Hoi) as [_ Hnear].
  destruct Hoi as (Hout & Hfirst & Hnil & _).
  assert (Hd : In t done).
  { destruct Hstop as [Hq|[Hpos Hq]].
    - apply Hbelow; [exact Ht|]. rewrite Hq. intros h [].
    - destruct out as [|o out']; [specialize (Hnil eq_refl); lia|].
      assert (Hoin : In o (o :: out')) by (left; reflexivity).
      destruct (Hnear o Hoin) as (Hob & Hoc & _).
      pose proof (Hmin o Hob Hoc) as Hle. rewrite (Hfirst o Hoin) in Hle.
      apply Hbelow; [exact Ht|]. intros h Hh. specialize (Hq h Hh). lia. }
  rewrite Hout. apply filter_In. auto.
Qed.

(** The four [continue] tests of the loop decide [island_candidate]. *)
Lemma closest_tests_candidate t :
  cand t =
  (if cost_base chunk (coord_r t) (coord_c t) =? COST_IMPASSABLE then false
   else if blockers chunk (coord_r t) (coord_c t) >? 0 then false
   else if negb (global_iid =? ISLAND_NONE)
           && negb (islands isl (coord_r t) (coord_c t) =? global_iid)
   then false
   else if negb (local_iid =? ISLAND_NONE)
           && negb (local_islands isl (coord_r t) (coord_c t) =? local_iid)
   then false
   else true).
Proof.
  unfold island_candidate, at_coord.
  destruct (cost_base chunk (coord_r t) (coord_c t) =? COST_IMPASSABLE);
    [reflexivity|].
  destruct (blockers chunk (coord_r t) (coord_c t) >? 0); [reflexivity|].
  destruct (global_iid =? ISLAND_NONE);
    destruct (islands isl (coord_r t) (coord_c t) =? global_iid);
    destruct (local_iid =? ISLAND_NONE);
    destruct (local_islands isl (coord_r t) (coord_c t) =? local_iid);
    reflexivity.
Qed.

Lemma closest_out_skip done out first curr :
  closest_out_inv target cand done out first -> cand curr = false ->
  closest_out_inv target cand (done ++ [curr]) out first.
Proof.
  intros (Hout & Hrest) Hc. split; [|exact Hrest].
  rewrite filter_app. cbn [filter]. rewrite Hc, app_nil_r. exact Hout.
Qed.

Lemma closest_out_take done out first curr :
  closest_out_inv target cand done out first -> cand curr = true ->
  first = -1 \/ dist curr = first ->
  closest_out_inv target cand (done ++ [curr]) (out ++ [curr])
    (if first =? -1 then dist curr else first).
Proof.
  intros (Hout & Hfirst & Hnil & Hlow) Hc Hcase.
  pose proof (manhattan_nonneg target curr) as H0.
  split; [rewrite filter_app; cbn [filter]; rewrite Hc, Hout; reflexivity|].
  split.
  { intros t Ht. apply in_app_or in Ht.
    destruct (Z.eqb_spec first (-1)) as [Heq|Hne].
    - destruct Ht as [Ht|[<-|[]]]; [|reflexivity].
      pose proof (Hfirst t Ht). pose proof (manhattan_nonneg target t). lia.
    - destruct Ht as [Ht|[<-|[]]]; [apply Hfirst; exact Ht|].
      destruct Hcase; [contradiction|assumption]. }
  split; [intros H; destruct out; discriminate|].
  destruct (first =? -1); lia.
Qed.

(** The loop returns before its fuel runs out, no assertion of it fails,
    and what it returns are nearest candidates. *)
Lemma closest_tiles_loop_total maxout :
  forall fuel done visited q out first,
    closest_bfs_inv target done visited q ->
    closest_out_inv target cand done out first ->
    (length q + unvisited_count visited < fuel)%nat ->
    exists res,
      closest_tiles_loop fuel chunk isl target local_iid global_iid
                         visited q out first maxout = Some res
      /\ closest_post target cand maxout (length out) res.
Proof.
  induction fuel as [|fuel IH]; intros done visited q out first Hinv Hoi Hfuel;
    [lia|].
  cbn [closest_tiles_loop].
  destruct q as [|curr q1]; cbn [qpop].
  { exists out. split; [reflexivity|].
    destruct (closest_out_nearest _ _ _ _ _ Hinv Hoi) as [Hnd Hnear].
    split; [exact Hnd|]. split; [exact Hnear|]. split; [|lia].
    intros _. apply (closest_out_complete _ _ _ _ _ Hinv Hoi).
    left; reflexivity. }
  pose proof Hinv as (Hnd & Hvis & Hb & Hs & Hcl & Hlay & Htg & Hm).
  cbn [length] in Hfuel, Hm.
  destruct (bfs_visit_fold_ok curr bfs_deltas visited q1)
    as (v2 & q2 & Hfold & Hle); [lia|].
  rewrite Hfold.
  destruct (bfs_visit_fold_cases curr bfs_deltas visited q1 v2 q2)
    as (added & -> & Hnda & Hadd & Hv' & Hall); [auto|exact Hfold|].
  cbv zeta.
  pose proof Hs as Hs0. apply sorted_by_app in Hs0.
  destruct Hs0 as (Hsd & Hsq & Hcross).
  cbn [sorted_by] in Hsq. destruct Hsq as [Hhead Hsq1].
  assert (Hheadq : forall h, In h (curr :: q1) -> dist curr <= dist h).
  { intros h [<-|Hh]; [lia|apply Hhead; exact Hh]. }
  assert (Hfar : forall n, In n added -> dist n = dist curr + 1).
  { intros n Hn. destruct (Hadd n Hn) as (Hnb & Hadj & Hnv).
    destruct (Z.le_gt_cases (dist n) (dist curr)) as [Hle'|Hgt].
    - rewrite (closest_visited_upto _ _ _ Hinv n Hnb) in Hnv; [discriminate|].
      intros h Hh. specialize (Hheadq h Hh). lia.
    - pose proof (manhattan_adjacent target n curr Hadj). lia. }
  assert (Hinv' : closest_bfs_inv target (done ++ [curr]) v2 (q1 ++ added)).
  { unfold closest_bfs_inv.
    assert (Heq : (done ++ [curr]) ++ q1 ++ added
                  = (done ++ curr :: q1) ++ added)
      by (rewrite <- !app_assoc; reflexivity).
    rewrite Heq.
    split.
    { apply NoDup_app; [exact Hnd|exact Hnda|].
      intros t Ht Hta. destruct (Hadd t Hta) as (_ & _ & Hf).
      apply Hvis in Ht. congruence. }
    split.
    { intros t. rewrite Hv', Hvis, !in_app_iff. tauto. }
    split.
    { intros t Ht. apply in_app_or in Ht.
      destruct Ht as [Ht|Ht]; [apply Hb; exact Ht|apply (Hadd t Ht)]. }
    split.
    { apply sorted_by_app. split; [exact Hs|]. split.
      - apply sorted_by_flat. intros a b Ha Hb'.
        rewrite (Hfar a Ha), (Hfar b Hb'). lia.
      - intros a b Ha Hb'. rewrite (Hfar b Hb'). apply in_app_or in Ha.
        destruct Ha as [Ha|Ha].
        + specialize (Hcross a curr Ha (or_introl eq_refl)). lia.
        + specialize (Hlay curr a (or_introl eq_refl) Ha). lia. }
    split.
    { intros t n Ht Hn Hadj. apply in_app_or in Ht.
      destruct Ht as [Ht|[<-|[]]].
      - apply Hv'. left. apply (Hcl t n Ht Hn Hadj).
      - destruct (adjacent4_delta n curr Hadj) as (d & Hd & ->).
        apply Hall; assumption. }
    split.
    { intros h t Hh Ht. apply in_app_or in Hh. apply in_app_or in Ht.
      destruct Hh as [Hh|Hh], Ht as [Ht|Ht].
      - apply Hlay; right; assumption.
      - rewrite (Hfar t Ht). specialize (Hhead h Hh). lia.
      - rewrite (Hfar h Hh).
        specialize (Hlay curr t (or_introl eq_refl) (or_intror Ht)). lia.
      - rewrite (Hfar h Hh), (Hfar t Ht). lia. }
    split; [apply in_or_app; left; exact Htg|].
    lia. }
  assert (Hge : first <= dist curr).
  { destruct Hoi as (Hout & Hfirst & Hnil & Hlow).
    pose proof (manhattan_nonneg target curr) as H0.
    destruct out as [|o out']; [rewrite Hnil by reflexivity; lia|].
    rewrite <- (Hfirst o (or_introl eq_refl)).
    apply Hcross; [|left; reflexivity].
    assert (Ho : In o (filter cand done))
      by (rewrite <- Hout; left; reflexivity).
    apply filter_In in Ho. tauto. }
  assert (Hlen : (length (q1 ++ added) + unvisited_count v2 < fuel)%nat)
    by lia.
  destruct (Z.ltb_spec (dist curr) first) as [Hc|_]; [lia|].
  destruct ((first >? -1) && (dist curr >? first)) eqn:Hstop.
  { apply andb_true_iff in Hstop. destruct Hstop as [H1 H2].
    apply Z.gtb_lt in H1, H2.
    destruct (closest_out_nearest _ _ _ _ _ Hinv Hoi) as [Hnd' Hnear].
    assert (Hcomp : forall t, nearest_candidate cand target t -> In t out).
    { apply (closest_out_complete _ _ _ _ _ Hinv Hoi). right.
      split; [lia|]. intros h Hh. specialize (Hheadq h Hh). lia. }
    assert (Hne : out <> []).
    { destruct Hoi as (_ & _ & Hnil & _). intros E. specialize (Hnil E).
      lia. }
    replace (Z.of_nat (length out) >? 0) with true
      by (symmetry; apply Z.gtb_lt; destruct out; [congruence|cbn; lia]).
    exists out. split; [reflexivity|].
    split; [exact Hnd'|]. split; [exact Hnear|]. split; [|lia].
    intros _. exact Hcomp. }
  assert (Hcase : first = -1 \/ dist curr = first).
  { destruct Hoi as (_ & _ & _ & Hlow).
    apply andb_false_iff in Hstop. destruct Hstop as [H1|H1].
    - left. destruct (Z.gtb_spec first (-1)); [discriminate|lia].
    - right. destruct (Z.gtb_spec (dist curr) first); [discriminate|lia]. }
  assert (Hskip : cand curr = false ->
            exists res,
              closest_tiles_loop fuel chunk isl target local_iid global_iid
                                 v2 (q1 ++ added) out first maxout = Some res
              /\ closest_post target cand maxout (length out) res).
  { intros Hc. apply (IH (done ++ [curr])); [exact Hinv'| |exact Hlen].
    apply closest_out_skip; assumption. }
  pose proof (closest_tests_candidate curr) as Hcand.
  destruct (cost_base chunk (coord_r curr) (coord_c curr) =? COST_IMPASSABLE);
    [apply Hskip; exact Hcand|].
  destruct (blockers chunk (coord_r curr) (coord_c curr) >? 0);
    [apply Hskip; exact Hcand|].
  destruct (negb (global_iid =? ISLAND_NONE)
            && negb (islands isl (coord_r curr) (coord_c curr) =? global_iid));
    [apply Hskip; exact Hcand|].
  destruct (negb (local_iid =? ISLAND_NONE)
            && negb (local_islands isl (coord_r curr) (coord_c curr)
                     =? local_iid));
    [apply Hskip; exact Hcand|].
  pose proof (closest_out_take done out first curr Hoi Hcand Hcase) as Hoi'.
  destruct (Z.eqb_spec (Z.of_nat (length (out ++ [curr]))) maxout)
    as [Heq|Hne].
  - exists (out ++ [curr]). split; [reflexivity|].
    destruct (closest_out_nearest _ _ _ _ _ Hinv' Hoi') as [Hnd' Hnear].
    split; [exact Hnd'|]. split; [exact Hnear|].
    split; [intros [Hc|Hc]; [contradiction|];
            rewrite length_app in Heq; cbn [length] in Heq; lia|lia].
  - destruct (IH _ _ _ _ _ Hinv' Hoi' Hlen) as (res & Hres & R1 & R2 & R3 & R4).
    exists res. split; [exact Hres|].
    split; [exact R1|]. split; [exact R2|]. split; [exact R3|].
    intros Hlt. apply R4. rewrite length_app in *. cbn [length] in *. lia.
Qed.

Lemma closest_tiles_local_total maxout fuel :
  FIELD_RES_R * FIELD_RES_C < Z.of_nat fuel ->
  exists res,
    field_closest_tiles_local fuel chunk isl target local_iid global_iid
                              maxout = Some res
    /\ closest_post target cand maxout 0 res.
Proof.
  intros Hfuel. unfold field_closest_tiles_local, qpush. cbn [length app].
  assert (Hpos : 0 < FIELD_RES_R * FIELD_RES_C).
  { pose proof target_in_bounds as Hg. unfold in_bounds in Hg. nia. }
  destruct (Z.ltb_spec (Z.of_nat 0) (FIELD_RES_R * FIELD_RES_C)); [|lia].
  pose proof (unvisited_mark (fun _ _ => false) target target_in_bounds
                eq_refl) as Hlt.
  pose proof (unvisited_count_le (fun _ _ => false)) as Hle.
  assert (Hmax : Z.max 0 FIELD_RES_R * Z.max 0 FIELD_RES_C
                 = FIELD_RES_R * FIELD_RES_C).
  { pose proof target_in_bounds as Hg. unfold in_bounds in Hg.
    rewrite !Z.max_r by lia. reflexivity. }
  assert (Hv : forall t,
            at_coord (upd (fun _ _ => false) (coord_r target)
                          (coord_c target) true) t = true <-> t = target).
  { intros t. destruct (coord_eq_dec t target) as [->|Hne].
    - rewrite at_coord_upd_same. tauto.
    - rewrite at_coord_upd_other by exact Hne. split; [discriminate|tauto]. }
  apply (closest_tiles_loop_total maxout fuel [] _ [target] [] (-1)).
  - unfold closest_bfs_inv. cbn [app length].
    split; [constructor; [intros []|constructor]|].
    split; [intros t; rewrite Hv; cbn; intuition congruence|].
    split; [intros t [<-|[]]; exact target_in_bounds|].
    split; [cbn; split; [intros y []|exact I]|].
    split; [intros t n []|].
    split; [intros h t [<-|[]] [<-|[]]; lia|].
    split; [left; reflexivity|]. lia.
  - split; [reflexivity|]. split; [intros t []|]. split; [reflexivity|lia].
  - cbn [length]. lia.
Qed.

End ClosestTiles.

(** X16. From a target inside the field, [field_closest_tiles_local]
    returns once its fuel exceeds the number of tiles, and none of its
    assertions fails: the ring buffer never overflows and the tiles leave
    it in the order of their Manhattan distance to the target.  It returns,
    each once, candidates (pathable, unblocked tiles of the islands asked
    for) that no other candidate of the field beats in Manhattan distance
    to the target, at most [maxout] of them, and all of them when it stops
    short of [maxout] or [maxout] is 0. *)
Theorem closest_tiles_are_nearest {P : nav_params} chunk isl target
    local_iid global_iid maxout fuel :
  in_bounds target ->
  FIELD_RES_R * FIELD_RES_C < Z.of_nat fuel ->
  exists out,
    field_closest_tiles_local fuel chunk isl target local_iid global_iid
                              maxout = Some out
    /\ NoDup out
    /\ (forall t, In t out ->
          nearest_candidate
            (island_candidate chunk isl local_iid global_iid) target t)
    /\ (Z.of_nat (length out) <> maxout \/ maxout <= 0 ->
        forall t,
          nearest_candidate
            (island_candidate chunk isl local_iid global_iid) target t ->
          In t out)
    /\ (0 < maxout -> Z.of_nat (length out) <= maxout).
Proof.
  intros Hg Hfuel.
  destruct (closest_tiles_local_total chunk isl target local_iid global_iid
              Hg maxout fuel Hfuel) as (res & Hres & R1 & R2 & R3 & R4).
  exists res. auto.
Qed.

(** From (2,6) in the eastern half of an open field, the closest tiles of
    the western local island. *)
Lemma closest_tiles_are_nearest_witness :
  exists out,
    field_closest_tiles_local (P := scenario_params) 65 open_chunk
      west_east_islands (Coord 2 6) 1 ISLAND_NONE 64 = Some out
    /\ NoDup out
    /\ (forall t, In t out ->
          nearest_candidate (P := scenario_params)
            (island_candidate open_chunk west_east_islands 1 ISLAND_NONE)
            (Coord 2 6) t)
    /\ (Z.of_nat (length out) <> 64 \/ 64 <= 0 ->
        forall t,
          nearest_candidate (P := scenario_params)
            (island_candidate open_chunk west_east_islands 1 ISLAND_NONE)
            (Coord 2 6) t ->
          In t out)
    /\ (0 < 64 -> Z.of_nat (length out) <= 64).
Proof.
  apply (closest_tiles_are_nearest (P := scenario_params) open_chunk
           west_east_islands (Coord 2 6) 1 ISLAND_NONE 64 65).
  - unfold in_bounds. cbn. lia.
  - cbn. lia.
Defined.

(** ** The nearest tiles of an island as seeds *)

Section ClosestTilesRun.

Context {P : nav_params}.

Variables (chunk : nav_chunk) (isl : island_ids).

Lemma closest_tiles_loop_fuel_mono target local_iid global_iid maxout fuel
    fuel' visited q out first res :
  (fuel <= fuel')%nat ->
  closest_tiles_loop fuel chunk isl target local_iid global_iid visited q
                     out first maxout = Some res ->
  closest_tiles_loop fuel' chunk isl target local_iid global_iid visited q
                     out first maxout = Some res.
Proof.
  revert fuel' visited q out first.
  induction fuel as [|fuel IH]; intros fuel' visited q out first Hle;
    cbn [closest_tiles_loop]; [discriminate|].
  destruct fuel' as [|fuel']; [lia|]. cbn [closest_tiles_loop].
  destruct (qpop q) as [[curr q1]|]; [|auto].
  destruct (fold_left (bfs_visit curr) bfs_deltas (Some (visited, q1)))
    as [[v2 q2]|]; [|discriminate].
  cbv zeta.
  repeat match goal with
         | |- context [if ?b then _ else _] => destruct b
         end;
    first [apply IH; lia | auto].
Qed.

Lemma closest_tiles_local_fuel_mono target local_iid global_iid maxout fuel
    fuel' res :
  (fuel <= fuel')%nat ->
  field_closest_tiles_local fuel chunk isl target local_iid global_iid
                            maxout = Some res ->
  field_closest_tiles_local fuel' chunk isl target local_iid global_iid
                            maxout = Some res.
Proof.
  intros Hle. unfold field_closest_tiles_local.
  destruct (qpush [] target); [|discriminate].
  apply closest_tiles_loop_fuel_mono. exact Hle.
Qed.

Lemma closest_tiles_local_spec target local_iid global_iid maxout fuel res :
  in_bounds target ->
  field_closest_tiles_local fuel chunk isl target local_iid global_iid
                            maxout = Some res ->
  closest_post target (island_candidate chunk isl local_iid global_iid)
               maxout 0 res.
Proof.
  intros Hg Hrun.
  set (fuel' := Nat.max fuel (S (Z.to_nat (FIELD_RES_R * FIELD_RES_C)))).
  destruct (closest_tiles_local_total chunk isl target local_iid global_iid
              Hg maxout fuel') as (res' & Hres' & Hpost);
    [unfold fuel'; lia|].
  rewrite (closest_tiles_local_fuel_mono target local_iid global_iid maxout
             fuel fuel' res) in Hres' by (unfold fuel'; lia || exact Hrun).
  injection Hres' as <-. exact Hpost.
Qed.

Lemma manhattan_sym a b : manhattan_dist a b = manhattan_dist b a.
Proof. unfold manhattan_dist. cbv zeta. lia. Qed.

Lemma nearest_same_dist cand g s s' :
  nearest_candidate cand g s -> nearest_candidate cand g s' ->
  manhattan_dist g s = manhattan_dist g s'.
Proof.
  intros (Hb & Hc & Hmin) (Hb' & Hc' & Hmin').
  pose proof (Hmin s' Hb' Hc'). pose proof (Hmin' s Hb Hc). lia.
Qed.

End ClosestTilesRun.

Section IslandToNearest.

Context {P : nav_params}.

Variables (chunk : nav_chunk) (isl : island_ids) (local_iid : Z)
          (fuel : nat).

Lemma island_nearest_step_inv seen st curr st' :
  in_bounds curr ->
  island_select_inv chunk isl local_iid seen st ->
  island_nearest_step fuel chunk isl local_iid (Some st) curr = Some st' ->
  island_select_inv chunk isl local_iid (seen ++ [curr]) st'.
Proof.
  intros Hcb (Hm0 & Hsound & Hmin). destruct st as [m nf].
  cbn [fst snd] in *.
  assert (Hold : forall s, In s nf ->
            exists f, In f (seen ++ [curr])
                      /\ island_replacement chunk isl local_iid f s
                      /\ manhattan_dist s f = m).
  { intros s Hs. destruct (Hsound s Hs) as (f & Hf & Hr & Hd).
    exists f. split; [apply in_or_app; left; exact Hf|auto]. }
  unfold island_nearest_step. cbv zeta.
  change (local_islands isl (coord_r curr) (coord_c curr))
    with (at_coord (local_islands isl) curr).
  change (islands isl (coord_r curr) (coord_c curr))
    with (at_coord (islands isl) curr).
  destruct (at_coord (local_islands isl) curr =? local_iid) eqn:Hliid.
  - (* the frontier tile belongs to the island *)
    set (nf0 := if m >? 0 then [] else nf).
    destruct (Z.ltb_spec (Z.of_nat (length nf0)) (FIELD_RES_R * FIELD_RES_C))
      as [Hroom|_]; [|discriminate].
    intros H; injection H as <-. unfold island_select_inv. cbn [fst snd].
    split; [lia|]. split.
    { intros s Hs. apply in_app_or in Hs. destruct Hs as [Hs|[<-|[]]].
      - unfold nf0 in Hs. destruct (Z.gtb_spec m 0) as [_|Hle];
          [destruct Hs|].
        destruct (Hold s Hs) as (f & Hf & Hr & Hd). exists f.
        split; [exact Hf|]. split; [exact Hr|lia].
      - exists curr. split; [apply in_or_app; right; left; reflexivity|].
        split; [unfold island_replacement; rewrite Hliid; reflexivity|].
        unfold manhattan_dist. cbv zeta. lia. }
    intros f s _ _. apply manhattan_nonneg.
  - (* the closest tiles of the island stand in for it *)
    destruct (field_closest_tiles_local fuel chunk isl curr local_iid
                (at_coord (islands isl) curr)
                (FIELD_RES_R * FIELD_RES_C - Z.of_nat (length nf)))
      as [tmp|] eqn:Hcl; [|discriminate].
    destruct (closest_tiles_local_spec chunk isl curr local_iid _ _ fuel tmp
                Hcb Hcl) as (_ & Hnear & Hcomp & _).
    assert (Hrep : forall s,
              island_replacement chunk isl local_iid curr s <->
              nearest_candidate
                (island_candidate chunk isl local_iid
                                  (at_coord (islands isl) curr)) curr s).
    { intros s. unfold island_replacement. rewrite Hliid. tauto. }
    assert (Hseen : forall (R : coord -> coord -> Prop),
              (forall f s, In f seen ->
                 island_replacement chunk isl local_iid f s -> R f s) ->
              (forall s, island_replacement chunk isl local_iid curr s ->
                 R curr s) ->
              forall f s, In f (seen ++ [curr]) ->
                island_replacement chunk isl local_iid f s -> R f s).
    { intros R H1 H2 f s Hf Hr. apply in_app_or in Hf.
      destruct Hf as [Hf|[<-|[]]]; [apply H1|apply H2]; assumption. }
    destruct tmp as [|t0 rest].
    + intros H; injection H as <-. unfold island_select_inv. cbn [fst snd].
      split; [exact Hm0|]. split; [exact Hold|].
      apply (Hseen (fun f s => m <= manhattan_dist s f)); [exact Hmin|].
      intros s Hs. apply Hrep in Hs. exfalso.
      apply (Hcomp ltac:(cbn [length]; lia) s Hs).
    + set (mh := manhattan_dist t0 curr).
      assert (Hmh : forall s,
                island_replacement chunk isl local_iid curr s ->
                manhattan_dist s curr = mh).
      { intros s Hs. apply Hrep in Hs. unfold mh.
        rewrite (manhattan_sym s), (manhattan_sym t0).
        apply (nearest_same_dist _ curr s t0 Hs).
        apply Hnear. left; reflexivity. }
      assert (Hnew : forall s, In s (t0 :: rest) ->
                exists f, In f (seen ++ [curr])
                          /\ island_replacement chunk isl local_iid f s
                          /\ manhattan_dist s f = mh).
      { intros s Hs. exists curr.
        split; [apply in_or_app; right; left; reflexivity|].
        pose proof (proj2 (Hrep s) (Hnear s Hs)) as Hr. auto. }
      pose proof (manhattan_nonneg t0 curr) as Hmh0. fold mh in Hmh0.
      destruct (Z.ltb_spec mh m) as [Hlt|Hge].
      * destruct (Z.gtb_spec mh mh) as [Hc|_]; [lia|].
        destruct (Z.leb_spec (Z.of_nat (length (@nil coord))
                              + Z.of_nat (length (t0 :: rest)))
                             (FIELD_RES_R * FIELD_RES_C)) as [Hroom|_];
          [|discriminate].
        intros H; injection H as <-. unfold island_select_inv. cbn [fst snd].
        split; [exact Hmh0|]. split; [cbn [app]; exact Hnew|].
        apply (Hseen (fun f s => mh <= manhattan_dist s f)).
        -- intros f s Hf Hr. specialize (Hmin f s Hf Hr). lia.
        -- intros s Hs. rewrite (Hmh s Hs). lia.
      * destruct (Z.gtb_spec mh m) as [Hgt|Hle].
        -- intros H; injection H as <-. unfold island_select_inv.
           cbn [fst snd].
           split; [exact Hm0|]. split; [exact Hold|].
           apply (Hseen (fun f s => m <= manhattan_dist s f));
             [exact Hmin|].
           intros s Hs. rewrite (Hmh s Hs). lia.
        -- assert (Heq : mh = m) by lia.
           destruct (Z.leb_spec (Z.of_nat (length nf)
                                 + Z.of_nat (length (t0 :: rest)))
                                (FIELD_RES_R * FIELD_RES_C)) as [Hroom|_];
             [|discriminate].
           intros H; injection H as <-. unfold island_select_inv.
           cbn [fst snd].
           split; [exact Hm0|]. split.
           { intros s Hs. apply in_app_or in Hs.
             destruct Hs as [Hs|Hs]; [apply Hold; exact Hs|].
             rewrite <- Heq. apply Hnew. exact Hs. }
           apply (Hseen (fun f s => m <= manhattan_dist s f));
             [exact Hmin|].
           intros s Hs. rewrite (Hmh s Hs). lia.
Qed.

Lemma island_nearest_fold_none init :
  fold_left (island_nearest_step fuel chunk isl local_iid) init None = None.
Proof. induction init as [|f init IH]; [reflexivity|exact IH]. Qed.

Lemma island_nearest_fold_inv init :
  forall seen st st',
    (forall f, In f init -> in_bounds f) ->
    island_select_inv chunk isl local_iid seen st ->
    fold_left (island_nearest_step fuel chunk isl local_iid) init (Some st)
    = Some st' ->
    island_select_inv chunk isl local_iid (seen ++ init) st'.
Proof.
  induction init as [|f init IH]; intros seen st st' Hb Hinv;
    cbn [fold_left].
  - intros H; injection H as <-. rewrite app_nil_r. exact Hinv.
  - destruct (island_nearest_step fuel chunk isl local_iid (Some st) f)
      as [st1|] eqn:Hstep.
    2:{ rewrite island_nearest_fold_none. discriminate. }
    intros Hfold.
    replace (seen ++ f :: init) with ((seen ++ [f]) ++ init)
      by (rewrite <- app_assoc; reflexivity).
    apply (IH (seen ++ [f]) st1 st');
      [intros f' Hf'; apply Hb; right; exact Hf'| |exact Hfold].
    apply (island_nearest_step_inv seen st f st1);
      [apply Hb; left; reflexivity|exact Hinv|exact Hstep].
Qed.

(** The tiles the loop over the initial frontier keeps. *)
Lemma island_nearest_select init m seeds :
  (forall f, In f init -> in_bounds f) ->
  fold_left (island_nearest_step fuel chunk isl local_iid) init
            (Some (INT_MAX, [])) = Some (m, seeds) ->
  forall s, In s seeds ->
    in_bounds s
    /\ exists f, In f init /\ island_replacement chunk isl local_iid f s
         /\ forall f' s', In f' init ->
              island_replacement chunk isl local_iid f' s' ->
              manhattan_dist s f <= manhattan_dist s' f'.
Proof.
  intros Hb Hfold.
  destruct (island_nearest_fold_inv init [] (INT_MAX, []) (m, seeds) Hb)
    as (_ & Hsound & Hmin); [|exact Hfold|].
  { unfold island_select_inv, INT_MAX. cbn [fst snd].
    split; [lia|]. split; [intros s []|intros f s []]. }
  cbn [fst snd app] in *. intros s Hs.
  destruct (Hsound s Hs) as (f & Hf & Hr & Hd).
  split.
  - unfold island_replacement in Hr.
    destruct (at_coord (local_islands isl) f =? local_iid);
      [subst s; apply Hb; exact Hf|destruct Hr as [Hsb _]; exact Hsb].
  - exists f. split; [exact Hf|]. split; [exact Hr|].
    intros f' s' Hf' Hr'. rewrite Hd. apply (Hmin f' s' Hf' Hr').
Qed.

End IslandToNearest.

Section IslandRun.

Context {P : nav_params} {E : nav_env} {Q : PQueue}.

(** The stages of a run of [N_FlowFieldUpdateIslandToNearest]. *)
Lemma island_to_nearest_run fuel local_iid priv isl layer faction_id
    inout_flow seeds intf flow :
  N_FlowFieldUpdateIslandToNearest_run fuel local_iid priv isl layer
    faction_id inout_flow = Some (seeds, intf, flow) ->
  let chunk :=
    chunks priv layer
           (IDX (coord_r (ff_chunk inout_flow)) (width priv)
                (coord_c (ff_chunk inout_flow))) in
  exists ignoreblock init m flow1,
    field_initial_frontier (ff_target inout_flow) chunk priv ignoreblock
      faction_id (FIELD_RES_R * FIELD_RES_C) = Some init
    /\ fold_left (island_nearest_step fuel chunk isl local_iid) init
                 (Some (INT_MAX, [])) = Some (m, seeds)
    /\ field_build_integration fuel
         (fst (seed_frontier seeds (pq_coord_init, all_infinite)))
         chunk faction_id
         (snd (seed_frontier seeds (pq_coord_init, all_infinite)))
       = Some intf
    /\ field_build_flow intf inout_flow = Some flow1
    /\ field_fixup (ff_target inout_flow) intf flow1 chunk = Some flow.
Proof.
  unfold N_FlowFieldUpdateIslandToNearest_run. cbv zeta.
  set (chunk := chunks priv layer _).
  destruct (field_initial_frontier (ff_target inout_flow) chunk priv false
              faction_id (FIELD_RES_R * FIELD_RES_C)) as [init0|] eqn:Hinit0;
    [|discriminate].
  assert (Hinit : forall init,
            (if Z.of_nat (length init0) =? 0
             then field_initial_frontier (ff_target inout_flow) chunk priv
                    true faction_id (FIELD_RES_R * FIELD_RES_C)
             else Some init0) = Some init ->
            exists ignoreblock,
              field_initial_frontier (ff_target inout_flow) chunk priv
                ignoreblock faction_id (FIELD_RES_R * FIELD_RES_C)
              = Some init).
  { intros init. destruct (Z.of_nat (length init0) =? 0).
    - intros H. exists true. exact H.
    - intros H. injection H as <-. exists false. exact Hinit0. }
  destruct (if Z.of_nat (length init0) =? 0
            then field_initial_frontier (ff_target inout_flow) chunk priv
                   true faction_id (FIELD_RES_R * FIELD_RES_C)
            else Some init0) as [init|]; [|discriminate].
  destruct (Hinit init eq_refl) as [ib Hib].
  destruct (fold_left (island_nearest_step fuel chunk isl local_iid) init
              (Some (INT_MAX, []))) as [[m nf]|] eqn:Hsel; [|discriminate].
  destruct (seed_frontier nf (pq_coord_init, all_infinite)) as [q0 I0]
    eqn:Hsf.
  destruct (field_build_integration fuel q0 chunk faction_id I0)
    as [I|] eqn:Hint; [|discriminate].
  destruct (field_build_flow I inout_flow) as [flow1|] eqn:Hflow;
    [|discriminate].
  destruct (field_fixup (ff_target inout_flow) I flow1 chunk)
    as [flow2|] eqn:Hfix; [|discriminate].
  intros H; injection H as <- <- <-.
  exists ib, init, m, flow1. rewrite Hsf. cbn [fst snd]. auto.
Qed.

(** With one frontier tile the loop over the frontier writes within
    [new_init_frontier], and what it keeps no longer depends on the
    fuel once the search for the closest tiles has enough of it. *)
Lemma island_nearest_single chunk isl local_iid tile :
  in_bounds tile ->
  exists st,
    (forall fuel, FIELD_RES_R * FIELD_RES_C < Z.of_nat fuel ->
       fold_left (island_nearest_step fuel chunk isl local_iid) [tile]
                 (Some (INT_MAX, [])) = Some st).
Proof.
  intros Htile. cbn [fold_left]. unfold island_nearest_step. cbv zeta.
  assert (Hpos : 0 < FIELD_RES_R * FIELD_RES_C)
    by (unfold in_bounds in Htile; nia).
  destruct (local_islands isl (coord_r tile) (coord_c tile) =? local_iid).
  { cbn [Z.gtb Z.compare INT_MAX length].
    destruct (Z.ltb_spec (Z.of_nat 0) (FIELD_RES_R * FIELD_RES_C)); [|lia].
    eexists. intros fuel _. reflexivity. }
  set (fuel1 := S (Z.to_nat (FIELD_RES_R * FIELD_RES_C))).
  cbn [length].
  destruct (closest_tiles_local_total chunk isl tile local_iid
              (islands isl (coord_r tile) (coord_c tile)) Htile
              (FIELD_RES_R * FIELD_RES_C - Z.of_nat 0) fuel1)
    as (tmp & Htmp & _ & _ & _ & Hlen); [unfold fuel1; lia|].
  assert (Hall : forall fuel, FIELD_RES_R * FIELD_RES_C < Z.of_nat fuel ->
            field_closest_tiles_local fuel chunk isl tile local_iid
              (islands isl (coord_r tile) (coord_c tile))
              (FIELD_RES_R * FIELD_RES_C - Z.of_nat 0) = Some tmp).
  { intros fuel Hfuel.
    apply (closest_tiles_local_fuel_mono chunk isl tile local_iid _ _ fuel1);
      [unfold fuel1; lia|exact Htmp]. }
  destruct tmp as [|t0 rest].
  { eexists. intros fuel Hfuel. rewrite (Hall fuel Hfuel). reflexivity. }
  assert (Hfit : Z.of_nat (length (t0 :: rest)) <= FIELD_RES_R * FIELD_RES_C)
    by (cbn [length] in *; lia).
  destruct (manhattan_dist t0 tile <? INT_MAX) eqn:H1;
    [|destruct (manhattan_dist t0 tile >? INT_MAX) eqn:H2];
    eexists; intros fuel Hfuel; rewrite (Hall fuel Hfuel);
    cbv beta iota; rewrite H1; cbv beta iota zeta;
    rewrite ?Z.gtb_ltb, ?Z.ltb_irrefl;
    try (rewrite Z.gtb_ltb in H2; rewrite H2);
    try match goal with
        | |- context [?a <=? ?b] =>
            replace (a <=? b) with true
              by (symmetry; apply Z.leb_le; cbn [length] in *; lia)
        end;
    reflexivity.
Qed.

End IslandRun.

(** X17. Whatever the target, as long as the tiles of its initial frontier
    lie in the field and the base costs are at least 1: when
    [N_FlowFieldUpdateIslandToNearest] returns, every seed it kept lies in
    the field and stands in for a tile of the initial frontier (the first
    non-empty one of the two it asks for), being that tile itself if it
    belongs to the local island and otherwise a candidate of its global
    island nearest to it; no tile that could stand in for a frontier tile
    is closer to it than a seed is to its own.  The integration field is 0
    exactly on the seeds, and elsewhere in the field it is the cost of the
    cheapest walk over passable tiles from a seed. *)
Theorem island_to_nearest_seeds {P : nav_params} {E : nav_env} {Q : PQueue}
    fuel local_iid priv isl layer faction_id inout_flow seeds intf flow :
  costs_positive
    (chunks priv layer
       (IDX (coord_r (ff_chunk inout_flow)) (width priv)
            (coord_c (ff_chunk inout_flow)))) ->
  (forall ignoreblock init f,
     field_initial_frontier (ff_target inout_flow)
       (chunks priv layer
          (IDX (coord_r (ff_chunk inout_flow)) (width priv)
               (coord_c (ff_chunk inout_flow))))
       priv ignoreblock faction_id (FIELD_RES_R * FIELD_RES_C) = Some init ->
     In f init -> in_bounds f) ->
  N_FlowFieldUpdateIslandToNearest_run fuel local_iid priv isl layer
    faction_id inout_flow = Some (seeds, intf, flow) ->
  exists ignoreblock init,
    field_initial_frontier (ff_target inout_flow)
      (chunks priv layer
         (IDX (coord_r (ff_chunk inout_flow)) (width priv)
              (coord_c (ff_chunk inout_flow))))
      priv ignoreblock faction_id (FIELD_RES_R * FIELD_RES_C) = Some init
    /\ (forall s, In s seeds ->
          in_bounds s
          /\ exists f,
               In f init
               /\ island_replacement
                    (chunks priv layer
                       (IDX (coord_r (ff_chunk inout_flow)) (width priv)
                            (coord_c (ff_chunk inout_flow))))
                    isl local_iid f s
               /\ forall f' s', In f' init ->
                    island_replacement
                      (chunks priv layer
                         (IDX (coord_r (ff_chunk inout_flow)) (width priv)
                              (coord_c (ff_chunk inout_flow))))
                      isl local_iid f' s' ->
                    manhattan_dist s f <= manhattan_dist s' f')
    /\ (forall t, at_coord intf t = Finite 0 <-> In t seeds)
    /\ forall t, in_bounds t ->
         (forall v, at_coord intf t = Finite v ->
            exists s p,
              In s seeds
              /\ walk (enters_passable
                         (chunks priv layer
                            (IDX (coord_r (ff_chunk inout_flow)) (width priv)
                                 (coord_c (ff_chunk inout_flow))))
                         faction_id) s p t
              /\ path_cost
                   (chunks priv layer
                      (IDX (coord_r (ff_chunk inout_flow)) (width priv)
                           (coord_c (ff_chunk inout_flow)))) p = v)
         /\ (forall s p,
               In s seeds ->
               walk (enters_passable
                       (chunks priv layer
                          (IDX (coord_r (ff_chunk inout_flow)) (width priv)
                               (coord_c (ff_chunk inout_flow))))
                       faction_id) s p t ->
               exists v,
                 at_coord intf t = Finite v
                 /\ v <= path_cost
                           (chunks priv layer
                              (IDX (coord_r (ff_chunk inout_flow))
                                   (width priv)
                                   (coord_c (ff_chunk inout_flow)))) p).
Proof.
  intros Hpos Hfrontier Hrun.
  destruct (island_to_nearest_run _ _ _ _ _ _ _ _ _ _ Hrun)
    as (ib & init & m & flow1 & Hinit & Hsel & Hint & _).
  set (chunk := chunks priv layer _) in *.
  pose proof (island_nearest_select chunk isl local_iid fuel init m seeds
                (fun f => Hfrontier ib init f Hinit) Hsel) as Hseeds.
  assert (Hsb : forall s, In s seeds -> in_bounds s)
    by (intros s Hs; destruct (Hseeds s Hs) as [Hb _]; exact Hb).
  destruct (build_integration_walks chunk faction_id seeds Hsb fuel intf
              Hpos Hint) as (_ & Hz & Hz0 & _ & Hwalks).
  exists ib, init. split; [exact Hinit|]. split; [exact Hseeds|].
  split; [|exact Hwalks].
  intros t. split; [apply Hz|apply Hz0].
Qed.

(** The open field of two local islands, target tile (2,6) in the eastern
    one, updated for the western one. *)
Lemma island_to_nearest_seeds_witness :
  match west_island_run with
  | Some (seeds, intf, flow) =>
      exists ignoreblock init,
        field_initial_frontier (P := scenario_params) (E := scenario_env)
          (Target_tile (Coord 2 6)) open_chunk (single_chunk_map open_chunk)
          ignoreblock (-1) 64 = Some init
        /\ (forall s, In s seeds ->
              in_bounds (P := scenario_params) s
              /\ exists f,
                   In f init
                   /\ island_replacement (P := scenario_params) open_chunk
                        west_east_islands 1 f s
                   /\ forall f' s', In f' init ->
                        island_replacement (P := scenario_params) open_chunk
                          west_east_islands 1 f' s' ->
                        manhattan_dist s f <= manhattan_dist s' f')
        /\ (forall t, at_coord intf t = Finite 0 <-> In t seeds)
        /\ forall t, in_bounds (P := scenario_params) t ->
             (forall v, at_coord intf t = Finite v ->
                exists s p,
                  In s seeds
                  /\ walk (P := scenario_params)
                          (enters_passable (P := scenario_params)
                             (E := scenario_env) open_chunk (-1)) s p t
                  /\ path_cost open_chunk p = v)
             /\ (forall s p,
                   In s seeds ->
                   walk (P := scenario_params)
                        (enters_passable (P := scenario_params)
                             (E := scenario_env) open_chunk (-1)) s p t ->
                   exists v,
                     at_coord intf t = Finite v
                     /\ v <= path_cost open_chunk p)
  | None => False
  end.
Proof.
  destruct west_island_run as [[[seeds intf] flow]|] eqn:Hrun.
  - apply (island_to_nearest_seeds (P := scenario_params)
             (E := scenario_env) (Q := list_pqueue) 200 1
             (single_chunk_map open_chunk) west_east_islands 0 (-1)
             (FlowField (Coord 0 0) (Target_tile (Coord 2 6))
                        (fun _ _ => FD_NONE)) seeds intf flow);
      [| |exact Hrun].
    + intros t _. reflexivity.
    + intros ib init f Hinit Hf. cbn in Hinit.
      unfold field_tile_initial_frontier in Hinit. cbn in Hinit.
      destruct ib; cbn in Hinit; injection Hinit as <-;
        destruct Hf as [<-|[]]; unfold in_bounds; cbn; lia.
  - vm_compute in Hrun. discriminate.
Defined.

(** X18. [N_FlowFieldUpdateIslandToNearest] with a TILE target inside the
    field, on a chunk whose base costs are at least 1 and a field at least
    as tall as wide, returns once it has enough fuel: the search for the
    closest tiles and the integration loop end, the seeds fit
    [new_init_frontier], and no assertion fails. *)
Theorem island_to_nearest_returns {P : nav_params} {E : nav_env} {Q : PQueue}
    local_iid priv isl layer faction_id chunk_coord tile dirs :
  FIELD_RES_C <= FIELD_RES_R ->
  costs_positive
    (chunks priv layer (IDX (coord_r chunk_coord) (width priv)
                            (coord_c chunk_coord))) ->
  in_bounds tile ->
  exists fuel0, forall fuel, (fuel0 <= fuel)%nat ->
    exists seeds intf flow,
      N_FlowFieldUpdateIslandToNearest_run fuel local_iid priv isl layer
        faction_id (FlowField chunk_coord (Target_tile tile) dirs)
      = Some (seeds, intf, flow).
Proof.
  intros Hle Hpos Htile. unfold N_FlowFieldUpdateIslandToNearest_run.
  cbn [ff_chunk ff_target]. cbv zeta.
  set (chunk := chunks priv layer _) in *.
  assert (Hn : 0 < FIELD_RES_R * FIELD_RES_C)
    by (unfold in_bounds in Htile; nia).
  cbn [field_initial_frontier]. unfold field_tile_initial_frontier.
  destruct (Z.eqb_spec (FIELD_RES_R * FIELD_RES_C) 0) as [H0|_]; [lia|].
  assert (Hinit : (if Z.of_nat
                        (length (if tile_passable_for chunk faction_id tile
                                 then [tile] else [])) =? 0
                   then Some [tile]
                   else Some (if tile_passable_for chunk faction_id tile
                              then [tile] else []))
                  = Some [tile]).
  { destruct (tile_passable_for chunk faction_id tile); reflexivity. }
  cbn [negb]. rewrite Hinit.
  destruct (island_nearest_single chunk isl local_iid tile Htile)
    as [[m seeds] Hsel].
  assert (Hseeds : forall t, In t seeds -> in_bounds t).
  { intros t Ht.
    apply (island_nearest_select chunk isl local_iid
             (S (Z.to_nat (FIELD_RES_R * FIELD_RES_C))) [tile] m seeds);
      [intros f [<-|[]]; exact Htile|apply Hsel; lia|exact Ht]. }
  pose proof (seed_frontier_inv (fun _ _ => True) seeds Hseeds) as Hinv.
  destruct (seed_frontier_spec seeds (pq_coord_init, all_infinite))
    as [Hz _].
  { intros t. left. reflexivity. }
  { intros e He. simpl in He. rewrite pq_init_entries in He. destruct He. }
  { exact Hseeds. }
  destruct (seed_frontier seeds (pq_coord_init, all_infinite)) as [q0 I0]
    eqn:Hsf.
  simpl in Hz.
  destruct (field_build_integration_terminates chunk faction_id Hpos _ _ _
              q0 I0 eq_refl eq_refl eq_refl (zero_or_inf_nonneg _ Hz))
    as [fuel0 Hfuel0].
  exists (Nat.max fuel0 (S (Z.to_nat (FIELD_RES_R * FIELD_RES_C)))).
  intros fuel Hfuel.
  rewrite (Hsel fuel) by lia. rewrite Hsf.
  destruct (Hfuel0 fuel ltac:(lia)) as [intf Hintf]. rewrite Hintf.
  assert (Hsup : supported (fun _ _ => True) intf).
  { eapply (build_integration_inv (fun _ _ => True)); eauto. }
  unfold field_build_flow.
  destruct (build_flow_loop_total intf (grid FIELD_RES_R FIELD_RES_C)
              dirs Hle Hsup) as [dirs' Hdirs].
  { intros t Ht. apply in_grid. exact Ht. }
  cbn [dir_idx]. rewrite Hdirs. cbn [field_fixup]. eauto.
Qed.

(** The open field of two local islands, target tile (2,6), local
    island 1. *)
Lemma island_to_nearest_returns_witness :
  exists fuel0, forall fuel, (fuel0 <= fuel)%nat ->
    exists seeds intf flow,
      N_FlowFieldUpdateIslandToNearest_run (P := scenario_params)
        (E := scenario_env) (Q := list_pqueue) fuel 1
        (single_chunk_map open_chunk) west_east_islands 0 (-1)
        (FlowField (Coord 0 0) (Target_tile (Coord 2 6))
                   (fun _ _ => FD_NONE))
      = Some (seeds, intf, flow).
Proof.
  apply (island_to_nearest_returns (P := scenario_params)
           (E := scenario_env) (Q := list_pqueue)).
  - simpl. lia.
  - intros t _. reflexivity.
  - unfold in_bounds. simpl. lia.
Defined.
